(** * The action execution engine of cgrates (engine/action.go)

    A shallow embedding of the action handlers and of the [Actions]
    collection, and the properties the specification states about them.

    Conventions of the embedding:
    - the [Weight] of an action is a [float64]: a binary64 float of the
      kernel, with its comparison and its NaN;
    - the other [float64] quantities (the values of balances and of
      filters) are whole numbers [Z], which the handlers compare with
      zero and negate, both exact on [float64]; where a handler adds two
      of them the sum is the rounded sum of [float64], [float_add];
    - a Go pointer is a location [loc] into a typed store, [None] is the
      nil pointer;
    - a handler returns a [result]: it either returns normally (with an
      optional [error], as Go's [error] result) or panics. *)

From Stdlib Require Import ZArith Ascii String List Lia Floats.
From stdpp Require Import base option list gmap strings fin_maps pretty.

Local Open Scope Z_scope.

(** ** Errors and results *)

(** The error values the handlers of action.go return. *)
Inductive error : Type :=
| ErrNilAccount            (* errors.New("nil account") *)
| ErrNilAccountFor         (* fmt.Errorf("nil account for %s action", ...) *)
| ErrUnconfiguredMail      (* errors.New("Unconfigured parameters for mail action") *)
| ErrNotFound              (* utils.ErrNotFound *)
| ErrAccountNotFound       (* utils.ErrAccountNotFound *)
| ErrInvalidKey            (* utils.ErrInvalidKey *)
| ErrParserError           (* utils.ErrParserError *)
| ErrExternal (msg : string). (* an error handed back by a collaborator *)

#[global] Instance error_eq_dec : EqDecision error.
Proof. solve_decision. Defined.

(** What a call does: it returns a value or it panics (nil dereference,
    index out of range). *)
Inductive result (A : Type) : Type :=
| Return (a : A)
| Panic.
Arguments Return {A} a.
Arguments Panic {A}.

Definition bind {A B : Type} (r : result A) (k : A -> result B) : result B :=
  match r with
  | Return a => k a
  | Panic => Panic
  end.

Notation "'do' x <~ r ; k" := (bind r (fun x => k))
  (at level 10, x pattern, r at level 100, k at level 200).

(** Go's [error] result: [None] is [nil]. *)
Abbreviation goerr := (option error) (only parsing).

(** ** float64

    A [float64] is a binary64 float of the kernel, [PrimFloat.float],
    with its comparison: [x <? y] is [false] as soon as [x] or [y] is
    NaN.  The floats that are numbers are ordered as their keys are. *)

Module Float64.

#[global] Instance float_eq_dec : EqDecision float.
Proof.
  intros x y. destruct (PrimFloat.Leibniz.eqb x y) eqn:E.
  - left. apply Leibniz.eqb_spec. exact E.
  - right. intros H. apply Leibniz.eqb_spec in H. congruence.
Defined.

(** An integer that grows with the float: zero for both zeros, the
    exponent and the mantissa of a finite float, and a bound of all of
    them for the infinities. *)
Definition SF_key (x : spec_float) : Z :=
  match x with
  | S754_zero _ => 0
  | S754_infinity false => 2 ^ 64
  | S754_infinity true => - 2 ^ 64
  | S754_nan => 0
  | S754_finite false m e => (e + 1075) * 2 ^ 53 + Z.pos m
  | S754_finite true m e => - ((e + 1075) * 2 ^ 53 + Z.pos m)
  end.

Definition key (x : float) : Z := SF_key (Prim2SF x).

Lemma digits2_pos_bound (m : positive) : Z.pos m < 2 ^ Z.pos (digits2_pos m).
Proof.
  induction m as [m IH|m IH|]; cbn [digits2_pos].
  - rewrite Pos2Z.inj_succ, Z.pow_succ_r by lia. lia.
  - rewrite Pos2Z.inj_succ, Z.pow_succ_r by lia. lia.
  - reflexivity.
Qed.

Lemma bounded_finite (m : positive) (e : Z) :
  bounded prec emax m e = true -> Z.pos m < 2 ^ 53 /\ -1074 <= e <= 971.
Proof.
  unfold bounded, canonical_mantissa, fexp, emin, prec, emax.
  intros H. apply andb_true_iff in H as [H1 H2].
  apply Z.eqb_eq in H1. apply Z.leb_le in H2.
  pose proof (digits2_pos_bound m) as Hm.
  assert (Hd : Z.pos (digits2_pos m) <= 53) by lia.
  pose proof (Z.pow_le_mono_r 2 _ _ ltac:(lia) Hd). lia.
Qed.

Lemma SF_key_finite (s : bool) (m : positive) (e : Z) :
  bounded prec emax m e = true ->
  0 < (e + 1075) * 2 ^ 53 + Z.pos m < 2 ^ 64.
Proof.
  intros H. apply bounded_finite in H as [Hm He].
  change (2 ^ 53) with 9007199254740992 in *.
  change (2 ^ 64) with 18446744073709551616. lia.
Qed.

Lemma SFcompare_key (x y : spec_float) :
  SpecFloat.valid_binary prec emax x = true -> SpecFloat.valid_binary prec emax y = true ->
  x <> S754_nan -> y <> S754_nan ->
  SFcompare x y = Some (SF_key x ?= SF_key y).
Proof.
  intros Hx Hy Hnx Hny.
  destruct x as [sx|sx| |sx mx ex], y as [sy|sy| |sy my ey]; try congruence;
    cbn [SpecFloat.valid_binary] in Hx, Hy;
    try (pose proof (SF_key_finite sx mx ex Hx) as Kx);
    try (pose proof (SF_key_finite sy my ey Hy) as Ky);
    try (apply bounded_finite in Hx as [Hmx Hex]);
    try (apply bounded_finite in Hy as [Hmy Hey]);
    cbn [SFcompare SF_key].
  all: try change (2 ^ 64) with 18446744073709551616 in *.
  all: try change (2 ^ 53) with 9007199254740992 in *.
  all: repeat match goal with s : bool |- _ => destruct s end.
  all: try (f_equal; symmetry;
            first [apply Z.compare_eq_iff; lia
                  |apply Z.compare_lt_iff; lia
                  |apply Z.compare_gt_iff; lia]).
  - f_equal. destruct (Z.compare_spec ex ey) as [->|Hlt|Hgt].
    + rewrite Pos.compare_cont_spec. cbn [Pos.switch_Eq].
      destruct (Pos.compare_spec mx my) as [->|H|H]; cbn [CompOpp]; symmetry.
      * apply Z.compare_eq_iff; lia.
      * apply Z.compare_gt_iff; lia.
      * apply Z.compare_lt_iff; lia.
    + symmetry. apply Z.compare_gt_iff. lia.
    + symmetry. apply Z.compare_lt_iff. lia.
  - f_equal. destruct (Z.compare_spec ex ey) as [->|Hlt|Hgt].
    + rewrite Pos.compare_cont_spec. cbn [Pos.switch_Eq].
      destruct (Pos.compare_spec mx my) as [->|H|H]; symmetry.
      * apply Z.compare_eq_iff; lia.
      * apply Z.compare_lt_iff; lia.
      * apply Z.compare_gt_iff; lia.
    + symmetry. apply Z.compare_lt_iff. lia.
    + symmetry. apply Z.compare_gt_iff. lia.
Qed.

Lemma is_nan_Prim2SF (x : float) : is_nan x = false -> Prim2SF x <> S754_nan.
Proof.
  unfold is_nan. rewrite FloatAxioms.eqb_spec. intros H Hn. rewrite Hn in H. discriminate H.
Qed.

(** The numbers among the floats compare as their keys do. *)
Lemma ltb_key (x y : float) :
  is_nan x = false -> is_nan y = false -> (x <? y)%float = (key x <? key y).
Proof.
  intros Hx Hy. rewrite FloatAxioms.ltb_spec. unfold SFltb, key.
  rewrite (SFcompare_key _ _ (Prim2SF_valid x) (Prim2SF_valid y)
             (is_nan_Prim2SF x Hx) (is_nan_Prim2SF y Hy)).
  unfold Z.ltb. destruct (SF_key (Prim2SF x) ?= SF_key (Prim2SF y)); reflexivity.
Qed.

Lemma leb_key (x y : float) :
  is_nan x = false -> is_nan y = false -> (x <=? y)%float = (key x <=? key y).
Proof.
  intros Hx Hy. rewrite FloatAxioms.leb_spec. unfold SFleb, key.
  rewrite (SFcompare_key _ _ (Prim2SF_valid x) (Prim2SF_valid y)
             (is_nan_Prim2SF x Hx) (is_nan_Prim2SF y Hy)).
  unfold Z.leb. destruct (SF_key (Prim2SF x) ?= SF_key (Prim2SF y)); reflexivity.
Qed.

(** With NaN every comparison is false. *)
Lemma ltb_nan_l (x y : float) : is_nan x = true -> (x <? y)%float = false.
Proof.
  unfold is_nan. rewrite FloatAxioms.eqb_spec, FloatAxioms.ltb_spec. intros H.
  destruct (Prim2SF x) as [s|s| |s m e]; try reflexivity; exfalso.
  - discriminate H.
  - destruct s; discriminate H.
  - unfold SFeqb in H. cbn [SFcompare] in H.
    rewrite Z.compare_refl, Pos.compare_cont_refl in H. destruct s; discriminate H.
Qed.

Lemma ltb_irrefl (x : float) : (x <? x)%float = false.
Proof.
  destruct (is_nan x) eqn:H; [apply ltb_nan_l; exact H|].
  rewrite (ltb_key x x H H). apply Z.ltb_irrefl.
Qed.

End Float64.

(** ** strings.Split (Go standard library) *)

Module Strings.

Local Open Scope nat_scope.

(** [strings.Index(s, sep)]: the first position of [sep] in [s]. *)
Definition Index (s sep : string) : option nat := String.index 0 sep s.

(** [s[n:]]. *)
Definition drop_str (n : nat) (s : string) : string :=
  String.substring n (String.length s - n) s.

(** [strings.Count(s, sep)] for a non-empty [sep]: the number of
    non-overlapping occurrences; every round drops at least one byte. *)
Fixpoint count_loop (fuel : nat) (s sep : string) : nat :=
  match fuel with
  | O => O
  | S fuel' =>
      match Index s sep with
      | None => O
      | Some i => S (count_loop fuel' (drop_str (i + String.length sep) s) sep)
      end
  end.

Definition Count (s sep : string) : nat :=
  count_loop (S (String.length s)) s sep.

(** [explode]: the split on the empty separator, one string per
    character (bytes here; Go splits UTF-8 sequences). *)
Fixpoint explode (s : string) : list string :=
  match s with
  | EmptyString => []
  | String c s' => String c EmptyString :: explode s'
  end.

(** The loop of [genSplit]: [k] is [n-1], the number of separators still
    to cut at; the last element is the remainder. *)
Fixpoint genSplit_loop (k : nat) (s sep : string) : list string :=
  match k with
  | O => [s]
  | S k' =>
      match Index s sep with
      | None => [s]
      | Some m =>
          String.substring 0 m s
            :: genSplit_loop k' (drop_str (m + String.length sep) s) sep
      end
  end.

(** [strings.Split(s, sep)] = [genSplit(s, sep, 0, -1)]. *)
Definition Split (s sep : string) : list string :=
  if decide (sep = EmptyString) then explode s
  else genSplit_loop (Count s sep) s sep.

Lemma genSplit_loop_nonempty k s sep : genSplit_loop k s sep <> [].
Proof. destruct k as [|k]; simpl; [easy|]. destruct (Index s sep); easy. Qed.

Lemma Split_nonempty s sep : sep <> EmptyString -> Split s sep <> [].
Proof.
  intros Hsep. unfold Split. destruct (decide (sep = EmptyString)); [easy|].
  apply genSplit_loop_nonempty.
Qed.

Example Split_csv :
  Split "a|b,x,,y" "," = ["a|b"; "x"; EmptyString; "y"]%string.
Proof. reflexivity. Qed.

Example Split_empty_input : Split EmptyString "," = [EmptyString].
Proof. reflexivity. Qed.

Example Split_empty_sep : Split EmptyString EmptyString = [].
Proof. reflexivity. Qed.

End Strings.

(** ** sort.Sort up to Go 1.18 (Go standard library)

    The sort of package sort as of the Go releases the repository was
    written for (1.7 to 1.18): quicksort with a median-of-three pivot, a
    switch to heapsort when the recursion gets too deep, and for slices
    of at most 12 elements one pass of shell sort with gap 6 followed by
    insertion sort.  [data] is the slice behind the [sort.Interface]
    value; [Less] and [Swap] are its methods, [less] compares two
    elements.  Indices stay within the slice; out of it [Less] is
    [false] and [Swap] does nothing. *)

Module GoSort.

Local Close Scope Z_scope.

Section Generic.

Context {A : Type}.
Variable less : A -> A -> bool.

Definition Less (data : list A) (i j : nat) : bool :=
  match data !! i, data !! j with
  | Some x, Some y => less x y
  | _, _ => false
  end.

Definition Swap (data : list A) (i j : nat) : list A :=
  match data !! i, data !! j with
  | Some x, Some y => <[j := x]> (<[i := y]> data)
  | _, _ => data
  end.

(** The inner loop of [insertionSort]:
    [for j := i; j > a && data.Less(j, j-1); j--]. *)
Fixpoint insertion_inner (data : list A) (a j : nat) : list A :=
  match j with
  | O => data
  | S j' =>
      if (a <? j)%nat && Less data j j'
      then insertion_inner (Swap data j j') a j'
      else data
  end.

(** [for i := a + 1; i < b; i++]. *)
Definition insertionSort (data : list A) (a b : nat) : list A :=
  fold_left (fun d i => insertion_inner d a i) (seq (a + 1) (b - (a + 1))) data.

(** [siftDown] implements the heap property on [data[lo, hi)]; [first]
    is the offset of the root of the heap.  [root] grows in every round
    and stays below [hi]: [fuel] bounds the rounds. *)
Fixpoint siftDown_loop (fuel : nat) (data : list A) (root hi first : nat) : list A :=
  match fuel with
  | O => data
  | S fuel' =>
      let child := (2 * root + 1)%nat in
      if (hi <=? child)%nat then data
      else
        let child :=
          if (child + 1 <? hi)%nat && Less data (first + child) (first + child + 1)
          then (child + 1)%nat else child in
        if negb (Less data (first + root) (first + child)) then data
        else siftDown_loop fuel' (Swap data (first + root) (first + child)) child hi first
  end.

Definition siftDown (data : list A) (lo hi first : nat) : list A :=
  siftDown_loop hi data lo hi first.

(** The indices [n-1, ..., 1, 0] of a loop [for i := n-1; i >= 0; i--]. *)
Definition countdown (n : nat) : list nat := rev (seq 0 n).

Definition heapSort (data : list A) (a b : nat) : list A :=
  let first := a in
  let lo := 0%nat in
  let hi := (b - a)%nat in
  (* Build heap with greatest element at top. *)
  let data1 :=
    fold_left (fun d i => siftDown d i hi first) (countdown ((hi - 1) / 2 + 1)) data in
  (* Pop elements, largest first, into end of data. *)
  fold_left (fun d i => siftDown (Swap d first (first + i)) lo i first)
    (countdown hi) data1.

(** [medianOfThree] moves the median of the three values [data[m0]],
    [data[m1]], [data[m2]] into [data[m1]]. *)
Definition medianOfThree (data : list A) (m1 m0 m2 : nat) : list A :=
  let data1 := if Less data m1 m0 then Swap data m1 m0 else data in
  if Less data1 m2 m1 then
    let data2 := Swap data1 m2 m1 in
    if Less data2 m1 m0 then Swap data2 m1 m0 else data2
  else data1.

(** [for ; a < c && data.Less(a, pivot); a++]. *)
Fixpoint scan_less (fuel : nat) (data : list A) (pivot a c : nat) : nat :=
  match fuel with
  | O => a
  | S fuel' =>
      if (a <? c)%nat && Less data a pivot then scan_less fuel' data pivot (S a) c else a
  end.

(** [for ; b < c && !data.Less(pivot, b); b++]. *)
Fixpoint scan_not_greater (fuel : nat) (data : list A) (pivot b c : nat) : nat :=
  match fuel with
  | O => b
  | S fuel' =>
      if (b <? c)%nat && negb (Less data pivot b)
      then scan_not_greater fuel' data pivot (S b) c else b
  end.

(** [for ; b < c && data.Less(pivot, c-1); c--]. *)
Fixpoint scan_greater_down (fuel : nat) (data : list A) (pivot b c : nat) : nat :=
  match fuel with
  | O => c
  | S fuel' =>
      if (b <? c)%nat && Less data pivot (c - 1)
      then scan_greater_down fuel' data pivot b (c - 1) else c
  end.

(** The partition loop of [doPivot]. *)
Fixpoint partition_loop (fuel : nat) (data : list A) (pivot b c : nat)
  : list A * nat * nat :=
  match fuel with
  | O => (data, b, c)
  | S fuel' =>
      let b := scan_not_greater (c - b) data pivot b c in
      let c := scan_greater_down (c - b) data pivot b c in
      if (c <=? b)%nat then (data, b, c)
      else partition_loop fuel' (Swap data b (c - 1)) pivot (S b) (c - 1)
  end.

(** [for ; a < b && !data.Less(b-1, pivot); b--]. *)
Fixpoint scan_equal_down (fuel : nat) (data : list A) (pivot a b : nat) : nat :=
  match fuel with
  | O => b
  | S fuel' =>
      if (a <? b)%nat && negb (Less data (b - 1) pivot)
      then scan_equal_down fuel' data pivot a (b - 1) else b
  end.

(** The loop that protects against a lot of duplicates. *)
Fixpoint protect_loop (fuel : nat) (data : list A) (pivot a b : nat)
  : list A * nat * nat :=
  match fuel with
  | O => (data, a, b)
  | S fuel' =>
      let b := scan_equal_down (b - a) data pivot a b in
      let a := scan_less (b - a) data pivot a b in
      if (b <=? a)%nat then (data, a, b)
      else protect_loop fuel' (Swap data a (b - 1)) pivot (S a) (b - 1)
  end.

(** The first part of [doPivot]: the pivot, the median of three (of
    three medians of three for more than 40 elements), is moved to
    [data[lo]]. *)
Definition pivot_setup (data : list A) (lo hi : nat) : list A :=
  let m := ((lo + hi) / 2)%nat in
  let data :=
    if (40 <? hi - lo)%nat then
      (* Tukey's ninther, median of three medians of three. *)
      let s := ((hi - lo) / 8)%nat in
      let d1 := medianOfThree data lo (lo + s) (lo + 2 * s) in
      let d2 := medianOfThree d1 m (m - s) (m + s) in
      medianOfThree d2 (hi - 1) (hi - 1 - s) (hi - 1 - 2 * s)
    else data in
  medianOfThree data lo m (hi - 1).

(** The part of [doPivot] that tests some points for equality to the
    pivot; the last component is [dups > 1]. *)
Definition probe_dups (data : list A) (lo hi b c : nat) : list A * nat * nat * bool :=
  let m := ((lo + hi) / 2)%nat in
  let pivot := lo in
  let '(data, c, dups) :=
    if negb (Less data pivot (hi - 1))
    then (Swap data c (hi - 1), S c, 1%nat) else (data, c, 0%nat) in
  let '(b, dups) :=
    if negb (Less data (b - 1) pivot) then ((b - 1)%nat, S dups) else (b, dups) in
  let '(data, b, dups) :=
    if negb (Less data m pivot)
    then (Swap data m (b - 1), (b - 1)%nat, S dups) else (data, b, dups) in
  (data, b, c, (1 <? dups)%nat).

Definition doPivot (data : list A) (lo hi : nat) : list A * nat * nat :=
  let data := pivot_setup data lo hi in
  let pivot := lo in
  let a := (lo + 1)%nat in
  let c := (hi - 1)%nat in
  let a := scan_less (c - a) data pivot a c in
  let b := a in
  let '(data, b, c) := partition_loop (c - b) data pivot b c in
  (* If hi-c<3 then there are duplicates (by property of median of nine).
     Let's be a bit more conservative, and set border to 5. *)
  let protect := (hi - c <? 5)%nat in
  let '(data, b, c, protect) :=
    if negb protect && (hi - c <? (hi - lo) / 4)%nat
    then probe_dups data lo hi b c
    else (data, b, c, protect) in
  let '(data, b) :=
    if protect then
      (* Protect against a lot of duplicates *)
      let '(data, _, b) := protect_loop (b - a) data pivot a b in (data, b)
    else (data, b) in
  (* Swap pivot into middle *)
  (Swap data pivot (b - 1), (b - 1)%nat, c).

(** The shell sort pass with gap 6 and the insertion sort of a slice of
    at most 12 elements. *)
Definition shell_pass (data : list A) (a b : nat) : list A :=
  fold_left (fun d i => if Less d i (i - 6) then Swap d i (i - 6) else d)
    (seq (a + 6) (b - (a + 6))) data.

Definition small_sort (data : list A) (a b : nat) : list A :=
  if (1 <? b - a)%nat then insertionSort (shell_pass data a b) a b else data.

(** [quickSort]: every round of its loop takes one from [maxDepth]. *)
Fixpoint quickSort (maxDepth : nat) (data : list A) (a b : nat) : list A :=
  if (12 <? b - a)%nat then
    match maxDepth with
    | O => heapSort data a b
    | S maxDepth' =>
        let '(data1, mlo, mhi) := doPivot data a b in
        (* Avoiding recursion on the larger subproblem guarantees
           a stack depth of at most lg(b-a). *)
        if (mlo - a <? b - mhi)%nat then
          quickSort maxDepth' (quickSort maxDepth' data1 a mlo) mhi b
        else
          quickSort maxDepth' (quickSort maxDepth' data1 mhi b) a mlo
    end
  else small_sort data a b.

(** [maxDepth] returns a threshold at which quicksort should switch to
    heapsort: twice the number of bits of [n]. *)
Fixpoint bits (fuel n : nat) : nat :=
  match fuel with
  | O => O
  | S fuel' => if (0 <? n)%nat then S (bits fuel' (n / 2)) else O
  end.

Definition maxDepth (n : nat) : nat := (bits n n * 2)%nat.

Definition Sort (data : list A) : list A :=
  let n := length data in
  quickSort (maxDepth n) data 0 n.


(** *** Correctness, for an order given by a key *)

Variable key : A -> Z.
Hypothesis less_key : forall x y, less x y = (key x <? key y)%Z.

(** The key at index [i]. *)
Definition kth (data : list A) (i : nat) : Z :=
  match data !! i with
  | Some x => key x
  | None => 0%Z
  end.

Lemma Less_kth (data : list A) (i j : nat) :
  (i < length data)%nat -> (j < length data)%nat ->
  Less data i j = (kth data i <? kth data j)%Z.
Proof.
  intros Hi Hj. unfold Less, kth.
  destruct (lookup_lt_is_Some_2 data i Hi) as [x ->].
  destruct (lookup_lt_is_Some_2 data j Hj) as [y ->]. apply less_key.
Qed.

Lemma Swap_length (data : list A) (i j : nat) : length (Swap data i j) = length data.
Proof.
  unfold Swap. destruct (data !! i), (data !! j); try reflexivity.
  rewrite !length_insert. reflexivity.
Qed.

Lemma Swap_lookup (data : list A) (i j x : nat) :
  (i < length data)%nat -> (j < length data)%nat ->
  Swap data i j !! x
  = if decide (x = j) then data !! i else if decide (x = i) then data !! j else data !! x.
Proof.
  intros Hi Hj. unfold Swap.
  destruct (lookup_lt_is_Some_2 data i Hi) as [a Ha].
  destruct (lookup_lt_is_Some_2 data j Hj) as [b Hb]. rewrite Ha, Hb.
  destruct (decide (x = j)) as [->|Hxj].
  - rewrite list_lookup_insert_eq by (rewrite length_insert; exact Hj). reflexivity.
  - rewrite list_lookup_insert_ne by congruence.
    destruct (decide (x = i)) as [->|Hxi].
    + rewrite list_lookup_insert_eq by exact Hi. reflexivity.
    + rewrite list_lookup_insert_ne by congruence. reflexivity.
Qed.

Lemma Swap_kth (data : list A) (i j x : nat) :
  (i < length data)%nat -> (j < length data)%nat ->
  kth (Swap data i j) x
  = if decide (x = j) then kth data i else if decide (x = i) then kth data j else kth data x.
Proof.
  intros Hi Hj. unfold kth. rewrite (Swap_lookup data i j x Hi Hj).
  destruct (decide (x = j)); [reflexivity|]. destruct (decide (x = i)); reflexivity.
Qed.

(** [data'] is [data] with the elements of the segment [lo, hi)
    rearranged. *)
Definition seg_perm (lo hi : nat) (data data' : list A) : Prop :=
  exists pre mid mid' post,
    data = pre ++ mid ++ post /\ data' = pre ++ mid' ++ post
    /\ length pre = lo /\ length mid = (hi - lo)%nat /\ mid ≡ₚ mid'.

Lemma seg_perm_refl (lo hi : nat) (data : list A) :
  (lo <= hi)%nat -> (hi <= length data)%nat -> seg_perm lo hi data data.
Proof.
  intros H1 H2. exists (take lo data), (take (hi - lo) (drop lo data)),
    (take (hi - lo) (drop lo data)), (drop (hi - lo) (drop lo data)).
  rewrite !take_drop. split; [reflexivity|]. split; [reflexivity|].
  split; [rewrite length_take; lia|]. split; [|reflexivity].
  rewrite length_take, length_drop. lia.
Qed.

Lemma seg_perm_length (lo hi : nat) (data data' : list A) :
  seg_perm lo hi data data' -> length data' = length data.
Proof.
  intros (pre & mid & mid' & post & -> & -> & _ & _ & Hp).
  rewrite !length_app. rewrite (Permutation_length Hp). reflexivity.
Qed.

Lemma seg_perm_bounds (lo hi : nat) (data data' : list A) :
  seg_perm lo hi data data' -> (lo <= hi)%nat -> (hi <= length data)%nat.
Proof.
  intros (pre & mid & mid' & post & -> & -> & H1 & H2 & Hp) Hle.
  rewrite !length_app. lia.
Qed.

Lemma seg_perm_Permutation (lo hi : nat) (data data' : list A) :
  seg_perm lo hi data data' -> data ≡ₚ data'.
Proof.
  intros (pre & mid & mid' & post & -> & -> & _ & _ & Hp). rewrite Hp. reflexivity.
Qed.

Lemma seg_perm_trans (lo hi : nat) (d1 d2 d3 : list A) :
  seg_perm lo hi d1 d2 -> seg_perm lo hi d2 d3 -> seg_perm lo hi d1 d3.
Proof.
  intros (pre & mid & mid' & post & -> & -> & H1 & H2 & Hp)
         (pre2 & mid2 & mid2' & post2 & Heq & -> & H1' & H2' & Hp').
  assert (Hm : length mid' = length mid2)
    by (rewrite <- (Permutation_length Hp); lia).
  apply app_inj_1 in Heq as [-> Heq]; [|lia].
  apply app_inj_1 in Heq as [-> ->]; [|exact Hm].
  exists pre2, mid, mid2', post2. repeat split; try assumption.
  etransitivity; eassumption.
Qed.

(** Outside the segment nothing moves. *)
Lemma seg_perm_lookup_out (lo hi : nat) (data data' : list A) (i : nat) :
  seg_perm lo hi data data' -> (i < lo \/ hi <= i)%nat -> (lo <= hi)%nat ->
  data' !! i = data !! i.
Proof.
  intros (pre & mid & mid' & post & -> & -> & H1 & H2 & Hp) Hi Hle.
  pose proof (Permutation_length Hp) as Hlen.
  destruct Hi as [Hi|Hi].
  - rewrite !lookup_app_l by lia. reflexivity.
  - rewrite !lookup_app_r by lia. rewrite ?Hlen. reflexivity.
Qed.

Lemma seg_perm_kth_out (lo hi : nat) (data data' : list A) (i : nat) :
  seg_perm lo hi data data' -> (i < lo \/ hi <= i)%nat -> (lo <= hi)%nat ->
  kth data' i = kth data i.
Proof. intros H Hi Hle. unfold kth. rewrite (seg_perm_lookup_out lo hi data data' i H Hi Hle). reflexivity. Qed.

(** A bound on the keys of a range that covers the segment still holds. *)
Lemma seg_perm_bound (lo hi lo' hi' : nat) (data data' : list A) (Q : Z -> Prop) :
  seg_perm lo hi data data' ->
  (lo' <= lo)%nat -> (lo <= hi)%nat -> (hi <= hi')%nat ->
  (forall i, (lo' <= i < hi')%nat -> Q (kth data i)) ->
  forall i, (lo' <= i < hi')%nat -> Q (kth data' i).
Proof.
  intros Hsp Hlo Hle Hhi HQ i Hi.
  destruct (decide (lo <= i < hi)%nat) as [Hin|Hout].
  - destruct Hsp as (pre & mid & mid' & post & -> & -> & H1 & H2 & Hp).
    pose proof (Permutation_length Hp) as Hlen.
    unfold kth. rewrite lookup_app_r by lia. rewrite lookup_app_l by lia.
    destruct (lookup_lt_is_Some_2 mid' (i - length pre)) as [x Hx]; [lia|].
    rewrite Hx.
    assert (x ∈ mid) as Hxin by (rewrite Hp; eapply list_elem_of_lookup_2; exact Hx).
    apply list_elem_of_lookup in Hxin as [j Hj].
    pose proof (lookup_lt_Some _ _ _ Hj) as Hjlt.
    specialize (HQ (length pre + j)%nat ltac:(lia)).
    unfold kth in HQ. rewrite lookup_app_r in HQ by lia. rewrite lookup_app_l in HQ by lia.
    replace (length pre + j - length pre)%nat with j in HQ by lia.
    rewrite Hj in HQ. exact HQ.
  - rewrite (seg_perm_kth_out lo hi data data' i Hsp) by lia. apply HQ. exact Hi.
Qed.

(** A rearrangement of a segment is one of any segment around it. *)
Lemma seg_perm_mono (lo hi lo' hi' : nat) (data data' : list A) :
  seg_perm lo hi data data' ->
  (lo' <= lo)%nat -> (lo <= hi)%nat -> (hi <= hi')%nat -> (hi' <= length data)%nat ->
  seg_perm lo' hi' data data'.
Proof.
  intros (pre & mid & mid' & post & -> & -> & H1 & H2 & Hp) Hlo Hle Hhi Hlen.
  rewrite !length_app in Hlen.
  exists (take lo' pre), (drop lo' pre ++ mid ++ take (hi' - hi) post),
    (drop lo' pre ++ mid' ++ take (hi' - hi) post), (drop (hi' - hi) post).
  split.
  { rewrite <- !app_assoc. rewrite (app_assoc (take lo' pre)), take_drop.
    rewrite take_drop. reflexivity. }
  split.
  { rewrite <- !app_assoc. rewrite (app_assoc (take lo' pre)), take_drop.
    rewrite take_drop. reflexivity. }
  split; [rewrite length_take; lia|].
  split; [rewrite !length_app, length_drop, length_take; lia|].
  rewrite Hp. reflexivity.
Qed.

Lemma Swap_seg_perm (lo hi : nat) (data : list A) (i j : nat) :
  (lo <= i < hi)%nat -> (lo <= j < hi)%nat -> (hi <= length data)%nat ->
  seg_perm lo hi data (Swap data i j).
Proof.
  intros Hi Hj Hlen.
  assert (Hgen : forall i j, (lo <= i)%nat -> (i < j)%nat -> (j < hi)%nat ->
                   seg_perm lo hi data (Swap data i j) /\ Swap data j i = Swap data i j).
  { clear i j Hi Hj. intros i j Hi Hij Hj.
    destruct (lookup_lt_is_Some_2 data i) as [x Hx]; [lia|].
    destruct (lookup_lt_is_Some_2 data j) as [y Hy]; [lia|].
    assert (Hsw : Swap data i j = <[j := x]> (<[i := y]> data))
      by (unfold Swap; rewrite Hx, Hy; reflexivity).
    assert (Hsw' : Swap data j i = <[i := y]> (<[j := x]> data))
      by (unfold Swap; rewrite Hx, Hy; reflexivity).
    split; [|rewrite Hsw, Hsw'; apply list_insert_insert_ne; lia].
    destruct (list_elem_of_split_length data i x Hx) as (l1 & l2 & Hd & Hl1).
    assert (Hy2 : l2 !! (j - i - 1)%nat = Some y).
    { rewrite Hd in Hy. rewrite lookup_app_r in Hy by lia.
      replace (j - length l1)%nat with (S (j - i - 1)) in Hy by lia. exact Hy. }
    destruct (list_elem_of_split_length l2 _ y Hy2) as (l3 & l4 & Hd2 & Hl3).
    assert (Hdata : data = l1 ++ x :: l3 ++ y :: l4) by (rewrite Hd, Hd2; reflexivity).
    assert (Hres : Swap data i j = l1 ++ y :: l3 ++ x :: l4).
    { rewrite Hsw, Hdata. rewrite Hl1.
      rewrite (insert_app_r_alt l1 _ (length l1)) by lia.
      replace (length l1 - length l1)%nat with 0%nat by lia. simpl.
      rewrite insert_app_r_alt by lia.
      replace (j - length l1)%nat with (S (length l3)) by lia. simpl.
      rewrite insert_app_r_alt by lia.
      replace (length l3 - length l3)%nat with 0%nat by lia. reflexivity. }
    rewrite Hres. rewrite Hdata in Hlen.
    rewrite !length_app in Hlen. simpl in Hlen. rewrite length_app in Hlen. simpl in Hlen.
    exists (take lo l1), (drop lo l1 ++ x :: l3 ++ y :: take (hi - j - 1) l4),
      (drop lo l1 ++ y :: l3 ++ x :: take (hi - j - 1) l4), (drop (hi - j - 1) l4).
    split.
    { rewrite Hdata. rewrite <- !app_assoc. simpl. rewrite <- !app_assoc. simpl.
      rewrite (app_assoc (take lo l1)), take_drop, take_drop. reflexivity. }
    split.
    { rewrite <- !app_assoc. simpl. rewrite <- !app_assoc. simpl.
      rewrite (app_assoc (take lo l1)), take_drop, take_drop. reflexivity. }
    split; [rewrite length_take; lia|].
    split.
    { rewrite !length_app, length_drop. simpl. rewrite length_app. simpl.
      rewrite length_take. lia. }
    apply Permutation_app_head.
    rewrite !(Permutation_middle l3). apply Permutation_app_head. apply perm_swap. }
  destruct (Nat.lt_trichotomy i j) as [Hlt|[->|Hgt]].
  - apply Hgen; lia.
  - replace (Swap data j j) with data; [apply seg_perm_refl; lia|].
    unfold Swap. destruct (data !! j) as [x|] eqn:Hx; [|reflexivity].
    rewrite list_insert_insert_eq. symmetry. apply list_insert_id. exact Hx.
  - destruct (Hgen j i) as [H1 H2]; [lia..|]. rewrite H2. exact H1.
Qed.

(** The segment is in order. *)
Definition sorted_seg (data : list A) (lo hi : nat) : Prop :=
  forall i j, (lo <= i)%nat -> (i <= j)%nat -> (j < hi)%nat ->
              (kth data i <= kth data j)%Z.


(** **** Insertion sort *)

Lemma insertion_inner_spec (a top : nat) :
  forall (j : nat) (data : list A),
    (a <= j)%nat -> (j <= top)%nat -> (top < length data)%nat ->
    (forall i1 i2, (a <= i1)%nat -> (i1 <= i2)%nat -> (i2 <= top)%nat ->
                   i1 <> j -> i2 <> j -> (kth data i1 <= kth data i2)%Z) ->
    (forall i2, (j < i2)%nat -> (i2 <= top)%nat -> (kth data j <= kth data i2)%Z) ->
    seg_perm a (top + 1) data (insertion_inner data a j)
    /\ sorted_seg (insertion_inner data a j) a (top + 1).
Proof.
  induction j as [|j IH]; intros data Haj Hjt Htop Hothers Hupper.
  - simpl. split; [apply seg_perm_refl; lia|].
    intros i1 i2 H1 H2 H3.
    destruct (decide (i1 = 0%nat)) as [->|Hne].
    + destruct (decide (i2 = 0%nat)) as [->|Hne2]; [lia|]. apply Hupper; lia.
    + apply Hothers; lia.
  - simpl. destruct ((a <? S j)%nat && Less data (S j) j) eqn:Hcond.
    + apply andb_true_iff in Hcond as [Ha Hless].
      apply Nat.ltb_lt in Ha. rewrite Less_kth in Hless by lia.
      apply Z.ltb_lt in Hless.
      destruct (IH (Swap data (S j) j)) as [Hperm Hsorted].
      * lia.
      * lia.
      * rewrite Swap_length. exact Htop.
      * intros i1 i2 H1 H2 H3 H4 H5. rewrite !Swap_kth by lia.
        destruct (decide (i1 = j)); [lia|]. destruct (decide (i2 = j)); [lia|].
        destruct (decide (i1 = S j)) as [->|]; destruct (decide (i2 = S j)) as [->|];
          try lia; apply Hothers; lia.
      * intros i2 H1 H2. rewrite !Swap_kth by lia.
        destruct (decide (j = j)); [|lia]. destruct (decide (i2 = j)); [lia|].
        destruct (decide (i2 = S j)) as [->|]; [lia|]. apply Hupper; lia.
      * split; [|exact Hsorted].
        eapply seg_perm_trans; [|exact Hperm]. apply Swap_seg_perm; lia.
    + split; [apply seg_perm_refl; lia|].
      intros i1 i2 H1 H2 H3.
      destruct (decide (i1 = S j)) as [->|Hne1].
      { destruct (decide (i2 = S j)) as [->|Hne2]; [lia|]. apply Hupper; lia. }
      destruct (decide (i2 = S j)) as [->|Hne2]; [|apply Hothers; lia].
      apply andb_false_iff in Hcond as [Ha|Hless].
      { apply Nat.ltb_ge in Ha. lia. }
      rewrite Less_kth in Hless by lia. apply Z.ltb_ge in Hless.
      destruct (decide (i1 = j)) as [->|Hne3]; [exact Hless|].
      pose proof (Hothers i1 j ltac:(lia) ltac:(lia) ltac:(lia) ltac:(lia) ltac:(lia)).
      lia.
Qed.

Lemma insertion_outer_spec (a : nat) :
  forall (n s : nat) (data : list A),
    (a < s)%nat -> (s + n <= length data)%nat -> sorted_seg data a s ->
    seg_perm a (s + n) data (fold_left (fun d i => insertion_inner d a i) (seq s n) data)
    /\ sorted_seg (fold_left (fun d i => insertion_inner d a i) (seq s n) data) a (s + n).
Proof.
  induction n as [|n IH]; intros s data Has Hlen Hsorted.
  - simpl. rewrite Nat.add_0_r. split; [apply seg_perm_refl; lia|exact Hsorted].
  - simpl. destruct (insertion_inner_spec a s s data) as [Hperm1 Hsorted1];
      [lia|lia|lia|intros i1 i2 H1 H2 H3 H4 H5; apply Hsorted; lia|intros i2 H1 H2; lia|].
    destruct (IH (S s) (insertion_inner data a s)) as [Hperm2 Hsorted2].
    + lia.
    + rewrite (seg_perm_length _ _ _ _ Hperm1). lia.
    + replace (S s) with (s + 1)%nat by lia. exact Hsorted1.
    + replace (s + S n)%nat with (S s + n)%nat by lia.
      split; [|exact Hsorted2].
      eapply seg_perm_trans; [|exact Hperm2].
      eapply seg_perm_mono; [exact Hperm1|lia..].
Qed.

Lemma insertionSort_spec (data : list A) (a b : nat) :
  (a <= b)%nat -> (b <= length data)%nat ->
  seg_perm a b data (insertionSort data a b) /\ sorted_seg (insertionSort data a b) a b.
Proof.
  intros Hab Hlen. unfold insertionSort.
  destruct (decide (b <= a + 1)%nat) as [Hsmall|Hbig].
  - replace (b - (a + 1))%nat with 0%nat by lia. simpl.
    split; [apply seg_perm_refl; lia|]. intros i j H1 H2 H3.
    replace j with i by lia. lia.
  - destruct (insertion_outer_spec a (b - (a + 1)) (a + 1) data) as [Hperm Hsorted].
    + lia.
    + lia.
    + intros i j H1 H2 H3. replace j with i by lia. lia.
    + replace (a + 1 + (b - (a + 1)))%nat with b in * by lia. split; assumption.
Qed.

Lemma shell_pass_spec (a b : nat) :
  forall (n s : nat) (data : list A),
    (a + 6 <= s)%nat -> (s + n <= b)%nat -> (b <= length data)%nat ->
    seg_perm a b data
      (fold_left (fun d i => if Less d i (i - 6) then Swap d i (i - 6) else d)
         (seq s n) data).
Proof.
  induction n as [|n IH]; intros s data Hs Hn Hlen.
  - simpl. apply seg_perm_refl; lia.
  - simpl.
    assert (Hstep : seg_perm a b data
                      (if Less data s (s - 6) then Swap data s (s - 6) else data)).
    { destruct (Less data s (s - 6)); [apply Swap_seg_perm; lia|apply seg_perm_refl; lia]. }
    eapply seg_perm_trans; [exact Hstep|]. apply IH; try lia.
    rewrite (seg_perm_length _ _ _ _ Hstep). exact Hlen.
Qed.

Lemma small_sort_spec (data : list A) (a b : nat) :
  (a <= b)%nat -> (b <= length data)%nat ->
  seg_perm a b data (small_sort data a b) /\ sorted_seg (small_sort data a b) a b.
Proof.
  intros Hab Hlen. unfold small_sort. destruct (1 <? b - a)%nat eqn:Hbig.
  - apply Nat.ltb_lt in Hbig.
    assert (Hshell : seg_perm a b data (shell_pass data a b)).
    { unfold shell_pass. destruct (decide (a + 6 <= b)%nat).
      - apply shell_pass_spec; lia.
      - replace (b - (a + 6))%nat with 0%nat by lia. simpl. apply seg_perm_refl; lia. }
    destruct (insertionSort_spec (shell_pass data a b) a b) as [Hperm Hsorted].
    + lia.
    + rewrite (seg_perm_length _ _ _ _ Hshell). exact Hlen.
    + split; [|exact Hsorted]. eapply seg_perm_trans; eassumption.
  - apply Nat.ltb_ge in Hbig. split; [apply seg_perm_refl; lia|].
    intros i j H1 H2 H3. replace j with i by lia. lia.
Qed.

(** **** Heap sort *)

(** In the heap rooted at [first], every node from [lo] on dominates
    its children below [hi]. *)
Definition heap_from (data : list A) (first lo hi : nat) : Prop :=
  forall i c, (lo <= i)%nat -> (c < hi)%nat -> (c = 2 * i + 1 \/ c = 2 * i + 2)%nat ->
              (kth data (first + c) <= kth data (first + i))%Z.

(** The same with the node [root] left out, whose children are
    dominated by its parent. *)
Definition heap_except (data : list A) (first lo hi root : nat) : Prop :=
  (forall i c, (lo <= i)%nat -> i <> root -> (c < hi)%nat ->
               (c = 2 * i + 1 \/ c = 2 * i + 2)%nat ->
               (kth data (first + c) <= kth data (first + i))%Z)
  /\ (forall p c, (lo <= p)%nat -> (root = 2 * p + 1 \/ root = 2 * p + 2)%nat ->
                  (c < hi)%nat -> (c = 2 * root + 1 \/ c = 2 * root + 2)%nat ->
                  (kth data (first + c) <= kth data (first + p))%Z).

Lemma siftDown_loop_spec (first lo hi : nat) :
  forall (fuel : nat) (data : list A) (root : nat),
    (hi <= root + fuel)%nat -> (lo <= root)%nat -> (first + hi <= length data)%nat ->
    heap_except data first lo hi root ->
    seg_perm first (first + hi) data (siftDown_loop fuel data root hi first)
    /\ heap_from (siftDown_loop fuel data root hi first) first lo hi.
Proof.
  induction fuel as [|fuel IH]; intros data root Hfuel Hlo Hlen [Hheap Hgrand].
  - simpl. split; [apply seg_perm_refl; lia|].
    intros i c Hi Hc Hchild. apply Hheap; try assumption. lia.
  - cbn [siftDown_loop]. destruct (hi <=? 2 * root + 1)%nat eqn:Hleaf.
    { apply Nat.leb_le in Hleaf. split; [apply seg_perm_refl; lia|].
      intros i c Hi Hc Hchild. apply Hheap; try assumption. lia. }
    apply Nat.leb_gt in Hleaf.
    set (child := if (2 * root + 1 + 1 <? hi)%nat
                     && Less data (first + (2 * root + 1)) (first + (2 * root + 1) + 1)
                  then (2 * root + 1 + 1)%nat else (2 * root + 1)%nat).
    assert (Hchild : (child = 2 * root + 1 \/ child = 2 * root + 2)%nat
                     /\ (child < hi)%nat
                     /\ (forall c, (c < hi)%nat -> (c = 2 * root + 1 \/ c = 2 * root + 2)%nat ->
                                   (kth data (first + c) <= kth data (first + child))%Z)).
    { unfold child.
      destruct (2 * root + 1 + 1 <? hi)%nat eqn:Hsib; cbn [andb].
      - apply Nat.ltb_lt in Hsib. rewrite Less_kth by lia.
        destruct (kth data (first + (2 * root + 1)) <? kth data (first + (2 * root + 1) + 1))%Z
          eqn:Hcmp.
        + apply Z.ltb_lt in Hcmp. split; [lia|]. split; [lia|].
          intros c Hc [->| ->].
          * replace (first + (2 * root + 1 + 1))%nat with (first + (2 * root + 1) + 1)%nat by lia.
            lia.
          * replace (2 * root + 2)%nat with (2 * root + 1 + 1)%nat by lia. lia.
        + apply Z.ltb_ge in Hcmp. split; [lia|]. split; [lia|].
          intros c Hc [->| ->]; [lia|].
          replace (first + (2 * root + 2))%nat with (first + (2 * root + 1) + 1)%nat by lia.
          exact Hcmp.
      - apply Nat.ltb_ge in Hsib. split; [lia|]. split; [lia|].
        intros c Hc [->| ->]; lia. }
    destruct Hchild as (Hck & Hclt & Hmax).
    rewrite Less_kth by lia.
    destruct (kth data (first + root) <? kth data (first + child))%Z eqn:Hcmp; cbn [negb].
    + apply Z.ltb_lt in Hcmp.
      destruct (IH (Swap data (first + root) (first + child)) child) as [Hperm Hres].
      * lia.
      * lia.
      * rewrite Swap_length. exact Hlen.
      * split.
        -- intros i c Hi Hic Hc Hchild. rewrite !Swap_kth by lia.
           destruct (decide (first + c = first + child)%nat) as [Hcc|Hcc].
           { assert (i = root) by lia. subst i.
             destruct (decide (first + root = first + child)%nat); [lia|].
             destruct (decide (first + root = first + root)%nat); [lia|lia]. }
           destruct (decide (first + i = first + child)%nat); [lia|].
           destruct (decide (first + c = first + root)%nat) as [Hcr|Hcr].
           { assert (c = root) by lia. subst c.
             destruct (decide (first + i = first + root)%nat); [lia|].
             apply (Hgrand i child); lia. }
           destruct (decide (first + i = first + root)%nat) as [Hir|Hir].
           { assert (i = root) by lia. subst i. apply Hmax; lia. }
           apply Hheap; lia.
        -- intros p c Hp Hpc Hc Hchild. assert (p = root) by lia. subst p.
           rewrite !Swap_kth by lia.
           destruct (decide (first + c = first + child)%nat); [lia|].
           destruct (decide (first + c = first + root)%nat); [lia|].
           destruct (decide (first + root = first + child)%nat); [lia|].
           destruct (decide (first + root = first + root)%nat); [|lia].
           apply Hheap; lia.
      * split; [|exact Hres].
        eapply seg_perm_trans; [|exact Hperm]. apply Swap_seg_perm; lia.
    + apply Z.ltb_ge in Hcmp. split; [apply seg_perm_refl; lia|].
      intros i c Hi Hc Hchild.
      destruct (decide (i = root)) as [->|Hne]; [|apply Hheap; assumption].
      pose proof (Hmax c Hc Hchild). lia.
Qed.

Lemma siftDown_spec (data : list A) (lo hi first : nat) :
  (first + hi <= length data)%nat ->
  heap_from data first (S lo) hi ->
  seg_perm first (first + hi) data (siftDown data lo hi first)
  /\ heap_from (siftDown data lo hi first) first lo hi.
Proof.
  intros Hlen Hheap. apply siftDown_loop_spec; try lia. split.
  - intros i c Hi Hne Hc Hchild. apply Hheap; try assumption. lia.
  - intros p c Hp Hpc. lia.
Qed.

(** The root of a heap dominates every node. *)
Lemma heap_root_max (data : list A) (first hi : nat) :
  heap_from data first 0 hi ->
  forall i, (i < hi)%nat -> (kth data (first + i) <= kth data first)%Z.
Proof.
  intros Hheap i. induction i as [i IH] using lt_wf_ind. intros Hi.
  destruct (decide (i = 0%nat)) as [->|Hne].
  - rewrite Nat.add_0_r. lia.
  - pose proof (Hheap ((i - 1) / 2)%nat i ltac:(lia) Hi) as Hparent.
    assert (Hdiv : (i = 2 * ((i - 1) / 2) + 1 \/ i = 2 * ((i - 1) / 2) + 2)%nat).
    { pose proof (Nat.div_mod_eq (i - 1) 2) as Hdm.
      pose proof (Nat.mod_upper_bound (i - 1) 2 ltac:(lia)) as Hm. lia. }
    specialize (Hparent Hdiv).
    assert (Hlt : ((i - 1) / 2 < i)%nat).
    { pose proof (Nat.div_mod_eq (i - 1) 2) as Hdm. lia. }
    pose proof (IH _ Hlt ltac:(lia)). lia.
Qed.

Lemma countdown_S (n : nat) : countdown (S n) = n :: countdown n.
Proof. unfold countdown. rewrite seq_S. rewrite rev_app_distr. reflexivity. Qed.

Lemma heap_build_spec (first hi : nat) :
  forall (n : nat) (data : list A),
    (first + hi <= length data)%nat ->
    heap_from data first n hi ->
    seg_perm first (first + hi) data
      (fold_left (fun d i => siftDown d i hi first) (countdown n) data)
    /\ heap_from (fold_left (fun d i => siftDown d i hi first) (countdown n) data)
         first 0 hi.
Proof.
  induction n as [|n IH]; intros data Hlen Hheap.
  - simpl. split; [apply seg_perm_refl; lia|exact Hheap].
  - rewrite countdown_S. cbn [fold_left].
    destruct (siftDown_spec data n hi first Hlen Hheap) as [Hperm1 Hheap1].
    destruct (IH (siftDown data n hi first)) as [Hperm2 Hheap2].
    + rewrite (seg_perm_length _ _ _ _ Hperm1). exact Hlen.
    + exact Hheap1.
    + split; [|exact Hheap2]. eapply seg_perm_trans; eassumption.
Qed.

Lemma heap_pop_spec (first hi : nat) :
  forall (n : nat) (data : list A),
    (n <= hi)%nat -> (first + hi <= length data)%nat ->
    heap_from data first 0 n ->
    sorted_seg data (first + n) (first + hi) ->
    (forall x y, (x < n)%nat -> (n <= y)%nat -> (y < hi)%nat ->
                 (kth data (first + x) <= kth data (first + y))%Z) ->
    seg_perm first (first + hi) data
      (fold_left (fun d i => siftDown (Swap d first (first + i)) 0 i first)
         (countdown n) data)
    /\ sorted_seg
         (fold_left (fun d i => siftDown (Swap d first (first + i)) 0 i first)
            (countdown n) data)
         first (first + hi).
Proof.
  induction n as [|n IH]; intros data Hn Hlen Hheap Hsorted Hsplit.
  - simpl. split; [apply seg_perm_refl; lia|].
    rewrite Nat.add_0_r in Hsorted. exact Hsorted.
  - rewrite countdown_S. cbn [fold_left].
    set (d1 := Swap data first (first + n)).
    assert (Hlen1 : length d1 = length data) by apply Swap_length.
    assert (Hperm1 : seg_perm first (first + hi) data d1)
      by (apply Swap_seg_perm; lia).
    assert (Hk1 : forall x, kth d1 x
                = if decide (x = first + n)%nat then kth data first
                  else if decide (x = first) then kth data (first + n) else kth data x)
      by (intros x; unfold d1; apply Swap_kth; lia).
    pose proof (heap_root_max data first (S n) Hheap) as Hmax.
    destruct (siftDown_loop_spec first 0 n n d1 0) as [Hperm2 Hheap2]; try lia.
    { split; [|intros p c Hp Hpc; lia].
      intros i c Hi Hne Hc Hchild. rewrite !Hk1.
      destruct (decide (first + c = first + n)%nat); [lia|].
      destruct (decide (first + c = first)%nat); [lia|].
      destruct (decide (first + i = first + n)%nat); [lia|].
      destruct (decide (first + i = first)%nat); [lia|].
      apply Hheap; lia. }
    fold (siftDown d1 0 n first) in Hperm2, Hheap2.
    set (d2 := siftDown d1 0 n first) in *.
    assert (Hout : forall x, (first + n <= x)%nat -> kth d2 x = kth d1 x).
    { intros x Hx. apply (seg_perm_kth_out first (first + n)); [exact Hperm2|lia|lia]. }
    assert (Hin : forall B : Z,
               (forall x, (x <= n)%nat -> (kth data (first + x) <= B)%Z) ->
               forall x, (x < n)%nat -> (kth d2 (first + x) <= B)%Z).
    { intros B HB x Hx.
      apply (seg_perm_bound first (first + n) first (first + n) d1 d2
               (fun k => (k <= B)%Z) Hperm2); try lia.
      intros i Hi. rewrite Hk1.
      destruct (decide (i = first + n)%nat); [lia|].
      destruct (decide (i = first)); [apply HB; lia|].
      replace i with (first + (i - first))%nat by lia. apply HB. lia. }
    destruct (IH d2) as [Hperm3 Hsorted3].
    + lia.
    + rewrite (seg_perm_length _ _ _ _ Hperm2). lia.
    + exact Hheap2.
    + intros i j H1 H2 H3. rewrite !Hout by lia. rewrite !Hk1.
      destruct (decide (i = first + n)%nat) as [->|Hi];
        destruct (decide (j = first + n)%nat) as [->|Hj]; try lia.
      * destruct (decide (j = first)); [lia|].
        replace j with (first + (j - first))%nat by lia.
        replace first with (first + 0)%nat at 1 by lia. apply Hsplit; lia.
      * destruct (decide (i = first)); [lia|]. destruct (decide (j = first)); [lia|].
        apply Hsorted; lia.
    + intros x y Hx Hy Hyhi. rewrite (Hout (first + y)%nat) by lia. rewrite Hk1.
      destruct (decide (first + y = first + n)%nat) as [Hyn|Hyn].
      * apply Hin; [|exact Hx]. intros x' Hx'.
        replace (kth data first) with (kth data (first + 0)) by (f_equal; lia).
        rewrite Nat.add_0_r. apply Hmax. lia.
      * destruct (decide (first + y = first)%nat); [lia|].
        apply Hin; [|exact Hx]. intros x' Hx'. apply Hsplit; lia.
    + split; [|exact Hsorted3].
      eapply seg_perm_trans; [exact Hperm1|].
      eapply seg_perm_trans; [|exact Hperm3].
      eapply seg_perm_mono; [exact Hperm2|lia..|rewrite Hlen1; lia].
Qed.

Lemma heapSort_spec (data : list A) (a b : nat) :
  (a <= b)%nat -> (b <= length data)%nat ->
  seg_perm a b data (heapSort data a b) /\ sorted_seg (heapSort data a b) a b.
Proof.
  intros Hab Hlen. unfold heapSort.
  destruct (heap_build_spec a (b - a) ((b - a - 1) / 2 + 1) data) as [Hperm1 Hheap1].
  - lia.
  - intros i c Hi Hc Hchild.
    pose proof (Nat.div_mod_eq (b - a - 1) 2) as Hdm.
    pose proof (Nat.mod_upper_bound (b - a - 1) 2 ltac:(lia)) as Hm. lia.
  - set (d1 := fold_left (fun d i => siftDown d i (b - a) a)
                 (countdown ((b - a - 1) / 2 + 1)) data) in *.
    destruct (heap_pop_spec a (b - a) (b - a) d1) as [Hperm2 Hsorted2].
    + lia.
    + rewrite (seg_perm_length _ _ _ _ Hperm1). lia.
    + exact Hheap1.
    + intros i j H1 H2 H3. lia.
    + intros x y Hx Hy Hyhi. lia.
    + replace (a + (b - a))%nat with b in * by lia.
      split; [|exact Hsorted2]. eapply seg_perm_trans; eassumption.
Qed.

(** **** The pivot *)

Ltac divfact x d :=
  pose proof (Nat.div_mod_eq x d);
  pose proof (Nat.mod_upper_bound x d ltac:(lia)).

Lemma medianOfThree_perm (lo hi : nat) (data : list A) (m1 m0 m2 : nat) :
  (lo <= m1 < hi)%nat -> (lo <= m0 < hi)%nat -> (lo <= m2 < hi)%nat ->
  (hi <= length data)%nat ->
  seg_perm lo hi data (medianOfThree data m1 m0 m2).
Proof.
  intros H1 H0 H2 Hlen. unfold medianOfThree.
  assert (Hstep : forall d i j, (lo <= i < hi)%nat -> (lo <= j < hi)%nat ->
                    seg_perm lo hi data d ->
                    seg_perm lo hi data (if Less d i j then Swap d i j else d)).
  { intros d i j Hi Hj Hd. destruct (Less d i j); [|exact Hd].
    eapply seg_perm_trans; [exact Hd|]. apply Swap_seg_perm; try lia.
    rewrite (seg_perm_length _ _ _ _ Hd). exact Hlen. }
  pose proof (Hstep data m1 m0 H1 H0 ltac:(apply seg_perm_refl; lia)) as Hd1.
  set (d1 := if Less data m1 m0 then Swap data m1 m0 else data) in *.
  destruct (Less d1 m2 m1); [|exact Hd1].
  apply Hstep; try assumption.
  eapply seg_perm_trans; [exact Hd1|]. apply Swap_seg_perm; try lia.
  rewrite (seg_perm_length _ _ _ _ Hd1). exact Hlen.
Qed.

Lemma compare_swap_kth (d : list A) (i j x : nat) :
  (i < length d)%nat -> (j < length d)%nat -> i <> j ->
  kth (if Less d i j then Swap d i j else d) x
  = if decide (x = i) then Z.max (kth d i) (kth d j)
    else if decide (x = j) then Z.min (kth d i) (kth d j) else kth d x.
Proof.
  intros Hi Hj Hne. rewrite Less_kth by lia.
  destruct (kth d i <? kth d j)%Z eqn:Hc.
  - apply Z.ltb_lt in Hc. rewrite Swap_kth by lia.
    destruct (decide (x = j)) as [Hxj|Hxj]; destruct (decide (x = i)) as [Hxi|Hxi];
      subst; lia.
  - apply Z.ltb_ge in Hc.
    destruct (decide (x = i)) as [Hxi|Hxi]; destruct (decide (x = j)) as [Hxj|Hxj];
      subst; lia.
Qed.

Lemma medianOfThree_order (data : list A) (m1 m0 m2 : nat) :
  (m1 < length data)%nat -> (m0 < length data)%nat -> (m2 < length data)%nat ->
  m0 <> m1 -> m1 <> m2 -> m0 <> m2 ->
  (kth (medianOfThree data m1 m0 m2) m0 <= kth (medianOfThree data m1 m0 m2) m1)%Z
  /\ (kth (medianOfThree data m1 m0 m2) m1 <= kth (medianOfThree data m1 m0 m2) m2)%Z.
Proof.
  intros H1 H0 H2 H01 H12 H02. unfold medianOfThree.
  pose proof (compare_swap_kth data m1 m0) as Hk1.
  set (d1 := if Less data m1 m0 then Swap data m1 m0 else data) in *.
  assert (Hl1 : length d1 = length data)
    by (unfold d1; destruct (Less data m1 m0); [apply Swap_length|reflexivity]).
  rewrite Less_kth by lia.
  destruct (kth d1 m2 <? kth d1 m1)%Z eqn:Hc2.
  - apply Z.ltb_lt in Hc2.
    rewrite !(compare_swap_kth (Swap d1 m2 m1) m1 m0) by (rewrite ?Swap_length; lia).
    rewrite !(Swap_kth d1 m2 m1) by lia. rewrite !Hk1 in * by lia.
    repeat (destruct (decide _); try lia).
  - apply Z.ltb_ge in Hc2. rewrite !Hk1 in * by lia.
    repeat (destruct (decide _); try lia).
Qed.

Lemma pivot_setup_spec (data : list A) (lo hi : nat) :
  (12 < hi - lo)%nat -> (hi <= length data)%nat ->
  seg_perm lo hi data (pivot_setup data lo hi)
  /\ (kth (pivot_setup data lo hi) lo <= kth (pivot_setup data lo hi) (hi - 1))%Z.
Proof.
  intros Hbig Hlen. unfold pivot_setup.
  divfact (lo + hi)%nat 2%nat. divfact (hi - lo)%nat 8%nat.
  set (m := ((lo + hi) / 2)%nat) in *. set (s := ((hi - lo) / 8)%nat) in *.
  set (d0 := if (40 <? hi - lo)%nat
             then medianOfThree
                    (medianOfThree (medianOfThree data lo (lo + s) (lo + 2 * s))
                       m (m - s) (m + s))
                    (hi - 1) (hi - 1 - s) (hi - 1 - 2 * s)
             else data).
  assert (Hd0 : seg_perm lo hi data d0).
  { unfold d0. destruct (40 <? hi - lo)%nat eqn:H40; [|apply seg_perm_refl; lia].
    apply Nat.ltb_lt in H40.
    assert (Hp1 : seg_perm lo hi data (medianOfThree data lo (lo + s) (lo + 2 * s)))
      by (apply medianOfThree_perm; lia).
    assert (Hp2 : seg_perm lo hi data
                    (medianOfThree (medianOfThree data lo (lo + s) (lo + 2 * s))
                       m (m - s) (m + s))).
    { eapply seg_perm_trans; [exact Hp1|]. apply medianOfThree_perm; try lia.
      rewrite (seg_perm_length _ _ _ _ Hp1). lia. }
    eapply seg_perm_trans; [exact Hp2|]. apply medianOfThree_perm; try lia.
    rewrite (seg_perm_length _ _ _ _ Hp2). lia. }
  pose proof (seg_perm_length _ _ _ _ Hd0) as Hlen0.
  split.
  - eapply seg_perm_trans; [exact Hd0|]. apply medianOfThree_perm; lia.
  - apply (medianOfThree_order d0 lo m (hi - 1)); lia.
Qed.

(** **** The scans of the partition *)

Lemma scan_less_spec (data : list A) (pivot c : nat) :
  forall (fuel a : nat),
    (a <= c)%nat -> (c <= length data)%nat -> (pivot < length data)%nat ->
    (c <= a + fuel)%nat ->
    let a' := scan_less fuel data pivot a c in
    (a <= a' <= c)%nat
    /\ (forall i, (a <= i < a')%nat -> (kth data i < kth data pivot)%Z)
    /\ ((a' < c)%nat -> (kth data pivot <= kth data a')%Z).
Proof.
  induction fuel as [|fuel IH]; intros a Hac Hc Hp Hfuel; simpl.
  - split; [lia|]. split; intros; lia.
  - destruct (a <? c)%nat eqn:Hlt; cbn [andb].
    + apply Nat.ltb_lt in Hlt. rewrite Less_kth by lia.
      destruct (kth data a <? kth data pivot)%Z eqn:Hcmp.
      * apply Z.ltb_lt in Hcmp.
        destruct (IH (S a) ltac:(lia) Hc Hp ltac:(lia)) as (H1 & H2 & H3).
        split; [lia|]. split; [|exact H3].
        intros i Hi. destruct (decide (i = a)) as [->|]; [exact Hcmp|apply H2; lia].
      * apply Z.ltb_ge in Hcmp. split; [lia|]. split; [intros; lia|]. intros _. exact Hcmp.
    + apply Nat.ltb_ge in Hlt. split; [lia|]. split; intros; lia.
Qed.

Lemma scan_not_greater_spec (data : list A) (pivot c : nat) :
  forall (fuel b : nat),
    (b <= c)%nat -> (c <= length data)%nat -> (pivot < length data)%nat ->
    (c <= b + fuel)%nat ->
    let b' := scan_not_greater fuel data pivot b c in
    (b <= b' <= c)%nat
    /\ (forall i, (b <= i < b')%nat -> (kth data i <= kth data pivot)%Z)
    /\ ((b' < c)%nat -> (kth data pivot < kth data b')%Z).
Proof.
  induction fuel as [|fuel IH]; intros b Hbc Hc Hp Hfuel; simpl.
  - split; [lia|]. split; intros; lia.
  - destruct (b <? c)%nat eqn:Hlt; cbn [andb].
    + apply Nat.ltb_lt in Hlt. rewrite Less_kth by lia.
      destruct (kth data pivot <? kth data b)%Z eqn:Hcmp; cbn [negb].
      * apply Z.ltb_lt in Hcmp. split; [lia|]. split; [intros; lia|]. intros _. exact Hcmp.
      * apply Z.ltb_ge in Hcmp.
        destruct (IH (S b) ltac:(lia) Hc Hp ltac:(lia)) as (H1 & H2 & H3).
        split; [lia|]. split; [|exact H3].
        intros i Hi. destruct (decide (i = b)) as [->|]; [exact Hcmp|apply H2; lia].
    + apply Nat.ltb_ge in Hlt. split; [lia|]. split; intros; lia.
Qed.

Lemma scan_greater_down_spec (data : list A) (pivot b : nat) :
  forall (fuel c : nat),
    (b <= c)%nat -> (c <= length data)%nat -> (pivot < length data)%nat ->
    (c <= b + fuel)%nat ->
    let c' := scan_greater_down fuel data pivot b c in
    (b <= c' <= c)%nat
    /\ (forall i, (c' <= i < c)%nat -> (kth data pivot < kth data i)%Z)
    /\ ((b < c')%nat -> (kth data (c' - 1) <= kth data pivot)%Z).
Proof.
  induction fuel as [|fuel IH]; intros c Hbc Hc Hp Hfuel; simpl.
  - split; [lia|]. split; intros; lia.
  - destruct (b <? c)%nat eqn:Hlt; cbn [andb].
    + apply Nat.ltb_lt in Hlt. rewrite Less_kth by lia.
      destruct (kth data pivot <? kth data (c - 1))%Z eqn:Hcmp.
      * apply Z.ltb_lt in Hcmp.
        destruct (IH (c - 1)%nat ltac:(lia) ltac:(lia) Hp ltac:(lia)) as (H1 & H2 & H3).
        split; [lia|]. split; [|exact H3].
        intros i Hi. destruct (decide (i = c - 1)%nat) as [->|]; [exact Hcmp|apply H2; lia].
      * apply Z.ltb_ge in Hcmp. split; [lia|]. split; [intros; lia|]. intros _. exact Hcmp.
    + apply Nat.ltb_ge in Hlt. split; [lia|]. split; intros; lia.
Qed.

Lemma scan_equal_down_spec (data : list A) (pivot a : nat) :
  forall (fuel b : nat),
    (b <= length data)%nat -> (pivot < length data)%nat ->
    (b <= a + fuel)%nat ->
    let b' := scan_equal_down fuel data pivot a b in
    (b' <= b)%nat /\ ((a <= b)%nat -> (a <= b')%nat)
    /\ (forall i, (b' <= i < b)%nat -> (kth data pivot <= kth data i)%Z)
    /\ ((a < b')%nat -> (kth data (b' - 1) < kth data pivot)%Z).
Proof.
  induction fuel as [|fuel IH]; intros b Hb Hp Hfuel; simpl.
  - split; [lia|]. split; [lia|]. split; intros; lia.
  - destruct (a <? b)%nat eqn:Hlt; cbn [andb].
    + apply Nat.ltb_lt in Hlt. rewrite Less_kth by lia.
      destruct (kth data (b - 1) <? kth data pivot)%Z eqn:Hcmp; cbn [negb].
      * apply Z.ltb_lt in Hcmp. split; [lia|]. split; [lia|]. split; [intros; lia|].
        intros _. exact Hcmp.
      * apply Z.ltb_ge in Hcmp.
        destruct (IH (b - 1)%nat ltac:(lia) Hp ltac:(lia)) as (H1 & H2 & H3 & H4).
        split; [lia|]. split; [lia|]. split; [|exact H4].
        intros i Hi. destruct (decide (i = b - 1)%nat) as [->|]; [exact Hcmp|apply H3; lia].
    + apply Nat.ltb_ge in Hlt. split; [lia|]. split; [lia|]. split; intros; lia.
Qed.

(** **** The partition *)

Lemma partition_loop_spec (lo hi : nat) :
  forall (fuel : nat) (data : list A) (b c : nat) (data' : list A) (b' c' : nat),
    partition_loop fuel data lo b c = (data', b', c') ->
    (lo + 1 <= b)%nat -> (b <= c)%nat -> (c <= hi - 1)%nat -> (hi <= length data)%nat ->
    (c <= b + fuel)%nat ->
    (forall i, (lo + 1 <= i < b)%nat -> (kth data i <= kth data lo)%Z) ->
    (forall i, (c <= i < hi - 1)%nat -> (kth data lo < kth data i)%Z) ->
    seg_perm (lo + 1) (hi - 1) data data'
    /\ b' = c' /\ (lo + 1 <= b')%nat /\ (b' <= hi - 1)%nat
    /\ (forall i, (lo + 1 <= i < b')%nat -> (kth data' i <= kth data' lo)%Z)
    /\ (forall i, (c' <= i < hi - 1)%nat -> (kth data' lo < kth data' i)%Z).
Proof.
  induction fuel as [|fuel IH]; intros data b c data' b' c' Hrun Hb Hbc Hc Hlen Hfuel Hle Hgt.
  - simpl in Hrun. injection Hrun as <- <- <-.
    split; [apply seg_perm_refl; lia|]. split; [lia|]. split; [lia|]. split; [lia|].
    split; assumption.
  - cbn [partition_loop] in Hrun.
    destruct (scan_not_greater_spec data lo c (c - b) b) as (Hb1 & Hle1 & Hex1); try lia.
    set (b1 := scan_not_greater (c - b) data lo b c) in *.
    destruct (scan_greater_down_spec data lo b1 (c - b1) c) as (Hc1 & Hgt1 & Hex2); try lia.
    set (c1 := scan_greater_down (c - b1) data lo b1 c) in *.
    destruct (c1 <=? b1)%nat eqn:Hexit.
    + apply Nat.leb_le in Hexit. injection Hrun as <- <- <-.
      split; [apply seg_perm_refl; lia|]. split; [lia|]. split; [lia|]. split; [lia|].
      split.
      * intros i Hi. destruct (decide (i < b)%nat); [apply Hle; lia|apply Hle1; lia].
      * intros i Hi. destruct (decide (i < c)%nat); [apply Hgt1; lia|apply Hgt; lia].
    + apply Nat.leb_gt in Hexit.
      pose proof (Hex1 ltac:(lia)) as Hkb. pose proof (Hex2 ltac:(lia)) as Hkc.
      assert (Hne : b1 <> (c1 - 1)%nat) by (intros E; rewrite <- E in Hkc; lia).
      assert (Hk2 : forall x, kth (Swap data b1 (c1 - 1)) x
                  = if decide (x = c1 - 1)%nat then kth data b1
                    else if decide (x = b1) then kth data (c1 - 1) else kth data x)
        by (intros x; apply Swap_kth; lia).
      destruct (IH (Swap data b1 (c1 - 1)) (S b1) (c1 - 1)%nat data' b' c' Hrun)
        as (Hperm & Heq & Hlo' & Hhi' & Hle' & Hgt'); try lia.
      * rewrite Swap_length. exact Hlen.
      * intros i Hi. rewrite !Hk2.
        destruct (decide (lo = c1 - 1)%nat); [lia|]. destruct (decide (lo = b1)); [lia|].
        destruct (decide (i = c1 - 1)%nat); [lia|].
        destruct (decide (i = b1)); [lia|].
        destruct (decide (i < b)%nat); [apply Hle; lia|apply Hle1; lia].
      * intros i Hi. rewrite !Hk2.
        destruct (decide (lo = c1 - 1)%nat); [lia|]. destruct (decide (lo = b1)); [lia|].
        destruct (decide (i = c1 - 1)%nat); [lia|].
        destruct (decide (i = b1)); [lia|].
        destruct (decide (i < c)%nat); [apply Hgt1; lia|apply Hgt; lia].
      * split; [|repeat split; assumption].
        eapply seg_perm_trans; [|exact Hperm]. apply Swap_seg_perm; lia.
Qed.

(** The segment [lo, hi) around the pivot value [P]: below [b] the
    keys are at most [P], from [b] to [c] they equal [P], from [c] on
    they are at least [P]. *)
Definition parted (data : list A) (lo hi b c : nat) (P : Z) : Prop :=
  (forall i, (lo + 1 <= i < b)%nat -> (kth data i <= P)%Z)
  /\ (forall i, (b <= i < c)%nat -> kth data i = P)
  /\ (forall i, (c <= i < hi)%nat -> (P <= kth data i)%Z).

Lemma probe_dups_spec (data : list A) (lo hi b : nat) (data' : list A) (b' c' : nat)
    (protect : bool) :
  probe_dups data lo hi b b = (data', b', c', protect) ->
  (12 < hi - lo)%nat -> (hi <= length data)%nat ->
  (lo + 1 <= b)%nat -> (b <= hi - 1)%nat -> (hi - b < (hi - lo) / 4)%nat ->
  parted data lo hi b b (kth data lo) ->
  seg_perm (lo + 1) hi data data'
  /\ (lo + 1 <= b')%nat /\ (b' <= c')%nat /\ (c' <= hi)%nat
  /\ parted data' lo hi b' c' (kth data' lo).
Proof.
  intros Hrun Hbig Hlen Hb Hbhi Hfar (Hle & _ & Hge). unfold probe_dups in Hrun.
  divfact (lo + hi)%nat 2%nat. divfact (hi - lo)%nat 4%nat.
  set (m := ((lo + hi) / 2)%nat) in *.
  (* the first probe *)
  rewrite Less_kth in Hrun by lia.
  set (d1 := if negb (kth data lo <? kth data (hi - 1))%Z
             then Swap data b (hi - 1) else data).
  set (c1 := if negb (kth data lo <? kth data (hi - 1))%Z then S b else b).
  set (n1 := if negb (kth data lo <? kth data (hi - 1))%Z then 1%nat else 0%nat).
  assert (Hrun1 : (let '(b0, dups) :=
                     if negb (Less d1 (b - 1) lo) then ((b - 1)%nat, S n1) else (b, n1) in
                   let '(data0, b1, dups0) :=
                     if negb (Less d1 m lo)
                     then (Swap d1 m (b0 - 1), (b0 - 1)%nat, S dups) else (d1, b0, dups) in
                   (data0, b1, c1, (1 <? dups0)%nat)) = (data', b', c', protect)).
  { unfold d1, c1, n1. destruct (negb (kth data lo <? kth data (hi - 1))%Z); exact Hrun. }
  clear Hrun.
  assert (Hlen1 : length d1 = length data)
    by (unfold d1; destruct (negb _); [apply Swap_length|reflexivity]).
  assert (Hperm1 : seg_perm (lo + 1) hi data d1).
  { unfold d1. destruct (negb _); [apply Swap_seg_perm; lia|apply seg_perm_refl; lia]. }
  assert (Hc1 : (b <= c1)%nat /\ (c1 <= hi)%nat) by (unfold c1; destruct (negb _); lia).
  assert (Hlo1 : kth d1 lo = kth data lo)
    by (apply (seg_perm_kth_out (lo + 1) hi); [exact Hperm1|lia|lia]).
  assert (Hle1 : forall i, (lo + 1 <= i < b)%nat -> (kth d1 i <= kth data lo)%Z).
  { intros i Hi. unfold d1. destruct (negb _); [|apply Hle; exact Hi].
    rewrite Swap_kth by lia.
    destruct (decide (i = hi - 1)%nat); [lia|]. destruct (decide (i = b)); [lia|].
    apply Hle; exact Hi. }
  assert (Heq1 : forall i, (b <= i < c1)%nat -> kth d1 i = kth data lo).
  { intros i Hi. unfold d1, c1 in *.
    destruct (kth data lo <? kth data (hi - 1))%Z eqn:Hcmp; cbn [negb] in *; [lia|].
    apply Z.ltb_ge in Hcmp. assert (i = b) by lia. subst i.
    pose proof (Hge (hi - 1)%nat ltac:(lia)).
    rewrite Swap_kth by lia.
    destruct (decide (b = hi - 1)%nat) as [E|]; [rewrite E; lia|].
    destruct (decide (b = b)); lia. }
  assert (Hge1 : forall i, (c1 <= i < hi)%nat -> (kth data lo <= kth d1 i)%Z).
  { intros i Hi. unfold d1, c1 in *.
    destruct (kth data lo <? kth data (hi - 1))%Z eqn:Hcmp; cbn [negb] in *;
      [apply Hge; lia|].
    rewrite Swap_kth by lia. pose proof (Hge b ltac:(lia)).
    destruct (decide (i = hi - 1)%nat); [lia|]. destruct (decide (i = b)); [lia|].
    apply Hge; lia. }
  clearbody d1 c1 n1. clear Hle Hge.
  (* the second probe *)
  rewrite Less_kth in Hrun1 by lia.
  set (b2 := if negb (kth d1 (b - 1) <? kth d1 lo)%Z then (b - 1)%nat else b).
  set (n2 := if negb (kth d1 (b - 1) <? kth d1 lo)%Z then S n1 else n1).
  assert (Hrun2 : (let '(data0, b1, dups0) :=
                     if negb (Less d1 m lo)
                     then (Swap d1 m (b2 - 1), (b2 - 1)%nat, S n2) else (d1, b2, n2) in
                   (data0, b1, c1, (1 <? dups0)%nat)) = (data', b', c', protect)).
  { unfold b2, n2. destruct (negb (kth d1 (b - 1) <? kth d1 lo)%Z); exact Hrun1. }
  clear Hrun1.
  assert (Hb2 : (b - 1 <= b2)%nat /\ (b2 <= b)%nat) by (unfold b2; destruct (negb _); lia).
  assert (Heq2 : forall i, (b2 <= i < c1)%nat -> kth d1 i = kth data lo).
  { intros i Hi. destruct (decide (b <= i)%nat); [apply Heq1; lia|].
    unfold b2 in *. rewrite Hlo1 in *.
    destruct (kth d1 (b - 1) <? kth data lo)%Z eqn:Hcmp; cbn [negb] in *; [lia|].
    apply Z.ltb_ge in Hcmp. assert (i = b - 1)%nat by lia. subst i.
    pose proof (Hle1 (b - 1)%nat ltac:(lia)). lia. }
  clearbody b2 n2.
  (* the third probe *)
  rewrite Less_kth in Hrun2 by lia. rewrite Hlo1 in Hrun2.
  destruct (kth d1 m <? kth data lo)%Z eqn:Hcmp; cbn [negb] in Hrun2;
    injection Hrun2 as <- <- <- <-.
  - split; [exact Hperm1|]. split; [lia|]. split; [lia|]. split; [lia|].
    rewrite Hlo1. split; [|split].
    + intros i Hi. apply Hle1. lia.
    + exact Heq2.
    + exact Hge1.
  - apply Z.ltb_ge in Hcmp.
    assert (Hkm : kth d1 m = kth data lo) by (pose proof (Hle1 m ltac:(lia)); lia).
    assert (Hk3 : forall x, kth (Swap d1 m (b2 - 1)) x
                = if decide (x = b2 - 1)%nat then kth d1 m
                  else if decide (x = m) then kth d1 (b2 - 1) else kth d1 x)
      by (intros x; apply Swap_kth; lia).
    split.
    { eapply seg_perm_trans; [exact Hperm1|]. apply Swap_seg_perm; lia. }
    split; [lia|]. split; [lia|]. split; [lia|].
    rewrite Hk3. destruct (decide (lo = b2 - 1)%nat); [lia|].
    destruct (decide (lo = m)); [lia|]. rewrite Hlo1.
    split; [|split].
    + intros i Hi. rewrite Hk3.
      destruct (decide (i = b2 - 1)%nat); [lia|].
      destruct (decide (i = m)); [apply Hle1; lia|apply Hle1; lia].
    + intros i Hi. rewrite Hk3.
      destruct (decide (i = b2 - 1)%nat); [exact Hkm|].
      destruct (decide (i = m)); [lia|]. apply Heq2. lia.
    + intros i Hi. rewrite Hk3.
      destruct (decide (i = b2 - 1)%nat); [lia|].
      destruct (decide (i = m)); [lia|]. apply Hge1. lia.
Qed.

Lemma protect_loop_spec (lo hi top : nat) :
  forall (fuel : nat) (data : list A) (a b : nat) (data' : list A) (a' b' : nat),
    protect_loop fuel data lo a b = (data', a', b') ->
    (lo + 1 <= a)%nat -> (lo + 1 <= b)%nat -> (b <= top)%nat -> (top <= hi)%nat ->
    (hi <= length data)%nat ->
    parted data lo hi b top (kth data lo) ->
    seg_perm (lo + 1) hi data data'
    /\ (lo + 1 <= b')%nat /\ (b' <= top)%nat
    /\ parted data' lo hi b' top (kth data' lo).
Proof.
  induction fuel as [|fuel IH];
    intros data a b data' a' b' Hrun Ha Hb Hbt Htop Hlen (Hle & Heq & Hge).
  - simpl in Hrun. injection Hrun as <- <- <-.
    split; [apply seg_perm_refl; lia|]. split; [lia|]. split; [lia|].
    split; [|split]; assumption.
  - cbn [protect_loop] in Hrun.
    destruct (scan_equal_down_spec data lo a (b - a) b) as (Hb1 & Hab1 & Hge1 & Hex1);
      try lia.
    set (b1 := scan_equal_down (b - a) data lo a b) in *.
    assert (Heq1 : forall i, (b1 <= i < top)%nat -> kth data i = kth data lo).
    { intros i Hi. destruct (decide (b <= i)%nat); [apply Heq; lia|].
      pose proof (Hge1 i ltac:(lia)). pose proof (Hle i). 
      assert (lo + 1 <= i)%nat; [|lia].
      destruct (decide (a <= b)%nat); [specialize (Hab1 ltac:(lia)); lia|].
      assert (b1 = b); [|lia]. unfold b1.
      replace (b - a)%nat with 0%nat by lia. reflexivity. }
    destruct (decide (a <= b1)%nat) as [Hab|Hab].
    2:{ replace (scan_less (b1 - a) data lo a b1) with a in Hrun
          by (replace (b1 - a)%nat with 0%nat by lia; reflexivity).
        replace (b1 <=? a)%nat with true in Hrun by (symmetry; apply Nat.leb_le; lia).
        injection Hrun as <- <- <-.
        assert (b1 = b) by (unfold b1; replace (b - a)%nat with 0%nat by lia; reflexivity).
        split; [apply seg_perm_refl; lia|]. split; [lia|]. split; [lia|].
        split; [|split]; try assumption. intros i Hi. apply Hle. lia. }
    destruct (scan_less_spec data lo b1 (b1 - a) a) as (Ha1 & Hlt1 & Hex2); try lia.
    set (a1 := scan_less (b1 - a) data lo a b1) in *.
    destruct (b1 <=? a1)%nat eqn:Hexit.
    + apply Nat.leb_le in Hexit. injection Hrun as <- <- <-.
      split; [apply seg_perm_refl; lia|]. split; [lia|]. split; [lia|].
      split; [|split]; try assumption. intros i Hi. apply Hle. lia.
    + apply Nat.leb_gt in Hexit.
      pose proof (Hex1 ltac:(lia)) as Hkb. pose proof (Hex2 ltac:(lia)) as Hka.
      pose proof (Hle a1 ltac:(lia)) as Hka'.
      assert (Hne : a1 <> (b1 - 1)%nat) by (intros E; rewrite <- E in Hkb; lia).
      assert (Hk2 : forall x, kth (Swap data a1 (b1 - 1)) x
                  = if decide (x = b1 - 1)%nat then kth data a1
                    else if decide (x = a1) then kth data (b1 - 1) else kth data x)
        by (intros x; apply Swap_kth; lia).
      assert (Hlo2 : kth (Swap data a1 (b1 - 1)) lo = kth data lo).
      { rewrite Hk2. destruct (decide (lo = b1 - 1)%nat); [lia|].
        destruct (decide (lo = a1)); [lia|]. reflexivity. }
      destruct (IH (Swap data a1 (b1 - 1)) (S a1) (b1 - 1)%nat data' a' b' Hrun)
        as (Hperm & Hlo' & Hhi' & Hparted); try lia.
      * rewrite Swap_length. exact Hlen.
      * rewrite Hlo2. split; [|split].
        -- intros i Hi. rewrite Hk2.
           destruct (decide (i = b1 - 1)%nat); [lia|].
           destruct (decide (i = a1)); [lia|]. apply Hle. lia.
        -- intros i Hi. rewrite Hk2.
           destruct (decide (i = b1 - 1)%nat); [lia|].
           destruct (decide (i = a1)); [lia|]. apply Heq1. lia.
        -- intros i Hi. rewrite Hk2.
           destruct (decide (i = b1 - 1)%nat); [lia|].
           destruct (decide (i = a1)); [lia|]. apply Hge. lia.
      * split; [|split; [lia|split; [lia|exact Hparted]]].
        eapply seg_perm_trans; [|exact Hperm]. apply Swap_seg_perm; lia.
Qed.

(** **** doPivot *)

Lemma pivot_place (data : list A) (lo hi b c : nat) :
  (lo + 1 <= b)%nat -> (b <= c)%nat -> (c <= hi)%nat -> (hi <= length data)%nat ->
  parted data lo hi b c (kth data lo) ->
  let data' := Swap data lo (b - 1) in
  seg_perm lo hi data data'
  /\ (forall i, (lo <= i < b - 1)%nat -> (kth data' i <= kth data' (b - 1))%Z)
  /\ (forall i, (b - 1 <= i < c)%nat -> kth data' i = kth data' (b - 1))
  /\ (forall i, (c <= i < hi)%nat -> (kth data' (b - 1) <= kth data' i)%Z).
Proof.
  intros Hb Hbc Hc Hlen (Hle & Heq & Hge) data'.
  assert (Hk : forall x, kth data' x
              = if decide (x = b - 1)%nat then kth data lo
                else if decide (x = lo) then kth data (b - 1) else kth data x)
    by (intros x; apply Swap_kth; lia).
  split; [apply Swap_seg_perm; lia|].
  rewrite (Hk (b - 1)%nat). destruct (decide (b - 1 = b - 1)%nat); [|lia].
  split; [|split]; intros i Hi; rewrite Hk.
  - destruct (decide (i = b - 1)%nat); [lia|].
    destruct (decide (i = lo)); apply Hle; lia.
  - destruct (decide (i = b - 1)%nat); [reflexivity|].
    destruct (decide (i = lo)); [lia|]. apply Heq. lia.
  - destruct (decide (i = b - 1)%nat); [lia|].
    destruct (decide (i = lo)); [lia|]. apply Hge. lia.
Qed.

Lemma doPivot_spec (data : list A) (lo hi : nat) (data' : list A) (mlo mhi : nat) :
  doPivot data lo hi = (data', mlo, mhi) ->
  (12 < hi - lo)%nat -> (hi <= length data)%nat ->
  seg_perm lo hi data data'
  /\ (lo <= mlo)%nat /\ (mlo < mhi)%nat /\ (mhi <= hi)%nat
  /\ (forall i, (lo <= i < mlo)%nat -> (kth data' i <= kth data' mlo)%Z)
  /\ (forall i, (mlo <= i < mhi)%nat -> kth data' i = kth data' mlo)
  /\ (forall i, (mhi <= i < hi)%nat -> (kth data' mlo <= kth data' i)%Z).
Proof.
  intros Hrun Hbig Hlen. unfold doPivot in Hrun.
  destruct (pivot_setup_spec data lo hi Hbig Hlen) as [Hperm0 Hends].
  set (d0 := pivot_setup data lo hi) in *.
  assert (Hlen0 : length d0 = length data) by (apply (seg_perm_length lo hi); exact Hperm0).
  destruct (scan_less_spec d0 lo (hi - 1) (hi - 1 - (lo + 1)) (lo + 1))
    as (Ha & Hlt & _); try lia.
  set (a := scan_less (hi - 1 - (lo + 1)) d0 lo (lo + 1) (hi - 1)) in *.
  destruct (partition_loop (hi - 1 - a) d0 lo a (hi - 1)) as [[d1 b1] c1] eqn:Hpart.
  destruct (partition_loop_spec lo hi _ _ _ _ _ _ _ Hpart)
    as (Hperm1 & Hbc & Hb1 & Hb1' & Hle1 & Hgt1); try lia.
  { intros i Hi. pose proof (Hlt i ltac:(lia)). lia. }
  subst c1.
  assert (Hlen1 : length d1 = length data)
    by (rewrite (seg_perm_length _ _ _ _ Hperm1); exact Hlen0).
  assert (Hlo1 : kth d1 lo = kth d0 lo)
    by (apply (seg_perm_kth_out (lo + 1) (hi - 1)); [exact Hperm1|lia|lia]).
  assert (Hhi1 : kth d1 (hi - 1) = kth d0 (hi - 1))
    by (apply (seg_perm_kth_out (lo + 1) (hi - 1)); [exact Hperm1|lia|lia]).
  assert (Hparted1 : parted d1 lo hi b1 b1 (kth d1 lo)).
  { split; [exact Hle1|]. split; [intros i Hi; lia|].
    intros i Hi. destruct (decide (i = hi - 1)%nat) as [->|]; [lia|].
    pose proof (Hgt1 i ltac:(lia)). lia. }
  assert (Hperm01 : seg_perm lo hi data d1).
  { eapply seg_perm_trans; [exact Hperm0|].
    apply (seg_perm_mono (lo + 1) (hi - 1)); [exact Hperm1|lia|lia|lia|lia]. }
  clear Hle1 Hgt1 Hlt Hends Hpart Hperm1 Hperm0 Hlo1 Hhi1.
  (* the probe for duplicates of the pivot *)
  set (r2 := if negb (hi - b1 <? 5)%nat && (hi - b1 <? (hi - lo) / 4)%nat
             then probe_dups d1 lo hi b1 b1 else (d1, b1, b1, (hi - b1 <? 5)%nat)) in Hrun.
  assert (H2 : exists d2 b2 c2 protect,
             r2 = (d2, b2, c2, protect) /\ seg_perm lo hi data d2
             /\ (lo + 1 <= b2)%nat /\ (b2 <= c2)%nat /\ (c2 <= hi)%nat
             /\ parted d2 lo hi b2 c2 (kth d2 lo)).
  { unfold r2. destruct (negb (hi - b1 <? 5)%nat && (hi - b1 <? (hi - lo) / 4)%nat) eqn:Hprobe.
    - apply andb_true_iff in Hprobe as [_ Hfar]. apply Nat.ltb_lt in Hfar.
      destruct (probe_dups d1 lo hi b1 b1) as [[[d2 b2] c2] protect] eqn:Hpd.
      destruct (probe_dups_spec _ _ _ _ _ _ _ _ Hpd) as (Hperm2 & Hlo2 & Hbc2 & Hc2 & Hp2);
        try lia; [exact Hparted1|].
      exists d2, b2, c2, protect. split; [reflexivity|]. split; [|auto].
      eapply seg_perm_trans; [exact Hperm01|].
      apply (seg_perm_mono (lo + 1) hi); [exact Hperm2|lia|lia|lia|lia].
    - exists d1, b1, b1, (hi - b1 <? 5)%nat. split; [reflexivity|].
      split; [exact Hperm01|]. split; [lia|]. split; [lia|]. split; [lia|exact Hparted1]. }
  destruct H2 as (d2 & b2 & c2 & protect & -> & Hperm2 & Hlo2 & Hbc2 & Hc2 & Hp2).
  assert (Hlen2 : length d2 = length data) by (apply (seg_perm_length lo hi); exact Hperm2).
  (* the protection against many duplicates *)
  set (r3 := if protect
             then let '(d, _, b) := protect_loop (b2 - a) d2 lo a b2 in (d, b)
             else (d2, b2)) in Hrun.
  assert (H3 : exists d3 b3,
             r3 = (d3, b3) /\ seg_perm lo hi data d3
             /\ (lo + 1 <= b3)%nat /\ (b3 <= c2)%nat
             /\ parted d3 lo hi b3 c2 (kth d3 lo)).
  { unfold r3. destruct protect.
    - destruct (protect_loop (b2 - a) d2 lo a b2) as [[d3 a3] b3] eqn:Hpl.
      destruct (protect_loop_spec lo hi c2 _ _ _ _ _ _ _ Hpl) as (Hperm3 & Hlo3 & Hhi3 & Hp3);
        try lia; [exact Hp2|].
      exists d3, b3. split; [reflexivity|]. split; [|auto].
      eapply seg_perm_trans; [exact Hperm2|].
      apply (seg_perm_mono (lo + 1) hi); [exact Hperm3|lia|lia|lia|lia].
    - exists d2, b2. split; [reflexivity|]. split; [exact Hperm2|].
      split; [lia|]. split; [lia|exact Hp2]. }
  destruct H3 as (d3 & b3 & -> & Hperm3 & Hlo3 & Hbc3 & Hp3).
  assert (Hlen3 : length d3 = length data) by (apply (seg_perm_length lo hi); exact Hperm3).
  injection Hrun as <- <- <-.
  destruct (pivot_place d3 lo hi b3 c2) as (Hperm & Hle & Heq & Hge); try lia; [exact Hp3|].
  split; [eapply seg_perm_trans; [exact Hperm3|exact Hperm]|].
  split; [lia|]. split; [lia|]. split; [lia|]. split; [exact Hle|]. split; [exact Heq|exact Hge].
Qed.

(** **** quickSort *)

Lemma sorted_seg_frame (data data' : list A) (lo hi : nat) :
  (forall i, (lo <= i < hi)%nat -> kth data' i = kth data i) ->
  sorted_seg data lo hi -> sorted_seg data' lo hi.
Proof.
  intros Hsame Hs i j Hi Hij Hj. rewrite !Hsame by lia. apply Hs; assumption.
Qed.

Lemma sorted_join (data : list A) (a mlo mhi b : nat) (P : Z) :
  sorted_seg data a mlo -> sorted_seg data mhi b ->
  (forall i, (a <= i < mlo)%nat -> (kth data i <= P)%Z) ->
  (forall i, (mlo <= i < mhi)%nat -> kth data i = P) ->
  (forall i, (mhi <= i < b)%nat -> (P <= kth data i)%Z) ->
  sorted_seg data a b.
Proof.
  intros Hs1 Hs2 Hle Heq Hge i j Hi Hij Hj.
  destruct (decide (j < mlo)%nat); [apply Hs1; lia|].
  destruct (decide (mhi <= i)%nat); [apply Hs2; lia|].
  assert (kth data i <= P)%Z
    by (destruct (decide (i < mlo)%nat); [apply Hle; lia|rewrite Heq by lia; lia]).
  assert (P <= kth data j)%Z
    by (destruct (decide (j < mhi)%nat); [rewrite Heq by lia; lia|apply Hge; lia]).
  lia.
Qed.

Lemma quickSort_spec :
  forall (depth : nat) (data : list A) (a b : nat),
    (a <= b)%nat -> (b <= length data)%nat ->
    seg_perm a b data (quickSort depth data a b)
    /\ sorted_seg (quickSort depth data a b) a b.
Proof.
  induction depth as [|depth IH]; intros data a b Hab Hlen.
  - simpl. destruct (12 <? b - a)%nat; [apply heapSort_spec|apply small_sort_spec]; assumption.
  - cbn [quickSort]. destruct (12 <? b - a)%nat eqn:Hbig; [|apply small_sort_spec; assumption].
    apply Nat.ltb_lt in Hbig.
    destruct (doPivot data a b) as [[d1 mlo] mhi] eqn:Hpiv.
    destruct (doPivot_spec _ _ _ _ _ _ Hpiv Hbig Hlen)
      as (Hperm1 & Hmlo & Hmid & Hmhi & Hle & Heq & Hge).
    assert (Hlen1 : length d1 = length data) by (apply (seg_perm_length a b); exact Hperm1).
    set (P := kth d1 mlo) in *.
    destruct (mlo - a <? b - mhi)%nat.
    + destruct (IH d1 a mlo) as [Hp2 Hs2]; [lia|lia|].
      set (d2 := quickSort depth d1 a mlo) in *.
      assert (Hlen2 : length d2 = length data)
        by (rewrite (seg_perm_length _ _ _ _ Hp2); exact Hlen1).
      destruct (IH d2 mhi b) as [Hp3 Hs3]; [lia|lia|].
      set (d3 := quickSort depth d2 mhi b) in *.
      split.
      * eapply seg_perm_trans; [exact Hperm1|]. eapply seg_perm_trans.
        -- apply (seg_perm_mono a mlo a b); [exact Hp2|lia|lia|lia|lia].
        -- apply (seg_perm_mono mhi b a b); [exact Hp3|lia|lia|lia|lia].
      * apply (sorted_join d3 a mlo mhi b P).
        -- apply (sorted_seg_frame d2); [|exact Hs2].
           intros i Hi. apply (seg_perm_kth_out mhi b); [exact Hp3|lia|lia].
        -- exact Hs3.
        -- intros i Hi. rewrite (seg_perm_kth_out mhi b d2 d3 i Hp3) by lia.
           apply (seg_perm_bound a mlo a mlo d1 d2 (fun k => (k <= P)%Z) Hp2); try lia.
           exact Hle.
        -- intros i Hi. rewrite (seg_perm_kth_out mhi b d2 d3 i Hp3) by lia.
           rewrite (seg_perm_kth_out a mlo d1 d2 i Hp2) by lia. apply Heq. lia.
        -- apply (seg_perm_bound mhi b mhi b d2 d3 (fun k => (P <= k)%Z) Hp3); try lia.
           intros i Hi. rewrite (seg_perm_kth_out a mlo d1 d2 i Hp2) by lia. apply Hge. lia.
    + destruct (IH d1 mhi b) as [Hp2 Hs2]; [lia|lia|].
      set (d2 := quickSort depth d1 mhi b) in *.
      assert (Hlen2 : length d2 = length data)
        by (rewrite (seg_perm_length _ _ _ _ Hp2); exact Hlen1).
      destruct (IH d2 a mlo) as [Hp3 Hs3]; [lia|lia|].
      set (d3 := quickSort depth d2 a mlo) in *.
      split.
      * eapply seg_perm_trans; [exact Hperm1|]. eapply seg_perm_trans.
        -- apply (seg_perm_mono mhi b a b); [exact Hp2|lia|lia|lia|lia].
        -- apply (seg_perm_mono a mlo a b); [exact Hp3|lia|lia|lia|lia].
      * apply (sorted_join d3 a mlo mhi b P).
        -- exact Hs3.
        -- apply (sorted_seg_frame d2); [|exact Hs2].
           intros i Hi. apply (seg_perm_kth_out a mlo); [exact Hp3|lia|lia].
        -- apply (seg_perm_bound a mlo a mlo d2 d3 (fun k => (k <= P)%Z) Hp3); try lia.
           intros i Hi. rewrite (seg_perm_kth_out mhi b d1 d2 i Hp2) by lia. apply Hle. lia.
        -- intros i Hi. rewrite (seg_perm_kth_out a mlo d2 d3 i Hp3) by lia.
           rewrite (seg_perm_kth_out mhi b d1 d2 i Hp2) by lia. apply Heq. lia.
        -- intros i Hi. rewrite (seg_perm_kth_out a mlo d2 d3 i Hp3) by lia.
           apply (seg_perm_bound mhi b mhi b d1 d2 (fun k => (P <= k)%Z) Hp2); try lia.
           exact Hge.
Qed.

Lemma Sort_spec (data : list A) :
  data ≡ₚ Sort data /\ sorted_seg (Sort data) 0 (length data).
Proof.
  unfold Sort. destruct (quickSort_spec (maxDepth (length data)) data 0 (length data))
    as [Hp Hs]; [lia|lia|].
  split; [apply (seg_perm_Permutation 0 (length data)); exact Hp|exact Hs].
Qed.

End Generic.

End GoSort.

(** ** Small slices: the insertion sort keeps equal elements in order

    A slice of at most 6 elements is sorted by [insertionSort] alone
    (the pass with gap 6 has nothing to compare), and [insertionSort]
    exchanges two neighbours only when the later one is less than the
    earlier one. *)

Module GoSortSmall.

Import GoSort.

Local Close Scope Z_scope.

Section Stable.

Context {A : Type}.
Variable less : A -> A -> bool.

(** Some [x] stands before some [y] in the slice. *)
Definition before (data : list A) (x y : A) : Prop :=
  exists i j, i < j /\ data !! i = Some x /\ data !! j = Some y.

Lemma insertion_inner_length (a : nat) :
  forall (j : nat) (data : list A), length (insertion_inner less data a j) = length data.
Proof.
  induction j as [|j IH]; intros data; [reflexivity|]. cbn [insertion_inner].
  destruct ((a <? S j) && Less less data (S j) j); [|reflexivity].
  rewrite IH. apply Swap_length.
Qed.

Lemma Swap_neighbours_before (data : list A) (j : nat) (x y : A) :
  S j < length data ->
  Less less data (S j) j = true ->
  less y x = false ->
  before data x y -> before (Swap data (S j) j) x y.
Proof.
  intros Hlen Hless Hyx (i1 & i2 & Hlt & H1 & H2).
  pose proof (Swap_lookup data (S j) j) as Hlook.
  set (sigma := fun k => if decide (k = j) then S j else if decide (k = S j) then j else k).
  assert (Hsigma : forall k, Swap data (S j) j !! sigma k = data !! k).
  { intros k. rewrite Hlook by lia. unfold sigma.
    destruct (decide (k = j)) as [->|Hkj].
    - destruct (decide (S j = j)); [lia|]. destruct (decide (S j = S j)); [reflexivity|lia].
    - destruct (decide (k = S j)) as [->|Hks].
      + destruct (decide (j = j)); [reflexivity|lia].
      + destruct (decide (k = j)); [lia|]. destruct (decide (k = S j)); [lia|]. reflexivity. }
  destruct (decide (i1 = j /\ i2 = S j)) as [[-> ->]|Hother].
  - exfalso. unfold Less in Hless. rewrite H1, H2 in Hless. congruence.
  - exists (sigma i1), (sigma i2). rewrite !Hsigma. split; [|split; assumption].
    unfold sigma. repeat (destruct (decide _)); lia.
Qed.

Lemma insertion_inner_before (a : nat) (x y : A) :
  less y x = false ->
  forall (j : nat) (data : list A),
    j < length data ->
    before data x y -> before (insertion_inner less data a j) x y.
Proof.
  intros Hyx. induction j as [|j IH]; intros data Hlen Hbefore; [exact Hbefore|].
  cbn [insertion_inner].
  destruct ((a <? S j) && Less less data (S j) j) eqn:Hcond; [|exact Hbefore].
  apply andb_true_iff in Hcond as [_ Hless].
  apply IH; [rewrite Swap_length; lia|].
  apply Swap_neighbours_before; assumption.
Qed.

Lemma insertionSort_before (data : list A) (a b : nat) (x y : A) :
  b <= length data ->
  less y x = false ->
  before data x y -> before (insertionSort less data a b) x y.
Proof.
  intros Hlen Hyx. unfold insertionSort.
  assert (Hgen : forall (js : list nat) (d : list A),
             Forall (fun j => j < length d) js ->
             before d x y ->
             before (fold_left (fun d i => insertion_inner less d a i) js d) x y).
  { induction js as [|j js IH]; intros d Hjs Hbefore; [exact Hbefore|].
    apply Forall_cons in Hjs as [Hj Hjs]. cbn [fold_left]. apply IH.
    - eapply Forall_impl; [exact Hjs|]. intros k Hk. rewrite insertion_inner_length. exact Hk.
    - apply insertion_inner_before; assumption. }
  apply Hgen. apply Forall_forall. intros j Hj. apply elem_of_seq in Hj. lia.
Qed.

(** On at most 6 elements [Sort] is the insertion sort. *)
Lemma Sort_small (data : list A) :
  length data <= 6 ->
  Sort less data
  = if 1 <? length data then insertionSort less data 0 (length data) else data.
Proof.
  intros Hlen. unfold Sort.
  assert (Hq : forall depth,
             quickSort less depth data 0 (length data) = small_sort less data 0 (length data)).
  { intros depth. replace (quickSort less depth data 0 (length data))
      with (if 12 <? length data - 0
            then match depth with
                 | O => heapSort less data 0 (length data)
                 | S depth' =>
                     let '(data1, mlo, mhi) := doPivot less data 0 (length data) in
                     if mlo - 0 <? length data - mhi
                     then quickSort less depth' (quickSort less depth' data1 0 mlo) mhi
                            (length data)
                     else quickSort less depth' (quickSort less depth' data1 mhi (length data))
                            0 mlo
                 end
            else small_sort less data 0 (length data))
      by (destruct depth; reflexivity).
    replace (12 <? length data - 0) with false by (symmetry; apply Nat.ltb_ge; lia).
    reflexivity. }
  rewrite Hq. unfold small_sort, shell_pass. rewrite Nat.sub_0_r.
  replace (length data - (0 + 6)) with 0 by lia. reflexivity.
Qed.

Lemma Sort_small_before (data : list A) (x y : A) :
  length data <= 6 ->
  less y x = false ->
  before data x y -> before (Sort less data) x y.
Proof.
  intros Hlen Hyx Hbefore. rewrite (Sort_small data Hlen).
  destruct (1 <? length data); [|exact Hbefore].
  apply insertionSort_before; [lia|exact Hyx|exact Hbefore].
Qed.

End Stable.

(** **** A slice that is in order already

    On at most 12 elements [Sort] makes its pass with gap 6 and its
    insertion sort, and neither moves anything in a slice where no
    element is less than an earlier one. *)

Section Ordered.

Context {A : Type}.
Variable less : A -> A -> bool.

Definition ordered (data : list A) : Prop :=
  forall i j, i < j -> j < length data -> Less less data j i = false.

Lemma shell_pass_ordered (data : list A) (a b : nat) :
  b <= length data -> ordered data -> shell_pass less data a b = data.
Proof.
  intros Hlen Hord. unfold shell_pass.
  assert (Hgen : forall js : list nat,
             Forall (fun i => 6 <= i /\ i < length data) js ->
             fold_left (fun d i => if Less less d i (i - 6) then Swap d i (i - 6) else d)
               js data = data).
  { induction js as [|i js IH]; intros Hjs; [reflexivity|].
    apply Forall_cons in Hjs as [[H6 Hi] Hjs]. cbn [fold_left].
    rewrite (Hord (i - 6) i) by lia. apply IH. exact Hjs. }
  apply Hgen. apply Forall_forall. intros i Hi. apply elem_of_seq in Hi. lia.
Qed.

Lemma insertion_inner_ordered (data : list A) (a j : nat) :
  j < length data -> ordered data -> insertion_inner less data a j = data.
Proof.
  intros Hj Hord. destruct j as [|j]; [reflexivity|]. cbn [insertion_inner].
  rewrite (Hord j (S j)) by lia. rewrite andb_false_r. reflexivity.
Qed.

Lemma insertionSort_ordered (data : list A) (a b : nat) :
  b <= length data -> ordered data -> insertionSort less data a b = data.
Proof.
  intros Hlen Hord. unfold insertionSort.
  assert (Hgen : forall js : list nat,
             Forall (fun j => j < length data) js ->
             fold_left (fun d i => insertion_inner less d a i) js data = data).
  { induction js as [|j js IH]; intros Hjs; [reflexivity|].
    apply Forall_cons in Hjs as [Hj Hjs]. cbn [fold_left].
    rewrite (insertion_inner_ordered data a j Hj Hord). apply IH. exact Hjs. }
  apply Hgen. apply Forall_forall. intros j Hj. apply elem_of_seq in Hj. lia.
Qed.

Lemma Sort_ordered (data : list A) :
  length data <= 12 -> ordered data -> Sort less data = data.
Proof.
  intros Hlen Hord. unfold Sort.
  assert (Hq : forall depth,
             quickSort less depth data 0 (length data) = small_sort less data 0 (length data)).
  { intros depth. replace (quickSort less depth data 0 (length data))
      with (if 12 <? length data - 0
            then match depth with
                 | O => heapSort less data 0 (length data)
                 | S depth' =>
                     let '(data1, mlo, mhi) := doPivot less data 0 (length data) in
                     if mlo - 0 <? length data - mhi
                     then quickSort less depth' (quickSort less depth' data1 0 mlo) mhi
                            (length data)
                     else quickSort less depth' (quickSort less depth' data1 mhi (length data))
                            0 mlo
                 end
            else small_sort less data 0 (length data))
      by (destruct depth; reflexivity).
    replace (12 <? length data - 0) with false by (symmetry; apply Nat.ltb_ge; lia).
    reflexivity. }
  rewrite Hq. unfold small_sort. destruct (1 <? length data - 0); [|reflexivity].
  rewrite shell_pass_ordered by (lia || exact Hord).
  apply insertionSort_ordered; [lia|exact Hord].
Qed.

End Ordered.

End GoSortSmall.

(** ** The sort only compares elements of the slice

    Two comparisons that agree on the elements of a slice sort it alike. *)

Module GoSortExt.

Import GoSort.

Local Close Scope Z_scope.

Section Agree.

Context {A : Type}.
Variables less less' : A -> A -> bool.
Variable P : A -> Prop.
Hypothesis agree : forall x y, P x -> P y -> less x y = less' x y.

Lemma Less_ext (data : list A) (i j : nat) :
  Forall P data -> Less less data i j = Less less' data i j.
Proof.
  intros HP. unfold Less.
  destruct (data !! i) as [x|] eqn:Hx; [|reflexivity].
  destruct (data !! j) as [y|] eqn:Hy; [|reflexivity].
  apply agree; eapply Forall_lookup_1; eassumption.
Qed.

Lemma Swap_Forall (data : list A) (i j : nat) :
  Forall P data -> Forall P (Swap data i j).
Proof.
  intros HP. unfold Swap.
  destruct (data !! i) as [x|] eqn:Hx; [|exact HP].
  destruct (data !! j) as [y|] eqn:Hy; [|exact HP].
  apply Forall_insert; [apply Forall_insert; [exact HP|]|];
    eapply Forall_lookup_1; eassumption.
Qed.

(** What a step of the sort keeps: the slice it makes is the same under
    both comparisons, and its elements are still in [P]. *)
Definition alike (r r' : list A) : Prop := r = r' /\ Forall P r.

Lemma alike_refl (data : list A) : Forall P data -> alike data data.
Proof. intros H. split; [reflexivity|exact H]. Qed.

Lemma alike_Swap (data : list A) (i j : nat) :
  Forall P data -> alike (Swap data i j) (Swap data i j).
Proof. intros H. apply alike_refl. apply Swap_Forall. exact H. Qed.

Lemma fold_left_alike {I : Type} (f f' : list A -> I -> list A) (l : list I) :
  (forall d i, Forall P d -> alike (f d i) (f' d i)) ->
  forall data, Forall P data -> alike (fold_left f l data) (fold_left f' l data).
Proof.
  intros Hf. induction l as [|i l IH]; intros data HP; [apply alike_refl; exact HP|].
  cbn [fold_left]. destruct (Hf data i HP) as [<- HP']. apply IH. exact HP'.
Qed.

Lemma insertion_inner_ext (a : nat) :
  forall (j : nat) (data : list A),
    Forall P data -> alike (insertion_inner less data a j) (insertion_inner less' data a j).
Proof.
  induction j as [|j IH]; intros data HP; [apply alike_refl; exact HP|].
  cbn [insertion_inner]. rewrite (Less_ext data (S j) j HP).
  destruct ((a <? S j) && Less less' data (S j) j).
  - apply IH. apply Swap_Forall. exact HP.
  - apply alike_refl. exact HP.
Qed.

Lemma insertionSort_ext (data : list A) (a b : nat) :
  Forall P data -> alike (insertionSort less data a b) (insertionSort less' data a b).
Proof.
  intros HP. unfold insertionSort. apply fold_left_alike; [|exact HP].
  intros d i Hd. apply insertion_inner_ext. exact Hd.
Qed.

Lemma siftDown_loop_ext (hi first : nat) :
  forall (fuel : nat) (data : list A) (root : nat),
    Forall P data ->
    alike (siftDown_loop less fuel data root hi first)
      (siftDown_loop less' fuel data root hi first).
Proof.
  induction fuel as [|fuel IH]; intros data root HP; [apply alike_refl; exact HP|].
  cbn [siftDown_loop]. rewrite !(Less_ext data _ _ HP).
  destruct (hi <=? 2 * root + 1); [apply alike_refl; exact HP|].
  destruct (negb _); [apply alike_refl; exact HP|].
  apply IH. apply Swap_Forall. exact HP.
Qed.

Lemma siftDown_ext (data : list A) (lo hi first : nat) :
  Forall P data -> alike (siftDown less data lo hi first) (siftDown less' data lo hi first).
Proof. intros HP. apply siftDown_loop_ext. exact HP. Qed.

Lemma heapSort_ext (data : list A) (a b : nat) :
  Forall P data -> alike (heapSort less data a b) (heapSort less' data a b).
Proof.
  intros HP. unfold heapSort.
  destruct (fold_left_alike
              (fun d i => siftDown less d i (b - a) a)
              (fun d i => siftDown less' d i (b - a) a)
              (countdown ((b - a - 1) / 2 + 1))
              ltac:(intros d i Hd; apply siftDown_ext; exact Hd) data HP) as [<- HP1].
  apply fold_left_alike; [|exact HP1].
  intros d i Hd. apply siftDown_ext. apply Swap_Forall. exact Hd.
Qed.

Lemma medianOfThree_ext (data : list A) (m1 m0 m2 : nat) :
  Forall P data ->
  alike (medianOfThree less data m1 m0 m2) (medianOfThree less' data m1 m0 m2).
Proof.
  intros HP. unfold medianOfThree. rewrite (Less_ext data m1 m0 HP).
  set (d1 := if Less less' data m1 m0 then Swap data m1 m0 else data).
  assert (H1 : Forall P d1) by (unfold d1; destruct (Less less' data m1 m0);
                                [apply Swap_Forall|]; exact HP).
  rewrite (Less_ext d1 m2 m1 H1). destruct (Less less' d1 m2 m1); [|apply alike_refl; exact H1].
  assert (H2 : Forall P (Swap d1 m2 m1)) by (apply Swap_Forall; exact H1).
  rewrite (Less_ext _ m1 m0 H2).
  destruct (Less less' (Swap d1 m2 m1) m1 m0); apply alike_refl;
    [apply Swap_Forall|]; exact H2.
Qed.

Lemma scan_less_ext (data : list A) (pivot c : nat) :
  Forall P data ->
  forall fuel a, scan_less less fuel data pivot a c = scan_less less' fuel data pivot a c.
Proof.
  intros HP. induction fuel as [|fuel IH]; intros a; [reflexivity|].
  cbn [scan_less]. rewrite (Less_ext data _ _ HP), IH. reflexivity.
Qed.

Lemma scan_not_greater_ext (data : list A) (pivot c : nat) :
  Forall P data ->
  forall fuel b,
    scan_not_greater less fuel data pivot b c = scan_not_greater less' fuel data pivot b c.
Proof.
  intros HP. induction fuel as [|fuel IH]; intros b; [reflexivity|].
  cbn [scan_not_greater]. rewrite (Less_ext data _ _ HP), IH. reflexivity.
Qed.

Lemma scan_greater_down_ext (data : list A) (pivot b : nat) :
  Forall P data ->
  forall fuel c,
    scan_greater_down less fuel data pivot b c = scan_greater_down less' fuel data pivot b c.
Proof.
  intros HP. induction fuel as [|fuel IH]; intros c; [reflexivity|].
  cbn [scan_greater_down]. rewrite (Less_ext data _ _ HP), IH. reflexivity.
Qed.

Lemma scan_equal_down_ext (data : list A) (pivot a : nat) :
  Forall P data ->
  forall fuel b,
    scan_equal_down less fuel data pivot a b = scan_equal_down less' fuel data pivot a b.
Proof.
  intros HP. induction fuel as [|fuel IH]; intros b; [reflexivity|].
  cbn [scan_equal_down]. rewrite (Less_ext data _ _ HP), IH. reflexivity.
Qed.

Lemma partition_loop_ext (pivot : nat) :
  forall (fuel : nat) (data : list A) (b c : nat),
    Forall P data ->
    partition_loop less fuel data pivot b c = partition_loop less' fuel data pivot b c
    /\ Forall P (partition_loop less fuel data pivot b c).1.1.
Proof.
  induction fuel as [|fuel IH]; intros data b c HP; [split; [reflexivity|exact HP]|].
  cbn [partition_loop].
  rewrite (scan_not_greater_ext data pivot c HP).
  rewrite (scan_greater_down_ext data pivot _ HP).
  destruct (_ <=? _); [split; [reflexivity|exact HP]|].
  apply IH. apply Swap_Forall. exact HP.
Qed.

Lemma protect_loop_ext (pivot : nat) :
  forall (fuel : nat) (data : list A) (a b : nat),
    Forall P data ->
    protect_loop less fuel data pivot a b = protect_loop less' fuel data pivot a b
    /\ Forall P (protect_loop less fuel data pivot a b).1.1.
Proof.
  induction fuel as [|fuel IH]; intros data a b HP; [split; [reflexivity|exact HP]|].
  cbn [protect_loop].
  rewrite (scan_equal_down_ext data pivot a HP).
  rewrite (scan_less_ext data pivot _ HP).
  destruct (_ <=? _); [split; [reflexivity|exact HP]|].
  apply IH. apply Swap_Forall. exact HP.
Qed.

Lemma pivot_setup_ext (data : list A) (lo hi : nat) :
  Forall P data -> alike (pivot_setup less data lo hi) (pivot_setup less' data lo hi).
Proof.
  intros HP. unfold pivot_setup. destruct (40 <? hi - lo).
  - destruct (medianOfThree_ext data lo (lo + (hi - lo) / 8) (lo + 2 * ((hi - lo) / 8)) HP)
      as [<- H1].
    destruct (medianOfThree_ext _ ((lo + hi) / 2) ((lo + hi) / 2 - (hi - lo) / 8)
                ((lo + hi) / 2 + (hi - lo) / 8) H1) as [<- H2].
    destruct (medianOfThree_ext _ (hi - 1) (hi - 1 - (hi - lo) / 8)
                (hi - 1 - 2 * ((hi - lo) / 8)) H2) as [<- H3].
    apply medianOfThree_ext. exact H3.
  - apply medianOfThree_ext. exact HP.
Qed.

Lemma probe_dups_ext (data : list A) (lo hi b c : nat) :
  Forall P data ->
  probe_dups less data lo hi b c = probe_dups less' data lo hi b c
  /\ Forall P (probe_dups less data lo hi b c).1.1.1.
Proof.
  intros HP. unfold probe_dups. rewrite (Less_ext data lo (hi - 1) HP).
  destruct (negb (Less less' data lo (hi - 1))); cbv beta iota zeta.
  - assert (H1 : Forall P (Swap data c (hi - 1))) by (apply Swap_Forall; exact HP).
    rewrite !(Less_ext _ _ _ H1).
    destruct (negb (Less less' (Swap data c (hi - 1)) (b - 1) lo)); cbv beta iota zeta;
      destruct (negb (Less less' (Swap data c (hi - 1)) ((lo + hi) / 2) lo));
      (split; [reflexivity|]); cbn [fst];
      first [exact H1|apply Swap_Forall; exact H1].
  - rewrite !(Less_ext _ _ _ HP).
    destruct (negb (Less less' data (b - 1) lo)); cbv beta iota zeta;
      destruct (negb (Less less' data ((lo + hi) / 2) lo));
      (split; [reflexivity|]); cbn [fst];
      first [exact HP|apply Swap_Forall; exact HP].
Qed.

Lemma doPivot_ext (data : list A) (lo hi : nat) :
  Forall P data ->
  doPivot less data lo hi = doPivot less' data lo hi
  /\ Forall P (doPivot less data lo hi).1.1.
Proof.
  intros HP. unfold doPivot.
  destruct (pivot_setup_ext data lo hi HP) as [<- H1].
  set (d1 := pivot_setup less data lo hi) in *.
  rewrite (scan_less_ext d1 lo (hi - 1) H1).
  set (a := scan_less less' (hi - 1 - (lo + 1)) d1 lo (lo + 1) (hi - 1)).
  destruct (partition_loop_ext lo (hi - 1 - a) d1 a (hi - 1) H1) as [<- H2].
  destruct (partition_loop less (hi - 1 - a) d1 lo a (hi - 1)) as [[d2 b] c].
  cbn [fst] in H2.
  destruct (negb (hi - c <? 5) && (hi - c <? (hi - lo) / 4)).
  - destruct (probe_dups_ext d2 lo hi b c H2) as [<- H3].
    destruct (probe_dups less d2 lo hi b c) as [[[d3 b3] c3] protect].
    cbn [fst] in H3. destruct protect.
    + destruct (protect_loop_ext lo (b3 - a) d3 a b3 H3) as [<- H4].
      destruct (protect_loop less (b3 - a) d3 lo a b3) as [[d4 a4] b4].
      cbn [fst] in H4. split; [reflexivity|]. cbn. apply Swap_Forall. exact H4.
    + split; [reflexivity|]. cbn. apply Swap_Forall. exact H3.
  - destruct (hi - c <? 5).
    + destruct (protect_loop_ext lo (b - a) d2 a b H2) as [<- H4].
      destruct (protect_loop less (b - a) d2 lo a b) as [[d4 a4] b4].
      cbn [fst] in H4. split; [reflexivity|]. cbn. apply Swap_Forall. exact H4.
    + split; [reflexivity|]. cbn. apply Swap_Forall. exact H2.
Qed.

Lemma shell_pass_ext (data : list A) (a b : nat) :
  Forall P data -> alike (shell_pass less data a b) (shell_pass less' data a b).
Proof.
  intros HP. unfold shell_pass. apply fold_left_alike; [|exact HP].
  intros d i Hd. rewrite (Less_ext d _ _ Hd).
  destruct (Less less' d i (i - 6)); apply alike_refl; [apply Swap_Forall|]; exact Hd.
Qed.

Lemma small_sort_ext (data : list A) (a b : nat) :
  Forall P data -> alike (small_sort less data a b) (small_sort less' data a b).
Proof.
  intros HP. unfold small_sort. destruct (1 <? b - a); [|apply alike_refl; exact HP].
  destruct (shell_pass_ext data a b HP) as [<- H1]. apply insertionSort_ext. exact H1.
Qed.

Lemma quickSort_ext :
  forall (depth : nat) (data : list A) (a b : nat),
    Forall P data -> alike (quickSort less depth data a b) (quickSort less' depth data a b).
Proof.
  induction depth as [|depth IH]; intros data a b HP.
  - cbn [quickSort]. destruct (12 <? b - a);
      [apply heapSort_ext|apply small_sort_ext]; exact HP.
  - cbn [quickSort]. destruct (12 <? b - a); [|apply small_sort_ext; exact HP].
    destruct (doPivot_ext data a b HP) as [<- H1].
    destruct (doPivot less data a b) as [[d1 mlo] mhi]. cbn [fst] in H1.
    destruct (mlo - a <? b - mhi).
    + destruct (IH d1 a mlo H1) as [<- H2]. apply IH. exact H2.
    + destruct (IH d1 mhi b H1) as [<- H2]. apply IH. exact H2.
Qed.

Lemma Sort_ext (data : list A) :
  Forall P data -> Sort less data = Sort less' data.
Proof. intros HP. unfold Sort. apply quickSort_ext. exact HP. Qed.

End Agree.

End GoSortExt.

(** ** sort.Sort since Go 1.19: pattern-defeating quicksort

    [insertionSort] and [heapSort] are those of the earlier releases. *)

Module GoPdqsort.

(** The hint for [pdqsort] when choosing the pivot. *)
Inductive sortedHint : Type :=
| unknownHint
| increasingHint
| decreasingHint.

Import GoSort.

Local Close Scope Z_scope.

Section Generic.

Context {A : Type}.
Variable less : A -> A -> bool.

(** [(r *xorshift) Next()]: the next state of the generator that
    [breakPatterns] draws from, on 64 bits.  The shifts it is made of
    are not the same in every release; nothing is assumed of it. *)
Variable xorshift_Next : N -> N.

Local Abbreviation Less := (GoSort.Less less).

(** [order2] returns [x, y] where [data[x] <= data[y]], where [x, y] is
    [a, b] or [b, a]; the last component is the count of swaps. *)
Definition order2 (data : list A) (a b swaps : nat) : nat * nat * nat :=
  if Less data b a then (b, a, S swaps) else (a, b, swaps).

(** [median] returns [x] where [data[x]] is the median of [data[a]],
    [data[b]], [data[c]], where [x] is [a], [b] or [c]. *)
Definition median (data : list A) (a b c swaps : nat) : nat * nat :=
  let '(a, b, swaps) := order2 data a b swaps in
  let '(b, c, swaps) := order2 data b c swaps in
  let '(a, b, swaps) := order2 data a b swaps in
  (b, swaps).

(** [medianAdjacent] finds the median of [data[a-1]], [data[a]],
    [data[a+1]] and stores the index into [a]. *)
Definition medianAdjacent (data : list A) (a swaps : nat) : nat * nat :=
  median data (a - 1) a (a + 1) swaps.

(** [switch swaps]: no swap, [maxSwaps] of them, or some. *)
Definition hint_of (swaps : nat) : sortedHint :=
  match swaps with
  | 0 => increasingHint
  | 12 => decreasingHint
  | _ => unknownHint
  end.

(** [choosePivot] chooses a pivot in [data[a:b]]. *)
Definition choosePivot (data : list A) (a b : nat) : nat * sortedHint :=
  let l := b - a in
  let i := a + l / 4 * 1 in
  let j := a + l / 4 * 2 in
  let k := a + l / 4 * 3 in
  let '(j, swaps) :=
    if 8 <=? l then
      let '(i, j, k, swaps) :=
        if 50 <=? l then
          (* Tukey ninther method *)
          let '(i, swaps) := medianAdjacent data i 0 in
          let '(j, swaps) := medianAdjacent data j swaps in
          let '(k, swaps) := medianAdjacent data k swaps in
          (i, j, k, swaps)
        else (i, j, k, 0) in
      (* Find the median among i, j, k and stores it into j. *)
      median data i j k swaps
    else (j, 0) in
  (j, hint_of swaps).

(** [for i < j { data.Swap(i, j); i++; j-- }]. *)
Fixpoint reverse_loop (fuel : nat) (data : list A) (i j : nat) : list A :=
  match fuel with
  | O => data
  | S fuel' =>
      if i <? j then reverse_loop fuel' (Swap data i j) (S i) (j - 1) else data
  end.

Definition reverseRange (data : list A) (a b : nat) : list A :=
  reverse_loop (b - a) data a (b - 1).

(** [for i < b && !data.Less(i, i-1) { i++ }]. *)
Fixpoint scan_ordered (fuel : nat) (data : list A) (i b : nat) : nat :=
  match fuel with
  | O => i
  | S fuel' =>
      if (i <? b) && negb (Less data i (i - 1))
      then scan_ordered fuel' data (S i) b else i
  end.

(** [for j := i - 1; j >= 1; j--]: the smaller one moves to the left. *)
Fixpoint shift_left (data : list A) (j : nat) : list A :=
  match j with
  | O => data
  | S j' => if negb (Less data j j') then data else shift_left (Swap data j j') j'
  end.

(** [for j := i + 1; j < b; j++]: the greater one moves to the right. *)
Fixpoint shift_right (fuel : nat) (data : list A) (j b : nat) : list A :=
  match fuel with
  | O => data
  | S fuel' =>
      if j <? b then
        if negb (Less data j (j - 1)) then data
        else shift_right fuel' (Swap data j (j - 1)) (S j) b
      else data
  end.

(** The loop of [partialInsertionSort], [steps] rounds of it left. *)
Fixpoint partial_loop (steps : nat) (data : list A) (a b i : nat) : list A * bool :=
  match steps with
  | O => (data, false)
  | S steps' =>
      let i := scan_ordered (b - i) data i b in
      if i =? b then (data, true)
      else if b - a <? 50 then (data, false)
      else
        let data := Swap data i (i - 1) in
        (* Shift the smaller one to the left. *)
        let data := if 2 <=? i - a then shift_left data (i - 1) else data in
        (* Shift the greater one to the right. *)
        let data := if 2 <=? b - i then shift_right (b - i) data (i + 1) b else data in
        partial_loop steps' data a b i
  end.

(** [partialInsertionSort] partially sorts a slice, returns [true] if the
    slice is sorted at the end. *)
Definition partialInsertionSort (data : list A) (a b : nat) : list A * bool :=
  partial_loop 5 data a b (a + 1).

Definition nextPowerOfTwo (length : nat) : N :=
  N.shiftl 1 (N.of_nat (bits length length)).

(** [breakPatterns] scatters three elements around in an attempt to
    break some patterns. *)
Definition breakPatterns (data : list A) (a b : nat) : list A :=
  let length := b - a in
  if 8 <=? length then
    let modulus := nextPowerOfTwo length in
    let idx := a + (length / 4) * 2 - 1 in
    let round (st : list A * N) (i : nat) : list A * N :=
      let '(data, random) := st in
      let random := xorshift_Next random in
      let other := N.to_nat (N.land random (modulus - 1)) in
      let other := if length <=? other then other - length else other in
      (Swap data (idx - 1 + i) (a + other), random) in
    (fold_left round [0; 1; 2] (data, N.of_nat length)).1
  else data.

(** [for i <= j && data.Less(i, a) { i++ }]. *)
Fixpoint scan_up (fuel : nat) (data : list A) (a i j : nat) : nat :=
  match fuel with
  | O => i
  | S fuel' =>
      if (i <=? j) && Less data i a then scan_up fuel' data a (S i) j else i
  end.

(** [for i <= j && !data.Less(j, a) { j-- }]. *)
Fixpoint scan_down (fuel : nat) (data : list A) (a i j : nat) : nat :=
  match fuel with
  | O => j
  | S fuel' =>
      if (i <=? j) && negb (Less data j a) then scan_down fuel' data a i (j - 1) else j
  end.

(** The second loop of [partition]. *)
Fixpoint partition_loop (fuel : nat) (data : list A) (a i j : nat) : list A * nat * nat :=
  match fuel with
  | O => (data, i, j)
  | S fuel' =>
      let i := scan_up (S j - i) data a i j in
      let j := scan_down (S j - i) data a i j in
      if j <? i then (data, i, j)
      else partition_loop fuel' (Swap data i j) a (S i) (j - 1)
  end.

(** [partition] does one quicksort partition: the elements smaller than
    the pivot come before it, the others after it; the last component
    says that the slice was partitioned already. *)
Definition partition (data : list A) (a b pivot : nat) : list A * nat * bool :=
  let data := Swap data a pivot in
  let i := a + 1 in
  let j := b - 1 in
  let i := scan_up (S j - i) data a i j in
  let j := scan_down (S j - i) data a i j in
  if j <? i then (Swap data j a, j, true)
  else
    let data := Swap data i j in
    let '(data, i, j) := partition_loop (S j - i) data a (S i) (j - 1) in
    (Swap data j a, j, false).

(** [for i <= j && !data.Less(a, i) { i++ }]. *)
Fixpoint scan_equal_up (fuel : nat) (data : list A) (a i j : nat) : nat :=
  match fuel with
  | O => i
  | S fuel' =>
      if (i <=? j) && negb (Less data a i) then scan_equal_up fuel' data a (S i) j else i
  end.

(** [for i <= j && data.Less(a, j) { j-- }]. *)
Fixpoint scan_greater (fuel : nat) (data : list A) (a i j : nat) : nat :=
  match fuel with
  | O => j
  | S fuel' =>
      if (i <=? j) && Less data a j then scan_greater fuel' data a i (j - 1) else j
  end.

Fixpoint partitionEqual_loop (fuel : nat) (data : list A) (a i j : nat) : list A * nat :=
  match fuel with
  | O => (data, i)
  | S fuel' =>
      let i := scan_equal_up (S j - i) data a i j in
      let j := scan_greater (S j - i) data a i j in
      if j <? i then (data, i)
      else partitionEqual_loop fuel' (Swap data i j) a (S i) (j - 1)
  end.

(** [partitionEqual] partitions [data[a:b]] into the elements equal to
    the pivot followed by the elements greater than it; the slice is
    taken to hold no element smaller than the pivot. *)
Definition partitionEqual (data : list A) (a b pivot : nat) : list A * nat :=
  let data := Swap data a pivot in
  partitionEqual_loop (b - a) data a (a + 1) (b - 1).

(** A round of the loop of [pdqsort], up to the partition: the slice,
    the limit, the pivot, and whether the slice is sorted now. *)
Definition round_head (data : list A) (a b limit : nat)
    (wasBalanced wasPartitioned : bool) : list A * nat * nat * bool :=
  (* If the last partitioning was imbalanced, we need to breakPatterns. *)
  let '(data, limit) :=
    if negb wasBalanced then (breakPatterns data a b, limit - 1) else (data, limit) in
  let '(pivot, hint) := choosePivot data a b in
  let '(data, pivot, hint) :=
    match hint with
    | decreasingHint => (reverseRange data a b, (b - 1) - (pivot - a), increasingHint)
    | _ => (data, pivot, hint)
    end in
  (* The slice is likely already sorted. *)
  let '(data, sorted) :=
    match hint with
    | increasingHint =>
        if wasBalanced && wasPartitioned then partialInsertionSort data a b
        else (data, false)
    | _ => (data, false)
    end in
  (data, limit, pivot, sorted).

(** [pdqsort] sorts [data[a:b]]; [limit] is the number of allowed bad
    pivots before falling back to heapsort.  Every round of its loop
    shortens the slice: [fuel] bounds the rounds. *)
Fixpoint pdqsort (fuel : nat) (data : list A) (a b limit : nat)
    (wasBalanced wasPartitioned : bool) : list A :=
  match fuel with
  | O => data
  | S fuel' =>
      let length := b - a in
      if length <=? 12 then insertionSort less data a b
      else if limit =? 0 then
        (* Fall back to heapsort if too many bad choices were made. *)
        heapSort less data a b
      else
        let '(data, limit, pivot, sorted) :=
          round_head data a b limit wasBalanced wasPartitioned in
        if sorted then data
        else if (0 <? a) && negb (Less data (a - 1) pivot) then
          (* Probably the slice contains many duplicate elements. *)
          let '(data, mid) := partitionEqual data a b pivot in
          pdqsort fuel' data mid b limit wasBalanced wasPartitioned
        else
          let '(data, mid, alreadyPartitioned) := partition data a b pivot in
          let leftLen := mid - a in
          let rightLen := b - mid in
          let balanceThreshold := length / 8 in
          if leftLen <? rightLen then
            pdqsort fuel' (pdqsort fuel' data a mid limit true true) (mid + 1) b limit
              (balanceThreshold <=? leftLen) alreadyPartitioned
          else
            pdqsort fuel' (pdqsort fuel' data (mid + 1) b limit true true) a mid limit
              (balanceThreshold <=? rightLen) alreadyPartitioned
  end.

Definition Sort (data : list A) : list A :=
  let n := length data in
  if n <=? 1 then data
  else pdqsort (S n) data 0 n (bits n n) true true.


(** *** Correctness, for an order given by a key *)

Variable key : A -> Z.
Hypothesis less_key : forall x y, less x y = (key x <? key y)%Z.

Local Abbreviation kth := (GoSort.kth key).
Local Abbreviation sorted_seg := (GoSort.sorted_seg key).

Lemma Less_key (data : list A) (i j : nat) :
  i < length data -> j < length data ->
  Less data i j = (kth data i <? kth data j)%Z.
Proof. apply (Less_kth less key less_key). Qed.

(** **** The pivot is an index of the slice *)

Lemma median_cases (data : list A) (a b c swaps : nat) :
  (median data a b c swaps).1 = a \/ (median data a b c swaps).1 = b
  \/ (median data a b c swaps).1 = c.
Proof.
  unfold median, order2.
  repeat (match goal with
          | |- context [if ?c then _ else _] => destruct c
          end; cbv beta iota zeta).
  all: cbn [fst]; auto.
Qed.

Lemma choosePivot_bounds (data : list A) (a b : nat) :
  12 < b - a -> a <= (choosePivot data a b).1 < b.
Proof.
  intros Hlen. unfold choosePivot.
  set (l := b - a) in *. set (q := l / 4).
  assert (Hq : 4 * q <= l < 4 * q + 4).
  { unfold q. pose proof (Nat.div_mod_eq l 4).
    pose proof (Nat.mod_upper_bound l 4 ltac:(lia)). lia. }
  replace (8 <=? l) with true by (symmetry; apply Nat.leb_le; lia).
  destruct (50 <=? l).
  - unfold medianAdjacent.
    pose proof (median_cases data (a + q * 1 - 1) (a + q * 1) (a + q * 1 + 1) 0) as H1.
    destruct (median data (a + q * 1 - 1) (a + q * 1) (a + q * 1 + 1) 0) as [i s1].
    pose proof (median_cases data (a + q * 2 - 1) (a + q * 2) (a + q * 2 + 1) s1) as H2.
    destruct (median data (a + q * 2 - 1) (a + q * 2) (a + q * 2 + 1) s1) as [j s2].
    pose proof (median_cases data (a + q * 3 - 1) (a + q * 3) (a + q * 3 + 1) s2) as H3.
    destruct (median data (a + q * 3 - 1) (a + q * 3) (a + q * 3 + 1) s2) as [k s3].
    pose proof (median_cases data i j k s3) as H4.
    destruct (median data i j k s3) as [m s4]. cbn [fst] in *. lia.
  - pose proof (median_cases data (a + q * 1) (a + q * 2) (a + q * 3) 0) as H4.
    destruct (median data (a + q * 1) (a + q * 2) (a + q * 3) 0) as [m s4].
    cbn [fst] in *. lia.
Qed.

(** **** The steps that only move elements within the slice *)

Lemma reverse_loop_perm (a b : nat) :
  forall (fuel : nat) (data : list A) (i j : nat),
    a <= b -> a <= i -> j < b -> b <= length data ->
    seg_perm a b data (reverse_loop fuel data i j).
Proof.
  induction fuel as [|fuel IH]; intros data i j Hab Hi Hj Hlen; cbn [reverse_loop];
    [apply seg_perm_refl; lia|].
  destruct (i <? j) eqn:Hij; [|apply seg_perm_refl; lia].
  apply Nat.ltb_lt in Hij.
  eapply seg_perm_trans; [apply (Swap_seg_perm a b data i j); lia|].
  apply IH; [lia|lia|lia|rewrite Swap_length; exact Hlen].
Qed.

Lemma reverseRange_perm (data : list A) (a b : nat) :
  a < b -> b <= length data -> seg_perm a b data (reverseRange data a b).
Proof. intros Hab Hlen. apply reverse_loop_perm; lia. Qed.

Lemma bits_pow :
  forall fuel n, 1 <= n -> n <= fuel -> 2 ^ bits fuel n <= 2 * n.
Proof.
  induction fuel as [|fuel IH]; intros n H1 Hn; [lia|].
  cbn [bits]. replace (0 <? n) with true by (symmetry; apply Nat.ltb_lt; lia).
  pose proof (Nat.div_mod_eq n 2). pose proof (Nat.mod_upper_bound n 2 ltac:(lia)).
  destruct (decide (n / 2 = 0)) as [Hz|Hz].
  - rewrite Hz. replace (bits fuel 0) with 0 by (destruct fuel; reflexivity).
    cbn. lia.
  - rewrite Nat.pow_succ_r'. specialize (IH (n / 2) ltac:(lia) ltac:(lia)). lia.
Qed.

(** The index [breakPatterns] draws is one of the slice. *)
Lemma other_bound (random : N) (length : nat) :
  1 <= length ->
  let other := N.to_nat (N.land random (nextPowerOfTwo length - 1)) in
  (if length <=? other then other - length else other) < length.
Proof.
  intros Hl other.
  assert (Hother : other < 2 ^ bits length length).
  { unfold other, nextPowerOfTwo. rewrite N.shiftl_1_l, N.sub_1_r, <- N.ones_equiv.
    rewrite N.land_ones.
    pose proof (N.mod_upper_bound random (2 ^ N.of_nat (bits length length))
                  ltac:(apply N.pow_nonzero; discriminate)) as Hm.
    assert (Hp : N.to_nat (2 ^ N.of_nat (bits length length)) = 2 ^ bits length length).
    { rewrite N2Nat.inj_pow, Nat2N.id. reflexivity. }
    lia. }
  pose proof (bits_pow length length Hl ltac:(lia)) as Hb.
  destruct (length <=? other) eqn:Hc; [apply Nat.leb_le in Hc|apply Nat.leb_gt in Hc]; lia.
Qed.

Lemma breakPatterns_perm (data : list A) (a b : nat) :
  a <= b -> b <= length data -> seg_perm a b data (breakPatterns data a b).
Proof.
  intros Hab Hlen. unfold breakPatterns.
  destruct (8 <=? b - a) eqn:H8; [|apply seg_perm_refl; lia].
  apply Nat.leb_le in H8.
  set (l := b - a) in *. set (q := l / 4).
  assert (Hq : 4 * q <= l < 4 * q + 4).
  { unfold q. pose proof (Nat.div_mod_eq l 4).
    pose proof (Nat.mod_upper_bound l 4 ltac:(lia)). lia. }
  cbn [fold_left fst].
  set (r1 := xorshift_Next (N.of_nat l)).
  set (r2 := xorshift_Next r1). set (r3 := xorshift_Next r2).
  pose proof (other_bound r1 l ltac:(lia)) as H1.
  pose proof (other_bound r2 l ltac:(lia)) as H2.
  pose proof (other_bound r3 l ltac:(lia)) as H3.
  cbn zeta in H1, H2, H3.
  eapply seg_perm_trans; [|apply Swap_seg_perm; rewrite ?Swap_length; lia].
  eapply seg_perm_trans; [|apply Swap_seg_perm; rewrite ?Swap_length; lia].
  apply Swap_seg_perm; lia.
Qed.

(** **** The element before the slice

    [pdqsort] works on [data[a:b]] with every element of it at least
    the element before it, [data[a-1]], when there is one: the rounds
    keep it so, and the loop of [partialInsertionSort] that runs down to
    index 1 relies on it to stop at [a]. *)
Definition floor (data : list A) (a b : nat) : Prop :=
  1 <= a -> forall i, a <= i < b -> (kth data (a - 1) <= kth data i)%Z.

Lemma floor_perm (data data' : list A) (lo hi a b : nat) :
  seg_perm lo hi data data' -> a <= lo -> lo <= hi -> hi <= b ->
  floor data a b -> floor data' a b.
Proof.
  intros Hp Hlo Hle Hhi Hfloor Ha i Hi.
  rewrite (seg_perm_kth_out key lo hi data data' (a - 1) Hp) by lia.
  apply (seg_perm_bound key lo hi a b data data'
           (fun k => (kth data (a - 1) <= k)%Z) Hp Hlo Hle Hhi); [|exact Hi].
  intros x Hx. apply Hfloor; assumption.
Qed.

(** **** partialInsertionSort *)

Lemma scan_ordered_spec (data : list A) (a b : nat) :
  b <= length data ->
  forall (fuel i : nat),
    a < i -> i <= b -> b - i <= fuel -> sorted_seg data a i ->
    let i' := scan_ordered fuel data i b in
    i <= i' <= b /\ sorted_seg data a i'
    /\ (i' = b \/ (i' < b /\ (kth data i' < kth data (i' - 1))%Z)).
Proof.
  intros Hlen. induction fuel as [|fuel IH]; intros i Hai Hib Hfuel Hsorted.
  - cbn. split; [lia|]. split; [exact Hsorted|]. left. lia.
  - cbn [scan_ordered]. destruct (i <? b) eqn:Hlt; cbn [andb].
    + apply Nat.ltb_lt in Hlt. rewrite Less_key by lia.
      destruct (kth data i <? kth data (i - 1))%Z eqn:Hless; cbn [negb].
      * apply Z.ltb_lt in Hless. split; [lia|]. split; [exact Hsorted|]. right. lia.
      * apply Z.ltb_ge in Hless.
        destruct (IH (S i)) as (H1 & H2 & H3); [lia|lia|lia| |].
        { intros i1 i2 Hi1 Hi12 Hi2.
          destruct (decide (i2 < i)) as [Hin|Hout]; [apply Hsorted; lia|].
          replace i2 with i by lia.
          destruct (decide (i1 = i)) as [->|Hne]; [lia|].
          pose proof (Hsorted i1 (i - 1) ltac:(lia) ltac:(lia) ltac:(lia)). lia. }
        split; [lia|]. split; [exact H2|exact H3].
    + apply Nat.ltb_ge in Hlt. split; [lia|]. split; [exact Hsorted|]. left. lia.
Qed.

(** Under the floor the loop that runs down to index 1 is the inner loop
    of the insertion sort of [data[a:b]]. *)
Lemma shift_left_insertion (a b : nat) :
  forall (j : nat) (data : list A),
    a <= j -> j < b -> b <= length data -> floor data a b ->
    shift_left data j = insertion_inner less data a j.
Proof.
  induction j as [|j IH]; intros data Haj Hjb Hlen Hfloor; [reflexivity|].
  cbn [shift_left insertion_inner].
  destruct (a <? S j) eqn:Ha; cbn [andb].
  - apply Nat.ltb_lt in Ha. destruct (Less data (S j) j) eqn:Hless; cbn [negb];
      [|reflexivity].
    apply IH; [lia|lia|rewrite Swap_length; exact Hlen|].
    apply (floor_perm data _ a b a b); [apply Swap_seg_perm; lia|lia..|exact Hfloor].
  - apply Nat.ltb_ge in Ha. assert (a = S j) as -> by lia.
    rewrite Less_key by lia.
    pose proof (Hfloor ltac:(lia) (S j) ltac:(lia)) as Hf.
    replace (S j - 1) with j in Hf by lia.
    replace (kth data (S j) <? kth data j)%Z with false
      by (symmetry; apply Z.ltb_ge; exact Hf).
    reflexivity.
Qed.

Lemma shift_right_perm (i b : nat) :
  forall (fuel : nat) (data : list A) (j : nat),
    i < j -> i <= b -> b <= length data ->
    seg_perm i b data (shift_right fuel data j b).
Proof.
  induction fuel as [|fuel IH]; intros data j Hij Hib Hlen; cbn [shift_right];
    [apply seg_perm_refl; lia|].
  destruct (j <? b) eqn:Hjb; [|apply seg_perm_refl; lia].
  apply Nat.ltb_lt in Hjb.
  destruct (negb (Less data j (j - 1))); [apply seg_perm_refl; lia|].
  eapply seg_perm_trans; [apply (Swap_seg_perm i b data j (j - 1)); lia|].
  apply IH; [lia|lia|rewrite Swap_length; exact Hlen].
Qed.

Lemma partial_loop_spec (a b : nat) :
  forall (steps : nat) (data : list A) (i : nat),
    a < i -> i <= b -> b <= length data ->
    floor data a b -> sorted_seg data a i ->
    seg_perm a b data (partial_loop steps data a b i).1
    /\ ((partial_loop steps data a b i).2 = true ->
        sorted_seg (partial_loop steps data a b i).1 a b).
Proof.
  induction steps as [|steps IH]; intros data i Hai Hib Hlen Hfloor Hsorted.
  - cbn. split; [apply seg_perm_refl; lia|discriminate].
  - cbn [partial_loop].
    destruct (scan_ordered_spec data a b Hlen (b - i) i Hai Hib ltac:(lia) Hsorted)
      as (Hi1 & Hs1 & Hend).
    set (i1 := scan_ordered (b - i) data i b) in *.
    destruct (i1 =? b) eqn:Heq.
    { apply Nat.eqb_eq in Heq. cbn [fst snd]. split; [apply seg_perm_refl; lia|].
      intros _. rewrite <- Heq. exact Hs1. }
    apply Nat.eqb_neq in Heq. destruct Hend as [Hend|[Hi1b Hdesc]]; [contradiction|].
    destruct (b - a <? 50); [cbn [fst snd]; split; [apply seg_perm_refl; lia|discriminate]|].
    set (d1 := Swap data i1 (i1 - 1)).
    assert (Hp1 : seg_perm a b data d1) by (apply Swap_seg_perm; lia).
    assert (Hlen1 : length d1 = length data) by apply Swap_length.
    assert (Hfloor1 : floor d1 a b)
      by (apply (floor_perm data d1 a b a b); [exact Hp1|lia..|exact Hfloor]).
    set (d2 := if 2 <=? i1 - a then shift_left d1 (i1 - 1) else d1).
    assert (H2 : seg_perm a i1 d1 d2 /\ sorted_seg d2 a i1).
    { unfold d2. destruct (2 <=? i1 - a) eqn:H2a.
      - apply Nat.leb_le in H2a.
        rewrite (shift_left_insertion a b (i1 - 1) d1) by (lia || exact Hfloor1).
        destruct (insertion_inner_spec less key less_key a (i1 - 1) (i1 - 1) d1)
          as [Hp Hs]; [lia|lia|lia| | |].
        + intros x y Hx Hxy Hy Hxn Hyn. unfold d1.
          rewrite !(Swap_kth key data i1 (i1 - 1)) by lia.
          destruct (decide (x = i1 - 1)); [lia|]. destruct (decide (x = i1)); [lia|].
          destruct (decide (y = i1 - 1)); [lia|]. destruct (decide (y = i1)); [lia|].
          apply Hs1; lia.
        + intros y Hy1 Hy2. lia.
        + replace (i1 - 1 + 1) with i1 in * by lia. split; assumption.
      - apply Nat.leb_gt in H2a. split; [apply seg_perm_refl; lia|].
        intros x y Hx Hxy Hy. replace y with x by lia. lia. }
    destruct H2 as [Hp2 Hs2].
    assert (Hlen2 : length d2 = length data)
      by (rewrite (seg_perm_length _ _ _ _ Hp2); exact Hlen1).
    set (d3 := if 2 <=? b - i1 then shift_right (b - i1) d2 (i1 + 1) b else d2).
    assert (Hp3 : seg_perm i1 b d2 d3).
    { unfold d3. destruct (2 <=? b - i1); [|apply seg_perm_refl; lia].
      apply shift_right_perm; lia. }
    assert (Hp13 : seg_perm a b data d3).
    { eapply seg_perm_trans; [exact Hp1|]. eapply seg_perm_trans.
      - apply (seg_perm_mono a i1 a b); [exact Hp2|lia..].
      - apply (seg_perm_mono i1 b a b); [exact Hp3|lia..]. }
    destruct (IH d3 i1) as [Hp4 Hs4]; [lia|lia| | | |].
    + rewrite (seg_perm_length _ _ _ _ Hp13). exact Hlen.
    + apply (floor_perm data d3 a b a b); [exact Hp13|lia..|exact Hfloor].
    + apply (sorted_seg_frame key d2); [|exact Hs2].
      intros x Hx. apply (seg_perm_kth_out key i1 b); [exact Hp3|lia|lia].
    + split; [eapply seg_perm_trans; eassumption|exact Hs4].
Qed.

Lemma partialInsertionSort_spec (data : list A) (a b : nat) :
  a < b -> b <= length data -> floor data a b ->
  seg_perm a b data (partialInsertionSort data a b).1
  /\ ((partialInsertionSort data a b).2 = true ->
      sorted_seg (partialInsertionSort data a b).1 a b).
Proof.
  intros Hab Hlen Hfloor. unfold partialInsertionSort.
  apply partial_loop_spec; [lia|lia|exact Hlen|exact Hfloor|].
  intros x y Hx Hxy Hy. replace y with x by lia. lia.
Qed.

(** **** partition *)

Lemma scan_up_spec (data : list A) (a j : nat) :
  a < length data -> j < length data ->
  forall (fuel i : nat),
    i <= S j -> S j - i <= fuel ->
    let i' := scan_up fuel data a i j in
    i <= i' <= S j
    /\ (forall x, i <= x < i' -> (kth data x < kth data a)%Z)
    /\ (i' <= j -> (kth data a <= kth data i')%Z).
Proof.
  intros Ha Hj. induction fuel as [|fuel IH]; intros i Hi Hfuel.
  - cbn. split; [lia|]. split; intros; lia.
  - cbn [scan_up]. destruct (i <=? j) eqn:Hle; cbn [andb].
    + apply Nat.leb_le in Hle. rewrite Less_key by lia.
      destruct (kth data i <? kth data a)%Z eqn:Hless.
      * apply Z.ltb_lt in Hless.
        destruct (IH (S i)) as (H1 & H2 & H3); [lia|lia|].
        split; [lia|]. split; [|exact H3].
        intros x Hx. destruct (decide (x = i)) as [->|]; [exact Hless|apply H2; lia].
      * apply Z.ltb_ge in Hless. split; [lia|]. split; [intros; lia|intros _; exact Hless].
    + apply Nat.leb_gt in Hle. split; [lia|]. split; intros; lia.
Qed.

Lemma scan_down_spec (data : list A) (a i : nat) :
  a < i ->
  forall (fuel j : nat),
    j < length data -> i <= S j -> S j - i <= fuel ->
    let j' := scan_down fuel data a i j in
    i <= S j' /\ j' <= j
    /\ (forall x, j' < x <= j -> (kth data a <= kth data x)%Z)
    /\ (i <= j' -> (kth data j' < kth data a)%Z).
Proof.
  intros Hai. induction fuel as [|fuel IH]; intros j Hj Hi Hfuel.
  - cbn. split; [lia|]. split; [lia|]. split; intros; lia.
  - cbn [scan_down]. destruct (i <=? j) eqn:Hle; cbn [andb].
    + apply Nat.leb_le in Hle. rewrite Less_key by lia.
      destruct (kth data j <? kth data a)%Z eqn:Hless; cbn [negb].
      * apply Z.ltb_lt in Hless. split; [lia|]. split; [lia|].
        split; [intros; lia|intros _; exact Hless].
      * apply Z.ltb_ge in Hless.
        destruct (IH (j - 1)) as (H1 & H2 & H3 & H4); [lia|lia|lia|].
        split; [lia|]. split; [lia|]. split; [|exact H4].
        intros x Hx. destruct (decide (x = j)) as [->|]; [exact Hless|apply H3; lia].
    + apply Nat.leb_gt in Hle. split; [lia|]. split; [lia|]. split; intros; lia.
Qed.

(** The slice around the two indices: smaller than the pivot, which is
    at [a], up to [i], and not smaller from [j] on. *)
Definition parting (data : list A) (a b i j : nat) (P : Z) : Prop :=
  kth data a = P
  /\ (forall x, a < x < i -> (kth data x < P)%Z)
  /\ (forall x, j < x < b -> (P <= kth data x)%Z).

Lemma parting_Swap (data : list A) (a b i j : nat) (P : Z) :
  a < i -> i < j -> j < b -> b <= length data ->
  parting data a b i j P ->
  (P <= kth data i)%Z -> (kth data j < P)%Z ->
  parting (Swap data i j) a b (S i) (j - 1) P.
Proof.
  intros Hai Hij Hjb Hlen (Ha & Hlow & Hhigh) Hi Hj.
  split; [|split].
  - rewrite (Swap_kth key data i j) by lia.
    destruct (decide (a = j)); [lia|]. destruct (decide (a = i)); [lia|]. exact Ha.
  - intros x Hx. rewrite (Swap_kth key data i j) by lia.
    destruct (decide (x = j)); [lia|]. destruct (decide (x = i)); [exact Hj|].
    apply Hlow. lia.
  - intros x Hx. rewrite (Swap_kth key data i j) by lia.
    destruct (decide (x = j)); [exact Hi|]. destruct (decide (x = i)); [lia|].
    apply Hhigh. lia.
Qed.

Lemma pdq_partition_loop_spec (a b : nat) (P : Z) :
  forall (fuel : nat) (data : list A) (i j : nat),
    S j - i <= fuel -> a < i -> i <= S j -> j < b -> b <= length data ->
    parting data a b i j P ->
    let '(data', i', j') := partition_loop fuel data a i j in
    seg_perm (a + 1) b data data' /\ i' = S j' /\ a < i' /\ j' < b
    /\ parting data' a b i' j' P.
Proof.
  induction fuel as [|fuel IH]; intros data i j Hfuel Hai Hij Hjb Hlen Hpart.
  - cbn. split; [apply seg_perm_refl; lia|]. repeat split; try lia; apply Hpart.
  - cbn [partition_loop]. destruct Hpart as (Ha & Hlow & Hhigh).
    destruct (scan_up_spec data a j ltac:(lia) ltac:(lia) (S j - i) i Hij ltac:(lia))
      as (Hi1 & Hup & Hstop1).
    set (i1 := scan_up (S j - i) data a i j) in *.
    destruct (scan_down_spec data a i1 ltac:(lia) (S j - i1) j ltac:(lia) ltac:(lia)
                ltac:(lia)) as (Hj1 & Hj1' & Hdown & Hstop2).
    set (j1 := scan_down (S j - i1) data a i1 j) in *.
    assert (Hpart1 : parting data a b i1 j1 P).
    { split; [exact Ha|]. split.
      - intros x Hx. destruct (decide (x < i)); [apply Hlow; lia|].
        rewrite <- Ha. apply Hup. lia.
      - intros x Hx. destruct (decide (j < x)); [apply Hhigh; lia|].
        rewrite <- Ha. apply Hdown. lia. }
    destruct (j1 <? i1) eqn:Hc.
    + apply Nat.ltb_lt in Hc. split; [apply seg_perm_refl; lia|].
      repeat split; try lia; apply Hpart1.
    + apply Nat.ltb_ge in Hc.
      specialize (Hstop1 ltac:(lia)). specialize (Hstop2 Hc).
      assert (Hlt : i1 < j1) by (destruct (decide (i1 = j1)) as [E|]; [rewrite E in *; lia|lia]).
      pose proof (IH (Swap data i1 j1) (S i1) (j1 - 1)) as IH'.
      destruct (partition_loop fuel (Swap data i1 j1) a (S i1) (j1 - 1))
        as [[data' i'] j'].
      destruct IH' as (Hp & Hij' & Hai' & Hjb' & Hpart'); [lia|lia|lia|lia| | |].
      * rewrite Swap_length. exact Hlen.
      * apply parting_Swap; try lia. exact Hpart1.
      * split; [|repeat split; try lia; apply Hpart'].
        eapply seg_perm_trans; [apply (Swap_seg_perm (a + 1) b data i1 j1); lia|exact Hp].
Qed.

(** The last step of [partition]: the pivot goes between the parts. *)
Lemma pivot_between (data : list A) (a b j : nat) (P : Z) :
  a <= j -> j < b -> b <= length data ->
  parting data a b (S j) j P ->
  seg_perm a b data (Swap data j a)
  /\ (forall x, a <= x < j -> (kth (Swap data j a) x < kth (Swap data j a) j)%Z)
  /\ (forall x, j < x < b -> (kth (Swap data j a) j <= kth (Swap data j a) x)%Z).
Proof.
  intros Haj Hjb Hlen (Ha & Hlow & Hhigh).
  split; [apply Swap_seg_perm; lia|].
  assert (Hj : kth (Swap data j a) j = P).
  { rewrite (Swap_kth key data j a) by lia.
    destruct (decide (j = a)) as [->|]; [exact Ha|].
    destruct (decide (j = j)); [exact Ha|lia]. }
  rewrite Hj. split.
  - intros x Hx. rewrite (Swap_kth key data j a) by lia.
    destruct (decide (x = a)) as [->|]; [apply Hlow; lia|].
    destruct (decide (x = j)); [lia|]. apply Hlow. lia.
  - intros x Hx. rewrite (Swap_kth key data j a) by lia.
    destruct (decide (x = a)); [lia|]. destruct (decide (x = j)); [lia|].
    apply Hhigh. lia.
Qed.

Lemma partition_spec (data : list A) (a b pivot : nat) :
  a <= pivot -> pivot < b -> b <= length data ->
  let '(data', mid, _) := partition data a b pivot in
  seg_perm a b data data' /\ a <= mid < b
  /\ (forall x, a <= x < mid -> (kth data' x < kth data' mid)%Z)
  /\ (forall x, mid < x < b -> (kth data' mid <= kth data' x)%Z).
Proof.
  intros Hap Hpb Hlen. unfold partition.
  set (d0 := Swap data a pivot).
  assert (Hp0 : seg_perm a b data d0) by (apply Swap_seg_perm; lia).
  assert (Hlen0 : length d0 = length data) by apply Swap_length.
  set (P := kth d0 a).
  destruct (scan_up_spec d0 a (b - 1) ltac:(lia) ltac:(lia) (S (b - 1) - (a + 1)) (a + 1)
              ltac:(lia) ltac:(lia)) as (Hi1 & Hup & Hstop1).
  set (i1 := scan_up (S (b - 1) - (a + 1)) d0 a (a + 1) (b - 1)) in *.
  destruct (scan_down_spec d0 a i1 ltac:(lia) (S (b - 1) - i1) (b - 1) ltac:(lia)
              ltac:(lia) ltac:(lia)) as (Hj1 & Hj1' & Hdown & Hstop2).
  set (j1 := scan_down (S (b - 1) - i1) d0 a i1 (b - 1)) in *.
  assert (Hpart1 : parting d0 a b i1 j1 P).
  { split; [reflexivity|]. split.
    - intros x Hx. apply Hup. lia.
    - intros x Hx. apply Hdown. lia. }
  destruct (j1 <? i1) eqn:Hc.
  - apply Nat.ltb_lt in Hc. assert (i1 = S j1) as Hi by lia. rewrite Hi in Hpart1.
    destruct (pivot_between d0 a b j1 P) as (Hp & Hlow & Hhigh);
      [lia|lia|lia|exact Hpart1|].
    split; [eapply seg_perm_trans; eassumption|]. split; [lia|]. split; assumption.
  - apply Nat.ltb_ge in Hc.
    specialize (Hstop1 ltac:(lia)). specialize (Hstop2 Hc). fold P in Hstop1, Hstop2.
    assert (Hlt : i1 < j1) by (destruct (decide (i1 = j1)) as [E|]; [rewrite E in *; lia|lia]).
    pose proof (pdq_partition_loop_spec a b P (S j1 - i1) (Swap d0 i1 j1) (S i1)
                  (j1 - 1)) as Hloop.
    destruct (partition_loop (S j1 - i1) (Swap d0 i1 j1) a (S i1) (j1 - 1))
      as [[d2 i2] j2].
    destruct Hloop as (Hp2 & Hij2 & Hai2 & Hjb2 & Hpart2); [lia|lia|lia|lia| | |].
    + rewrite Swap_length. lia.
    + apply parting_Swap; try lia; assumption.
    + assert (Hlen2 : length d2 = length data).
      { rewrite (seg_perm_length _ _ _ _ Hp2), Swap_length. exact Hlen0. }
      rewrite Hij2 in Hpart2.
      destruct (pivot_between d2 a b j2 P) as (Hp & Hlow & Hhigh);
        [lia|lia|lia|exact Hpart2|].
      split; [|split; [lia|split; assumption]].
      eapply seg_perm_trans; [exact Hp0|].
      eapply seg_perm_trans; [apply (Swap_seg_perm a b d0 i1 j1); lia|].
      eapply seg_perm_trans; [|exact Hp].
      apply (seg_perm_mono (a + 1) b a b); [exact Hp2|lia|lia|lia|].
      rewrite Swap_length. lia.
Qed.

(** **** partitionEqual *)

Lemma scan_equal_up_spec (data : list A) (a j : nat) :
  a < length data -> j < length data ->
  forall (fuel i : nat),
    i <= S j -> S j - i <= fuel ->
    let i' := scan_equal_up fuel data a i j in
    i <= i' <= S j
    /\ (forall x, i <= x < i' -> (kth data x <= kth data a)%Z)
    /\ (i' <= j -> (kth data a < kth data i')%Z).
Proof.
  intros Ha Hj. induction fuel as [|fuel IH]; intros i Hi Hfuel.
  - cbn. split; [lia|]. split; intros; lia.
  - cbn [scan_equal_up]. destruct (i <=? j) eqn:Hle; cbn [andb].
    + apply Nat.leb_le in Hle. rewrite Less_key by lia.
      destruct (kth data a <? kth data i)%Z eqn:Hless; cbn [negb].
      * apply Z.ltb_lt in Hless. split; [lia|]. split; [intros; lia|intros _; exact Hless].
      * apply Z.ltb_ge in Hless.
        destruct (IH (S i)) as (H1 & H2 & H3); [lia|lia|].
        split; [lia|]. split; [|exact H3].
        intros x Hx. destruct (decide (x = i)) as [->|]; [exact Hless|apply H2; lia].
    + apply Nat.leb_gt in Hle. split; [lia|]. split; intros; lia.
Qed.

Lemma scan_greater_spec (data : list A) (a i : nat) :
  a < i ->
  forall (fuel j : nat),
    j < length data -> i <= S j -> S j - i <= fuel ->
    let j' := scan_greater fuel data a i j in
    i <= S j' /\ j' <= j
    /\ (forall x, j' < x <= j -> (kth data a < kth data x)%Z)
    /\ (i <= j' -> (kth data j' <= kth data a)%Z).
Proof.
  intros Hai. induction fuel as [|fuel IH]; intros j Hj Hi Hfuel.
  - cbn. split; [lia|]. split; [lia|]. split; intros; lia.
  - cbn [scan_greater]. destruct (i <=? j) eqn:Hle; cbn [andb].
    + apply Nat.leb_le in Hle. rewrite Less_key by lia.
      destruct (kth data a <? kth data j)%Z eqn:Hless.
      * apply Z.ltb_lt in Hless.
        destruct (IH (j - 1)) as (H1 & H2 & H3 & H4); [lia|lia|lia|].
        split; [lia|]. split; [lia|]. split; [|exact H4].
        intros x Hx. destruct (decide (x = j)) as [->|]; [exact Hless|apply H3; lia].
      * apply Z.ltb_ge in Hless. split; [lia|]. split; [lia|].
        split; [intros; lia|intros _; exact Hless].
    + apply Nat.leb_gt in Hle. split; [lia|]. split; [lia|]. split; intros; lia.
Qed.

(** Not greater than the pivot, which is at [a], up to [i], and greater
    from [j] on. *)
Definition parting_equal (data : list A) (a b i j : nat) (P : Z) : Prop :=
  kth data a = P
  /\ (forall x, a < x < i -> (kth data x <= P)%Z)
  /\ (forall x, j < x < b -> (P < kth data x)%Z).

Lemma partitionEqual_loop_spec (a b : nat) (P : Z) :
  forall (fuel : nat) (data : list A) (i j : nat),
    S j - i <= fuel -> a < i -> i <= S j -> j < b -> b <= length data ->
    parting_equal data a b i j P ->
    let '(data', i') := partitionEqual_loop fuel data a i j in
    seg_perm (a + 1) b data data' /\ a < i' <= b
    /\ parting_equal data' a b i' (i' - 1) P.
Proof.
  induction fuel as [|fuel IH]; intros data i j Hfuel Hai Hij Hjb Hlen Hpart.
  - cbn. split; [apply seg_perm_refl; lia|]. split; [lia|].
    replace (i - 1) with j by lia. exact Hpart.
  - cbn [partitionEqual_loop]. destruct Hpart as (Ha & Hlow & Hhigh).
    destruct (scan_equal_up_spec data a j ltac:(lia) ltac:(lia) (S j - i) i Hij ltac:(lia))
      as (Hi1 & Hup & Hstop1).
    set (i1 := scan_equal_up (S j - i) data a i j) in *.
    destruct (scan_greater_spec data a i1 ltac:(lia) (S j - i1) j ltac:(lia) ltac:(lia)
                ltac:(lia)) as (Hj1 & Hj1' & Hdown & Hstop2).
    set (j1 := scan_greater (S j - i1) data a i1 j) in *.
    assert (Hpart1 : parting_equal data a b i1 j1 P).
    { split; [exact Ha|]. split.
      - intros x Hx. destruct (decide (x < i)); [apply Hlow; lia|].
        rewrite <- Ha. apply Hup. lia.
      - intros x Hx. destruct (decide (j < x)); [apply Hhigh; lia|].
        rewrite <- Ha. apply Hdown. lia. }
    destruct (j1 <? i1) eqn:Hc.
    + apply Nat.ltb_lt in Hc. split; [apply seg_perm_refl; lia|]. split; [lia|].
      replace (i1 - 1) with j1 by lia. exact Hpart1.
    + apply Nat.ltb_ge in Hc.
      specialize (Hstop1 ltac:(lia)). specialize (Hstop2 Hc).
      assert (Hlt : i1 < j1) by (destruct (decide (i1 = j1)) as [E|]; [rewrite E in *; lia|lia]).
      pose proof (IH (Swap data i1 j1) (S i1) (j1 - 1)) as IH'.
      destruct (partitionEqual_loop fuel (Swap data i1 j1) a (S i1) (j1 - 1))
        as [data' i'].
      destruct IH' as (Hp & Hi' & Hpart'); [lia|lia|lia|lia| | |].
      * rewrite Swap_length. exact Hlen.
      * destruct Hpart1 as (_ & Hlow1 & Hhigh1). split; [|split].
        -- rewrite (Swap_kth key data i1 j1) by lia.
           destruct (decide (a = j1)); [lia|]. destruct (decide (a = i1)); [lia|]. exact Ha.
        -- intros x Hx. rewrite (Swap_kth key data i1 j1) by lia.
           destruct (decide (x = j1)); [lia|]. destruct (decide (x = i1)); [lia|].
           apply Hlow1. lia.
        -- intros x Hx. rewrite (Swap_kth key data i1 j1) by lia.
           destruct (decide (x = j1)); [lia|]. destruct (decide (x = i1)); [lia|].
           apply Hhigh1. lia.
      * split; [|split; [lia|exact Hpart']].
        eapply seg_perm_trans; [apply (Swap_seg_perm (a + 1) b data i1 j1); lia|exact Hp].
Qed.

Lemma partitionEqual_spec (data : list A) (a b pivot : nat) :
  a <= pivot -> pivot < b -> b <= length data ->
  (forall x, a <= x < b -> (kth data pivot <= kth data x)%Z) ->
  let '(data', mid) := partitionEqual data a b pivot in
  seg_perm a b data data' /\ a < mid <= b
  /\ (forall x, a <= x < mid -> kth data' x = kth data pivot)
  /\ (forall x, mid <= x < b -> (kth data pivot < kth data' x)%Z).
Proof.
  intros Hap Hpb Hlen Hmin. unfold partitionEqual.
  set (d0 := Swap data a pivot).
  assert (Hp0 : seg_perm a b data d0) by (apply Swap_seg_perm; lia).
  assert (Hlen0 : length d0 = length data) by apply Swap_length.
  assert (Ha0 : kth d0 a = kth data pivot).
  { unfold d0. rewrite (Swap_kth key data a pivot) by lia.
    destruct (decide (a = pivot)) as [->|]; [reflexivity|].
    destruct (decide (a = a)); [reflexivity|lia]. }
  set (P := kth data pivot) in *.
  pose proof (partitionEqual_loop_spec a b P (b - a) d0 (a + 1) (b - 1)) as Hloop.
  destruct (partitionEqual_loop (b - a) d0 a (a + 1) (b - 1)) as [d1 mid].
  destruct Hloop as (Hp1 & Hmid & Ha1 & Hlow & Hhigh); [lia|lia|lia|lia|lia| |].
  { split; [exact Ha0|]. split; intros x Hx; lia. }
  assert (Hp : seg_perm a b data d1).
  { eapply seg_perm_trans; [exact Hp0|].
    apply (seg_perm_mono (a + 1) b a b); [exact Hp1|lia..]. }
  split; [exact Hp|]. split; [lia|]. split.
  - intros x Hx.
    assert (P <= kth d1 x)%Z.
    { apply (seg_perm_bound key a b a b data d1 (fun k => (P <= k)%Z) Hp); try lia.
      exact Hmin. }
    destruct (decide (x = a)) as [->|]; [exact Ha1|].
    pose proof (Hlow x ltac:(lia)). lia.
  - intros x Hx. apply Hhigh. lia.
Qed.

(** **** pdqsort *)

Lemma round_head_spec (data : list A) (a b limit : nat) (wB wP : bool) :
  12 < b - a -> b <= length data -> floor data a b ->
  let '(data', _, pivot, sorted) := round_head data a b limit wB wP in
  seg_perm a b data data' /\ a <= pivot < b
  /\ (sorted = true -> sorted_seg data' a b).
Proof.
  intros Hlen12 Hlen Hfloor. unfold round_head.
  set (r1 := if negb wB then (breakPatterns data a b, limit - 1) else (data, limit)).
  assert (Hp1 : seg_perm a b data r1.1).
  { unfold r1. destruct (negb wB); cbn [fst];
      [apply breakPatterns_perm; lia|apply seg_perm_refl; lia]. }
  destruct r1 as [d1 limit1]. cbn [fst] in Hp1.
  assert (Hlen1 : length d1 = length data) by (apply (seg_perm_length a b); exact Hp1).
  pose proof (choosePivot_bounds d1 a b Hlen12) as Hpiv.
  destruct (choosePivot d1 a b) as [pivot hint]. cbn [fst] in Hpiv.
  set (r2 := match hint with
             | decreasingHint =>
                 (reverseRange d1 a b, b - 1 - (pivot - a), increasingHint)
             | _ => (d1, pivot, hint)
             end).
  assert (Hp2 : seg_perm a b d1 r2.1.1 /\ a <= r2.1.2 < b).
  { unfold r2. destruct hint; cbn [fst snd];
      (split; [first [apply reverseRange_perm; lia|apply seg_perm_refl; lia]|lia]). }
  destruct r2 as [[d2 pivot2] hint2]. cbn [fst snd] in Hp2. destruct Hp2 as [Hp2 Hpiv2].
  assert (Hp12 : seg_perm a b data d2) by (eapply seg_perm_trans; eassumption).
  assert (Hlen2 : length d2 = length data) by (apply (seg_perm_length a b); exact Hp12).
  assert (Hfloor2 : floor d2 a b)
    by (apply (floor_perm data d2 a b a b); [exact Hp12|lia..|exact Hfloor]).
  set (r3 := match hint2 with
             | increasingHint =>
                 if wB && wP then partialInsertionSort d2 a b else (d2, false)
             | _ => (d2, false)
             end).
  assert (Hp3 : seg_perm a b d2 r3.1 /\ (r3.2 = true -> sorted_seg r3.1 a b)).
  { unfold r3. destruct hint2; cbn [fst snd];
      try (split; [apply seg_perm_refl; lia|discriminate]).
    destruct (wB && wP); cbn [fst snd];
      [|split; [apply seg_perm_refl; lia|discriminate]].
    apply partialInsertionSort_spec; [lia|lia|exact Hfloor2]. }
  destruct r3 as [d3 sorted]. cbn [fst snd] in Hp3. destruct Hp3 as [Hp3 Hs3].
  split; [eapply seg_perm_trans; eassumption|]. split; [exact Hpiv2|exact Hs3].
Qed.

Lemma pdqsort_spec :
  forall (fuel : nat) (data : list A) (a b limit : nat) (wB wP : bool),
    a <= b -> b <= length data -> b - a < fuel -> floor data a b ->
    seg_perm a b data (pdqsort fuel data a b limit wB wP)
    /\ sorted_seg (pdqsort fuel data a b limit wB wP) a b.
Proof.
  induction fuel as [|fuel IH]; intros data a b limit wB wP Hab Hlen Hfuel Hfloor; [lia|].
  cbn [pdqsort].
  destruct (b - a <=? 12) eqn:Hsmall;
    [apply (insertionSort_spec less key less_key); assumption|].
  apply Nat.leb_gt in Hsmall.
  destruct (limit =? 0); [apply (heapSort_spec less key less_key); assumption|].
  pose proof (round_head_spec data a b limit wB wP Hsmall Hlen Hfloor) as Hhead.
  destruct (round_head data a b limit wB wP) as [[[d1 limit1] pivot] sorted].
  destruct Hhead as (Hp1 & Hpiv & Hs1).
  assert (Hlen1 : length d1 = length data) by (apply (seg_perm_length a b); exact Hp1).
  assert (Hfloor1 : floor d1 a b)
    by (apply (floor_perm data d1 a b a b); [exact Hp1|lia..|exact Hfloor]).
  destruct sorted; [split; [exact Hp1|apply Hs1; reflexivity]|].
  destruct ((0 <? a) && negb (Less d1 (a - 1) pivot)) eqn:Hdup.
  - (* partitionEqual *)
    apply andb_true_iff in Hdup as [Ha Hnl]. apply Nat.ltb_lt in Ha.
    rewrite Less_key in Hnl by lia. apply negb_true_iff, Z.ltb_ge in Hnl.
    assert (Hmin : forall x, a <= x < b -> (kth d1 pivot <= kth d1 x)%Z).
    { intros x Hx. pose proof (Hfloor1 ltac:(lia) x Hx). lia. }
    pose proof (partitionEqual_spec d1 a b pivot ltac:(lia) ltac:(lia) ltac:(lia) Hmin)
      as Heq.
    destruct (partitionEqual d1 a b pivot) as [d2 mid].
    destruct Heq as (Hp2 & Hmid & Hlow & Hhigh).
    assert (Hlen2 : length d2 = length data)
      by (rewrite (seg_perm_length _ _ _ _ Hp2); exact Hlen1).
    destruct (IH d2 mid b limit1 wB wP) as [Hp3 Hs3]; [lia|lia|lia| |].
    { intros _ x Hx. rewrite (Hlow (mid - 1)) by lia.
      pose proof (Hhigh x ltac:(lia)). lia. }
    set (d3 := pdqsort fuel d2 mid b limit1 wB wP) in *.
    split.
    + eapply seg_perm_trans; [exact Hp1|]. eapply seg_perm_trans; [exact Hp2|].
      apply (seg_perm_mono mid b a b); [exact Hp3|lia..].
    + apply (sorted_join key d3 a a mid b (kth d1 pivot)).
      * intros x y Hx Hxy Hy. lia.
      * exact Hs3.
      * intros x Hx. lia.
      * intros x Hx. rewrite (seg_perm_kth_out key mid b d2 d3 x Hp3) by lia.
        apply Hlow. lia.
      * apply (seg_perm_bound key mid b mid b d2 d3
                 (fun k => (kth d1 pivot <= k)%Z) Hp3); try lia.
        intros x Hx. pose proof (Hhigh x ltac:(lia)). lia.
  - (* partition *)
    clear Hdup.
    pose proof (partition_spec d1 a b pivot ltac:(lia) ltac:(lia) ltac:(lia)) as Hpart.
    destruct (partition d1 a b pivot) as [[d2 mid] already].
    destruct Hpart as (Hp2 & Hmid & Hlow & Hhigh).
    assert (Hlen2 : length d2 = length data)
      by (rewrite (seg_perm_length _ _ _ _ Hp2); exact Hlen1).
    assert (Hfloor2 : floor d2 a b)
      by (apply (floor_perm d1 d2 a b a b); [exact Hp2|lia..|exact Hfloor1]).
    set (P := kth d2 mid) in *.
    destruct (mid - a <? b - mid).
    + destruct (IH d2 a mid limit1 true true) as [Hp3 Hs3]; [lia|lia|lia| |].
      { intros Ha x Hx. apply Hfloor2; [exact Ha|lia]. }
      set (d3 := pdqsort fuel d2 a mid limit1 true true) in *.
      assert (Hlen3 : length d3 = length data)
        by (rewrite (seg_perm_length _ _ _ _ Hp3); exact Hlen2).
      destruct (IH d3 (mid + 1) b limit1 ((b - a) / 8 <=? mid - a) already)
        as [Hp4 Hs4]; [lia|lia|lia| |].
      { intros _ x Hx. replace (mid + 1 - 1) with mid by lia.
        rewrite !(seg_perm_kth_out key a mid d2 d3 _ Hp3) by lia. apply Hhigh. lia. }
      set (d4 := pdqsort fuel d3 (mid + 1) b limit1 _ already) in *.
      split.
      * eapply seg_perm_trans; [exact Hp1|]. eapply seg_perm_trans; [exact Hp2|].
        eapply seg_perm_trans.
        -- apply (seg_perm_mono a mid a b); [exact Hp3|lia..].
        -- apply (seg_perm_mono (mid + 1) b a b); [exact Hp4|lia..].
      * apply (sorted_join key d4 a mid (mid + 1) b P).
        -- apply (sorted_seg_frame key d3); [|exact Hs3].
           intros x Hx. apply (seg_perm_kth_out key (mid + 1) b); [exact Hp4|lia|lia].
        -- exact Hs4.
        -- intros x Hx. rewrite (seg_perm_kth_out key (mid + 1) b d3 d4 x Hp4) by lia.
           apply (seg_perm_bound key a mid a mid d2 d3 (fun k => (k <= P)%Z) Hp3);
             try lia.
           intros y Hy. pose proof (Hlow y ltac:(lia)). lia.
        -- intros x Hx. replace x with mid by lia.
           rewrite (seg_perm_kth_out key (mid + 1) b d3 d4 mid Hp4) by lia.
           apply (seg_perm_kth_out key a mid d2 d3 mid Hp3); lia.
        -- apply (seg_perm_bound key (mid + 1) b (mid + 1) b d3 d4
                    (fun k => (P <= k)%Z) Hp4); try lia.
           intros x Hx. rewrite (seg_perm_kth_out key a mid d2 d3 x Hp3) by lia.
           apply Hhigh. lia.
    + destruct (IH d2 (mid + 1) b limit1 true true) as [Hp3 Hs3]; [lia|lia|lia| |].
      { intros _ x Hx. replace (mid + 1 - 1) with mid by lia. apply Hhigh. lia. }
      set (d3 := pdqsort fuel d2 (mid + 1) b limit1 true true) in *.
      assert (Hlen3 : length d3 = length data)
        by (rewrite (seg_perm_length _ _ _ _ Hp3); exact Hlen2).
      destruct (IH d3 a mid limit1 ((b - a) / 8 <=? b - mid) already)
        as [Hp4 Hs4]; [lia|lia|lia| |].
      { intros Ha x Hx.
        rewrite !(seg_perm_kth_out key (mid + 1) b d2 d3 _ Hp3) by lia.
        apply Hfloor2; [exact Ha|lia]. }
      set (d4 := pdqsort fuel d3 a mid limit1 _ already) in *.
      split.
      * eapply seg_perm_trans; [exact Hp1|]. eapply seg_perm_trans; [exact Hp2|].
        eapply seg_perm_trans.
        -- apply (seg_perm_mono (mid + 1) b a b); [exact Hp3|lia..].
        -- apply (seg_perm_mono a mid a b); [exact Hp4|lia..].
      * apply (sorted_join key d4 a mid (mid + 1) b P).
        -- exact Hs4.
        -- apply (sorted_seg_frame key d3); [|exact Hs3].
           intros x Hx. apply (seg_perm_kth_out key a mid); [exact Hp4|lia|lia].
        -- apply (seg_perm_bound key a mid a mid d3 d4 (fun k => (k <= P)%Z) Hp4);
             try lia.
           intros x Hx. rewrite (seg_perm_kth_out key (mid + 1) b d2 d3 x Hp3) by lia.
           pose proof (Hlow x ltac:(lia)). lia.
        -- intros x Hx. replace x with mid by lia.
           rewrite (seg_perm_kth_out key a mid d3 d4 mid Hp4) by lia.
           apply (seg_perm_kth_out key (mid + 1) b d2 d3 mid Hp3); lia.
        -- intros x Hx. rewrite (seg_perm_kth_out key a mid d3 d4 x Hp4) by lia.
           apply (seg_perm_bound key (mid + 1) b (mid + 1) b d2 d3
                    (fun k => (P <= k)%Z) Hp3); try lia.
           intros y Hy. apply Hhigh. lia.
Qed.

Lemma pdqsort_Sort_spec (data : list A) :
  data ≡ₚ Sort data /\ sorted_seg (Sort data) 0 (length data).
Proof.
  unfold Sort. destruct (length data <=? 1) eqn:Hn.
  - apply Nat.leb_le in Hn. split; [reflexivity|].
    intros i j Hi Hij Hj. replace j with i by lia. lia.
  - destruct (pdqsort_spec (S (length data)) data 0 (length data)
                (bits (length data) (length data)) true true) as [Hp Hs]; [lia|lia|lia| |].
    + intros H0. lia.
    + split; [apply (seg_perm_Permutation 0 (length data)); exact Hp|exact Hs].
Qed.

(** *** Small slices

    A slice of at most 12 elements is sorted by [insertionSort] alone. *)

Lemma pdqsort_Sort_small (data : list A) :
  length data <= 12 ->
  Sort data = if length data <=? 1 then data else insertionSort less data 0 (length data).
Proof.
  intros Hlen. unfold Sort. destruct (length data <=? 1); [reflexivity|].
  cbn [pdqsort]. rewrite Nat.sub_0_r.
  replace (length data <=? 12) with true by (symmetry; apply Nat.leb_le; exact Hlen).
  reflexivity.
Qed.

End Generic.

End GoPdqsort.

(** The same for [pdqsort]: it only compares elements of the slice. *)

Module GoPdqsortExt.

Import GoSort GoSortExt GoPdqsort.

Local Close Scope Z_scope.

Section Agree.

Context {A : Type}.
Variables less less' : A -> A -> bool.
Variable xorshift_Next : N -> N.
Variable P : A -> Prop.
Hypothesis agree : forall x y, P x -> P y -> less x y = less' x y.

Local Abbreviation Less_ext := (Less_ext less less' P agree).
Local Abbreviation alike := (alike P).

Lemma median_ext (data : list A) (a b c swaps : nat) :
  Forall P data -> median less data a b c swaps = median less' data a b c swaps.
Proof.
  intros HP. unfold median, order2. rewrite (Less_ext data b a HP).
  destruct (Less less' data b a); cbv beta iota zeta;
    rewrite (Less_ext data _ _ HP);
    (destruct (Less less' data _ _); cbv beta iota zeta;
     rewrite (Less_ext data _ _ HP); reflexivity).
Qed.

Lemma choosePivot_ext (data : list A) (a b : nat) :
  Forall P data -> choosePivot less data a b = choosePivot less' data a b.
Proof.
  intros HP. unfold choosePivot, medianAdjacent.
  destruct (8 <=? b - a); [|reflexivity].
  destruct (50 <=? b - a).
  - rewrite (median_ext data _ _ _ 0 HP).
    destruct (median less' data _ _ _ 0) as [i s1]. rewrite (median_ext data _ _ _ s1 HP).
    destruct (median less' data _ _ _ s1) as [j s2]. rewrite (median_ext data _ _ _ s2 HP).
    destruct (median less' data _ _ _ s2) as [k s3]. rewrite (median_ext data _ _ _ s3 HP).
    reflexivity.
  - rewrite (median_ext data _ _ _ 0 HP). reflexivity.
Qed.

Lemma reverse_loop_Forall :
  forall (fuel : nat) (data : list A) (i j : nat),
    Forall P data -> Forall P (reverse_loop fuel data i j).
Proof.
  induction fuel as [|fuel IH]; intros data i j HP; [exact HP|].
  cbn [reverse_loop]. destruct (i <? j); [|exact HP]. apply IH. apply Swap_Forall. exact HP.
Qed.

Lemma breakPatterns_Forall (data : list A) (a b : nat) :
  Forall P data -> Forall P (breakPatterns xorshift_Next data a b).
Proof.
  intros HP. unfold breakPatterns. destruct (8 <=? b - a); [|exact HP].
  cbn [fold_left fst]. repeat apply Swap_Forall. exact HP.
Qed.

Lemma scan_ordered_ext (data : list A) (b : nat) :
  Forall P data ->
  forall fuel i, scan_ordered less fuel data i b = scan_ordered less' fuel data i b.
Proof.
  intros HP. induction fuel as [|fuel IH]; intros i; [reflexivity|].
  cbn [scan_ordered]. rewrite (Less_ext data _ _ HP), IH. reflexivity.
Qed.

Lemma shift_left_ext :
  forall (j : nat) (data : list A),
    Forall P data -> alike (shift_left less data j) (shift_left less' data j).
Proof.
  induction j as [|j IH]; intros data HP; [apply alike_refl; exact HP|].
  cbn [shift_left]. rewrite (Less_ext data (S j) j HP).
  destruct (negb (Less less' data (S j) j)); [apply alike_refl; exact HP|].
  apply IH. apply Swap_Forall. exact HP.
Qed.

Lemma shift_right_ext (b : nat) :
  forall (fuel : nat) (data : list A) (j : nat),
    Forall P data -> alike (shift_right less fuel data j b) (shift_right less' fuel data j b).
Proof.
  induction fuel as [|fuel IH]; intros data j HP; [apply alike_refl; exact HP|].
  cbn [shift_right]. rewrite (Less_ext data j (j - 1) HP).
  destruct (j <? b); [|apply alike_refl; exact HP].
  destruct (negb (Less less' data j (j - 1))); [apply alike_refl; exact HP|].
  apply IH. apply Swap_Forall. exact HP.
Qed.

Lemma partial_loop_ext (a b : nat) :
  forall (steps : nat) (data : list A) (i : nat),
    Forall P data ->
    partial_loop less steps data a b i = partial_loop less' steps data a b i
    /\ Forall P (partial_loop less steps data a b i).1.
Proof.
  induction steps as [|steps IH]; intros data i HP; [split; [reflexivity|exact HP]|].
  cbn [partial_loop]. rewrite (scan_ordered_ext data b HP).
  set (i1 := scan_ordered less' (b - i) data i b).
  destruct (i1 =? b); [split; [reflexivity|exact HP]|].
  destruct (b - a <? 50); [split; [reflexivity|exact HP]|].
  assert (H1 : Forall P (Swap data i1 (i1 - 1))) by (apply Swap_Forall; exact HP).
  set (d2 := if 2 <=? i1 - a then shift_left less (Swap data i1 (i1 - 1)) (i1 - 1)
             else Swap data i1 (i1 - 1)).
  assert (H2 : alike d2 (if 2 <=? i1 - a
                         then shift_left less' (Swap data i1 (i1 - 1)) (i1 - 1)
                         else Swap data i1 (i1 - 1))).
  { unfold d2. destruct (2 <=? i1 - a); [apply shift_left_ext|apply alike_refl]; exact H1. }
  destruct H2 as [<- H2].
  set (d3 := if 2 <=? b - i1 then shift_right less (b - i1) d2 (i1 + 1) b else d2).
  assert (H3 : alike d3 (if 2 <=? b - i1
                         then shift_right less' (b - i1) d2 (i1 + 1) b else d2)).
  { unfold d3. destruct (2 <=? b - i1); [apply shift_right_ext|apply alike_refl]; exact H2. }
  destruct H3 as [<- H3].
  apply IH. exact H3.
Qed.

Lemma scan_up_ext (data : list A) (a j : nat) :
  Forall P data ->
  forall fuel i, scan_up less fuel data a i j = scan_up less' fuel data a i j.
Proof.
  intros HP. induction fuel as [|fuel IH]; intros i; [reflexivity|].
  cbn [scan_up]. rewrite (Less_ext data _ _ HP), IH. reflexivity.
Qed.

Lemma scan_down_ext (data : list A) (a i : nat) :
  Forall P data ->
  forall fuel j, scan_down less fuel data a i j = scan_down less' fuel data a i j.
Proof.
  intros HP. induction fuel as [|fuel IH]; intros j; [reflexivity|].
  cbn [scan_down]. rewrite (Less_ext data _ _ HP), IH. reflexivity.
Qed.

Lemma pdq_partition_loop_ext (a : nat) :
  forall (fuel : nat) (data : list A) (i j : nat),
    Forall P data ->
    GoPdqsort.partition_loop less fuel data a i j
    = GoPdqsort.partition_loop less' fuel data a i j
    /\ Forall P (GoPdqsort.partition_loop less fuel data a i j).1.1.
Proof.
  induction fuel as [|fuel IH]; intros data i j HP; [split; [reflexivity|exact HP]|].
  cbn [GoPdqsort.partition_loop].
  rewrite (scan_up_ext data a j HP). rewrite (scan_down_ext data a _ HP).
  destruct (_ <? _); [split; [reflexivity|exact HP]|].
  apply IH. apply Swap_Forall. exact HP.
Qed.

Lemma partition_ext (data : list A) (a b pivot : nat) :
  Forall P data ->
  partition less data a b pivot = partition less' data a b pivot
  /\ Forall P (partition less data a b pivot).1.1.
Proof.
  intros HP. unfold partition.
  assert (H0 : Forall P (Swap data a pivot)) by (apply Swap_Forall; exact HP).
  rewrite (scan_up_ext _ a (b - 1) H0). rewrite (scan_down_ext _ a _ H0).
  set (i1 := scan_up less' _ _ a (a + 1) (b - 1)).
  set (j1 := scan_down less' _ _ a i1 (b - 1)).
  destruct (j1 <? i1); [split; [reflexivity|cbn [fst]; apply Swap_Forall; exact H0]|].
  destruct (pdq_partition_loop_ext a (S j1 - i1) (Swap (Swap data a pivot) i1 j1) (S i1)
              (j1 - 1) ltac:(apply Swap_Forall; exact H0)) as [<- H2].
  destruct (GoPdqsort.partition_loop less (S j1 - i1) _ a (S i1) (j1 - 1)) as [[d2 i2] j2].
  cbn [fst] in *. split; [reflexivity|apply Swap_Forall; exact H2].
Qed.

Lemma scan_equal_up_ext (data : list A) (a j : nat) :
  Forall P data ->
  forall fuel i, scan_equal_up less fuel data a i j = scan_equal_up less' fuel data a i j.
Proof.
  intros HP. induction fuel as [|fuel IH]; intros i; [reflexivity|].
  cbn [scan_equal_up]. rewrite (Less_ext data _ _ HP), IH. reflexivity.
Qed.

Lemma scan_greater_ext (data : list A) (a i : nat) :
  Forall P data ->
  forall fuel j, scan_greater less fuel data a i j = scan_greater less' fuel data a i j.
Proof.
  intros HP. induction fuel as [|fuel IH]; intros j; [reflexivity|].
  cbn [scan_greater]. rewrite (Less_ext data _ _ HP), IH. reflexivity.
Qed.

Lemma partitionEqual_loop_ext (a : nat) :
  forall (fuel : nat) (data : list A) (i j : nat),
    Forall P data ->
    partitionEqual_loop less fuel data a i j = partitionEqual_loop less' fuel data a i j
    /\ Forall P (partitionEqual_loop less fuel data a i j).1.
Proof.
  induction fuel as [|fuel IH]; intros data i j HP; [split; [reflexivity|exact HP]|].
  cbn [partitionEqual_loop].
  rewrite (scan_equal_up_ext data a j HP). rewrite (scan_greater_ext data a _ HP).
  destruct (_ <? _); [split; [reflexivity|exact HP]|].
  apply IH. apply Swap_Forall. exact HP.
Qed.

Lemma partitionEqual_ext (data : list A) (a b pivot : nat) :
  Forall P data ->
  partitionEqual less data a b pivot = partitionEqual less' data a b pivot
  /\ Forall P (partitionEqual less data a b pivot).1.
Proof.
  intros HP. unfold partitionEqual. apply partitionEqual_loop_ext.
  apply Swap_Forall. exact HP.
Qed.

Lemma round_head_ext (data : list A) (a b limit : nat) (wB wP : bool) :
  Forall P data ->
  round_head less xorshift_Next data a b limit wB wP
  = round_head less' xorshift_Next data a b limit wB wP
  /\ Forall P (round_head less xorshift_Next data a b limit wB wP).1.1.1.
Proof.
  intros HP. unfold round_head.
  set (r1 := if negb wB then (breakPatterns xorshift_Next data a b, limit - 1)
             else (data, limit)).
  assert (H1 : Forall P r1.1)
    by (unfold r1; destruct (negb wB); [apply breakPatterns_Forall|]; exact HP).
  destruct r1 as [d1 limit1]. cbn [fst] in H1.
  rewrite (choosePivot_ext d1 a b H1).
  destruct (choosePivot less' d1 a b) as [pivot hint].
  set (r2 := match hint with
             | decreasingHint =>
                 (reverseRange d1 a b, b - 1 - (pivot - a), increasingHint)
             | _ => (d1, pivot, hint)
             end).
  assert (H2 : Forall P r2.1.1)
    by (unfold r2; destruct hint; cbn [fst]; try exact H1;
        apply reverse_loop_Forall; exact H1).
  destruct r2 as [[d2 pivot2] hint2]. cbn [fst] in H2.
  destruct hint2; try (split; [reflexivity|exact H2]).
  destruct (wB && wP); [|split; [reflexivity|exact H2]].
  unfold partialInsertionSort.
  destruct (partial_loop_ext a b 5 d2 (a + 1) H2) as [<- H3].
  destruct (partial_loop less 5 d2 a b (a + 1)) as [d3 sorted].
  split; [reflexivity|exact H3].
Qed.

Lemma pdqsort_ext :
  forall (fuel : nat) (data : list A) (a b limit : nat) (wB wP : bool),
    Forall P data ->
    alike (pdqsort less xorshift_Next fuel data a b limit wB wP)
      (pdqsort less' xorshift_Next fuel data a b limit wB wP).
Proof.
  induction fuel as [|fuel IH]; intros data a b limit wB wP HP;
    [apply alike_refl; exact HP|].
  cbn [pdqsort]. destruct (b - a <=? 12); [apply insertionSort_ext; assumption|].
  destruct (limit =? 0); [apply heapSort_ext; assumption|].
  destruct (round_head_ext data a b limit wB wP HP) as [<- H1].
  destruct (round_head less xorshift_Next data a b limit wB wP)
    as [[[d1 limit1] pivot] sorted]. cbn [fst] in H1.
  destruct sorted; [apply alike_refl; exact H1|].
  rewrite (Less_ext d1 _ _ H1).
  destruct ((0 <? a) && negb (Less less' d1 (a - 1) pivot)).
  - destruct (partitionEqual_ext d1 a b pivot H1) as [<- H2].
    destruct (partitionEqual less d1 a b pivot) as [d2 mid]. apply IH. exact H2.
  - destruct (partition_ext d1 a b pivot H1) as [<- H2].
    destruct (partition less d1 a b pivot) as [[d2 mid] already]. cbn [fst] in H2.
    destruct (mid - a <? b - mid).
    + destruct (IH d2 a mid limit1 true true H2) as [<- H3]. apply IH. exact H3.
    + destruct (IH d2 (mid + 1) b limit1 true true H2) as [<- H3]. apply IH. exact H3.
Qed.

Lemma pdqsort_Sort_ext (data : list A) :
  Forall P data ->
  GoPdqsort.Sort less xorshift_Next data = GoPdqsort.Sort less' xorshift_Next data.
Proof.
  intros HP. unfold GoPdqsort.Sort. destruct (length data <=? 1); [reflexivity|].
  apply pdqsort_ext. exact HP.
Qed.

End Agree.

End GoPdqsortExt.

(** ** sort.Sort, by release of the library

    [Actions.Sort] calls the [sort.Sort] of the Go release the program
    is built with: the quicksort of Go 1.7 to 1.18, or the
    pattern-defeating quicksort of Go 1.19 and later, which comes with
    the generator of its [breakPatterns]. *)
Inductive sort_release : Type :=
| Quicksort
| Pdqsort (xorshift_Next : N -> N).

Definition sort_Sort {A : Type} (go : sort_release) (less : A -> A -> bool)
    (data : list A) : list A :=
  match go with
  | Quicksort => GoSort.Sort less data
  | Pdqsort xorshift_Next => GoPdqsort.Sort less xorshift_Next data
  end.

Module SortLib.

Import GoSort GoSortSmall.

Local Close Scope Z_scope.

Section Release.

Context {A : Type}.
Variable go : sort_release.
Variable less : A -> A -> bool.

(** For an order given by a key the slice comes out as a permutation of
    what went in, in the order of the keys. *)
Lemma sort_Sort_spec (key : A -> Z) (data : list A) :
  (forall x y, less x y = (key x <? key y)%Z) ->
  data ≡ₚ sort_Sort go less data
  /\ sorted_seg key (sort_Sort go less data) 0 (length data).
Proof.
  intros Hkey. destruct go as [|next]; cbn [sort_Sort].
  - apply (GoSort.Sort_spec less key Hkey).
  - apply (GoPdqsort.pdqsort_Sort_spec less next key Hkey).
Qed.

(** Two comparisons that agree on the elements of the slice sort it
    alike. *)
Lemma sort_Sort_ext (less' : A -> A -> bool) (P : A -> Prop) (data : list A) :
  (forall x y, P x -> P y -> less x y = less' x y) ->
  Forall P data -> sort_Sort go less data = sort_Sort go less' data.
Proof.
  intros Hagree HP. destruct go as [|next]; cbn [sort_Sort].
  - apply (GoSortExt.Sort_ext less less' P Hagree data HP).
  - apply (GoPdqsortExt.pdqsort_Sort_ext less less' next P Hagree data HP).
Qed.

(** A slice of at most 6 elements is sorted by [insertionSort] alone,
    whatever the release. *)
Lemma sort_Sort_small (data : list A) :
  length data <= 6 ->
  sort_Sort go less data
  = if 1 <? length data then insertionSort less data 0 (length data) else data.
Proof.
  intros Hlen. destruct go as [|next]; cbn [sort_Sort].
  - apply Sort_small. exact Hlen.
  - rewrite GoPdqsort.pdqsort_Sort_small by lia.
    destruct (length data <=? 1) eqn:H1.
    + apply Nat.leb_le in H1.
      replace (1 <? length data) with false by (symmetry; apply Nat.ltb_ge; lia).
      reflexivity.
    + apply Nat.leb_gt in H1.
      replace (1 <? length data) with true by (symmetry; apply Nat.ltb_lt; lia).
      reflexivity.
Qed.

Lemma Swap_Permutation (data : list A) (i j : nat) : data ≡ₚ Swap data i j.
Proof.
  destruct (decide (i < length data)) as [Hi|Hi].
  - destruct (decide (j < length data)) as [Hj|Hj].
    + apply (seg_perm_Permutation 0 (length data)). apply Swap_seg_perm; lia.
    + unfold Swap. rewrite (lookup_ge_None_2 data j) by lia.
      destruct (data !! i); reflexivity.
  - unfold Swap. rewrite (lookup_ge_None_2 data i) by lia. reflexivity.
Qed.

Lemma insertion_inner_Permutation (a : nat) :
  forall (j : nat) (data : list A), data ≡ₚ insertion_inner less data a j.
Proof.
  induction j as [|j IH]; intros data; [reflexivity|]. cbn [insertion_inner].
  destruct ((a <? S j) && Less less data (S j) j); [|reflexivity].
  rewrite <- IH. apply Swap_Permutation.
Qed.

Lemma insertionSort_Permutation (data : list A) (a b : nat) :
  data ≡ₚ insertionSort less data a b.
Proof.
  unfold insertionSort. generalize (seq (a + 1) (b - (a + 1))). intros js. revert data.
  induction js as [|j js IH]; intros data; [reflexivity|]. cbn [fold_left].
  rewrite <- IH. apply insertion_inner_Permutation.
Qed.

(** On at most 6 elements the sort permutes the slice and keeps equal
    elements in order, for any comparison. *)
Lemma sort_Sort_small_Permutation (data : list A) :
  length data <= 6 -> data ≡ₚ sort_Sort go less data.
Proof.
  intros Hlen. rewrite (sort_Sort_small data Hlen).
  destruct (1 <? length data); [apply insertionSort_Permutation|reflexivity].
Qed.

Lemma sort_Sort_small_before (data : list A) (x y : A) :
  length data <= 6 ->
  less y x = false ->
  before data x y -> before (sort_Sort go less data) x y.
Proof.
  intros Hlen Hyx Hbefore. rewrite (sort_Sort_small data Hlen).
  destruct (1 <? length data); [|exact Hbefore].
  apply insertionSort_before; [lia|exact Hyx|exact Hbefore].
Qed.

(** On at most 12 elements a slice that is in order already is left as
    it is. *)
Lemma sort_Sort_ordered (data : list A) :
  length data <= 12 -> ordered less data -> sort_Sort go less data = data.
Proof.
  intros Hlen Hord. destruct go as [|next]; cbn [sort_Sort].
  - apply Sort_ordered; assumption.
  - rewrite GoPdqsort.pdqsort_Sort_small by exact Hlen.
    destruct (length data <=? 1); [reflexivity|].
    apply insertionSort_ordered; [lia|exact Hord].
Qed.

End Release.

End SortLib.

(** ** Data model *)

(** A pointer: a location of a typed store. *)
Abbreviation loc := positive (only parsing).

(** [BalanceFilter] (engine/balance_filter.go), with the fields the
    handlers of action.go read or write.  Every field of the Go struct is
    a pointer, so that "absent" ([None]) differs from a present zero
    value. *)
Record BalanceFilter : Type := mkBalanceFilter {
  bfUuid : option string;
  bfID : option string;
  bfType : option string;
  bfValue : option Z;
  bfExpirationDate : option Z;
  bfDisabled : option bool;
  bfBlocker : option bool
}.

#[global] Instance BalanceFilter_eq_dec : EqDecision BalanceFilter.
Proof. solve_decision. Defined.

(** [Action]: [Balance] is a pointer into the store of filters. *)
Record Action : Type := mkAction {
  Id : string;
  ActionType : string;
  ExtraParameters : string;
  Filter : string;
  ExpirationString : string;
  Weight : float;
  Balance : option loc;
  balanceValue : Z
}.

#[global] Instance Action_eq_dec : EqDecision Action.
Proof. solve_decision. Defined.

(** The action type tags. *)
Definition LOG : string := "*log".
Definition RESET_TRIGGERS : string := "*reset_triggers".
Definition SET_RECURRENT : string := "*set_recurrent".
Definition UNSET_RECURRENT : string := "*unset_recurrent".
Definition ALLOW_NEGATIVE : string := "*allow_negative".
Definition DENY_NEGATIVE : string := "*deny_negative".
Definition RESET_ACCOUNT : string := "*reset_account".
Definition REMOVE_ACCOUNT : string := "*remove_account".
Definition SET_BALANCE : string := "*set_balance".
Definition REMOVE_BALANCE : string := "*remove_balance".
Definition TOPUP_RESET : string := "*topup_reset".
Definition TOPUP : string := "*topup".
Definition DEBIT_RESET : string := "*debit_reset".
Definition DEBIT : string := "*debit".
Definition RESET_COUNTERS : string := "*reset_counters".
Definition ENABLE_ACCOUNT : string := "*enable_account".
Definition DISABLE_ACCOUNT : string := "*disable_account".
Definition CALL_URL : string := "*call_url".
Definition CALL_URL_ASYNC : string := "*call_url_async".
Definition MAIL_ASYNC : string := "*mail_async".
Definition CDRLOG : string := "*cdrlog".
Definition SET_DDESTINATIONS : string := "*set_ddestinations".
Definition TRANSFER_MONETARY_DEFAULT : string := "*transfer_monetary_default".
Definition CGR_RPC : string := "*cgr_rpc".
Definition TopUpZeroNegative : string := "*topup_zero_negative".
Definition SetExpiry : string := "*set_expiry".
Definition MetaPublishAccount : string := "*publish_account".

(** [Balance] (engine/balance.go), with the fields action.go uses. *)
Record Balance_ : Type := mkBalance {
  Uuid : string;
  ID : string;
  Value : Z;
  ExpirationDate : Z;
  DestinationIDs : list string
}.

#[global] Instance Balance_eq_dec : EqDecision Balance_.
Proof. solve_decision. Defined.

(** [Balances] is a slice of [Balance] pointers into the store of
    balances. *)
Abbreviation Balances := (list positive) (only parsing).

(** [Account]: [BalanceMap] is [map[string]Balances]; the nil map reads
    as the empty one. *)
Record Account : Type := mkAccount {
  accID : string;
  BalanceMap : gmap string Balances;
  AllowNegative : bool;
  Disabled : bool
}.

(** The triggering statistics queue: its id and the keys of [Metrics]. *)
Record CDRStatsQueueTriggered : Type := mkSq {
  sqId : string;
  Metrics : list string
}.

(** An action plan, as far as [removeAccountAction] sees it: the set of
    member account ids. *)
Record ActionPlan : Type := mkActionPlan {
  apId : string;
  AccountIDs : gset string
}.

Record Destination : Type := mkDestination {
  destId : string;
  Prefixes : list string
}.

(** A field of a CDR field template: the name of its source, and the
    rules [Parse] applies to the source value. *)
Record RSRField : Type := mkRSRField {
  rsrId : string;
  rsrRules : string
}.

(** The CDR that [cdrLogAction] fills by reflection, as the table of its
    fields by name: the string fields, the float fields, and the bag of
    extra fields. *)
Record CDR : Type := mkCDR {
  cdrStrings : gmap string string;
  cdrFloats : gmap string Z;
  ExtraFields : gmap string string
}.

Inductive fieldKind : Type := KFloat64 | KString | KOther.

Record RPCRequest : Type := mkRPCRequest {
  Address : string;
  Transport : string;
  Method : string;
  Attempts : Z;
  Async : bool;
  Params : list (string * string)
}.

(** What a handler does to the outside world, in the order it does it
    (the calls of [utils.Logger] other than those of [logAction] are left
    out). *)
Inductive event : Type :=
| EvLog (msg : string)
| EvAccountCall (method : string) (acc : loc)
| EvHttpPost (async : bool) (address body : string)
| EvSendMail (toAddrs : list string) (toAddrStr : string)
| EvRpcCall (async : bool) (method : string)
| EvPublish (what : loc).

#[global] Instance event_eq_dec : EqDecision event.
Proof. solve_decision. Defined.

Definition load {T : Type} (store : gmap loc T) (p : loc) : result T :=
  match store !! p with
  | Some v => Return v
  | None => Panic
  end.

(** Dereference of a pointer that may be nil, for a receiver whose
    methods accept nil. *)
Definition load_opt {T : Type} (store : gmap loc T) (p : option loc)
  : result (option T) :=
  match p with
  | None => Return None
  | Some l => do v <~ load store l; Return (Some v)
  end.

(** A fresh cell of a store. *)
Definition alloc {T : Type} (store : gmap loc T) (v : T) : loc * gmap loc T :=
  let l := fresh (dom store) in (l, <[l := v]> store).

(** Field updates, as Go's assignments through a pointer. *)
Definition with_BalanceMap (acc : Account) (m : gmap string Balances) : Account :=
  mkAccount (accID acc) m (AllowNegative acc) (Disabled acc).
Definition with_AllowNegative (acc : Account) (b : bool) : Account :=
  mkAccount (accID acc) (BalanceMap acc) b (Disabled acc).
Definition with_Disabled (acc : Account) (b : bool) : Account :=
  mkAccount (accID acc) (BalanceMap acc) (AllowNegative acc) b.
Definition with_Value (b : Balance_) (v : Z) : Balance_ :=
  mkBalance (Uuid b) (ID b) v (ExpirationDate b) (DestinationIDs b).
Definition with_ExpirationDate (b : Balance_) (d : Z) : Balance_ :=
  mkBalance (Uuid b) (ID b) (Value b) d (DestinationIDs b).
Definition with_balanceValue (a : Action) (v : Z) : Action :=
  mkAction (Id a) (ActionType a) (ExtraParameters a) (Filter a)
    (ExpirationString a) (Weight a) (Balance a) v.
Definition with_ExpirationString (a : Action) (s : string) : Action :=
  mkAction (Id a) (ActionType a) (ExtraParameters a) (Filter a)
    s (Weight a) (Balance a) (balanceValue a).
Definition with_bfValue (f : BalanceFilter) (v : option Z) : BalanceFilter :=
  mkBalanceFilter (bfUuid f) (bfID f) (bfType f) v (bfExpirationDate f)
    (bfDisabled f) (bfBlocker f).
Definition with_bfDisabled (f : BalanceFilter) (b : option bool) : BalanceFilter :=
  mkBalanceFilter (bfUuid f) (bfID f) (bfType f) (bfValue f) (bfExpirationDate f)
    b (bfBlocker f).
Definition with_bfBlocker (f : BalanceFilter) (b : option bool) : BalanceFilter :=
  mkBalanceFilter (bfUuid f) (bfID f) (bfType f) (bfValue f) (bfExpirationDate f)
    (bfDisabled f) b.

(** Modelled from the spec: the accessors of [BalanceFilter]
    (engine/balance_filter.go is not part of the excerpt).  They accept
    a nil receiver, as [removeBalanceAction] and [setExpiryAction] call
    them on [a.Balance] unguarded; an absent field reads as its zero
    value; [SetValue] stores the value [GetValue] reads. *)
Definition GetType (f : option BalanceFilter) : string :=
  match f with
  | Some f => default EmptyString (bfType f)
  | None => EmptyString
  end.

Definition GetValue (f : option BalanceFilter) : Z :=
  match f with
  | Some f => default 0 (bfValue f)
  | None => 0
  end.

Definition GetExpirationDate (f : option BalanceFilter) : Z :=
  match f with
  | Some f => default 0 (bfExpirationDate f)
  | None => 0
  end.

Definition SetValue (f : BalanceFilter) (v : Z) : BalanceFilter :=
  with_bfValue f (Some v).

(** Constants of package utils. *)
Definition MONETARY : string := "*monetary".
Definition MetaInternal : string := "*internal".
Definition ACTION_PLAN_PREFIX : string := "apl_".
Definition AccountActionPlansPrefix : string := "aap_".
Definition DESTINATION_PREFIX : string := "dst_".

(** ** The handlers *)

Section Engine.

(** The state of the outside world (data store, caches, CDR store, remote
    peers). *)
Variable W : Type.

(** The memory the handlers work on: the typed stores behind the
    pointers, the trace of outside effects and the outside world.  A
    location absent from a store is an invalid pointer: dereferencing it
    panics, as nil does. *)
Record State : Type := mkState {
  accounts : gmap loc Account;
  balances : gmap loc Balance_;
  actions : gmap loc Action;
  filters : gmap loc BalanceFilter;
  trace : list event;
  world : W
}.

Definition set_accounts (st : State) (m : gmap loc Account) : State :=
  mkState m (balances st) (actions st) (filters st) (trace st) (world st).
Definition set_balances (st : State) (m : gmap loc Balance_) : State :=
  mkState (accounts st) m (actions st) (filters st) (trace st) (world st).
Definition set_actions (st : State) (m : gmap loc Action) : State :=
  mkState (accounts st) (balances st) m (filters st) (trace st) (world st).
Definition set_filters (st : State) (m : gmap loc BalanceFilter) : State :=
  mkState (accounts st) (balances st) (actions st) m (trace st) (world st).
Definition set_world (st : State) (w : W) : State :=
  mkState (accounts st) (balances st) (actions st) (filters st) (trace st) w.
Definition emit (e : event) (st : State) : State :=
  mkState (accounts st) (balances st) (actions st) (filters st)
    (trace st ++ [e]) (world st).

(** The handler signature [actionTypeFunc]: the account pointer, the
    triggering queue, the action pointer and the sibling actions; the
    result is Go's [error]. *)
Definition actionTypeFunc : Type :=
  option loc -> option CDRStatsQueueTriggered -> loc -> list loc ->
  State -> result (goerr * State).

Definition ok (st : State) : result (goerr * State) := Return (None, st).
Definition fail (e : error) (st : State) : result (goerr * State) :=
  Return (Some e, st).

(** *** utils.Clone: the gob round trip

    Modelled from the spec: [utils.Clone] (utils/coreutils.go is not part
    of the excerpt) encodes its argument with encoding/gob and decodes the
    bytes into the target, which yields a deep copy: every struct behind a
    pointer is rebuilt in a fresh cell.  gob transmits exported fields
    only, and it does not transmit a scalar that holds the zero value of
    its type, so a pointer to [false] (or to the empty string) decodes as
    nil; [Actions.Clone] repairs exactly this for [Disabled] and
    [Blocker].  A pointer to a struct is transmitted even when the struct
    is all zero. *)

Definition nonzero_bool (b : option bool) : option bool :=
  match b with
  | Some true => Some true
  | _ => None
  end.

Definition nonzero_string (s : option string) : option string :=
  match s with
  | Some s => if decide (s = EmptyString) then None else Some s
  | None => None
  end.

(** What reaches the decoder of a [BalanceFilter]. *)
Definition wire_filter (f : BalanceFilter) : BalanceFilter :=
  mkBalanceFilter (nonzero_string (bfUuid f)) (nonzero_string (bfID f))
    (nonzero_string (bfType f)) (bfValue f) (bfExpirationDate f)
    (nonzero_bool (bfDisabled f)) (nonzero_bool (bfBlocker f)).

(** The encoded form of an [Action]: its exported fields, with the
    filter behind [Balance] flattened in. *)
Record ActionWire : Type := mkWire {
  wId : string;
  wActionType : string;
  wExtraParameters : string;
  wFilter : string;
  wExpirationString : string;
  wWeight : float;
  wBalance : option BalanceFilter
}.

Definition wire_of (act : Action) (f : option BalanceFilter) : ActionWire :=
  mkWire (Id act) (ActionType act) (ExtraParameters act) (Filter act)
    (ExpirationString act) (Weight act) f.

(** Encoding fails on an invalid pointer. *)
Definition encode_Action (st : State) (a : loc) : option ActionWire :=
  match actions st !! a with
  | None => None
  | Some act =>
      match Balance act with
      | None => Some (wire_of act None)
      | Some p =>
          match filters st !! p with
          | None => None
          | Some f => Some (wire_of act (Some (wire_filter f)))
          end
      end
  end.

Definition unwire (w : ActionWire) (p : option loc) : Action :=
  mkAction (wId w) (wActionType w) (wExtraParameters w) (wFilter w)
    (wExpirationString w) (wWeight w) p 0.

(** Decoding builds the value in fresh cells; [balanceValue], not
    exported, is left at zero. *)
Definition decode_Action_value (w : ActionWire) (st : State) : Action * State :=
  match wBalance w with
  | None => (unwire w None, st)
  | Some f =>
      let '(p, fs) := alloc (filters st) f in
      (unwire w (Some p), set_filters st fs)
  end.

Definition decode_Action (w : ActionWire) (st : State) : loc * State :=
  let '(act, st1) := decode_Action_value w st in
  let '(l, acts) := alloc (actions st1) act in
  (l, set_actions st1 acts).

Fixpoint encode_Actions (st : State) (apl : list loc) : option (list ActionWire) :=
  match apl with
  | [] => Some []
  | a :: rest =>
      match encode_Action st a, encode_Actions st rest with
      | Some w, Some ws => Some (w :: ws)
      | _, _ => None
      end
  end.

Fixpoint decode_Actions (ws : list ActionWire) (st : State) : list loc * State :=
  match ws with
  | [] => ([], st)
  | w :: rest =>
      let '(l, st1) := decode_Action w st in
      let '(ls, st2) := decode_Actions rest st1 in
      (l :: ls, st2)
  end.

(** [utils.Clone(apl, &cln)] for an [Actions] value: [None] is the
    error result. *)
Definition utils_Clone_Actions (apl : list loc) (st : State)
  : option (list loc * State) :=
  match encode_Actions st apl with
  | Some ws => Some (decode_Actions ws st)
  | None => None
  end.

(** The zero [Action], what [var clonedAction Action] holds before the
    decoder fills it. *)
Definition zero_Action : Action :=
  mkAction EmptyString EmptyString EmptyString EmptyString EmptyString 0%float None 0.

(** [func (a *Action) Clone() *Action]: the error of [utils.Clone] is
    dropped, the target is returned as it is then. *)
Definition Action_Clone (a : loc) (st : State) : loc * State :=
  let '(act, st1) :=
    match encode_Action st a with
    | Some w => decode_Action_value w st
    | None => (zero_Action, st)
    end in
  let '(l, acts) := alloc (actions st1) act in
  (l, set_actions st1 acts).


(** *** Collaborators of the account model (engine/account.go,
    engine/balance.go: outside the excerpt, taken as parameters) *)

(** [b.MatchFilter(filter, skipIds, skipExpiry)]. *)
Variable MatchFilter : Balance_ -> option BalanceFilter -> bool -> bool -> bool.

(** [ub.debitBalanceAction(a, reset, resetIfNegative)]: it works on the
    account and its balances and reads the action and the filter behind
    it; what it writes to the action is its [balanceValue]. *)
Variable debitBalanceAction :
  Account -> gmap loc Balance_ -> Action -> option BalanceFilter -> bool -> bool ->
  result (goerr * Account * gmap loc Balance_ * Z).

(** [acc.GetDefaultMoneyBalance()]: the pointer to the default monetary
    balance, which it may have had to create. *)
Variable GetDefaultMoneyBalance :
  Account -> gmap loc Balance_ -> result (loc * Account * gmap loc Balance_).

(** [acc.setBalanceAction(a)]. *)
Variable setBalanceAction :
  Account -> gmap loc Balance_ -> Action -> option BalanceFilter ->
  result (goerr * Account * gmap loc Balance_).

Definition store_account (st : State) (u : loc) (acc : Account) : State :=
  set_accounts st (<[u := acc]> (accounts st)).

(** *** Logging *)

Definition logAction : actionTypeFunc := fun ub sq a acs st =>
  let st1 := match ub with
             | Some _ => emit (EvLog "Threshold hit, Balance") st
             | None => st
             end in
  let st2 := match sq with
             | Some _ => emit (EvLog "Threshold hit, CDRStatsQueue") st1
             | None => st1
             end in
  ok st2.

(** *** Single-field mutations *)

Definition resetTriggersAction : actionTypeFunc := fun ub sq a acs st =>
  match ub with
  | None => fail ErrNilAccount st
  | Some u => ok (emit (EvAccountCall "ResetActionTriggers" u) st)
  end.

Definition setRecurrentAction : actionTypeFunc := fun ub sq a acs st =>
  match ub with
  | None => fail ErrNilAccount st
  | Some u => ok (emit (EvAccountCall "SetRecurrent(true)" u) st)
  end.

Definition unsetRecurrentAction : actionTypeFunc := fun ub sq a acs st =>
  match ub with
  | None => fail ErrNilAccount st
  | Some u => ok (emit (EvAccountCall "SetRecurrent(false)" u) st)
  end.

Definition allowNegativeAction : actionTypeFunc := fun ub sq a acs st =>
  match ub with
  | None => fail ErrNilAccount st
  | Some u =>
      do acc <~ load (accounts st) u;
      ok (store_account st u (with_AllowNegative acc true))
  end.

Definition denyNegativeAction : actionTypeFunc := fun ub sq a acs st =>
  match ub with
  | None => fail ErrNilAccount st
  | Some u =>
      do acc <~ load (accounts st) u;
      ok (store_account st u (with_AllowNegative acc false))
  end.

Definition enableAccountAction : actionTypeFunc := fun acc sq a acs st =>
  match acc with
  | None => fail ErrNilAccount st
  | Some u =>
      do ac <~ load (accounts st) u;
      ok (store_account st u (with_Disabled ac false))
  end.

Definition disableAccountAction : actionTypeFunc := fun acc sq a acs st =>
  match acc with
  | None => fail ErrNilAccount st
  | Some u =>
      do ac <~ load (accounts st) u;
      ok (store_account st u (with_Disabled ac true))
  end.

Definition resetCountersAction : actionTypeFunc := fun ub sq a acs st =>
  match ub with
  | None => fail ErrNilAccount st
  | Some u =>
      do _ <~ load (accounts st) u;
      ok (emit (EvAccountCall "UnitCounters.resetCounters" u) st)
  end.

(** [genericReset]: every bucket becomes one fresh zero balance. *)
Definition zero_Balance : Balance_ := mkBalance EmptyString EmptyString 0 0 [].

Definition genericReset (u : loc) (st : State) : result (goerr * State) :=
  do acc <~ load (accounts st) u;
  let '(bm, bs) :=
    fold_right
      (fun (kv : string * Balances) '(bm, bs) =>
         let '(l, bs') := alloc bs zero_Balance in
         (<[kv.1 := [l]]> bm, bs'))
      (BalanceMap acc, balances st) (map_to_list (BalanceMap acc)) in
  let st1 := set_balances (store_account st u (with_BalanceMap acc bm)) bs in
  ok (emit (EvAccountCall "ResetActionTriggers" u)
        (emit (EvAccountCall "InitCounters" u) st1)).

Definition resetAccountAction : actionTypeFunc := fun ub sq a acs st =>
  match ub with
  | None => fail ErrNilAccount st
  | Some u => genericReset u st
  end.

(** *** Debits and top-ups *)

(** [genericMakeNegative]: only apply if not already negative. *)
Definition genericMakeNegative (a : loc) (st : State) : result State :=
  do act <~ load (actions st) a;
  match Balance act with
  | None => Return st
  | Some p =>
      do f <~ load (filters st) p;
      if 0 <? GetValue (Some f)
      then Return (set_filters st (<[p := SetValue f (- GetValue (Some f))]> (filters st)))
      else Return st
  end.

Definition call_debitBalanceAction (u : loc) (a : loc) (reset resetIfNegative : bool)
    (st : State) : result (goerr * State) :=
  do acc <~ load (accounts st) u;
  do act <~ load (actions st) a;
  do f <~ load_opt (filters st) (Balance act);
  do r <~ debitBalanceAction acc (balances st) act f reset resetIfNegative;
  let '(err, acc', bs', bv) := r in
  let st1 := set_balances (store_account st u acc') bs' in
  Return (err, set_actions st1 (<[a := with_balanceValue act bv]> (actions st1))).

Definition genericDebit (ub : option loc) (a : loc) (reset : bool) (st : State)
  : result (goerr * State) :=
  match ub with
  | None => fail ErrNilAccount st
  | Some u => call_debitBalanceAction u a reset false st
  end.

(** [a.balanceValue = c.balanceValue]. *)
Definition copy_balanceValue (a c : loc) (st : State) : result State :=
  do cact <~ load (actions st) c;
  do act <~ load (actions st) a;
  Return (set_actions st (<[a := with_balanceValue act (balanceValue cact)]> (actions st))).

Definition topupResetAction : actionTypeFunc := fun ub sq a acs st =>
  match ub with
  | None => fail ErrNilAccount st
  | Some u =>
      let '(c, st1) := Action_Clone a st in
      do st2 <~ genericMakeNegative c st1;
      do r <~ genericDebit ub c true st2;
      let '(err, st3) := r in
      do st4 <~ copy_balanceValue a c st3;
      Return (err, st4)
  end.

Definition topupAction : actionTypeFunc := fun ub sq a acs st =>
  match ub with
  | None => fail ErrNilAccount st
  | Some u =>
      let '(c, st1) := Action_Clone a st in
      do st2 <~ genericMakeNegative c st1;
      do r <~ genericDebit ub c false st2;
      let '(err, st3) := r in
      do st4 <~ copy_balanceValue a c st3;
      Return (err, st4)
  end.

Definition debitResetAction : actionTypeFunc := fun ub sq a acs st =>
  match ub with
  | None => fail ErrNilAccount st
  | Some u => genericDebit ub a true st
  end.

Definition debitAction : actionTypeFunc := fun ub sq a acs st =>
  match ub with
  | None => fail ErrNilAccount st
  | Some u => genericDebit ub a false st
  end.

Definition topupZeroNegativeAction : actionTypeFunc := fun account sq a acs st =>
  match account with
  | None => fail ErrNilAccount st
  | Some u => call_debitBalanceAction u a false true st
  end.

(** *** Direct manipulation of the balance buckets *)

(** Does the balance behind [p] match the filter?  (Used to state what
    the loops below do; the loops themselves dereference.) *)
Definition matches (bs : gmap loc Balance_) (f : option BalanceFilter) (p : loc) : bool :=
  match bs !! p with
  | Some b => MatchFilter b f false false
  | None => false
  end.

(** The loop of [removeBalanceAction]: on a match the last element is
    moved to slot [i], the slice is cut by one and slot [i] is looked at
    again.  Every round either advances [i] or shortens the slice, so
    [length bChain - i] rounds are enough: [fuel] bounds them. *)
Fixpoint removeBalance_loop (fuel : nat) (bs : gmap loc Balance_)
    (f : option BalanceFilter) (i : nat) (bChain : Balances) (found : bool)
  : result (Balances * bool) :=
  match fuel with
  | O => Return (bChain, found)
  | S fuel' =>
      match bChain !! i with
      | None => Return (bChain, found)
      | Some p =>
          do b <~ load bs p;
          if MatchFilter b f false false
          then
            let lastp := default p (last bChain) in
            removeBalance_loop fuel' bs f i
              (take (length bChain - 1) (<[i := lastp]> bChain)) true
          else removeBalance_loop fuel' bs f (S i) bChain found
      end
  end.

Definition removeBalanceAction : actionTypeFunc := fun ub sq a acs st =>
  match ub with
  | None => fail ErrNilAccountFor st
  | Some u =>
      do acc <~ load (accounts st) u;
      do act <~ load (actions st) a;
      do f <~ load_opt (filters st) (Balance act);
      match BalanceMap acc !! GetType f with
      | None => fail ErrNotFound st
      | Some bChain =>
          do r <~ removeBalance_loop (length bChain) (balances st) f 0 bChain false;
          let '(bChain', found) := r in
          let st1 :=
            store_account st u
              (with_BalanceMap acc (<[GetType f := bChain']> (BalanceMap acc))) in
          if found then ok st1 else fail ErrNotFound st1
      end
  end.

Definition setBalanceAction_h : actionTypeFunc := fun acc sq a acs st =>
  match acc with
  | None => fail ErrNilAccountFor st
  | Some u =>
      do ac <~ load (accounts st) u;
      do act <~ load (actions st) a;
      do f <~ load_opt (filters st) (Balance act);
      do r <~ setBalanceAction ac (balances st) act f;
      let '(err, ac', bs') := r in
      Return (err, set_balances (store_account st u ac') bs')
  end.

(** [x + y] on [float64]: the sum rounded to the nearest [float64],
    which is not always the exact sum and is not associative.  Nothing
    is assumed of it. *)
Variable float_add : Z -> Z -> Z.

(** One round of the loop of [transferMonetaryDefaultAction], for the
    balance behind [p]; [d] is the default balance, [a] the action. *)
Definition transfer_step (a d p : loc) (st : State) : result State :=
  do balance <~ load (balances st) p;
  do defaultBalance <~ load (balances st) d;
  if bool_decide (Uuid balance <> Uuid defaultBalance) then
    if bool_decide (ID balance <> ID defaultBalance) then (* extra caution *)
      do act <~ load (actions st) a;
      do f <~ load_opt (filters st) (Balance act);
      if MatchFilter balance f false false then
        if 0 <? Value balance then
          let bs1 :=
            <[d := with_Value defaultBalance
                     (float_add (Value defaultBalance) (Value balance))]>
              (balances st) in
          do balance1 <~ load bs1 p;
          Return (set_balances st (<[p := with_Value balance1 0]> bs1))
        else Return st
      else Return st
    else Return st
  else Return st.

Fixpoint transfer_loop (a d : loc) (bChain : Balances) (st : State) : result State :=
  match bChain with
  | [] => Return st
  | p :: rest =>
      do st1 <~ transfer_step a d p st;
      transfer_loop a d rest st1
  end.

Definition transferMonetaryDefaultAction : actionTypeFunc := fun acc sq a acs st =>
  match acc with
  | None => fail ErrAccountNotFound st
  | Some u =>
      do ac <~ load (accounts st) u;
      match BalanceMap ac !! MONETARY with
      | None => fail ErrNotFound st
      | Some _ =>
          do r <~ GetDefaultMoneyBalance ac (balances st);
          let '(d, ac', bs') := r in
          let st1 := set_balances (store_account st u ac') bs' in
          let bChain := default [] (BalanceMap ac' !! MONETARY) in
          do st2 <~ transfer_loop a d bChain st1;
          ok st2
      end
  end.

Fixpoint setExpiry_loop (f : option BalanceFilter) (bChain : Balances)
    (bs : gmap loc Balance_) : result (gmap loc Balance_) :=
  match bChain with
  | [] => Return bs
  | p :: rest =>
      do b <~ load bs p;
      if MatchFilter b f false true
      then setExpiry_loop f rest (<[p := with_ExpirationDate b (GetExpirationDate f)]> bs)
      else setExpiry_loop f rest bs
  end.

Definition setExpiryAction : actionTypeFunc := fun account sq a acs st =>
  match account with
  | None => fail ErrNilAccount st
  | Some u =>
      do act <~ load (actions st) a;
      do f <~ load_opt (filters st) (Balance act);
      do ac <~ load (accounts st) u;
      do bs <~ setExpiry_loop f (default [] (BalanceMap ac !! GetType f)) (balances st);
      ok (set_balances st bs)
  end.

Fixpoint publish_balances (bChain : Balances) (st : State) : result State :=
  match bChain with
  | [] => Return st
  | p :: rest =>
      do _ <~ load (balances st) p;
      publish_balances rest (emit (EvPublish p) st)
  end.

Fixpoint publish_buckets (buckets : list (string * Balances)) (st : State)
  : result State :=
  match buckets with
  | [] => Return st
  | kv :: rest =>
      do st1 <~ publish_balances kv.2 st;
      publish_buckets rest st1
  end.

Definition publishAccount : actionTypeFunc := fun acnt sq a acs st =>
  match acnt with
  | None => fail ErrNilAccount st
  | Some u =>
      do ac <~ load (accounts st) u;
      do st1 <~ publish_buckets (map_to_list (BalanceMap ac))
                  (emit (EvAccountCall "Publish" u) st);
      ok st1
  end.

(** *** Notifications *)

(** [json.Marshal(o)] for the account or the queue a handler reports on:
    the text, or the message of the error. *)
Variable json_Marshal : State -> option loc -> option CDRStatsQueueTriggered -> string + string.

(** [utils.NewHTTPPoster(...).Post(...)], with its retries and its
    fallback file. *)
Variable HttpPost : string -> string -> W -> goerr * W.

(** The object a URL call reports: the queue if there is one, else the
    account, else nil. *)
Definition call_object (ub : option loc) (sq : option CDRStatsQueueTriggered)
  : option loc * option CDRStatsQueueTriggered :=
  match sq with
  | Some _ => (None, sq)
  | None => (ub, None)
  end.

Definition callUrl : actionTypeFunc := fun ub sq a acs st =>
  let '(o1, o2) := call_object ub sq in
  match json_Marshal st o1 o2 with
  | inr msg => fail (ErrExternal msg) st
  | inl jsn =>
      do act <~ load (actions st) a;
      let '(err, w) := HttpPost (ExtraParameters act) jsn (world st) in
      Return (err, set_world (emit (EvHttpPost false (ExtraParameters act) jsn) st) w)
  end.

(** Does not block for posts, no error reports. *)
Definition callUrlAsync : actionTypeFunc := fun ub sq a acs st =>
  let '(o1, o2) := call_object ub sq in
  match json_Marshal st o1 o2 with
  | inr msg => fail (ErrExternal msg) st
  | inl jsn =>
      do act <~ load (actions st) a;
      ok (emit (EvHttpPost true (ExtraParameters act) jsn) st)
  end.

(** The separator runes [utils.CSV_SEP] and [utils.FALLBACK_SEP]. *)
Variable CSV_SEP : ascii.
Variable FALLBACK_SEP : ascii.

Definition string_of_rune (c : ascii) : string := String c EmptyString.

(** The [To:] header: the addresses joined by a comma and a space. *)
Fixpoint join_addrs (idx : nat) (toAddrs : list string) (toAddrStr : string) : string :=
  match toAddrs with
  | [] => toAddrStr
  | addr :: rest =>
      let s := if Nat.eqb idx 0 then toAddrStr else (toAddrStr ++ ", ")%string in
      join_addrs (S idx) rest (s ++ addr)%string
  end.

(** The parameters of a mail action. *)
Definition mail_params (act : Action) : list string :=
  Strings.Split (ExtraParameters act) (string_of_rune CSV_SEP).

(** Mails the balance hitting the threshold towards the predefined list
    of addresses; the sending itself runs detached. *)
Definition mailAsync : actionTypeFunc := fun ub sq a acs st =>
  do act <~ load (actions st) a;
  let params := mail_params act in
  if Nat.eqb (length params) 0 then fail ErrUnconfiguredMail st
  else
    match params !! 0%nat with
    | None => Panic
    | Some p0 =>
        let toAddrs := Strings.Split p0 (string_of_rune FALLBACK_SEP) in
        let toAddrStr := join_addrs 0 toAddrs EmptyString in
        match ub with
        | Some _ =>
            match json_Marshal st ub None with
            | inr msg => fail (ErrExternal msg) st
            | inl _ => ok (emit (EvSendMail toAddrs toAddrStr) st)
            end
        | None => ok (emit (EvSendMail toAddrs toAddrStr) st)
        end
    end.

(** *** The data manager *)

(** The operations of [dm] and [dm.DataDB()] the handlers call. *)
Record DataManager : Type := mkDataManager {
  RemoveAccount : string -> W -> goerr * W;
  GetAccountActionPlans : string -> bool -> W -> list string * goerr;
  GetActionPlan : string -> bool -> W -> option ActionPlan * goerr;
  SetActionPlan : string -> ActionPlan -> bool -> W -> goerr * W;
  RemAccountActionPlans : string -> list string -> W -> goerr * W;
  GetDestination : string -> bool -> W -> option Destination * goerr;
  SetDestination : Destination -> W -> goerr * W;
  UpdateReverseDestination : Destination -> Destination -> W -> goerr * W;
  CacheDataFromDB : string -> list string -> bool -> W -> goerr * W
}.

Variable dm : DataManager.

(** The text of an error, [err.Error()]. *)
Definition error_message (e : error) : string :=
  match e with
  | ErrNilAccount => "nil account"
  | ErrNilAccountFor => "nil account for action"
  | ErrUnconfiguredMail => "Unconfigured parameters for mail action"
  | ErrNotFound => "NOT_FOUND"
  | ErrAccountNotFound => "ACCOUNT_NOT_FOUND"
  | ErrInvalidKey => "INVALID_KEY"
  | ErrParserError => "PARSER_ERROR"
  | ErrExternal msg => msg
  end.

(** The first destination id with the prefix [*ddc], through the
    buckets, their balances and the ids of each balance.  (Go ranges
    over the maps in no fixed order.) *)
Definition ddc_of_balance (b : Balance_) : option string :=
  List.find (fun destId => String.prefix "*ddc" destId) (DestinationIDs b).

Fixpoint ddc_of_chain (bs : gmap loc Balance_) (bchain : Balances) : result (option string) :=
  match bchain with
  | [] => Return None
  | p :: rest =>
      do b <~ load bs p;
      match ddc_of_balance b with
      | Some destId => Return (Some destId)
      | None => ddc_of_chain bs rest
      end
  end.

Fixpoint ddc_of_buckets (bs : gmap loc Balance_) (buckets : list (string * Balances))
  : result (option string) :=
  match buckets with
  | [] => Return None
  | kv :: rest =>
      do r <~ ddc_of_chain bs kv.2;
      match r with
      | Some destId => Return (Some destId)
      | None => ddc_of_buckets bs rest
      end
  end.

Definition setddestinations : actionTypeFunc := fun ub sq a acs st =>
  match ub with
  | None => Panic (* ub.BalanceMap on a nil account *)
  | Some u =>
      do acc <~ load (accounts st) u;
      do ddc <~ ddc_of_buckets (balances st) (map_to_list (BalanceMap acc));
      match ddc with
      | Some ddcDestId =>
          match sq with
          | None => Panic (* sq.Metrics on a nil queue *)
          | Some q =>
              let newDest := mkDestination ddcDestId (Metrics q) in
              let '(oldDest, err) := GetDestination dm ddcDestId false (world st) in
              match err with
              | Some e => fail e st
              | None =>
                  let '(err1, w1) := SetDestination dm newDest (world st) in
                  match err1 with
                  | Some e => fail e (set_world st w1)
                  | None =>
                      let '(err2, w2) :=
                        CacheDataFromDB dm DESTINATION_PREFIX [ddcDestId] true w1 in
                      match err2 with
                      | Some e => fail e (set_world st w2)
                      | None =>
                          match oldDest with
                          | Some old =>
                              let '(err3, w3) :=
                                UpdateReverseDestination dm old newDest w2 in
                              Return (err3, set_world st w3)
                          | None => ok (set_world st w2)
                          end
                      end
                  end
              end
          end
      | None => fail ErrNotFound st
      end
  end.

(** *** Account removal *)

(** [json.Unmarshal] of [ExtraParameters] into the tenant and account
    fields ([None]: the error), and [utils.AccountKey]. *)
Variable json_Unmarshal_accountInfo : string -> option (string * string).
Variable AccountKey : string -> string -> string.

(** The loop over the action plans of the account: load the plan, drop
    the account from its members, save it. *)
Fixpoint remove_from_plans (accID : string) (acntAPids : list string) (w : W)
  : result (goerr * W) :=
  match acntAPids with
  | [] => Return (None, w)
  | apID :: rest =>
      let '(ap, err) := GetActionPlan dm apID false w in
      match err with
      | Some e => Return (Some e, w)
      | None =>
          match ap with
          | None => Panic (* ap.AccountIDs on a nil plan *)
          | Some ap =>
              let ap' := mkActionPlan (apId ap) (AccountIDs ap ∖ {[accID]}) in
              let '(err1, w1) := SetActionPlan dm apID ap' true w in
              match err1 with
              | Some e => Return (Some e, w1)
              | None => remove_from_plans accID rest w1
              end
          end
      end
  end.

(** What follows the lookup of the plans of the account: the loop over
    the plans, the cache of the plans, the removal of the index and its
    cache. *)
Definition after_lookup (accID : string) (acntAPids : list string) (w : W)
  : result (goerr * W) :=
  do r <~ remove_from_plans accID acntAPids w;
  let '(err1, w1) := r in
  match err1 with
  | Some e => Return (Some e, w1)
  | None =>
      let '(err2, w2) := CacheDataFromDB dm ACTION_PLAN_PREFIX acntAPids true w1 in
      match err2 with
      | Some e => Return (Some e, w2)
      | None =>
          let '(err3, w3) := RemAccountActionPlans dm accID [] w2 in
          match err3 with
          | Some e => Return (Some e, w3)
          | None =>
              let '(err4, w4) :=
                CacheDataFromDB dm AccountActionPlansPrefix [accID] true w3 in
              match err4 with
              | Some e =>
                  if bool_decide (error_message e <> error_message ErrNotFound)
                  then Return (Some e, w4)
                  else Return (None, w4)
              | None => Return (None, w4)
              end
          end
      end
  end.

(** The function [removeAccountAction] runs under the guardian lock of
    the action plans. *)
Definition remove_account_guarded (accID : string) (w : W) : result (goerr * W) :=
  let '(acntAPids, err) := GetAccountActionPlans dm accID false w in
  if bool_decide (err <> None /\ err <> Some ErrNotFound) then Return (err, w)
  else after_lookup accID acntAPids w.

(** [guardian.Guardian.Guard(f, 0, lockName)]: [f] runs with the named
    lock held, and its result is handed back. *)
Definition Guard (f : W -> result (goerr * W)) (lockName : string) (w : W)
  : result (goerr * W) := f w.

(** The target account id: of the live account, else out of
    [ExtraParameters]. *)
Definition remove_account_id (ub : option loc) (a : loc) (st : State)
  : result (string + error) :=
  match ub with
  | Some u => do acc <~ load (accounts st) u; Return (inl (accID acc))
  | None =>
      do act <~ load (actions st) a;
      if bool_decide (ExtraParameters act <> EmptyString) then
        match json_Unmarshal_accountInfo (ExtraParameters act) with
        | None => Return (inr (ErrExternal "json"))
        | Some (tenant, account) => Return (inl (AccountKey tenant account))
        end
      else Return (inl (AccountKey EmptyString EmptyString))
  end.

Definition removeAccountAction : actionTypeFunc := fun ub sq a acs st =>
  do r <~ remove_account_id ub a st;
  match r with
  | inr e => fail e st
  | inl accID =>
      if bool_decide (accID = EmptyString) then fail ErrInvalidKey st
      else
        let '(err, w1) := RemoveAccount dm accID (world st) in
        match err with
        | Some e => fail e (set_world st w1)
        | None =>
            do r <~ Guard (remove_account_guarded accID) ACTION_PLAN_PREFIX w1;
            let '(err1, w2) := r in
            Return (err1, set_world st w2)
        end
  end.

(** *** Templated remote calls *)

Variable Template : Type.
Variable Conn : Type.
Variable Shape : Type.

(** The entry of the method registry. *)
Record RpcParams : Type := mkRpcParams {
  Object : option Conn;
  InParam : option Shape;
  OutParam : option Shape
}.

Variable template_Parse : string -> Template + string.
Variable template_Execute :
  Template -> State -> option loc -> option CDRStatsQueueTriggered -> loc ->
  list loc -> string + string.
Variable json_Unmarshal_RPCRequest : string -> RPCRequest + string.
Variable GetRpcParams : string -> RpcParams + error.
Variable NewRpcClient : RPCRequest -> W -> Conn + string.
(** [mapstructure.Decode(input, output)]: the decoded output and the
    error. *)
Variable mapstructure_Decode : list (string * string) -> option Shape -> option Shape * goerr.
Variable client_Call : Conn -> string -> option Shape -> option Shape -> W -> goerr * W.

Definition cgrRPCAction : actionTypeFunc := fun account sq a acs st =>
  do act <~ load (actions st) a;
  match template_Parse (ExtraParameters act) with
  | inr msg => fail (ErrExternal msg) st
  | inl t =>
      match template_Execute t st account sq a acs with
      | inr msg => fail (ErrExternal msg) st
      | inl processedExtraParam =>
          match json_Unmarshal_RPCRequest processedExtraParam with
          | inr msg => fail (ErrExternal msg) st
          | inl req =>
              match GetRpcParams (Method req) with
              | inr e => fail e st
              | inl params =>
                  do client <~
                    (if bool_decide (Address req <> MetaInternal) then
                       match NewRpcClient req (world st) with
                       | inr msg => Return (inr (ErrExternal msg))
                       | inl c => Return (inl c)
                       end
                     else
                       match Object params with
                       | Some c => Return (inl c)
                       | None => Panic (* type assertion on a nil interface *)
                       end);
                  match client with
                  | inr e => fail e st
                  | inl client =>
                      (* every error so far has returned: [err] is nil here *)
                      let err : goerr := None in
                      let out := OutParam params in
                      (* the error result of Decode is dropped *)
                      let in_ := (mapstructure_Decode (Params req) (InParam params)).1 in
                      match err with
                      | Some e => fail e st
                      | None =>
                          match InParam params with
                          | None => fail ErrParserError st
                          | Some _ =>
                              if negb (Async req) then
                                let '(err1, w1) :=
                                  client_Call client (Method req) in_ out (world st) in
                                Return (err1, set_world (emit (EvRpcCall false (Method req)) st) w1)
                              else ok (emit (EvRpcCall true (Method req)) st)
                          end
                      end
                  end
              end
          end
      end
  end.

(** *** CDR synthesis *)

(** Field names of package utils. *)
Definition ToR : string := "ToR".
Definition OriginHost : string := "OriginHost".
Definition RequestType : string := "RequestType".
Definition Tenant : string := "Tenant".
Definition Account_ : string := "Account".
Definition Subject : string := "Subject".
Definition COST : string := "Cost".
Definition Category : string := "Category".
Definition META_PREPAID : string := "*prepaid".

(** [utils.ParseRSRFields(s, utils.INFIELD_SEP)] ([None]: the error) and
    [rsrFld.Parse(value)]. *)
Variable ParseRSRFields : string -> option (list RSRField).
Variable rsr_Parse : RSRField -> string -> option string.
(** [utils.NewTAFromAccountKey]: tenant and account of an account id. *)
Variable NewTAFromAccountKey : string -> option (string * string).
Variable FormatFloat : Z -> string.
Variable ParseFloat : string -> option Z.
(** The text of the fields [Directions], [DestinationIDs] and
    [RatingSubject] of the balance [CreateBalance] makes of the filter,
    by the name of the template field. *)
Variable filter_text : BalanceFilter -> string -> string.
(** [action.Balance.Categories] and [action.Balance.SharedGroups] are
    pointers to string maps, read without a nil check: the text of the
    map behind the pointer, by the name of the template field; [None]
    for a nil pointer. *)
Variable filter_ptr_text : BalanceFilter -> string -> option string.
(** [json.Unmarshal] of [ExtraParameters] into a map of strings. *)
Variable json_Unmarshal_map : string -> option (list (string * string)).
(** The kind of the CDR struct field of that name, if there is one that
    can be set. *)
Variable cdrFieldKind : string -> option fieldKind.
(** [cdrStorage.SetCDR]; the store may be nil. *)
Variable cdrStorage : option (CDR -> bool -> W -> goerr * W).
Variable json_Marshal_CDRs : list CDR -> string.

Definition ParseRSRFieldsMustCompile (s : string) : list RSRField :=
  default [] (ParseRSRFields s).

(** The value a template field stands for.  [f] is the filter behind
    [action.Balance]; the balance [CreateBalance] makes of it carries
    the filter's fields, but the categories and the shared groups are
    read from the filter itself, through its pointers. *)
Definition template_source (st : State) (acnt : option loc) (dta : string * string)
    (action : Action) (f : BalanceFilter) (fldId : string) : result string :=
  if decide (fldId = "AccountID") then
    match acnt with
    | None => Panic (* acnt.ID on a nil account *)
    | Some u => do acc <~ load (accounts st) u; Return (accID acc)
    end
  else if decide (fldId = Tenant) then Return dta.1
  else if decide (fldId = Account_) then Return dta.2
  else if decide (fldId = "ActionID") then Return (Id action)
  else if decide (fldId = "ActionType") then Return (ActionType action)
  else if decide (fldId = "ActionValue") then Return (FormatFloat (GetValue (Some f)))
  else if decide (fldId = "BalanceType") then Return (GetType (Some f))
  else if decide (fldId = "BalanceUUID") then Return (default EmptyString (bfUuid f))
  else if decide (fldId = "BalanceID") then Return (default EmptyString (bfID f))
  else if decide (fldId = "BalanceValue") then Return (FormatFloat (balanceValue action))
  else if decide (fldId = "ExtraParameters") then Return (ExtraParameters action)
  else if decide (fldId ∈ ["Directions"; "DestinationIDs"; "RatingSubject"]) then
    Return (filter_text f fldId)
  else if decide (fldId ∈ [Category; "SharedGroups"]) then
    match filter_ptr_text f fldId with
    | Some text => Return text
    | None => Panic (* String() through a nil pointer *)
    end
  else Return EmptyString. (* mostly for static values *)

Fixpoint parseTemplate_loop (st : State) (acnt : option loc) (dta : string * string)
    (action : Action) (f : BalanceFilter) (rsrFlds : list RSRField)
    (parsedValue : string) : result string :=
  match rsrFlds with
  | [] => Return parsedValue
  | rsrFld :: rest =>
      do src <~ template_source st acnt dta action f (rsrId rsrFld);
      match rsr_Parse rsrFld src with
      | None => parseTemplate_loop st acnt dta action f rest parsedValue
      | Some parsed =>
          parseTemplate_loop st acnt dta action f rest (parsedValue ++ parsed)%string
      end
  end.

(** Used by [cdrLogAction] to parse values out of account and action. *)
Definition parseTemplateValue (st : State) (rsrFlds : list RSRField)
    (acnt : option loc) (action : Action) : result string :=
  do dta <~
    match acnt with
    | None => Return (EmptyString, EmptyString)
    | Some u =>
        do acc <~ load (accounts st) u;
        Return (default (EmptyString, EmptyString) (NewTAFromAccountKey (accID acc)))
    end;
  match Balance action with
  | None => Panic (* CreateBalance on a nil filter *)
  | Some p =>
      do f <~ load (filters st) p;
      parseTemplate_loop st acnt dta action f rsrFlds EmptyString
  end.

Definition defaultTemplate : list (string * list RSRField) :=
  [ (ToR, ParseRSRFieldsMustCompile "BalanceType");
    (OriginHost, ParseRSRFieldsMustCompile "^127.0.0.1");
    (RequestType, ParseRSRFieldsMustCompile ("^" ++ META_PREPAID));
    (Tenant, ParseRSRFieldsMustCompile Tenant);
    (Account_, ParseRSRFieldsMustCompile Account_);
    (Subject, ParseRSRFieldsMustCompile Account_);
    (COST, ParseRSRFieldsMustCompile "ActionValue") ].

(** The overrides of [ExtraParameters], written over the default
    template; [None]: a source expression does not parse. *)
Fixpoint override_template (overrides : list (string * string))
    (tpl : gmap string (list RSRField)) : option (gmap string (list RSRField)) :=
  match overrides with
  | [] => Some tpl
  | (field, rsr) :: rest =>
      match ParseRSRFields rsr with
      | None => None
      | Some flds => override_template rest (<[field := flds]> tpl)
      end
  end.

(** The write of one resolved value into the CDR: into the struct field
    of that name, else into the extra fields. *)
Definition set_cdr_field (cdr : CDR) (key parsedValue : string) : CDR :=
  match cdrFieldKind key with
  | Some KFloat64 =>
      match ParseFloat parsedValue with
      | None => cdr
      | Some value => mkCDR (cdrStrings cdr) (<[key := value]> (cdrFloats cdr)) (ExtraFields cdr)
      end
  | Some KString => mkCDR (<[key := parsedValue]> (cdrStrings cdr)) (cdrFloats cdr) (ExtraFields cdr)
  | Some KOther => cdr
  | None => mkCDR (cdrStrings cdr) (cdrFloats cdr) (<[key := parsedValue]> (ExtraFields cdr))
  end.

Fixpoint fill_cdr (st : State) (acc : option loc) (action : Action)
    (tpl : list (string * list RSRField)) (cdr : CDR) : result CDR :=
  match tpl with
  | [] => Return cdr
  | (key, rsrFlds) :: rest =>
      do parsedValue <~ parseTemplateValue st rsrFlds acc action;
      fill_cdr st acc action rest (set_cdr_field cdr key parsedValue)
  end.

(** The CDR of one sibling: run id and source, then the template (the
    origin id, the times and the hash over them are left out). *)
Definition new_cdr (action : Action) : CDR :=
  mkCDR (<["Source" := CDRLOG]> {["RunID" := ActionType action]}) ∅ ∅.

(** Only specific actions are logged. *)
Definition logged (action : Action) : bool :=
  bool_decide (ActionType action ∈ [DEBIT; DEBIT_RESET; TOPUP; TOPUP_RESET])
  && bool_decide (Balance action <> None).

(** The loop over the sibling actions: the CDRs made so far, and the
    error that ended the loop early, if any. *)
Fixpoint cdrLog_loop (acc : option loc) (tpl : list (string * list RSRField))
    (acs : list loc) (cdrs : list CDR) (st : State)
  : result (goerr * list CDR * State) :=
  match acs with
  | [] => Return (None, cdrs, st)
  | p :: rest =>
      do action <~ load (actions st) p;
      if negb (logged action) then cdrLog_loop acc tpl rest cdrs st
      else
        do cdr <~ fill_cdr st acc action tpl (new_cdr action);
        let cdrs' := cdrs ++ [cdr] in
        match cdrStorage with
        | None => cdrLog_loop acc tpl rest cdrs' st
        | Some SetCDR =>
            let '(err, w) := SetCDR cdr true (world st) in
            match err with
            | Some e => Return (Some e, cdrs', set_world st w)
            | None => cdrLog_loop acc tpl rest cdrs' (set_world st w)
            end
        end
  end.

(** The template in force: the default one, overwritten by
    [ExtraParameters]. *)
Definition cdrLog_template (act : Action) : error + gmap string (list RSRField) :=
  let dflt : gmap string (list RSRField) := list_to_map defaultTemplate in
  if bool_decide (ExtraParameters act <> EmptyString) then
    match json_Unmarshal_map (ExtraParameters act) with
    | None => inl (ErrExternal "json")
    | Some overrides =>
        match override_template overrides dflt with
        | None => inl (ErrExternal "rsr")
        | Some tpl => inr tpl
        end
    end
  else inr dflt.

(** [cdrLogAction], with the CDRs it has synthesized next to its
    result. *)
Definition cdrLog_run (acc : option loc) (a : loc) (acs : list loc) (st : State)
  : result (goerr * list CDR * State) :=
  do act <~ load (actions st) a;
  match cdrLog_template act with
  | inl e => Return (Some e, [], st)
  | inr tpl =>
      do r <~ cdrLog_loop acc (map_to_list tpl) acs [] st;
      let '(err, cdrs, st1) := r in
      match err with
      | Some e => Return (Some e, cdrs, st1)
      | None =>
          do act1 <~ load (actions st1) a;
          Return (None, cdrs,
                  set_actions st1
                    (<[a := with_ExpirationString act1 (json_Marshal_CDRs cdrs)]>
                       (actions st1)))
      end
  end.

Definition cdrLogAction : actionTypeFunc := fun acc sq a acs st =>
  do r <~ cdrLog_run acc a acs st;
  let '(err, _, st1) := r in
  Return (err, st1).

(** *** The registry *)

Definition actionFuncMap : list (string * actionTypeFunc) :=
  [ (LOG, logAction);
    (CDRLOG, cdrLogAction);
    (RESET_TRIGGERS, resetTriggersAction);
    (SET_RECURRENT, setRecurrentAction);
    (UNSET_RECURRENT, unsetRecurrentAction);
    (ALLOW_NEGATIVE, allowNegativeAction);
    (DENY_NEGATIVE, denyNegativeAction);
    (RESET_ACCOUNT, resetAccountAction);
    (TOPUP_RESET, topupResetAction);
    (TOPUP, topupAction);
    (DEBIT_RESET, debitResetAction);
    (DEBIT, debitAction);
    (RESET_COUNTERS, resetCountersAction);
    (ENABLE_ACCOUNT, enableAccountAction);
    (DISABLE_ACCOUNT, disableAccountAction);
    (CALL_URL, callUrl);
    (CALL_URL_ASYNC, callUrlAsync);
    (MAIL_ASYNC, mailAsync);
    (SET_DDESTINATIONS, setddestinations);
    (REMOVE_ACCOUNT, removeAccountAction);
    (REMOVE_BALANCE, removeBalanceAction);
    (SET_BALANCE, setBalanceAction_h);
    (TRANSFER_MONETARY_DEFAULT, transferMonetaryDefaultAction);
    (CGR_RPC, cgrRPCAction);
    (TopUpZeroNegative, topupZeroNegativeAction);
    (SetExpiry, setExpiryAction);
    (MetaPublishAccount, publishAccount) ].

Definition getActionFunc (typ : string) : option actionTypeFunc :=
  snd <$> List.find (fun kv => bool_decide (kv.1 = typ)) actionFuncMap.

(** *** The collection *)

(** [Actions.Clone]: the gob copy, then the repair of the flags gob
    turns from a pointer to [false] into nil:
    [cln[i].Balance.Disabled = utils.BoolPointer(false)]. *)
Definition set_clone_flag (upd : BalanceFilter -> option bool -> BalanceFilter)
    (cln : list loc) (i : nat) (v : bool) (st : State) : result State :=
  match cln !! i with
  | None => Panic
  | Some c =>
      do cact <~ load (actions st) c;
      match Balance cact with
      | None => Panic
      | Some q =>
          do g <~ load (filters st) q;
          Return (set_filters st (<[q := upd g (Some v)]> (filters st)))
      end
  end.

Fixpoint repair_loop (i : nat) (apl cln : list loc) (st : State) : result State :=
  match apl with
  | [] => Return st
  | a :: rest =>
      do act <~ load (actions st) a;
      match Balance act with
      | None => repair_loop (S i) rest cln st
      | Some p =>
          do f <~ load (filters st) p;
          do st1 <~
            (if bool_decide (bfDisabled f = Some false)
             then set_clone_flag with_bfDisabled cln i false st
             else Return st);
          do f1 <~ load (filters st1) p;
          do st2 <~
            (if bool_decide (bfBlocker f1 = Some false)
             then set_clone_flag with_bfBlocker cln i false st1
             else Return st1);
          repair_loop (S i) rest cln st2
      end
  end.

(** The result of [Clone]: the clone, or the error of [utils.Clone]. *)
Definition Actions_Clone (apl : list loc) (st : State)
  : result (option (list loc) * goerr * State) :=
  match utils_Clone_Actions apl st with
  | None => Return (None, Some (ErrExternal "gob"), st)
  | Some (cln, st1) =>
      do st2 <~ repair_loop 0 apl cln st1;
      Return (Some cln, None, st2)
  end.

(** *** Actions as a sort.Interface

    [Len], [Swap] and [Less] of [Actions], and [Sort], which hands the
    slice to [sort.Sort].  The slice holds pointers: [Less] dereferences
    two of them and panics on an invalid one.  [Less j i] holds when the
    action at [j] weighs more than the action at [i], which puts the
    higher weights first. *)
Definition Actions_Len (apl : list loc) : nat := length apl.

Definition index_action (apl : list loc) (i : nat) : result loc :=
  match apl !! i with
  | Some p => Return p
  | None => Panic
  end.

Definition Actions_Swap (apl : list loc) (i j : nat) : result (list loc) :=
  do pi <~ index_action apl i;
  do pj <~ index_action apl j;
  Return (<[j := pi]> (<[i := pj]> apl)).

Definition Actions_Less (st : State) (apl : list loc) (j i : nat) : result bool :=
  do pi <~ index_action apl i;
  do ai <~ load (actions st) pi;
  do pj <~ index_action apl j;
  do aj <~ load (actions st) pj;
  Return (Weight ai <? Weight aj)%float.

(** The comparison [Less] makes between two valid pointers. *)
Definition weight_at (st : State) (p : loc) : float :=
  from_option Weight 0%float (actions st !! p).

Definition heavier (st : State) (p q : loc) : bool :=
  (weight_at st q <? weight_at st p)%float.

Definition valid_action (st : State) (p : loc) : bool :=
  bool_decide (is_Some (actions st !! p)).

(** The release of the library the program is built with. *)
Variable go : sort_release.

(** [Actions.Sort]: [sort.Sort(apl)], the slice after the call.  A slice
    of two or more elements has each of them compared, so that an
    invalid pointer in it makes a call of [Less] panic; a shorter slice
    is left alone. *)
Definition Actions_Sort (apl : list loc) (st : State) : result (list loc) :=
  if (length apl <=? 1)%nat || forallb (valid_action st) apl
  then Return (sort_Sort go (heavier st) apl)
  else Panic.

(** The pointer is valid and the weight of its action is a number: a
    NaN weight compares [false] with every weight, on both sides. *)
Definition comparable (st : State) (p : loc) : Prop :=
  exists x, actions st !! p = Some x /\ is_nan (Weight x) = false.

(** Equal weights keep their input order from [apl] to [apl']. *)
Definition keeps_equal_weights (st : State) (apl apl' : list loc) : Prop :=
  forall (i j : nat) (p q : loc) (x y : Action),
    (i < j)%nat -> apl !! i = Some p -> apl !! j = Some q ->
    actions st !! p = Some x -> actions st !! q = Some y ->
    Weight x = Weight y ->
    exists i' j', (i' < j')%nat /\ apl' !! i' = Some p /\ apl' !! j' = Some q.

(** ** Properties of the handlers *)

(** *** mail_async *)

Lemma mail_params_nonempty (act : Action) : mail_params act <> [].
Proof. apply Strings.Split_nonempty. discriminate. Qed.

(** C10: for every [ExtraParameters] string the split on the CSV
    separator has at least one element, so the test [len(params) == 0]
    of [mailAsync] is never true and the handler never returns the
    "Unconfigured parameters for mail action" error. *)
Theorem mailAsync_unconfigured_unreachable :
  (forall act : Action, length (mail_params act) <> 0%nat) /\
  (forall ub sq a acs st st',
      mailAsync ub sq a acs st <> Return (Some ErrUnconfiguredMail, st')).
Proof.
  split.
  - intros act H. apply (mail_params_nonempty act).
    destruct (mail_params act); [reflexivity | discriminate].
  - intros ub sq a acs st st'. unfold mailAsync, load.
    destruct (actions st !! a) as [act|]; simpl; [|discriminate].
    pose proof (mail_params_nonempty act) as Hne.
    destruct (mail_params act) as [|p0 ps]; [congruence|]. simpl.
    destruct ub as [u|]; [|discriminate].
    destruct (json_Marshal st (Some u) None); discriminate.
Qed.

(** *** remove_balance *)

(** Removing slot [i] by moving the last element into it keeps the
    other elements. *)
Lemma swap_with_last_perm (bChain : Balances) (i : nat) (p : loc) :
  bChain !! i = Some p ->
  bChain ≡ₚ p :: take (length bChain - 1) (<[i := default p (last bChain)]> bChain).
Proof.
  intros Hi.
  destruct (list_elem_of_split_length bChain i p Hi) as (l1 & l2 & -> & Hlen).
  subst i. destruct (decide (l2 = [])) as [->|Hne].
  - rewrite last_snoc. unfold default, from_option, id.
    rewrite list_insert_id by (rewrite list_lookup_middle; done).
    rewrite length_app, length_cons, length_nil.
    replace (length l1 + 1 - 1)%nat with (length l1) by lia.
    rewrite take_app_length. symmetry. apply Permutation_cons_append.
  - destruct (exists_last Hne) as (l2' & z & ->).
    assert (Hlast : last (l1 ++ p :: l2' ++ [z]) = Some z).
    { replace (l1 ++ p :: l2' ++ [z]) with ((l1 ++ p :: l2') ++ [z])
        by (rewrite <- app_assoc; reflexivity).
      apply last_snoc. }
    rewrite Hlast. unfold default, from_option, id.
    rewrite insert_app_r_alt by lia.
    replace (length l1 - length l1)%nat with 0%nat by lia.
    change (<[0%nat := z]> (p :: l2' ++ [z])) with (z :: l2' ++ [z]).
    replace (length (l1 ++ p :: l2' ++ [z]) - 1)%nat
      with (length (l1 ++ z :: l2'))
      by (rewrite !length_app, !length_cons, length_app, length_cons, length_nil; lia).
    replace (l1 ++ z :: l2' ++ [z]) with ((l1 ++ z :: l2') ++ [z])
      by (rewrite <- app_assoc; reflexivity).
    rewrite take_app_length.
    rewrite <- !Permutation_middle. rewrite app_nil_r. reflexivity.
Qed.

Lemma removeBalance_loop_spec (bs : gmap loc Balance_) (f : option BalanceFilter) :
  forall (fuel i : nat) (bChain : list loc) (found : bool),
    Forall (fun p => is_Some (bs !! p)) bChain ->
    (length bChain - i <= fuel)%nat ->
    (forall j p, (j < i)%nat -> bChain !! j = Some p -> matches bs f p = false) ->
    exists bChain',
      removeBalance_loop fuel bs f i bChain found
        = Return (bChain', found || existsb (matches bs f) (drop i bChain))
      /\ bChain' ≡ₚ filter (fun p => matches bs f p = false) bChain
      /\ (existsb (matches bs f) (drop i bChain) = false -> bChain' = bChain).
Proof.
  assert (Hdone : forall i (bChain : list loc) (found : bool),
    bChain !! i = None ->
    (forall j p, (j < i)%nat -> bChain !! j = Some p -> matches bs f p = false) ->
    Return (bChain, found)
      = Return (bChain, found || existsb (matches bs f) (drop i bChain))
    /\ bChain ≡ₚ filter (fun p => matches bs f p = false) bChain
    /\ (existsb (matches bs f) (drop i bChain) = false -> bChain = bChain)).
  { intros i bChain found Hnone Hpre.
    apply lookup_ge_None in Hnone.
    rewrite drop_ge by lia. simpl. rewrite orb_false_r.
    split; [reflexivity|]. split; [|reflexivity].
    assert (Hall : Forall (fun p => matches bs f p = false) bChain).
    { apply Forall_lookup. intros j p Hj. apply (Hpre j p); [|exact Hj].
      apply lookup_lt_Some in Hj. lia. }
    clear -Hall. induction Hall as [|x l Hx Hl IH]; [reflexivity|].
    rewrite filter_cons_True by exact Hx. constructor. exact IH. }
  induction fuel as [|fuel IH]; intros i bChain found Hvalid Hfuel Hpre.
  - exists bChain. simpl. apply Hdone; [|exact Hpre].
    apply lookup_ge_None. lia.
  - simpl. destruct (bChain !! i) as [p|] eqn:Hi.
    2:{ exists bChain. apply Hdone; assumption. }
    pose proof (proj1 (Forall_lookup _ _) Hvalid i p Hi) as [b Hb].
    assert (Hdrop : existsb (matches bs f) (drop i bChain)
                    = matches bs f p || existsb (matches bs f) (drop (S i) bChain)).
    { rewrite (drop_S _ _ _ Hi). reflexivity. }
    assert (Hm : matches bs f p = MatchFilter b f false false).
    { unfold matches. rewrite Hb. reflexivity. }
    unfold load. rewrite Hb. simpl.
    destruct (MatchFilter b f false false) eqn:Hmatch.
    + set (bChain1 := take (length bChain - 1) (<[i := default p (last bChain)]> bChain)).
      pose proof (swap_with_last_perm bChain i p Hi) as Hperm. fold bChain1 in Hperm.
      pose proof (lookup_lt_Some _ _ _ Hi) as Hlt.
      destruct (IH i bChain1 true) as (bChain' & Hrun & Hp & _).
      * eapply Forall_forall. intros q Hq.
        apply (proj1 (Forall_forall _ _) Hvalid).
        rewrite Hperm. right. exact Hq.
      * unfold bChain1. rewrite length_take, length_insert. lia.
      * intros j q Hj Hq. apply (Hpre j q Hj).
        unfold bChain1 in Hq. rewrite lookup_take_lt in Hq by lia.
        rewrite list_lookup_insert_ne in Hq by lia. exact Hq.
      * exists bChain'. rewrite Hrun. simpl.
        rewrite Hdrop, Hm. simpl. rewrite orb_true_r.
        split; [reflexivity|]. split; [|discriminate].
        rewrite Hp. rewrite Hperm.
        rewrite filter_cons_False; [reflexivity|]. rewrite Hm. discriminate.
    + destruct (IH (S i) bChain found) as (bChain' & Hrun & Hp & Hsame).
      * exact Hvalid.
      * lia.
      * intros j q Hj Hq. destruct (decide (j = i)) as [->|Hne].
        -- rewrite Hi in Hq. injection Hq as <-. rewrite Hm. reflexivity.
        -- apply (Hpre j q); [lia|exact Hq].
      * exists bChain'. rewrite Hrun, Hdrop, Hm. simpl.
        split; [reflexivity|]. split; [exact Hp|exact Hsame].
Qed.

Lemma store_account_id (st : State) (u : loc) (acc : Account) (k : string)
    (bChain : list loc) :
  accounts st !! u = Some acc ->
  BalanceMap acc !! k = Some bChain ->
  store_account st u (with_BalanceMap acc (<[k := bChain]> (BalanceMap acc))) = st.
Proof.
  intros Hu Hk. unfold store_account, with_BalanceMap, set_accounts.
  rewrite (insert_id (BalanceMap acc) k bChain Hk).
  destruct acc as [id bm an dis]. simpl.
  rewrite (insert_id (accounts st) u _ Hu). destruct st; reflexivity.
Qed.

(** C7: on a non-nil account, [removeBalanceAction] reports not-found
    when the bucket of the filter's type does not exist or when no
    balance of the bucket matches, and then leaves the bucket (the whole
    state) as it was; when some balance matches it returns nil and the
    bucket holds, in some order, exactly the balances that do not
    match. *)
Theorem removeBalanceAction_spec
    (st : State) (u a : loc) (sq : option CDRStatsQueueTriggered) (acs : list loc)
    (acc : Account) (act : Action) (f : option BalanceFilter) :
  accounts st !! u = Some acc ->
  actions st !! a = Some act ->
  load_opt (filters st) (Balance act) = Return f ->
  (BalanceMap acc !! GetType f = None ->
     removeBalanceAction (Some u) sq a acs st = fail ErrNotFound st) /\
  (forall bChain,
     BalanceMap acc !! GetType f = Some bChain ->
     Forall (fun p => is_Some (balances st !! p)) bChain ->
     (existsb (matches (balances st) f) bChain = false ->
        removeBalanceAction (Some u) sq a acs st = fail ErrNotFound st) /\
     (existsb (matches (balances st) f) bChain = true ->
        exists bChain',
          removeBalanceAction (Some u) sq a acs st
            = ok (store_account st u
                    (with_BalanceMap acc (<[GetType f := bChain']> (BalanceMap acc))))
          /\ bChain' ≡ₚ filter (fun p => matches (balances st) f p = false) bChain
          /\ length bChain' = length (filter (fun p => matches (balances st) f p = false) bChain))).
Proof.
  intros Hu Ha Hf. unfold removeBalanceAction, load.
  rewrite Hu, Ha. simpl. rewrite Hf. simpl. split.
  - intros ->. reflexivity.
  - intros bChain Hk Hvalid. rewrite Hk.
    destruct (removeBalance_loop_spec (balances st) f (length bChain) 0 bChain false)
      as (bChain' & Hrun & Hperm & Hsame); [exact Hvalid|lia|intros; lia|].
    rewrite Hrun. simpl. rewrite drop_0. rewrite drop_0 in Hsame. split.
    + intros Hnone. rewrite Hnone. rewrite (Hsame Hnone).
      rewrite (store_account_id st u acc _ bChain Hu Hk). reflexivity.
    + intros Hsome. rewrite Hsome. exists bChain'.
      split; [reflexivity|]. split; [exact Hperm|]. rewrite Hperm. reflexivity.
Qed.

(** *** transfer_monetary_default *)

(** The test of the loop: the balance behind [p] differs from the
    default balance [db] in both [Uuid] and [ID], matches the filter and
    has a positive value. *)
Definition transferable (bs : gmap loc Balance_) (db : Balance_)
    (f : option BalanceFilter) (p : loc) : bool :=
  match bs !! p with
  | Some b =>
      bool_decide (Uuid b <> Uuid db) && bool_decide (ID b <> ID db)
      && MatchFilter b f false false && (0 <? Value b)
  | None => false
  end.

(** What the loop makes of the value [start] of the default balance:
    the values of the balances it moves are added onto it one at a
    time, in the order of the bucket, each sum rounded as [float64]
    does. *)
Definition transferred (bs : gmap loc Balance_) (db : Balance_)
    (f : option BalanceFilter) (bChain : list loc) (start : Z) : Z :=
  foldl (fun sum p =>
           if transferable bs db f p
           then float_add sum (default 0 (Value <$> bs !! p))
           else sum)
    start bChain.

Lemma transfer_step_spec (a d p : loc) (st : State) (act : Action)
    (f : option BalanceFilter) (b db : Balance_) :
  actions st !! a = Some act ->
  load_opt (filters st) (Balance act) = Return f ->
  balances st !! d = Some db ->
  balances st !! p = Some b ->
  transfer_step a d p st =
    Return (if transferable (balances st) db f p
            then set_balances st
                   (<[p := with_Value b 0]>
                      (<[d := with_Value db (float_add (Value db) (Value b))]>
                         (balances st)))
            else st)
  /\ (transferable (balances st) db f p = true -> p <> d).
Proof.
  intros Ha Hf Hd Hp. unfold transfer_step, transferable, load.
  rewrite Hp, Hd. simpl. split.
  - destruct (bool_decide (Uuid b <> Uuid db)) eqn:Hu; [|reflexivity].
    destruct (bool_decide (ID b <> ID db)) eqn:Hi; [|reflexivity].
    rewrite Ha. simpl. rewrite Hf. simpl.
    destruct (MatchFilter b f false false); [|reflexivity].
    destruct (0 <? Value b); [|reflexivity]. simpl.
    assert (p <> d) as Hne.
    { intros ->. rewrite Hp in Hd. injection Hd as ->.
      apply bool_decide_eq_true in Hu. congruence. }
    rewrite lookup_insert_ne by congruence. rewrite Hp. reflexivity.
  - intros Ht ->. rewrite Hp in Hd. injection Hd as ->.
    rewrite bool_decide_eq_false_2 in Ht by (intros H; apply H; reflexivity).
    discriminate.
Qed.

Lemma transferable_same_ids (bs bs' : gmap loc Balance_) (db db' : Balance_)
    (f : option BalanceFilter) (p : loc) :
  Uuid db' = Uuid db -> ID db' = ID db -> bs' !! p = bs !! p ->
  transferable bs' db' f p = transferable bs db f p.
Proof. intros Hu Hi Hp. unfold transferable. rewrite Hp, Hu, Hi. reflexivity. Qed.

Lemma transferable_default (bs : gmap loc Balance_) (db : Balance_)
    (f : option BalanceFilter) (d : loc) :
  bs !! d = Some db -> transferable bs db f d = false.
Proof.
  intros H. unfold transferable. rewrite H.
  rewrite bool_decide_eq_false_2; [reflexivity|]. intros H'. apply H'. reflexivity.
Qed.

Lemma transferred_frame (bs bs' : gmap loc Balance_) (db db' : Balance_)
    (f : option BalanceFilter) (rest : list loc) (d : loc) :
  Uuid db' = Uuid db -> ID db' = ID db ->
  bs' !! d = Some db' -> bs !! d = Some db ->
  (forall q, q ∈ rest -> q <> d -> bs' !! q = bs !! q) ->
  forall start, transferred bs' db' f rest start = transferred bs db f rest start.
Proof.
  intros Hu Hi Hd' Hd. unfold transferred.
  induction rest as [|q rest IHr]; intros Hsame start; [reflexivity|]. cbn [foldl].
  assert (Hq : (if transferable bs' db' f q
                then float_add start (default 0 (Value <$> bs' !! q)) else start)
               = (if transferable bs db f q
                  then float_add start (default 0 (Value <$> bs !! q)) else start)).
  { destruct (decide (q = d)) as [->|Hqd].
    - rewrite (transferable_default bs' db' f d Hd'), (transferable_default bs db f d Hd).
      reflexivity.
    - assert (bs' !! q = bs !! q) as Hq by (apply Hsame; [left|exact Hqd]).
      rewrite (transferable_same_ids bs bs' db db' f q Hu Hi Hq), Hq. reflexivity. }
  rewrite Hq. apply IHr. intros q' Hq'. apply Hsame. right. exact Hq'.
Qed.

Lemma transfer_loop_spec (a d : loc) (act : Action) (f : option BalanceFilter) :
  forall (bChain : list loc) (st : State) (db : Balance_),
    actions st !! a = Some act ->
    load_opt (filters st) (Balance act) = Return f ->
    balances st !! d = Some db ->
    Forall (fun p => is_Some (balances st !! p)) bChain ->
    NoDup bChain ->
    exists bs',
      transfer_loop a d bChain st = Return (set_balances st bs')
      /\ bs' !! d = Some (with_Value db (transferred (balances st) db f bChain (Value db)))
      /\ (forall p b, p <> d -> balances st !! p = Some b ->
            bs' !! p = Some (if bool_decide (p ∈ bChain)
                                  && transferable (balances st) db f p
                             then with_Value b 0 else b))
      /\ (forall p, balances st !! p = None -> bs' !! p = None).
Proof.
  induction bChain as [|p rest IH]; intros st db Ha Hf Hd Hvalid Hnodup.
  - exists (balances st). simpl. split; [destruct st; reflexivity|].
    split; [|split].
    + rewrite Hd. destruct db; reflexivity.
    + intros p b _ Hp. rewrite Hp. reflexivity.
    + intros p Hp. exact Hp.
  - apply Forall_cons in Hvalid as [[b Hp] Hvalid].
    apply NoDup_cons in Hnodup as [Hnotin Hnodup].
    destruct (transfer_step_spec a d p st act f b db Ha Hf Hd Hp) as [Hstep Hne].
    simpl. rewrite Hstep. simpl.
    destruct (transferable (balances st) db f p) eqn:Ht.
    + specialize (Hne eq_refl).
      set (bs1 := <[p := with_Value b 0]>
                    (<[d := with_Value db (float_add (Value db) (Value b))]> (balances st))).
      set (db1 := with_Value db (float_add (Value db) (Value b))).
      assert (Hd1 : bs1 !! d = Some db1).
      { unfold bs1. rewrite lookup_insert_ne by exact Hne. apply lookup_insert_eq. }
      destruct (IH (set_balances st bs1) db1) as (bs' & Hrun & Hdef & Hoth & Hnone).
      * exact Ha.
      * exact Hf.
      * exact Hd1.
      * eapply Forall_impl; [exact Hvalid|]. intros q [bq Hq]. simpl. unfold bs1.
        destruct (decide (q = p)) as [->|Hqp]; [rewrite lookup_insert_eq; eauto|].
        rewrite lookup_insert_ne by congruence.
        destruct (decide (q = d)) as [->|Hqd]; [rewrite lookup_insert_eq; eauto|].
        rewrite lookup_insert_ne by congruence. eauto.
      * exact Hnodup.
      * exists bs'. split; [rewrite Hrun; destruct st; reflexivity|].
        assert (Hsum : forall start,
                   transferred bs1 db1 f rest start
                   = transferred (balances st) db f rest start).
        { apply (transferred_frame _ _ db db1 f rest d); try reflexivity;
            [exact Hd1|exact Hd|].
          intros q Hq Hqd. unfold bs1.
          rewrite !lookup_insert_ne; [reflexivity|congruence|].
          intros ->. contradiction. }
        split; [|split].
        -- rewrite Hdef. simpl. rewrite Hsum. unfold transferred at 2. cbn [foldl].
           rewrite ?Ht, Hp. cbn [fmap option_fmap option_map default].
           fold (transferred (balances st) db f rest (float_add (Value db) (Value b))).
           destruct db; reflexivity.
        -- intros q bq Hqd Hq. destruct (decide (q = p)) as [->|Hqp].
           ++ rewrite Hq in Hp. injection Hp as ->.
              rewrite (Hoth p (with_Value b 0) Hqd)
                by (unfold bs1; simpl; apply lookup_insert_eq).
              rewrite bool_decide_eq_false_2 by exact Hnotin. simpl.
              rewrite bool_decide_eq_true_2 by left. rewrite Ht. reflexivity.
           ++ assert (bs1 !! q = Some bq) as Hq1.
              { unfold bs1. rewrite !lookup_insert_ne by congruence. exact Hq. }
              rewrite (Hoth q bq Hqd Hq1). simpl.
              rewrite (transferable_same_ids (balances st) bs1 db db1 f q);
                try reflexivity; [|rewrite Hq1, Hq; reflexivity].
              f_equal.
              destruct (decide (q ∈ rest)) as [Hin|Hnin].
              ** rewrite !bool_decide_eq_true_2; [reflexivity|right; exact Hin|exact Hin].
              ** rewrite !bool_decide_eq_false_2; [reflexivity| |exact Hnin].
                 intros Hin. apply elem_of_cons in Hin as [?|?]; congruence.
        -- intros q Hq. apply Hnone. simpl. unfold bs1.
           rewrite !lookup_insert_ne; [exact Hq| |]; congruence.
    + destruct (IH st db Ha Hf Hd Hvalid Hnodup) as (bs' & Hrun & Hdef & Hoth & Hnone).
      exists bs'. split; [exact Hrun|]. split; [|split].
      * rewrite Hdef. unfold transferred at 2. cbn [foldl]. rewrite ?Ht. reflexivity.
      * intros q bq Hqd Hq. rewrite (Hoth q bq Hqd Hq). f_equal.
        destruct (decide (q = p)) as [->|Hqp].
        -- rewrite Ht, !andb_false_r. reflexivity.
        -- destruct (decide (q ∈ rest)) as [Hin|Hnin].
           ++ rewrite !bool_decide_eq_true_2; [reflexivity|right; exact Hin|exact Hin].
           ++ rewrite !bool_decide_eq_false_2; [reflexivity| |exact Hnin].
              intros Hin. apply elem_of_cons in Hin as [?|?]; congruence.
      * exact Hnone.
Qed.

(** C8 (as amended): on a non-nil account with a monetary bucket,
    [transferMonetaryDefaultAction] adds onto the default balance the
    value of every balance of the bucket whose [Uuid] and [ID] both
    differ from those of the default balance, that matches the filter and
    has a positive value, and sets that balance to zero.  The values are
    added one at a time in the order of the bucket, each sum rounded as
    [float64] does, so the default balance ends at that chain of sums,
    which need not be the exact total.  Every other balance, the default
    balance apart, keeps its value (in particular those with a value of
    zero or less, and those that share the [Uuid] or the [ID] of the
    default balance). *)
Theorem transferMonetaryDefaultAction_spec
    (st : State) (u a d : loc) (sq : option CDRStatsQueueTriggered) (acs : list loc)
    (ac ac' : Account) (act : Action) (f : option BalanceFilter)
    (bs0 : gmap loc Balance_) (db : Balance_) (bChain : list loc) :
  accounts st !! u = Some ac ->
  is_Some (BalanceMap ac !! MONETARY) ->
  GetDefaultMoneyBalance ac (balances st) = Return (d, ac', bs0) ->
  BalanceMap ac' !! MONETARY = Some bChain ->
  actions st !! a = Some act ->
  load_opt (filters st) (Balance act) = Return f ->
  bs0 !! d = Some db ->
  Forall (fun p => is_Some (bs0 !! p)) bChain ->
  NoDup bChain ->
  exists bs',
    transferMonetaryDefaultAction (Some u) sq a acs st
      = ok (set_balances (store_account st u ac') bs')
    /\ bs' !! d = Some (with_Value db (transferred bs0 db f bChain (Value db)))
    /\ (forall p b, p <> d -> bs0 !! p = Some b ->
          bs' !! p = Some (if bool_decide (p ∈ bChain) && transferable bs0 db f p
                           then with_Value b 0 else b)).
Proof.
  intros Hu [bm Hbm] Hdef Hchain Ha Hf Hd Hvalid Hnodup.
  unfold transferMonetaryDefaultAction, load. rewrite Hu. simpl.
  rewrite Hbm, Hdef. simpl. rewrite Hchain. simpl.
  destruct (transfer_loop_spec a d act f bChain
              (set_balances (store_account st u ac') bs0) db)
    as (bs' & Hrun & Hdb & Hoth & _); try assumption.
  exists bs'. rewrite Hrun. simpl. split; [reflexivity|]. split; [exact Hdb|exact Hoth].
Qed.

(** *** The nil account *)

(** The handlers that test the account pointer first. *)
Definition nil_checked : list string :=
  [ RESET_TRIGGERS; SET_RECURRENT; UNSET_RECURRENT; ALLOW_NEGATIVE; DENY_NEGATIVE;
    RESET_ACCOUNT; TOPUP_RESET; TOPUP; DEBIT_RESET; DEBIT; RESET_COUNTERS;
    ENABLE_ACCOUNT; DISABLE_ACCOUNT; REMOVE_BALANCE; SET_BALANCE;
    TRANSFER_MONETARY_DEFAULT; TopUpZeroNegative; SetExpiry; MetaPublishAccount ].

Lemma nil_checked_handlers (typ : string) :
  typ ∈ nil_checked ->
  exists (h : actionTypeFunc) (e : error),
    getActionFunc typ = Some h /\
    forall sq a acs st, h None sq a acs st = Return (Some e, st).
Proof.
  unfold nil_checked. intros H.
  repeat (apply elem_of_cons in H as [->|H];
          [eexists _, _; split; [reflexivity|intros; reflexivity]|]).
  apply elem_of_nil in H. contradiction.
Qed.

(** C3 (the code at the failing input): the handler registered for
    [*set_ddestinations] reads [ub.BalanceMap] without a test of [ub];
    on a nil account it panics, where [enableAccountAction] and
    [disableAccountAction] return the "nil account" error. *)
Theorem setddestinations_nil_account_panics :
  getActionFunc SET_DDESTINATIONS = Some setddestinations /\
  (forall sq a acs st, setddestinations None sq a acs st = Panic) /\
  (forall sq a acs st, enableAccountAction None sq a acs st = Return (Some ErrNilAccount, st)) /\
  (forall sq a acs st, disableAccountAction None sq a acs st = Return (Some ErrNilAccount, st)).
Proof. repeat split; reflexivity. Qed.

(** *** remove_account *)

Lemma remove_account_guarded_not_found (accID : string) (w : W) (ids : list string) :
  GetAccountActionPlans dm accID false w = (ids, Some ErrNotFound) ->
  remove_account_guarded accID w = after_lookup accID ids w.
Proof.
  intros H. unfold remove_account_guarded. rewrite H.
  rewrite bool_decide_eq_false_2; [reflexivity|]. intros [_ Hne]. apply Hne. reflexivity.
Qed.

(** C4: when the lookup of the account's action plans reports
    not-found, [removeAccountAction] goes on as after a successful
    lookup; with the later steps succeeding it returns nil. *)
Theorem removeAccountAction_index_not_found
    (ub : option loc) (sq : option CDRStatsQueueTriggered) (a : loc) (acs : list loc)
    (st : State) (accID : string) (ids : list string) (w1 : W) :
  remove_account_id ub a st = Return (inl accID) ->
  accID <> EmptyString ->
  RemoveAccount dm accID (world st) = (None, w1) ->
  GetAccountActionPlans dm accID false w1 = (ids, Some ErrNotFound) ->
  removeAccountAction ub sq a acs st
    = (do r <~ after_lookup accID ids w1; Return (r.1, set_world st r.2))
  /\ (forall w2 w3 w4 w5,
        remove_from_plans accID ids w1 = Return (None, w2) ->
        CacheDataFromDB dm ACTION_PLAN_PREFIX ids true w2 = (None, w3) ->
        RemAccountActionPlans dm accID [] w3 = (None, w4) ->
        CacheDataFromDB dm AccountActionPlansPrefix [accID] true w4 = (None, w5) ->
        removeAccountAction ub sq a acs st = Return (None, set_world st w5)).
Proof.
  intros Hid Hne Hrm Hget.
  assert (Hrun : removeAccountAction ub sq a acs st
                 = (do r <~ after_lookup accID ids w1; Return (r.1, set_world st r.2))).
  { unfold removeAccountAction. rewrite Hid. simpl.
    rewrite bool_decide_eq_false_2 by exact Hne. rewrite Hrm.
    unfold Guard. rewrite (remove_account_guarded_not_found accID w1 ids Hget).
    destruct (after_lookup accID ids w1) as [[err w]|]; reflexivity. }
  split; [exact Hrun|].
  intros w2 w3 w4 w5 Hplans Hc1 Hrem Hc2. rewrite Hrun.
  unfold after_lookup. rewrite Hplans. simpl. rewrite Hc1, Hrem, Hc2. reflexivity.
Qed.

(** *** cdrlog *)

(** The sibling actions behind the pointers of the list. *)
Definition siblings (st : State) (acs : list loc) : list Action :=
  omap (fun p => actions st !! p) acs.

(** The CDR [cdrLogAction] makes of one sibling. *)
Definition cdr_of (st : State) (acc : option loc) (tpl : list (string * list RSRField))
    (action : Action) : result CDR :=
  fill_cdr st acc action tpl (new_cdr action).

Lemma logged_cases (action : Action) :
  logged action = true <->
  ActionType action ∈ [DEBIT; DEBIT_RESET; TOPUP; TOPUP_RESET] /\ Balance action <> None.
Proof.
  unfold logged. rewrite andb_true_iff, !bool_decide_eq_true. reflexivity.
Qed.

Lemma not_logged_log (action : Action) : ActionType action = LOG -> logged action = false.
Proof. intros H. unfold logged. rewrite H. reflexivity. Qed.

Lemma not_logged_nil_Balance (action : Action) : Balance action = None -> logged action = false.
Proof. intros H. unfold logged. rewrite H. apply andb_false_r. Qed.

Lemma fill_cdr_set_world (st : State) (w : W) (acc : option loc) (action : Action) :
  forall tpl cdr, fill_cdr (set_world st w) acc action tpl cdr = fill_cdr st acc action tpl cdr.
Proof.
  assert (Hsrc : forall dta f fld,
             template_source (set_world st w) acc dta action f fld
             = template_source st acc dta action f fld) by reflexivity.
  assert (Hloop : forall dta f flds v,
             parseTemplate_loop (set_world st w) acc dta action f flds v
             = parseTemplate_loop st acc dta action f flds v).
  { intros dta f flds. induction flds as [|fld flds IH]; intros v; [reflexivity|].
    simpl. rewrite Hsrc. destruct (template_source st acc dta action f (rsrId fld)); [|reflexivity].
    simpl. destruct (rsr_Parse fld a); apply IH. }
  assert (Hval : forall flds,
             parseTemplateValue (set_world st w) flds acc action
             = parseTemplateValue st flds acc action).
  { intros flds. unfold parseTemplateValue. simpl.
    destruct (match acc with
              | Some u =>
                  do acc0 <~ load (accounts st) u;
                  Return (default (EmptyString, EmptyString) (NewTAFromAccountKey (accID acc0)))
              | None => Return (EmptyString, EmptyString)
              end) as [dta|]; [|reflexivity]. simpl.
    destruct (Balance action); [|reflexivity].
    destruct (load (filters st) p); [|reflexivity]. simpl. apply Hloop. }
  induction tpl as [|[key flds] tpl IH]; intros cdr; [reflexivity|].
  simpl. rewrite Hval. destruct (parseTemplateValue st flds acc action); [|reflexivity].
  simpl. apply IH.
Qed.

(** The CDR store, when there is one, accepts every CDR. *)
Definition store_accepts : Prop :=
  match cdrStorage with
  | None => True
  | Some SetCDR => forall cdr w, (SetCDR cdr true w).1 = None
  end.

Lemma cdrLog_loop_spec (acc : option loc) (tpl : list (string * list RSRField)) :
  store_accepts ->
  forall (acs : list loc) (cdrs : list CDR) (st : State),
    Forall (fun p => exists action,
                actions st !! p = Some action /\
                (logged action = true -> exists cdr, cdr_of st acc tpl action = Return cdr))
      acs ->
    exists (new : list CDR) (w : W),
      cdrLog_loop acc tpl acs cdrs st = Return (None, cdrs ++ new, set_world st w)
      /\ Forall2 (fun cdr action => cdr_of st acc tpl action = Return cdr)
           new (List.filter logged (siblings st acs)).
Proof.
  intros Hstore acs. induction acs as [|p rest IH]; intros cdrs st Hall.
  - exists [], (world st). simpl. rewrite app_nil_r. split; [destruct st; reflexivity|constructor].
  - apply Forall_cons in Hall as [(action & Hp & Hcdr) Hall].
    simpl. unfold load, siblings. simpl. rewrite Hp. simpl.
    fold (siblings st rest).
    destruct (logged action) eqn:Hlog; simpl.
    + destruct (Hcdr eq_refl) as [cdr Hc]. unfold cdr_of in Hc. rewrite Hc. simpl.
      assert (Hgo : forall w,
                 exists new w',
                   cdrLog_loop acc tpl rest (cdrs ++ [cdr]) (set_world st w)
                     = Return (None, cdrs ++ cdr :: new, set_world st w')
                   /\ Forall2 (fun cdr action => cdr_of st acc tpl action = Return cdr)
                        new (List.filter logged (siblings st rest))).
      { intros w. destruct (IH (cdrs ++ [cdr]) (set_world st w)) as (new & w' & Hrun & Hf2).
        - eapply Forall_impl; [exact Hall|]. intros q (aq & Hq & Hcq). exists aq.
          split; [exact Hq|]. intros Hl. destruct (Hcq Hl) as [c Hcc]. exists c.
          unfold cdr_of. rewrite fill_cdr_set_world. exact Hcc.
        - exists new, w'. rewrite Hrun. rewrite <- app_assoc. simpl.
          split; [reflexivity|].
          eapply Forall2_impl; [exact Hf2|]. intros c ac Hc'. unfold cdr_of in *.
          rewrite fill_cdr_set_world in Hc'. exact Hc'. }
      unfold store_accepts in Hstore. destruct cdrStorage as [SetCDR|].
      * specialize (Hstore cdr (world st)).
        destruct (SetCDR cdr true (world st)) as [err w] eqn:Hset. simpl in Hstore. subst err.
        destruct (Hgo w) as (new & w' & Hrun & Hf2). exists (cdr :: new), w'.
        rewrite Hrun. split; [reflexivity|]. constructor; [exact Hc|exact Hf2].
      * destruct (Hgo (world st)) as (new & w' & Hrun & Hf2). exists (cdr :: new), w'.
        replace (set_world st (world st)) with st in Hrun by (destruct st; reflexivity).
        rewrite Hrun. split; [reflexivity|]. constructor; [exact Hc|exact Hf2].
    + destruct (IH cdrs st Hall) as (new & w & Hrun & Hf2).
      exists new, w. rewrite Hrun. split; [reflexivity|exact Hf2].
Qed.

(** C6: when the template parses and the CDR store accepts what it is
    given, [cdrLogAction] returns nil having synthesized exactly one CDR
    for each sibling whose type is DEBIT, DEBIT_RESET, TOPUP or
    TOPUP_RESET and whose [Balance] is not nil, in the order of the
    siblings, and none for any other sibling; the batch is what it
    encodes onto [ExpirationString]. *)
Theorem cdrLogAction_one_cdr_per_logged_sibling
    (acc : option loc) (sq : option CDRStatsQueueTriggered) (a : loc) (acs : list loc)
    (st : State) (act : Action) (tpl : gmap string (list RSRField)) :
  actions st !! a = Some act ->
  cdrLog_template act = inr tpl ->
  store_accepts ->
  Forall (fun p => exists action,
              actions st !! p = Some action /\
              (logged action = true ->
               exists cdr, cdr_of st acc (map_to_list tpl) action = Return cdr))
    acs ->
  exists (cdrs : list CDR) (st' : State),
    cdrLog_run acc a acs st = Return (None, cdrs, st')
    /\ cdrLogAction acc sq a acs st = Return (None, st')
    /\ Forall2 (fun cdr action => cdr_of st acc (map_to_list tpl) action = Return cdr)
         cdrs (List.filter logged (siblings st acs))
    /\ length cdrs = length (List.filter logged (siblings st acs))
    /\ ExpirationString <$> actions st' !! a = Some (json_Marshal_CDRs cdrs).
Proof.
  intros Ha Htpl Hstore Hall.
  destruct (cdrLog_loop_spec acc (map_to_list tpl) Hstore acs [] st Hall)
    as (cdrs & w & Hrun & Hf2).
  simpl in Hrun.
  exists cdrs. eexists.
  assert (Hr : cdrLog_run acc a acs st
               = Return (None, cdrs,
                         set_actions (set_world st w)
                           (<[a := with_ExpirationString act (json_Marshal_CDRs cdrs)]>
                              (actions (set_world st w))))).
  { unfold cdrLog_run, load. rewrite Ha. simpl. rewrite Htpl, Hrun. simpl.
    rewrite Ha. reflexivity. }
  split; [exact Hr|]. split; [unfold cdrLogAction; rewrite Hr; reflexivity|].
  split; [exact Hf2|]. split; [exact (Forall2_length _ _ _ Hf2)|].
  simpl. rewrite lookup_insert_eq. reflexivity.
Qed.

(** With a valid account and a balance filter, a template that reads
    no nil pointer of the filter gives a CDR. *)
Lemma fill_cdr_returns (st : State) (u p : loc) (ac : Account) (f : BalanceFilter)
    (action : Action) :
  accounts st !! u = Some ac ->
  Balance action = Some p ->
  filters st !! p = Some f ->
  forall tpl,
    (forall key flds fld,
       (key, flds) ∈ tpl -> fld ∈ flds ->
       rsrId fld ∈ [Category; "SharedGroups"] ->
       is_Some (filter_ptr_text f (rsrId fld))) ->
    forall cdr0, exists cdr, fill_cdr st (Some u) action tpl cdr0 = Return cdr.
Proof.
  intros Hu Hb Hf.
  assert (Hsrc : forall dta fld,
             (fld ∈ [Category; "SharedGroups"] -> is_Some (filter_ptr_text f fld)) ->
             exists s, template_source st (Some u) dta action f fld = Return s).
  { intros dta fld Hptr. unfold template_source, load. rewrite Hu. simpl.
    repeat (case_decide; [try (eexists; reflexivity)|]); [|eexists; reflexivity].
    destruct (Hptr ltac:(assumption)) as [text ->]. eexists; reflexivity. }
  assert (Hloop : forall dta flds v,
             (forall fld, fld ∈ flds -> rsrId fld ∈ [Category; "SharedGroups"] ->
                          is_Some (filter_ptr_text f (rsrId fld))) ->
             exists s, parseTemplate_loop st (Some u) dta action f flds v = Return s).
  { intros dta flds. induction flds as [|fld flds IH]; intros v Hptr; [eexists; reflexivity|].
    simpl. destruct (Hsrc dta (rsrId fld)) as [s ->].
    { apply Hptr. left. }
    simpl. destruct (rsr_Parse fld s); apply IH; intros fld' Hin; apply Hptr; right; exact Hin. }
  induction tpl as [|[key flds] tpl IH]; intros Hptr cdr0; [eexists; reflexivity|].
  simpl. unfold parseTemplateValue, load. rewrite Hu. simpl. rewrite Hb, Hf. simpl.
  destruct (Hloop (default (EmptyString, EmptyString) (NewTAFromAccountKey (accID ac)))
              flds EmptyString) as [s ->].
  { intros fld Hin. apply (Hptr key flds fld); [left|exact Hin]. }
  simpl. apply IH. intros key' flds' fld Hin. apply (Hptr key' flds' fld). right. exact Hin.
Qed.

(** *** topup and topup_reset *)


Lemma alloc_fresh {T : Type} (store : gmap loc T) (v : T) :
  store !! (alloc store v).1 = None.
Proof. unfold alloc. simpl. apply not_elem_of_dom. apply is_fresh. Qed.

Lemma GetValue_wire (f : BalanceFilter) : GetValue (Some (wire_filter f)) = GetValue (Some f).
Proof. reflexivity. Qed.

(** Applying the sign normalization twice equals applying it once. *)
Lemma GetValue_SetValue (g : BalanceFilter) (v : Z) : GetValue (Some (SetValue g v)) = v.
Proof. reflexivity. Qed.

Lemma genericMakeNegative_idempotent (c : loc) (st st1 : State) :
  genericMakeNegative c st = Return st1 ->
  genericMakeNegative c st1 = Return st1.
Proof.
  unfold genericMakeNegative, load. intros H.
  destruct (actions st !! c) as [cact|] eqn:Hc; [|discriminate H].
  cbn [bind] in H. destruct (Balance cact) as [q|] eqn:Hb.
  - destruct (filters st !! q) as [g|] eqn:Hq; [|discriminate H].
    cbn [bind] in H.
    destruct (0 <? GetValue (Some g)) eqn:Hpos; injection H as <-.
    + cbn [actions filters set_filters]. rewrite Hc. cbn [bind].
      rewrite Hb, lookup_insert_eq. cbn [bind].
      apply Z.ltb_lt in Hpos. simpl in Hpos |- *.
      replace (0 <? - default 0 (bfValue g)) with false
        by (symmetry; apply Z.ltb_ge; lia).
      reflexivity.
    + rewrite Hc. cbn [bind]. rewrite Hb, Hq. cbn [bind]. rewrite Hpos. reflexivity.
  - injection H as <-. rewrite Hc. cbn [bind]. rewrite Hb. reflexivity.
Qed.

Ltac sproj :=
  cbn [accounts balances actions filters trace world set_accounts set_balances
       set_actions set_filters set_world store_account emit bind fst snd].





(** *** Actions.Clone *)

(** What the decoder has built for the wire [w]: a fresh action cell
    [l], and behind it a fresh filter cell when the wire carries a
    filter. *)
Definition decoded (st st' : State) (w : ActionWire) (l : loc) : Prop :=
  actions st !! l = None /\
  exists qo, actions st' !! l = Some (unwire w qo) /\
    match wBalance w with
    | None => qo = None
    | Some f => exists q, qo = Some q /\ filters st !! q = None /\ filters st' !! q = Some f
    end.

(** The filter cell behind the action cell [c]. *)
Definition qcell (st : State) (c : loc) : option loc := actions st !! c ≫= Balance.

Lemma decode_Action_spec (w : ActionWire) (st : State) :
  exists l st1 qo,
    decode_Action w st = (l, st1)
    /\ actions st !! l = None
    /\ actions st1 = <[l := unwire w qo]> (actions st)
    /\ accounts st1 = accounts st /\ balances st1 = balances st
    /\ trace st1 = trace st /\ world st1 = world st
    /\ match wBalance w with
       | None => qo = None /\ filters st1 = filters st
       | Some f => exists q, qo = Some q /\ filters st !! q = None
                             /\ filters st1 = <[q := f]> (filters st)
       end.
Proof.
  unfold decode_Action, decode_Action_value, alloc.
  destruct (wBalance w) as [f|] eqn:Hw.
  - eexists _, _, _. split; [reflexivity|]. sproj.
    split; [apply not_elem_of_dom, is_fresh|]. split; [reflexivity|].
    repeat (split; [reflexivity|]).
    eexists. split; [reflexivity|]. split; [apply not_elem_of_dom, is_fresh|reflexivity].
  - eexists _, _, _. split; [reflexivity|]. sproj.
    split; [apply not_elem_of_dom, is_fresh|]. split; [reflexivity|].
    repeat (split; [reflexivity|]). split; reflexivity.
Qed.

Lemma decoded_weaken (st0 st st' : State) (w : ActionWire) (l : loc) :
  actions st0 ⊆ actions st -> filters st0 ⊆ filters st ->
  decoded st st' w l -> decoded st0 st' w l.
Proof.
  intros Ha Hf (Hl & qo & Hc & Hq). split.
  - eapply lookup_weaken_None; [exact Hl|exact Ha].
  - exists qo. split; [exact Hc|]. destruct (wBalance w); [|exact Hq].
    destruct Hq as (q & -> & Hq & Hq'). exists q. split; [reflexivity|].
    split; [|exact Hq']. eapply lookup_weaken_None; [exact Hq|exact Hf].
Qed.

Lemma qcell_decoded (st st' : State) (ws : list ActionWire) (ls : list loc) (q : loc) :
  Forall2 (decoded st st') ws ls ->
  q ∈ omap (qcell st') ls -> filters st !! q = None.
Proof.
  intros Hf2 Hq. apply list_elem_of_omap in Hq as (l & Hl & Hql).
  apply list_elem_of_lookup in Hl as [i Hi].
  destruct (Forall2_lookup_r _ _ _ _ _ Hf2 Hi) as (w & _ & (_ & qo & Hc & Hw)).
  unfold qcell in Hql. rewrite Hc in Hql. simpl in Hql. subst qo.
  destruct (wBalance w); [|discriminate].
  destruct Hw as (q' & [= <-] & Hnone & _). exact Hnone.
Qed.

Lemma decode_Actions_spec (ws : list ActionWire) :
  forall st, exists ls st',
    decode_Actions ws st = (ls, st')
    /\ accounts st' = accounts st /\ balances st' = balances st
    /\ trace st' = trace st /\ world st' = world st
    /\ actions st ⊆ actions st' /\ filters st ⊆ filters st'
    /\ Forall2 (decoded st st') ws ls
    /\ NoDup (omap (qcell st') ls).
Proof.
  induction ws as [|w ws IH]; intros st.
  - exists [], st. simpl. repeat (split; [reflexivity|]). split; constructor.
  - destruct (decode_Action_spec w st)
      as (l & st1 & qo & Hdec & Hl & Hacts & Hacc & Hbal & Htr & Hw & Hq).
    destruct (IH st1) as (ls & st' & Hrest & Hacc' & Hbal' & Htr' & Hw' & Ha' & Hf' & Hf2 & Hnd).
    exists (l :: ls), st'. simpl. rewrite Hdec, Hrest.
    split; [reflexivity|].
    split; [congruence|]. split; [congruence|]. split; [congruence|]. split; [congruence|].
    assert (Ha1 : actions st ⊆ actions st1)
      by (rewrite Hacts; apply insert_subseteq; exact Hl).
    assert (Hf1 : filters st ⊆ filters st1).
    { destruct (wBalance w).
      - destruct Hq as (q & _ & Hqn & ->). apply insert_subseteq. exact Hqn.
      - destruct Hq as [_ ->]. reflexivity. }
    assert (Hcl : actions st' !! l = Some (unwire w qo)).
    { eapply lookup_weaken; [|exact Ha']. rewrite Hacts. apply lookup_insert_eq. }
    split; [etransitivity; eassumption|]. split; [etransitivity; eassumption|].
    split.
    + constructor.
      * split; [exact Hl|]. exists qo. split; [exact Hcl|].
        destruct (wBalance w); [|apply Hq].
        destruct Hq as (q & -> & Hqn & Hfs). exists q. split; [reflexivity|].
        split; [exact Hqn|]. eapply lookup_weaken; [|exact Hf'].
        rewrite Hfs. apply lookup_insert_eq.
      * eapply Forall2_impl; [exact Hf2|]. intros w' l'. apply decoded_weaken; assumption.
    + simpl. unfold qcell at 1. rewrite Hcl. simpl.
      destruct (wBalance w).
      * destruct Hq as (q & -> & Hqn & Hfs). simpl. constructor; [|exact Hnd].
        intros Hin. pose proof (qcell_decoded st1 st' ws ls q Hf2 Hin) as Hnone.
        rewrite Hfs, lookup_insert_eq in Hnone. discriminate.
      * destruct Hq as [-> _]. simpl. exact Hnd.
Qed.

Lemma encode_Actions_spec (st : State) (apl : list loc) :
  Forall (fun a => is_Some (encode_Action st a)) apl ->
  exists ws, encode_Actions st apl = Some ws
             /\ Forall2 (fun a w => encode_Action st a = Some w) apl ws.
Proof.
  induction 1 as [|a apl [w Hw] _ (ws & Hws & Hf2)].
  - exists []. split; [reflexivity|constructor].
  - exists (w :: ws). simpl. rewrite Hw, Hws. split; [reflexivity|].
    constructor; assumption.
Qed.

(** What the repair makes of the decoded filter [g] for the original
    filter [f]. *)
Definition repaired (f g : BalanceFilter) : BalanceFilter :=
  let g1 := if bool_decide (bfDisabled f = Some false)
            then with_bfDisabled g (Some false) else g in
  if bool_decide (bfBlocker f = Some false)
  then with_bfBlocker g1 (Some false) else g1.

(** The filter of the clone of an action with the filter [f]. *)
Definition cloned_filter (f : BalanceFilter) : BalanceFilter :=
  repaired f (wire_filter f).

Lemma cloned_filter_flags (f : BalanceFilter) :
  bfDisabled (cloned_filter f) = bfDisabled f
  /\ bfBlocker (cloned_filter f) = bfBlocker f
  /\ bfValue (cloned_filter f) = bfValue f
  /\ bfExpirationDate (cloned_filter f) = bfExpirationDate f.
Proof.
  destruct f as [uu id ty va ex [[|]|] [[|]|]]; repeat split; reflexivity.
Qed.

(** The action behind [c] in [st'] is a copy of the action behind [a]
    in [st], made of cells that [st] does not have; the filter of the
    copy is [F] of the filter of the original. *)
Definition copied (F : BalanceFilter -> BalanceFilter) (st st' : State) (a c : loc)
  : Prop :=
  exists act cact,
    actions st !! a = Some act
    /\ actions st !! c = None
    /\ actions st' !! c = Some cact
    /\ cact = unwire (wire_of act None) (Balance cact)
    /\ match Balance act with
       | None => Balance cact = None
       | Some p =>
           exists f q, filters st !! p = Some f /\ Balance cact = Some q
                       /\ filters st !! q = None /\ filters st' !! q = Some (F f)
       end.

Lemma set_clone_flag_spec (upd : BalanceFilter -> option bool -> BalanceFilter)
    (cond : bool) (cln pre crest : list loc) (c q : loc) (st1 : State)
    (cact : Action) (g : BalanceFilter) :
  cln = pre ++ c :: crest ->
  actions st1 !! c = Some cact ->
  Balance cact = Some q ->
  filters st1 !! q = Some g ->
  (if cond then set_clone_flag upd cln (length pre) false st1 else Return st1)
  = Return (set_filters st1
              (<[q := if cond then upd g (Some false) else g]> (filters st1))).
Proof.
  intros -> Hc Hb Hq. destruct cond.
  - unfold set_clone_flag, load. rewrite list_lookup_middle by reflexivity.
    rewrite Hc. sproj. rewrite Hb, Hq. reflexivity.
  - rewrite (insert_id _ _ _ Hq). destruct st1; reflexivity.
Qed.

Lemma repair_loop_spec (st : State) (cln : list loc) :
  forall (rest crest pre : list loc) (st1 : State),
    cln = pre ++ crest ->
    actions st ⊆ actions st1 -> filters st ⊆ filters st1 ->
    Forall2 (copied wire_filter st st1) rest crest ->
    NoDup (omap (qcell st1) crest) ->
    exists st2,
      repair_loop (length pre) rest cln st1 = Return st2
      /\ actions st2 = actions st1 /\ accounts st2 = accounts st1
      /\ balances st2 = balances st1 /\ trace st2 = trace st1 /\ world st2 = world st1
      /\ filters st ⊆ filters st2
      /\ (forall l, l ∉ omap (qcell st1) crest -> filters st2 !! l = filters st1 !! l)
      /\ Forall2 (copied cloned_filter st st2) rest crest.
Proof.
  induction rest as [|a rest IH]; intros crest pre st1 Hcln Ha Hf Hf2 Hnd.
  - apply Forall2_nil_inv_l in Hf2 as ->. exists st1. simpl.
    repeat (split; [reflexivity|]). split; [exact Hf|]. split; [reflexivity|constructor].
  - apply Forall2_cons_inv_l in Hf2 as (c & crest' & Hhead & Hf2 & ->).
    destruct Hhead as (act & cact & Hact & Hcn & Hc & Hfields & Hbal).
    assert (Hcln' : cln = (pre ++ [c]) ++ crest')
      by (rewrite <- app_assoc; exact Hcln).
    assert (Hlen : length (pre ++ [c]) = S (length pre))
      by (rewrite length_app; simpl; lia).
    assert (Hact1 : actions st1 !! a = Some act) by (eapply lookup_weaken; eassumption).
    cbn [repair_loop]. unfold load. rewrite Hact1. sproj.
    destruct (Balance act) as [p|] eqn:Hp.
    + destruct Hbal as (f & q & Hpf & Hcb & Hqn & Hq).
      assert (Hpf1 : filters st1 !! p = Some f) by (eapply lookup_weaken; eassumption).
      assert (Hpq : p <> q) by congruence.
      rewrite Hpf1. sproj.
      rewrite (set_clone_flag_spec with_bfDisabled _ cln pre crest' c q st1 cact
                 (wire_filter f) Hcln Hc Hcb Hq).
      sproj. rewrite lookup_insert_ne by congruence. rewrite Hpf1. sproj.
      set (g1 := if bool_decide (bfDisabled f = Some false)
                 then with_bfDisabled (wire_filter f) (Some false) else wire_filter f).
      set (st1a := set_filters st1 (<[q := g1]> (filters st1))).
      rewrite (set_clone_flag_spec with_bfBlocker _ cln pre crest' c q st1a cact g1 Hcln);
        [|exact Hc|exact Hcb|unfold st1a; sproj; apply lookup_insert_eq].
      sproj. unfold st1a at 2. sproj. rewrite insert_insert_eq.
      fold (repaired f (wire_filter f)). fold (cloned_filter f).
      set (st1b := set_filters st1a (<[q := cloned_filter f]> (filters st1))).
      assert (Hqc : qcell st1 c = Some q) by (unfold qcell; rewrite Hc; exact Hcb).
      simpl in Hnd. rewrite Hqc in Hnd. simpl in Hnd.
      apply NoDup_cons in Hnd as [Hqnot Hnd].
      destruct (IH crest' (pre ++ [c]) st1b Hcln') as
        (st2 & Hrun & Hacts & Hacc & Hbalc & Htr & Hw & Hfsub & Hframe & Hfin).
      * exact Ha.
      * unfold st1b. sproj. apply insert_subseteq_r; assumption.
      * apply Forall2_same_length_lookup.
        apply Forall2_same_length_lookup in Hf2 as [Hlen2 Hf2].
        split; [exact Hlen2|]. intros i a' c' Hia Hic.
        destruct (Hf2 i a' c' Hia Hic) as (act' & cact' & H1 & H2 & H3 & H4 & H5).
        exists act', cact'. split; [exact H1|]. split; [exact H2|]. split; [exact H3|].
        split; [exact H4|]. destruct (Balance act'); [|exact H5].
        destruct H5 as (f' & q' & H6 & H7 & H8 & H9). exists f', q'.
        split; [exact H6|]. split; [exact H7|]. split; [exact H8|].
        unfold st1b. sproj. rewrite lookup_insert_ne; [exact H9|].
        intros <-. apply Hqnot. apply list_elem_of_omap. exists c'.
        split; [eapply list_elem_of_lookup_2; exact Hic|].
        unfold qcell. rewrite H3. exact H7.
      * exact Hnd.
      * rewrite Hlen in Hrun. exists st2. split; [exact Hrun|].
        split; [exact Hacts|]. split; [exact Hacc|]. split; [exact Hbalc|].
        split; [exact Htr|]. split; [exact Hw|]. split; [exact Hfsub|].
        split.
        -- intros l Hl. simpl in Hl. rewrite Hqc in Hl. simpl in Hl.
           apply not_elem_of_cons in Hl as [Hlq Hl].
           rewrite (Hframe l Hl). unfold st1b. sproj.
           apply lookup_insert_ne. congruence.
        -- constructor; [|exact Hfin].
           exists act, cact. split; [exact Hact|]. split; [exact Hcn|].
           split; [rewrite Hacts; exact Hc|]. split; [exact Hfields|].
           rewrite Hp. exists f, q. split; [exact Hpf|]. split; [exact Hcb|].
           split; [exact Hqn|]. rewrite (Hframe q Hqnot). unfold st1b. sproj.
           apply lookup_insert_eq.
    + assert (Hnd' : NoDup (omap (qcell st1) crest')).
      { simpl in Hnd. destruct (qcell st1 c); [|exact Hnd].
        apply NoDup_cons in Hnd as [_ Hnd]. exact Hnd. }
      destruct (IH crest' (pre ++ [c]) st1 Hcln' Ha Hf Hf2 Hnd') as
        (st2 & Hrun & Hacts & Hacc & Hbalc & Htr & Hw & Hfsub & Hframe & Hfin).
      rewrite Hlen in Hrun. exists st2. split; [exact Hrun|].
      split; [exact Hacts|]. split; [exact Hacc|]. split; [exact Hbalc|].
      split; [exact Htr|]. split; [exact Hw|]. split; [exact Hfsub|].
      split.
      * intros l Hl. apply Hframe. intros Hin. apply Hl. simpl.
        destruct (qcell st1 c); [right|]; exact Hin.
      * constructor; [|exact Hfin].
        exists act, cact. split; [exact Hact|]. split; [exact Hcn|].
        split; [rewrite Hacts; exact Hc|]. split; [exact Hfields|].
        rewrite Hp. exact Hbal.
Qed.

(** The pointers of the list are valid, and so are the filter pointers
    of the actions behind them. *)
Definition valid_actions (st : State) (apl : list loc) : Prop :=
  Forall (fun a => exists act,
              actions st !! a = Some act /\
              (forall p, Balance act = Some p -> is_Some (filters st !! p)))
    apl.

Lemma encode_Action_valid (st : State) (a : loc) (act : Action) :
  actions st !! a = Some act ->
  (forall p, Balance act = Some p -> is_Some (filters st !! p)) ->
  exists w, encode_Action st a = Some w
            /\ unwire w None = unwire (wire_of act None) None
            /\ match Balance act with
               | None => wBalance w = None
               | Some p => exists f, filters st !! p = Some f
                                     /\ wBalance w = Some (wire_filter f)
               end.
Proof.
  intros Ha Hp. unfold encode_Action. rewrite Ha.
  destruct (Balance act) as [p|].
  - destruct (Hp p eq_refl) as [f Hf]. rewrite Hf. eexists. split; [reflexivity|].
    split; [reflexivity|]. exists f. split; reflexivity.
  - eexists. split; [reflexivity|]. split; reflexivity.
Qed.

(** C9: [Actions.Clone] returns a deep copy.  Every action and every
    filter of the clone is a cell the state before did not have, so a
    write to a cell of the clone leaves every cell of the original as it
    was; the cells of the original are untouched by the call; the fields
    of the copies are those of the originals, and a flag [Disabled] or
    [Blocker] that is present and false in the original is present and
    false in the clone. *)
Theorem Actions_Clone_deep (apl : list loc) (st : State) :
  valid_actions st apl ->
  exists (cln : list loc) (st' : State),
    Actions_Clone apl st = Return (Some cln, None, st')
    /\ Forall2 (copied cloned_filter st st') apl cln
    /\ actions st ⊆ actions st' /\ filters st ⊆ filters st'
    /\ (forall c v l, c ∈ cln -> is_Some (actions st !! l) ->
          <[c := v]> (actions st') !! l = actions st !! l)
    /\ (forall c q v l, c ∈ cln -> qcell st' c = Some q -> is_Some (filters st !! l) ->
          <[q := v]> (filters st') !! l = filters st !! l)
    /\ (forall f, bfDisabled (cloned_filter f) = bfDisabled f
                  /\ bfBlocker (cloned_filter f) = bfBlocker f).
Proof.
  intros Hvalid.
  destruct (encode_Actions_spec st apl) as (ws & Henc & Hws).
  { eapply Forall_impl; [exact Hvalid|]. intros a (act & Ha & Hp).
    destruct (encode_Action_valid st a act Ha Hp) as (w & Hw & _). eauto. }
  destruct (decode_Actions_spec ws st)
    as (cln & st1 & Hdec & Hacc & Hbal & Htr & Hw & Hasub & Hfsub & Hf2 & Hnd).
  assert (Hpending : Forall2 (copied wire_filter st st1) apl cln).
  { apply Forall2_same_length_lookup.
    apply Forall2_same_length_lookup in Hws as [Hlen1 Hws].
    apply Forall2_same_length_lookup in Hf2 as [Hlen2 Hf2].
    split; [congruence|]. intros i a c Hia Hic.
    destruct (lookup_lt_is_Some_2 ws i) as [w Hiw].
    { rewrite <- Hlen1. eapply lookup_lt_Some; exact Hia. }
    pose proof (Hws i a w Hia Hiw) as Hencw.
    destruct (Hf2 i w c Hiw Hic) as (Hcn & qo & Hc & Hq).
    pose proof (proj1 (Forall_lookup _ _) Hvalid i a Hia) as (act & Ha & Hp).
    destruct (encode_Action_valid st a act Ha Hp) as (w' & Hw' & Hfields & Hwb).
    rewrite Hencw in Hw'. injection Hw' as <-.
    exists act, (unwire w qo). split; [exact Ha|]. split; [exact Hcn|].
    split; [exact Hc|]. split.
    { destruct w; injection Hfields as -> -> -> -> -> ->. reflexivity. }
    destruct (Balance act) as [p|].
    - destruct Hwb as (f & Hf & Hwf). rewrite Hwf in Hq.
      destruct Hq as (q & -> & Hqn & Hq). exists f, q. repeat split; assumption.
    - rewrite Hwb in Hq. subst qo. reflexivity. }
  destruct (repair_loop_spec st cln apl cln [] st1 eq_refl Hasub Hfsub Hpending Hnd)
    as (st2 & Hrun & Hacts & _ & _ & _ & _ & Hfsub2 & _ & Hfin).
  exists cln, st2. split.
  { unfold Actions_Clone, utils_Clone_Actions. rewrite Henc, Hdec.
    simpl in Hrun. rewrite Hrun. reflexivity. }
  split; [exact Hfin|]. split; [rewrite Hacts; exact Hasub|]. split; [exact Hfsub2|].
  split; [|split].
  - intros c v l Hc [x Hl].
    apply list_elem_of_lookup in Hc as [i Hic].
    destruct (Forall2_lookup_r _ _ _ _ _ Hfin Hic) as (a & _ & (act & cact & _ & Hcn & _)).
    rewrite lookup_insert_ne by congruence.
    rewrite Hacts. rewrite Hl. eapply lookup_weaken; eassumption.
  - intros c q v l Hc Hq [x Hl].
    apply list_elem_of_lookup in Hc as [i Hic].
    destruct (Forall2_lookup_r _ _ _ _ _ Hfin Hic)
      as (a & _ & (act & cact & _ & _ & Hc2 & _ & Hb)).
    unfold qcell in Hq. rewrite Hc2 in Hq. simpl in Hq.
    assert (Hqn : filters st !! q = None).
    { destruct (Balance act).
      - destruct Hb as (f & q' & _ & Hq' & Hn & _). congruence.
      - congruence. }
    rewrite lookup_insert_ne by congruence.
    rewrite Hl. eapply lookup_weaken; eassumption.
  - intros f. destruct (cloned_filter_flags f) as (H1 & H2 & _). split; assumption.
Qed.
(** *** Actions.Sort *)

(** On valid pointers and within the slice the methods of [Actions] are
    the [Less] and [Swap] the sort works with. *)
Lemma Actions_Less_heavier (st : State) (apl : list loc) (j i : nat) :
  Forall (fun p => is_Some (actions st !! p)) apl ->
  (j < length apl)%nat -> (i < length apl)%nat ->
  Actions_Less st apl j i = Return (GoSort.Less (heavier st) apl j i).
Proof.
  intros Hvalid Hj Hi. unfold Actions_Less, GoSort.Less, index_action, heavier, weight_at.
  destruct (lookup_lt_is_Some_2 apl i Hi) as [pi Hpi].
  destruct (lookup_lt_is_Some_2 apl j Hj) as [pj Hpj].
  rewrite Hpi, Hpj. cbn [bind].
  destruct (proj1 (Forall_forall _ _) Hvalid pi) as [ai Hai];
    [eapply list_elem_of_lookup_2; exact Hpi|].
  destruct (proj1 (Forall_forall _ _) Hvalid pj) as [aj Haj];
    [eapply list_elem_of_lookup_2; exact Hpj|].
  unfold load. rewrite Hai, Haj. reflexivity.
Qed.

Lemma Actions_Swap_Swap (apl : list loc) (i j : nat) :
  (i < length apl)%nat -> (j < length apl)%nat ->
  Actions_Swap apl i j = Return (GoSort.Swap apl i j).
Proof.
  intros Hi Hj. unfold Actions_Swap, GoSort.Swap, index_action.
  destruct (lookup_lt_is_Some_2 apl i Hi) as [pi Hpi].
  destruct (lookup_lt_is_Some_2 apl j Hj) as [pj Hpj].
  rewrite Hpi, Hpj. reflexivity.
Qed.

(** Among comparable pointers [heavier] is the order of a key: the
    higher the weight, the lower the key. *)
Definition weight_key (st : State) (p : loc) : Z := - Float64.key (weight_at st p).

Definition lower_key (st : State) (p q : loc) : bool :=
  (weight_key st p <? weight_key st q)%Z.

Lemma comparable_valid (st : State) (apl : list loc) :
  Forall (comparable st) apl -> Forall (fun p => is_Some (actions st !! p)) apl.
Proof.
  intros H. eapply Forall_impl; [exact H|]. intros p (x & Hx & _). eexists. exact Hx.
Qed.

Lemma comparable_weight (st : State) (p : loc) :
  comparable st p -> is_nan (weight_at st p) = false.
Proof. intros (x & Hx & Hn). unfold weight_at. rewrite Hx. exact Hn. Qed.

Lemma heavier_key (st : State) (p q : loc) :
  comparable st p -> comparable st q -> heavier st p q = lower_key st p q.
Proof.
  intros Hp Hq. unfold heavier, lower_key, weight_key.
  rewrite (Float64.ltb_key _ _ (comparable_weight st q Hq) (comparable_weight st p Hp)).
  destruct (Z.ltb_spec (Float64.key (weight_at st q)) (Float64.key (weight_at st p)));
    symmetry; [apply Z.ltb_lt|apply Z.ltb_ge]; lia.
Qed.

(** On comparable pointers the sort is the sort by keys. *)
Lemma sort_by_key (st : State) (apl : list loc) :
  Forall (comparable st) apl ->
  sort_Sort go (heavier st) apl = sort_Sort go (lower_key st) apl
  /\ apl ≡ₚ sort_Sort go (heavier st) apl
  /\ GoSort.sorted_seg (weight_key st) (sort_Sort go (heavier st) apl) 0 (length apl).
Proof.
  intros Hall.
  assert (Heq : sort_Sort go (heavier st) apl = sort_Sort go (lower_key st) apl).
  { apply (SortLib.sort_Sort_ext go (heavier st) (lower_key st) (comparable st) apl);
      [apply heavier_key|exact Hall]. }
  split; [exact Heq|]. rewrite Heq.
  apply (SortLib.sort_Sort_spec go (lower_key st) (weight_key st) apl).
  intros x y. reflexivity.
Qed.

Lemma forallb_valid_action (st : State) (apl : list loc) :
  Forall (fun p => is_Some (actions st !! p)) apl ->
  forallb (valid_action st) apl = true.
Proof.
  induction 1 as [|p l Hp _ IH]; [reflexivity|].
  cbn [forallb]. rewrite IH. unfold valid_action.
  rewrite (bool_decide_eq_true_2 _ Hp). reflexivity.
Qed.

(** On valid pointers [Sort] returns what [sort.Sort] leaves. *)
Lemma Actions_Sort_runs (st : State) (apl : list loc) :
  Forall (fun p => is_Some (actions st !! p)) apl ->
  Actions_Sort apl st = Return (sort_Sort go (heavier st) apl).
Proof.
  intros Hvalid. unfold Actions_Sort. rewrite (forallb_valid_action st apl Hvalid).
  rewrite orb_true_r. reflexivity.
Qed.

(** C1 (amended): for every list of valid action pointers none of whose
    weights is NaN, [Sort] returns and the slice it leaves is a
    permutation of the input in non-increasing [Weight] order, whichever
    release of [sort.Sort] does the work.  The order among equal weights
    is not part of it: [sort.Sort] is not stable. *)
Theorem Actions_Sort_sorted (apl : list loc) (st : State) :
  Forall (comparable st) apl ->
  exists apl',
    Actions_Sort apl st = Return apl'
    /\ apl ≡ₚ apl'
    /\ forall (i j : nat) (p q : loc) (x y : Action),
         (i <= j)%nat -> apl' !! i = Some p -> apl' !! j = Some q ->
         actions st !! p = Some x -> actions st !! q = Some y ->
         (Weight y <=? Weight x)%float = true.
Proof.
  intros Hall. exists (sort_Sort go (heavier st) apl).
  destruct (sort_by_key st apl Hall) as (_ & Hperm & Hsorted).
  split; [apply Actions_Sort_runs, comparable_valid; exact Hall|].
  split; [exact Hperm|].
  intros i j p q x y Hij Hp Hq Hx Hy.
  assert (Hj : (j < length apl)%nat).
  { rewrite (Permutation_length Hperm). eapply lookup_lt_Some. exact Hq. }
  specialize (Hsorted i j (Nat.le_0_l i) Hij Hj).
  unfold GoSort.kth in Hsorted. rewrite Hp, Hq in Hsorted.
  assert (Hall' : Forall (comparable st) (sort_Sort go (heavier st) apl))
    by (rewrite <- Hperm; exact Hall).
  pose proof (comparable_weight st p
                (proj1 (Forall_forall _ _) Hall' p (list_elem_of_lookup_2 _ _ _ Hp))) as Hnp.
  pose proof (comparable_weight st q
                (proj1 (Forall_forall _ _) Hall' q (list_elem_of_lookup_2 _ _ _ Hq))) as Hnq.
  unfold weight_key, weight_at in Hsorted, Hnp, Hnq.
  rewrite Hx in Hsorted, Hnp. rewrite Hy in Hsorted, Hnq. cbn [from_option] in *.
  rewrite (Float64.leb_key _ _ Hnq Hnp). apply Z.leb_le. lia.
Qed.


(** ** Further properties of the handlers *)

(** [h2] after [h1], as a caller that stops at the first error runs
    them. *)
Definition run_then (h1 h2 : State -> result (goerr * State)) (st : State)
  : result (goerr * State) :=
  do r <~ h1 st;
  match r.1 with
  | Some e => Return r
  | None => h2 r.2
  end.

Lemma store_account_same (st : State) (u : loc) (acc : Account) :
  accounts st !! u = Some acc -> store_account st u acc = st.
Proof.
  intros H. unfold store_account, set_accounts. rewrite insert_id by exact H.
  destruct st; reflexivity.
Qed.

Lemma store_account_twice (st : State) (u : loc) (acc acc' : Account) :
  store_account (store_account st u acc) u acc' = store_account st u acc'.
Proof.
  unfold store_account, set_accounts. cbn [accounts balances actions filters trace world].
  rewrite insert_insert_eq. reflexivity.
Qed.

Lemma store_account_lookup (st : State) (u : loc) (acc : Account) :
  accounts (store_account st u acc) !! u = Some acc.
Proof. unfold store_account, set_accounts. cbn [accounts]. apply lookup_insert_eq. Qed.

(** *** The flags of the account *)

Ltac flag_pair :=
  intros [u|] sq sq' a a' acs acs' st; unfold run_then;
  cbv [allowNegativeAction denyNegativeAction enableAccountAction disableAccountAction
       fail ok];
  [|reflexivity];
  unfold load; destruct (accounts st !! u) as [acc|] eqn:Hacc; cbn [bind fst snd];
  [|reflexivity];
  rewrite store_account_lookup; cbn [bind]; rewrite store_account_twice;
  reflexivity.

(** X1: The later write of a flag wins: a handler that sets [Disabled] or
    [AllowNegative], run after the handler that sets the same flag the
    other way, leaves what it leaves when run alone; this for every
    account pointer, nil and invalid ones included. *)
Theorem account_flag_last_write_wins
    (ub : option loc) (sq sq' : option CDRStatsQueueTriggered) (a a' : loc)
    (acs acs' : list loc) (st : State) :
  run_then (disableAccountAction ub sq a acs) (enableAccountAction ub sq' a' acs') st
    = enableAccountAction ub sq' a' acs' st
  /\ run_then (enableAccountAction ub sq a acs) (disableAccountAction ub sq' a' acs') st
    = disableAccountAction ub sq' a' acs' st
  /\ run_then (allowNegativeAction ub sq a acs) (denyNegativeAction ub sq' a' acs') st
    = denyNegativeAction ub sq' a' acs' st
  /\ run_then (denyNegativeAction ub sq a acs) (allowNegativeAction ub sq' a' acs') st
    = allowNegativeAction ub sq' a' acs' st.
Proof.
  revert ub sq sq' a a' acs acs' st.
  assert (H1 : forall ub sq sq' a a' acs acs' st,
             run_then (disableAccountAction ub sq a acs)
               (enableAccountAction ub sq' a' acs') st
             = enableAccountAction ub sq' a' acs' st) by flag_pair.
  assert (H2 : forall ub sq sq' a a' acs acs' st,
             run_then (enableAccountAction ub sq a acs)
               (disableAccountAction ub sq' a' acs') st
             = disableAccountAction ub sq' a' acs' st) by flag_pair.
  assert (H3 : forall ub sq sq' a a' acs acs' st,
             run_then (allowNegativeAction ub sq a acs)
               (denyNegativeAction ub sq' a' acs') st
             = denyNegativeAction ub sq' a' acs' st) by flag_pair.
  assert (H4 : forall ub sq sq' a a' acs acs' st,
             run_then (denyNegativeAction ub sq a acs)
               (allowNegativeAction ub sq' a' acs') st
             = allowNegativeAction ub sq' a' acs' st) by flag_pair.
  intros. repeat split; auto.
Qed.

(** X2: The two flags are independent: a handler of [AllowNegative] and a
    handler of [Disabled] commute, whatever the account pointer. *)
Theorem account_flags_commute
    (ub : option loc) (sq sq' : option CDRStatsQueueTriggered) (a a' : loc)
    (acs acs' : list loc) (st : State) :
  run_then (allowNegativeAction ub sq a acs) (disableAccountAction ub sq' a' acs') st
    = run_then (disableAccountAction ub sq' a' acs') (allowNegativeAction ub sq a acs) st
  /\ run_then (denyNegativeAction ub sq a acs) (enableAccountAction ub sq' a' acs') st
    = run_then (enableAccountAction ub sq' a' acs') (denyNegativeAction ub sq a acs) st.
Proof.
  split.
  - destruct ub as [u|]; unfold run_then;
      cbv [allowNegativeAction disableAccountAction fail ok]; [|reflexivity].
    unfold load. destruct (accounts st !! u) as [acc|] eqn:Hacc; cbn [bind fst snd];
      [|reflexivity].
    rewrite !store_account_lookup. cbn [bind]. rewrite !store_account_twice. reflexivity.
  - destruct ub as [u|]; unfold run_then;
      cbv [denyNegativeAction enableAccountAction fail ok]; [|reflexivity].
    unfold load. destruct (accounts st !! u) as [acc|] eqn:Hacc; cbn [bind fst snd];
      [|reflexivity].
    rewrite !store_account_lookup. cbn [bind]. rewrite !store_account_twice. reflexivity.
Qed.

(** X3: Disabling an account that is enabled and enabling it again gives
    back the very state the two handlers started from, and in between
    the account is disabled with nothing else changed. *)
Theorem disable_enable_round_trip
    (u : loc) (sq sq' : option CDRStatsQueueTriggered) (a a' : loc)
    (acs acs' : list loc) (st : State) (acc : Account) :
  accounts st !! u = Some acc ->
  Disabled acc = false ->
  disableAccountAction (Some u) sq a acs st
    = ok (store_account st u (with_Disabled acc true))
  /\ enableAccountAction (Some u) sq' a' acs' (store_account st u (with_Disabled acc true))
    = ok st.
Proof.
  intros Hacc Hen. cbv [enableAccountAction disableAccountAction fail ok].
  unfold load. rewrite Hacc. cbn [bind]. split; [reflexivity|].
  rewrite store_account_lookup. cbn [bind]. rewrite store_account_twice.
  replace (with_Disabled (with_Disabled acc true) false) with acc
    by (destruct acc; cbn in *; subst; reflexivity).
  rewrite (store_account_same st u acc Hacc). reflexivity.
Qed.

(** *** genericMakeNegative *)

(** X5: [genericMakeNegative] leaves the value of the filter at the negated
    magnitude of what it was, whatever its sign, and touches nothing
    else of the filter; a second call changes nothing. *)
Theorem genericMakeNegative_negated_magnitude
    (a p : loc) (st : State) (act : Action) (f : BalanceFilter) :
  actions st !! a = Some act ->
  Balance act = Some p ->
  filters st !! p = Some f ->
  exists f',
    genericMakeNegative a st = Return (set_filters st (<[p := f']> (filters st)))
    /\ GetValue (Some f') = - Z.abs (GetValue (Some f))
    /\ with_bfValue f' (bfValue f) = f
    /\ genericMakeNegative a (set_filters st (<[p := f']> (filters st)))
       = Return (set_filters st (<[p := f']> (filters st))).
Proof.
  intros Hact Hbal Hf.
  assert (Hrun : exists f',
             genericMakeNegative a st = Return (set_filters st (<[p := f']> (filters st)))
             /\ GetValue (Some f') = - Z.abs (GetValue (Some f))
             /\ with_bfValue f' (bfValue f) = f).
  { unfold genericMakeNegative, load. rewrite Hact. cbn [bind]. rewrite Hbal, Hf. cbn [bind].
    destruct (0 <? GetValue (Some f)) eqn:Hpos.
    - apply Z.ltb_lt in Hpos. exists (SetValue f (- GetValue (Some f))).
      split; [reflexivity|]. split.
      + rewrite GetValue_SetValue. lia.
      + destruct f; reflexivity.
    - apply Z.ltb_ge in Hpos. exists f. split.
      + rewrite insert_id by exact Hf. destruct st; reflexivity.
      + split; [lia|destruct f; reflexivity]. }
  destruct Hrun as (f' & Hrun & Hval & Hrest).
  exists f'. split; [exact Hrun|]. split; [exact Hval|]. split; [exact Hrest|].
  apply (genericMakeNegative_idempotent a st). exact Hrun.
Qed.

(** *** Actions as a sort.Interface *)

(** X16: On a slice of valid pointers none of whose weights is NaN, [Less]
    is a strict weak order on the indices: irreflexive, asymmetric,
    transitive, and with a transitive "neither is less", which is what
    [sort.Sort] asks of it. *)
Theorem Actions_Less_strict_weak_order (st : State) (apl : list loc) (i j k : nat) :
  Forall (comparable st) apl ->
  (i < length apl)%nat -> (j < length apl)%nat -> (k < length apl)%nat ->
  exists bij bji bjk bik : bool,
    Actions_Less st apl i j = Return bij
    /\ Actions_Less st apl j i = Return bji
    /\ Actions_Less st apl j k = Return bjk
    /\ Actions_Less st apl i k = Return bik
    /\ Actions_Less st apl i i = Return false
    /\ (bij = true -> bji = false)
    /\ (bij = true -> bjk = true -> bik = true)
    /\ (bij = false -> bjk = false -> bik = false).
Proof.
  intros Hall Hi Hj Hk.
  pose proof (comparable_valid st apl Hall) as Hvalid.
  rewrite !Actions_Less_heavier by assumption.
  do 4 eexists. do 4 (split; [reflexivity|]).
  unfold GoSort.Less.
  destruct (lookup_lt_is_Some_2 apl i Hi) as [pi Hpi].
  destruct (lookup_lt_is_Some_2 apl j Hj) as [pj Hpj].
  destruct (lookup_lt_is_Some_2 apl k Hk) as [pk Hpk].
  rewrite Hpi, Hpj, Hpk.
  pose proof (proj1 (Forall_forall _ _) Hall pi (list_elem_of_lookup_2 _ _ _ Hpi)) as Ci.
  pose proof (proj1 (Forall_forall _ _) Hall pj (list_elem_of_lookup_2 _ _ _ Hpj)) as Cj.
  pose proof (proj1 (Forall_forall _ _) Hall pk (list_elem_of_lookup_2 _ _ _ Hpk)) as Ck.
  rewrite !heavier_key by assumption. unfold lower_key.
  rewrite Z.ltb_irrefl.
  split; [reflexivity|].
  split; [intros H; apply Z.ltb_lt in H; apply Z.ltb_ge; lia|].
  split.
  - intros H1 H2. apply Z.ltb_lt in H1, H2. apply Z.ltb_lt. lia.
  - intros H1 H2. apply Z.ltb_ge in H1, H2. apply Z.ltb_ge. lia.
Qed.

(** X17: [Swap] exchanges the two slots and nothing else, so that it
    permutes the slice and undoes itself. *)
Theorem Actions_Swap_involutive (apl : list loc) (i j : nat) :
  (i < length apl)%nat -> (j < length apl)%nat ->
  exists apl',
    Actions_Swap apl i j = Return apl'
    /\ Actions_Swap apl' i j = Return apl
    /\ apl ≡ₚ apl'
    /\ apl' !! i = apl !! j /\ apl' !! j = apl !! i
    /\ (forall k, k <> i -> k <> j -> apl' !! k = apl !! k).
Proof.
  intros Hi Hj. exists (GoSort.Swap apl i j).
  pose proof (GoSort.Swap_lookup apl i j) as Hlook.
  assert (Hlen : length (GoSort.Swap apl i j) = length apl) by apply GoSort.Swap_length.
  split; [apply Actions_Swap_Swap; assumption|].
  split.
  { rewrite Actions_Swap_Swap by (rewrite Hlen; assumption). f_equal.
    apply list_eq. intros x.
    rewrite (GoSort.Swap_lookup (GoSort.Swap apl i j) i j x) by (rewrite Hlen; assumption).
    rewrite !Hlook by assumption.
    destruct (decide (x = j)) as [->|Hxj].
    - destruct (decide (i = j)) as [->|]; [reflexivity|]. destruct (decide (i = i)); [reflexivity|lia].
    - destruct (decide (x = i)) as [->|Hxi]; [|reflexivity].
      destruct (decide (j = j)); [reflexivity|lia]. }
  split.
  { apply (GoSort.seg_perm_Permutation 0 (length apl)).
    apply GoSort.Swap_seg_perm; lia. }
  split.
  { rewrite Hlook by assumption. destruct (decide (i = j)) as [->|]; [reflexivity|].
    destruct (decide (i = i)); [reflexivity|lia]. }
  split.
  { rewrite Hlook by assumption. destruct (decide (j = j)); [reflexivity|lia]. }
  intros k Hki Hkj. rewrite Hlook by assumption.
  destruct (decide (k = j)); [lia|]. destruct (decide (k = i)); [lia|]. reflexivity.
Qed.

(** *** reset_account *)

Lemma map_to_list_keys {V : Type} (m : gmap string V) (k : string) :
  k ∈ (map_to_list m).*1 <-> is_Some (m !! k).
Proof.
  split.
  - intros H. apply list_elem_of_fmap in H as ([k' v] & -> & H).
    apply elem_of_map_to_list in H. eexists. exact H.
  - intros [v H]. apply list_elem_of_fmap. exists (k, v). split; [reflexivity|].
    apply elem_of_map_to_list. exact H.
Qed.

(** The loop of [genericReset] over the buckets: each key met gets a
    slice of one new zero balance of its own. *)
Lemma reset_fold_spec (bm0 : gmap string Balances) (bs0 : gmap loc Balance_)
    (kvs : list (string * Balances)) :
  forall bm bs,
    fold_right
      (fun (kv : string * Balances) '(bm, bs) =>
         let '(l, bs') := alloc bs zero_Balance in
         (<[kv.1 := [l]]> bm, bs'))
      (bm0, bs0) kvs = (bm, bs) ->
    bs0 ⊆ bs
    /\ (forall k, k ∈ kvs.*1 ->
          exists l, bm !! k = Some [l] /\ bs !! l = Some zero_Balance /\ bs0 !! l = None)
    /\ (forall k, k ∉ kvs.*1 -> bm !! k = bm0 !! k).
Proof.
  induction kvs as [|kv rest IH]; intros bm bs Hfold.
  - simpl in Hfold. injection Hfold as <- <-.
    split; [reflexivity|]. split; [|reflexivity].
    intros k Hk. apply elem_of_nil in Hk. destruct Hk.
  - cbn [fold_right] in Hfold.
    destruct (fold_right _ (bm0, bs0) rest) as [bm1 bs1] eqn:Hrest.
    destruct (IH bm1 bs1 eq_refl) as (Hsub & Hin & Hout).
    unfold alloc in Hfold. injection Hfold as <- <-.
    assert (Hfresh : bs1 !! fresh (dom bs1) = None)
      by (apply not_elem_of_dom; apply is_fresh).
    split; [etrans; [exact Hsub|]; apply insert_subseteq; exact Hfresh|].
    split.
    + intros k Hk. rewrite fmap_cons in Hk. destruct (decide (k = kv.1)) as [->|Hne].
      * exists (fresh (dom bs1)). rewrite !lookup_insert_eq. split; [reflexivity|].
        split; [reflexivity|].
        destruct (bs0 !! fresh (dom bs1)) as [b|] eqn:Hb; [|reflexivity].
        rewrite (lookup_weaken _ _ _ _ Hb Hsub) in Hfresh. discriminate.
      * apply elem_of_cons in Hk as [Hk|Hk]; [contradiction|].
        destruct (Hin k Hk) as (l & Hl & Hzero & Hnew).
        exists l. rewrite lookup_insert_ne by (intros E; apply Hne; symmetry; exact E).
        split; [exact Hl|].
        rewrite lookup_insert_ne by (intros E; rewrite <- E in Hzero; congruence).
        split; assumption.
    + intros k Hk. rewrite fmap_cons in Hk. apply not_elem_of_cons in Hk as [Hne Hk].
      rewrite lookup_insert_ne by (intros E; apply Hne; symmetry; exact E).
      apply Hout. exact Hk.
Qed.

Lemma reset_fold_distinct (bm0 : gmap string Balances) (bs0 : gmap loc Balance_)
    (kvs : list (string * Balances)) :
  forall bm bs,
    fold_right
      (fun (kv : string * Balances) '(bm, bs) =>
         let '(l, bs') := alloc bs zero_Balance in
         (<[kv.1 := [l]]> bm, bs'))
      (bm0, bs0) kvs = (bm, bs) ->
    forall k1 k2 l, k1 ∈ kvs.*1 -> k2 ∈ kvs.*1 ->
                    bm !! k1 = Some [l] -> bm !! k2 = Some [l] -> k1 = k2.
Proof.
  induction kvs as [|kv rest IH]; intros bm bs Hfold k1 k2 l Hk1 Hk2 H1 H2.
  - apply elem_of_nil in Hk1. destruct Hk1.
  - cbn [fold_right] in Hfold.
    destruct (fold_right _ (bm0, bs0) rest) as [bm1 bs1] eqn:Hrest.
    destruct (reset_fold_spec _ _ _ _ _ Hrest) as (_ & Hin & _).
    unfold alloc in Hfold. injection Hfold as <- <-.
    assert (Hfresh : bs1 !! fresh (dom bs1) = None)
      by (apply not_elem_of_dom; apply is_fresh).
    rewrite fmap_cons in Hk1, Hk2.
    destruct (decide (k1 = kv.1)) as [E1|N1]; destruct (decide (k2 = kv.1)) as [E2|N2].
    + congruence.
    + exfalso. subst k1. rewrite lookup_insert_eq in H1. injection H1 as <-.
      rewrite lookup_insert_ne in H2 by (intros E; apply N2; symmetry; exact E).
      apply elem_of_cons in Hk2 as [Hk2|Hk2]; [contradiction|].
      destruct (Hin k2 Hk2) as (l2 & Hl2 & Hzero & _). congruence.
    + exfalso. subst k2. rewrite lookup_insert_eq in H2. injection H2 as <-.
      rewrite lookup_insert_ne in H1 by (intros E; apply N1; symmetry; exact E).
      apply elem_of_cons in Hk1 as [Hk1|Hk1]; [contradiction|].
      destruct (Hin k1 Hk1) as (l1 & Hl1 & Hzero & _). congruence.
    + rewrite lookup_insert_ne in H1 by (intros E; apply N1; symmetry; exact E).
      rewrite lookup_insert_ne in H2 by (intros E; apply N2; symmetry; exact E).
      apply elem_of_cons in Hk1 as [Hk1|Hk1]; [contradiction|].
      apply elem_of_cons in Hk2 as [Hk2|Hk2]; [contradiction|].
      exact (IH bm1 bs1 eq_refl k1 k2 l Hk1 Hk2 H1 H2).
Qed.

(** X4: [resetAccountAction] on an account keeps the balance types the
    account has and leaves under each of them one balance, new and all
    zero and shared with no other type; the balances the account had
    stay in memory as they were, and the counters and triggers are reset
    after. *)
Theorem resetAccountAction_spec
    (u : loc) (sq : option CDRStatsQueueTriggered) (a : loc) (acs : list loc)
    (st : State) (acc : Account) :
  accounts st !! u = Some acc ->
  exists (bm : gmap string Balances) (bs : gmap loc Balance_),
    resetAccountAction (Some u) sq a acs st
      = ok (emit (EvAccountCall "ResetActionTriggers" u)
              (emit (EvAccountCall "InitCounters" u)
                 (set_balances (store_account st u (with_BalanceMap acc bm)) bs)))
    /\ dom bm = dom (BalanceMap acc)
    /\ balances st ⊆ bs
    /\ (forall k, is_Some (BalanceMap acc !! k) ->
          exists l, bm !! k = Some [l] /\ bs !! l = Some zero_Balance
                    /\ balances st !! l = None)
    /\ (forall k1 k2 l, bm !! k1 = Some [l] -> bm !! k2 = Some [l] -> k1 = k2).
Proof.
  intros Hacc. unfold resetAccountAction, genericReset, load. rewrite Hacc. cbn [bind].
  destruct (fold_right _ (BalanceMap acc, balances st) (map_to_list (BalanceMap acc)))
    as [bm bs] eqn:Hfold.
  destruct (reset_fold_spec _ _ _ _ _ Hfold) as (Hsub & Hin & Hout).
  pose proof (reset_fold_distinct _ _ _ _ _ Hfold) as Hdist.
  assert (Hdom : forall k, is_Some (bm !! k) -> k ∈ (map_to_list (BalanceMap acc)).*1).
  { intros k Hk. destruct (decide (k ∈ (map_to_list (BalanceMap acc)).*1)) as [|Hn];
      [assumption|]. rewrite (Hout k Hn) in Hk. apply map_to_list_keys. exact Hk. }
  exists bm, bs. split; [reflexivity|]. split; [|split; [exact Hsub|split]].
  3:{ intros k1 k2 l H1 H2. apply (Hdist k1 k2 l); try assumption; apply Hdom; eauto. }
  - apply set_eq. intros k. rewrite !elem_of_dom.
    destruct (decide (k ∈ (map_to_list (BalanceMap acc)).*1)) as [Hk|Hk].
    + destruct (Hin k Hk) as (l & Hl & _). rewrite Hl.
      apply map_to_list_keys in Hk. split; intros _; [exact Hk|eexists; reflexivity].
    + rewrite (Hout k Hk). reflexivity.
  - intros k Hk. apply Hin. apply map_to_list_keys. exact Hk.
Qed.

(** *** set_expiry *)

Lemma setExpiry_loop_spec (f : option BalanceFilter) :
  forall (bChain : list loc) (bs : gmap loc Balance_),
    Forall (fun p => is_Some (bs !! p)) bChain ->
    NoDup bChain ->
    exists bs',
      setExpiry_loop f bChain bs = Return bs'
      /\ forall p,
           bs' !! p
           = match bs !! p with
             | Some b =>
                 Some (if bool_decide (p ∈ bChain) && MatchFilter b f false true
                       then with_ExpirationDate b (GetExpirationDate f) else b)
             | None => None
             end.
Proof.
  induction bChain as [|p0 rest IH]; intros bs Hvalid Hnodup.
  - exists bs. split; [reflexivity|]. intros p. destruct (bs !! p); reflexivity.
  - apply Forall_cons in Hvalid as [[b0 Hb0] Hvalid]. apply NoDup_cons in Hnodup as [Hnotin Hnodup].
    cbn [setExpiry_loop]. unfold load. rewrite Hb0. cbn [bind].
    set (bs1 := if MatchFilter b0 f false true
                then <[p0 := with_ExpirationDate b0 (GetExpirationDate f)]> bs else bs).
    assert (Hvalid1 : Forall (fun p => is_Some (bs1 !! p)) rest).
    { eapply Forall_impl; [exact Hvalid|]. intros p Hp. unfold bs1.
      destruct (MatchFilter b0 f false true); [|exact Hp].
      destruct (decide (p = p0)) as [->|Hne];
        [rewrite lookup_insert_eq; eexists; reflexivity|].
      rewrite lookup_insert_ne by (intros E; apply Hne; symmetry; exact E). exact Hp. }
    destruct (IH bs1 Hvalid1 Hnodup) as (bs' & Hrun & Hspec).
    exists bs'. split.
    { unfold bs1 in Hrun. destruct (MatchFilter b0 f false true); exact Hrun. }
    intros p. rewrite Hspec. destruct (decide (p = p0)) as [->|Hne].
    + rewrite Hb0. rewrite (bool_decide_eq_false_2 _ Hnotin).
      rewrite (bool_decide_eq_true_2 (p0 ∈ p0 :: rest)) by (left; reflexivity).
      cbn [andb]. unfold bs1. destruct (MatchFilter b0 f false true).
      * rewrite lookup_insert_eq. reflexivity.
      * rewrite Hb0. reflexivity.
    + assert (Hsame : bs1 !! p = bs !! p).
      { unfold bs1. destruct (MatchFilter b0 f false true); [|reflexivity].
        apply lookup_insert_ne. intros E. apply Hne. symmetry. exact E. }
      rewrite Hsame. destruct (bs !! p) as [b|]; [|reflexivity].
      replace (bool_decide (p ∈ p0 :: rest)) with (bool_decide (p ∈ rest)); [reflexivity|].
      apply bool_decide_ext. rewrite elem_of_cons. tauto.
Qed.

(** X6: [setExpiryAction] writes the expiration date of the filter into the
    balances of the filter's type that match the filter (expiry left out
    of the match) and into no other; a missing bucket is no error. *)
Theorem setExpiryAction_spec
    (u a : loc) (sq : option CDRStatsQueueTriggered) (acs : list loc) (st : State)
    (ac : Account) (act : Action) (f : option BalanceFilter) :
  accounts st !! u = Some ac ->
  actions st !! a = Some act ->
  load_opt (filters st) (Balance act) = Return f ->
  Forall (fun p => is_Some (balances st !! p)) (default [] (BalanceMap ac !! GetType f)) ->
  NoDup (default [] (BalanceMap ac !! GetType f)) ->
  exists bs',
    setExpiryAction (Some u) sq a acs st = ok (set_balances st bs')
    /\ forall p,
         bs' !! p
         = match balances st !! p with
           | Some b =>
               Some (if bool_decide (p ∈ default [] (BalanceMap ac !! GetType f))
                        && MatchFilter b f false true
                     then with_ExpirationDate b (GetExpirationDate f) else b)
           | None => None
           end.
Proof.
  intros Hac Hact Hf Hvalid Hnodup.
  destruct (setExpiry_loop_spec f _ _ Hvalid Hnodup) as (bs' & Hrun & Hspec).
  exists bs'. split; [|exact Hspec].
  unfold setExpiryAction, load. rewrite Hact. cbn [bind]. rewrite Hf. cbn [bind].
  rewrite Hac. cbn [bind]. rewrite Hrun. reflexivity.
Qed.

(** *** transfer_monetary_default: a second pass *)

(** Where no balance of the bucket can be transferred the loop leaves
    the state as it is. *)
Lemma transfer_loop_nothing (a d : loc) (act : Action) (f : option BalanceFilter) :
  forall (bChain : list loc) (st : State) (db : Balance_),
    actions st !! a = Some act ->
    load_opt (filters st) (Balance act) = Return f ->
    balances st !! d = Some db ->
    Forall (fun p => is_Some (balances st !! p)) bChain ->
    (forall p, p ∈ bChain -> transferable (balances st) db f p = false) ->
    transfer_loop a d bChain st = Return st.
Proof.
  induction bChain as [|p rest IH]; intros st db Ha Hf Hd Hvalid Hnone; [reflexivity|].
  apply Forall_cons in Hvalid as [[b Hb] Hvalid].
  destruct (transfer_step_spec a d p st act f b db Ha Hf Hd Hb) as [Hstep _].
  cbn [transfer_loop]. rewrite Hstep. rewrite (Hnone p) by (left; reflexivity).
  cbn [bind]. apply (IH st db Ha Hf Hd Hvalid).
  intros q Hq. apply Hnone. right. exact Hq.
Qed.

(** X8: The loop of [transferMonetaryDefaultAction] is idempotent: a second
    pass over the same bucket moves nothing, since the balances the
    first pass emptied hold zero and the ones it left it leaves again. *)
Theorem transfer_loop_idempotent
    (a d : loc) (act : Action) (f : option BalanceFilter) (bChain : list loc)
    (st : State) (db : Balance_) :
  actions st !! a = Some act ->
  load_opt (filters st) (Balance act) = Return f ->
  balances st !! d = Some db ->
  Forall (fun p => is_Some (balances st !! p)) bChain ->
  NoDup bChain ->
  exists st1,
    transfer_loop a d bChain st = Return st1
    /\ transfer_loop a d bChain st1 = Return st1.
Proof.
  intros Ha Hf Hd Hvalid Hnodup.
  destruct (transfer_loop_spec a d act f bChain st db Ha Hf Hd Hvalid Hnodup)
    as (bs' & Hrun & Hd' & Hothers & Hnew).
  exists (set_balances st bs'). split; [exact Hrun|].
  set (db' := with_Value db (transferred (balances st) db f bChain (Value db))) in *.
  apply (transfer_loop_nothing a d act f bChain (set_balances st bs') db' Ha Hf Hd').
  - eapply Forall_impl; [exact Hvalid|]. intros p [b Hb]. cbn [balances set_balances].
    destruct (decide (p = d)) as [->|Hne]; [rewrite Hd'; eexists; reflexivity|].
    rewrite (Hothers p b Hne Hb). eexists. reflexivity.
  - intros p Hp. cbn [balances set_balances].
    destruct (decide (p = d)) as [->|Hne]; [apply (transferable_default bs' db' f d Hd')|].
    destruct (proj1 (Forall_forall _ _) Hvalid p Hp) as [b Hb].
    pose proof (Hothers p b Hne Hb) as Hp'.
    rewrite (bool_decide_eq_true_2 _ Hp) in Hp'. cbn [andb] in Hp'.
    destruct (transferable (balances st) db f p) eqn:Ht.
    + unfold transferable. rewrite Hp'. cbn [Value with_Value].
      rewrite andb_false_r. reflexivity.
    + rewrite <- Ht. apply transferable_same_ids; [reflexivity|reflexivity|].
      rewrite Hp', Hb. reflexivity.
Qed.

(** *** mail_async: the addresses *)

Lemma append_assoc (s1 s2 s3 : string) :
  ((s1 ++ s2) ++ s3)%string = (s1 ++ (s2 ++ s3))%string.
Proof.
  induction s1 as [|c s1 IH]; [reflexivity|].
  change (String c ((s1 ++ s2) ++ s3) = String c (s1 ++ (s2 ++ s3)))%string.
  f_equal. exact IH.
Qed.

Lemma join_addrs_tail (toAddrs : list string) :
  forall (idx : nat) (acc x : string),
    join_addrs (S idx) toAddrs (acc ++ x)%string
    = (acc ++ String.concat ", " (x :: toAddrs))%string.
Proof.
  induction toAddrs as [|y rest IH]; intros idx acc x; [reflexivity|].
  cbn [join_addrs Nat.eqb]. rewrite (IH (S idx) ((acc ++ x) ++ ", ")%string y).
  cbn [String.concat]. rewrite !append_assoc. reflexivity.
Qed.

(** The loop that builds the [To:] header joins the addresses with a
    comma and a space. *)
Lemma join_addrs_concat (toAddrs : list string) :
  join_addrs 0 toAddrs EmptyString = String.concat ", " toAddrs.
Proof.
  destruct toAddrs as [|x rest]; [reflexivity|].
  cbn [join_addrs Nat.eqb]. apply (join_addrs_tail rest 0 EmptyString x).
Qed.

(** X10: [mailAsync] fails only when the account cannot be marshalled: in
    every other case, a nil account and a nil queue included, it hands
    one mail to the sender and returns nil.  The recipients are the
    first CSV parameter split on the fallback separator, there is at
    least one of them, and the [To:] header is their list joined by a
    comma and a space. *)
Theorem mailAsync_sends
    (ub : option loc) (sq : option CDRStatsQueueTriggered) (a : loc) (acs : list loc)
    (st : State) (act : Action) :
  actions st !! a = Some act ->
  (forall msg, ub <> None -> json_Marshal st ub None <> inr msg) ->
  exists (p0 : string) (rest toAddrs : list string),
    mail_params act = p0 :: rest
    /\ toAddrs = Strings.Split p0 (string_of_rune FALLBACK_SEP)
    /\ toAddrs <> []
    /\ mailAsync ub sq a acs st
       = ok (emit (EvSendMail toAddrs (String.concat ", " toAddrs)) st).
Proof.
  intros Hact Hjson.
  destruct (mail_params act) as [|p0 rest] eqn:Hparams;
    [exfalso; exact (mail_params_nonempty act Hparams)|].
  exists p0, rest, (Strings.Split p0 (string_of_rune FALLBACK_SEP)).
  split; [reflexivity|]. split; [reflexivity|].
  split; [apply Strings.Split_nonempty; discriminate|].
  unfold mailAsync, load. rewrite Hact. cbn [bind]. rewrite Hparams.
  cbn [length Nat.eqb lookup list_lookup]. rewrite join_addrs_concat.
  destruct ub as [u|]; [|reflexivity].
  destruct (json_Marshal st (Some u) None) as [jsn|msg] eqn:Hm; [reflexivity|].
  exfalso. exact (Hjson msg ltac:(discriminate) eq_refl).
Qed.

(** *** set_ddestinations: the search *)

(** Some balance of the account lists the destination id [d], and [d]
    starts with [*ddc]. *)
Definition has_ddc (acc : Account) (bs : gmap loc Balance_) (d : string) : Prop :=
  exists (k : string) (bchain : list loc) (p : loc) (b : Balance_),
    BalanceMap acc !! k = Some bchain /\ p ∈ bchain /\ bs !! p = Some b
    /\ d ∈ DestinationIDs b /\ String.prefix "*ddc" d = true.

Lemma ddc_of_chain_spec (bs : gmap loc Balance_) (bchain : list loc) :
  Forall (fun p => is_Some (bs !! p)) bchain ->
  exists r,
    ddc_of_chain bs bchain = Return r
    /\ match r with
       | Some d => exists p b, p ∈ bchain /\ bs !! p = Some b
                               /\ d ∈ DestinationIDs b /\ String.prefix "*ddc" d = true
       | None => forall p b d, p ∈ bchain -> bs !! p = Some b -> d ∈ DestinationIDs b ->
                               String.prefix "*ddc" d = false
       end.
Proof.
  induction bchain as [|p rest IH]; intros Hvalid.
  - exists None. split; [reflexivity|]. intros p b d Hp. apply elem_of_nil in Hp. destruct Hp.
  - apply Forall_cons in Hvalid as [[b Hb] Hvalid]. cbn [ddc_of_chain]. unfold load.
    rewrite Hb. cbn [bind]. unfold ddc_of_balance.
    destruct (find _ (DestinationIDs b)) as [d|] eqn:Hfind.
    + exists (Some d). split; [reflexivity|]. apply find_some in Hfind as [Hin Hpre].
      exists p, b. split; [left; reflexivity|]. split; [exact Hb|].
      split; [apply list_elem_of_In; exact Hin|exact Hpre].
    + destruct (IH Hvalid) as (r & Hrun & Hr). exists r. split; [exact Hrun|].
      destruct r as [d|].
      * destruct Hr as (q & bq & Hq & Hbq & Hd). exists q, bq.
        split; [right; exact Hq|]. split; [exact Hbq|exact Hd].
      * intros q bq d Hq Hbq Hd. apply elem_of_cons in Hq as [->|Hq].
        -- rewrite Hb in Hbq. injection Hbq as <-.
           apply (find_none _ _ Hfind). apply list_elem_of_In. exact Hd.
        -- exact (Hr q bq d Hq Hbq Hd).
Qed.

Lemma ddc_of_buckets_spec (bs : gmap loc Balance_) (buckets : list (string * list loc)) :
  Forall (fun kv => Forall (fun p => is_Some (bs !! p)) kv.2) buckets ->
  exists r,
    ddc_of_buckets bs buckets = Return r
    /\ match r with
       | Some d => exists kv p b, kv ∈ buckets /\ p ∈ kv.2 /\ bs !! p = Some b
                                  /\ d ∈ DestinationIDs b /\ String.prefix "*ddc" d = true
       | None => forall kv p b d, kv ∈ buckets -> p ∈ kv.2 -> bs !! p = Some b ->
                                  d ∈ DestinationIDs b -> String.prefix "*ddc" d = false
       end.
Proof.
  induction buckets as [|kv rest IH]; intros Hvalid.
  - exists None. split; [reflexivity|]. intros kv p b d Hkv. apply elem_of_nil in Hkv.
    destruct Hkv.
  - apply Forall_cons in Hvalid as [Hkv Hvalid]. cbn [ddc_of_buckets].
    destruct (ddc_of_chain_spec bs kv.2 Hkv) as (r0 & Hrun0 & Hr0).
    rewrite Hrun0. cbn [bind]. destruct r0 as [d|].
    + exists (Some d). split; [reflexivity|]. destruct Hr0 as (p & b & Hp & Hb & Hd).
      exists kv, p, b. split; [left; reflexivity|]. split; [exact Hp|]. split; [exact Hb|exact Hd].
    + destruct (IH Hvalid) as (r & Hrun & Hr). exists r. split; [exact Hrun|].
      destruct r as [d|].
      * destruct Hr as (kv' & p & b & Hkv' & Hrest). exists kv', p, b.
        split; [right; exact Hkv'|exact Hrest].
      * intros kv' p b d Hkv' Hp Hb Hd. apply elem_of_cons in Hkv' as [->|Hkv'].
        -- exact (Hr0 p b d Hp Hb Hd).
        -- exact (Hr kv' p b d Hkv' Hp Hb Hd).
Qed.

(** X11: [setddestinations] on an account none of whose balances lists a
    destination id starting with [*ddc] returns NOT_FOUND and leaves the
    state as it is, queue or no queue; when there is such an id, a nil
    queue makes it panic, and with a queue a failed lookup of the stored
    destination is returned before anything is written. *)
Theorem setddestinations_search
    (u a : loc) (acs : list loc) (st : State) (acc : Account) :
  accounts st !! u = Some acc ->
  (forall k bchain, BalanceMap acc !! k = Some bchain ->
                    Forall (fun p => is_Some (balances st !! p)) bchain) ->
  ((forall d, ~ has_ddc acc (balances st) d) ->
     forall sq, setddestinations (Some u) sq a acs st = fail ErrNotFound st)
  /\ ((exists d, has_ddc acc (balances st) d) ->
        setddestinations (Some u) None a acs st = Panic
        /\ forall q, exists d,
             has_ddc acc (balances st) d
             /\ forall old e, GetDestination dm d false (world st) = (old, Some e) ->
                  setddestinations (Some u) (Some q) a acs st = fail e st).
Proof.
  intros Hacc Hvalid.
  destruct (ddc_of_buckets_spec (balances st) (map_to_list (BalanceMap acc)))
    as (r & Hrun & Hr).
  { apply Forall_forall. intros [k bchain] Hkv. apply elem_of_map_to_list in Hkv.
    exact (Hvalid k bchain Hkv). }
  assert (Hhead : forall sq,
             setddestinations (Some u) sq a acs st
             = match r with
               | Some ddcDestId =>
                   match sq with
                   | None => Panic
                   | Some q =>
                       let newDest := mkDestination ddcDestId (Metrics q) in
                       let '(oldDest, err) := GetDestination dm ddcDestId false (world st) in
                       match err with
                       | Some e => fail e st
                       | None =>
                           let '(err1, w1) := SetDestination dm newDest (world st) in
                           match err1 with
                           | Some e => fail e (set_world st w1)
                           | None =>
                               let '(err2, w2) :=
                                 CacheDataFromDB dm DESTINATION_PREFIX [ddcDestId] true w1 in
                               match err2 with
                               | Some e => fail e (set_world st w2)
                               | None =>
                                   match oldDest with
                                   | Some old =>
                                       let '(err3, w3) :=
                                         UpdateReverseDestination dm old newDest w2 in
                                       Return (err3, set_world st w3)
                                   | None => ok (set_world st w2)
                                   end
                               end
                           end
                       end
                   end
               | None => fail ErrNotFound st
               end).
  { intros sq. unfold setddestinations, load. rewrite Hacc. cbn [bind]. rewrite Hrun.
    reflexivity. }
  split.
  - intros Hnone sq. rewrite Hhead. destruct r as [d|]; [|reflexivity].
    exfalso. destruct Hr as ([k bchain] & p & b & Hkv & Hp & Hb & Hd & Hpre).
    apply (Hnone d). exists k, bchain, p, b. apply elem_of_map_to_list in Hkv.
    repeat split; assumption.
  - intros [d0 (k0 & bchain0 & p0 & b0 & Hk0 & Hp0 & Hb0 & Hd0 & Hpre0)].
    destruct r as [d|].
    + split; [rewrite Hhead; reflexivity|]. intros q. exists d. split.
      * destruct Hr as ([k bchain] & p & b & Hkv & Hp & Hb & Hd & Hpre).
        exists k, bchain, p, b. apply elem_of_map_to_list in Hkv. repeat split; assumption.
      * intros old e Hget. rewrite Hhead. cbn zeta. rewrite Hget. reflexivity.
    + exfalso. assert (Hfalse : String.prefix "*ddc" d0 = false).
      { apply (Hr (k0, bchain0) p0 b0 d0); try assumption.
        apply elem_of_map_to_list. exact Hk0. }
      congruence.
Qed.

(** *** parseTemplateValue *)

Definition panics {A : Type} (r : result A) : bool :=
  match r with
  | Panic => true
  | Return _ => false
  end.

(** What a template field adds to the value: its parsed source, or
    nothing when [Parse] fails. *)
Definition field_text (st : State) (acnt : option loc) (dta : string * string)
    (action : Action) (f : BalanceFilter) (rsrFld : RSRField) : option string :=
  match template_source st acnt dta action f (rsrId rsrFld) with
  | Return src => rsr_Parse rsrFld src
  | Panic => None
  end.

Lemma parseTemplate_loop_spec (st : State) (acnt : option loc) (dta : string * string)
    (action : Action) (f : BalanceFilter) :
  forall (rsrFlds : list RSRField) (parsedValue : string),
    parseTemplate_loop st acnt dta action f rsrFlds parsedValue
    = if existsb (fun fld => panics (template_source st acnt dta action f (rsrId fld))) rsrFlds
      then Panic
      else Return (parsedValue
                   ++ foldr String.append EmptyString
                        (omap (field_text st acnt dta action f) rsrFlds))%string.
Proof.
  induction rsrFlds as [|fld rest IH]; intros parsedValue.
  - cbn [parseTemplate_loop existsb omap foldr]. f_equal.
    induction parsedValue as [|c s IHs]; [reflexivity|].
    change (String c s = String c (s ++ EmptyString))%string. f_equal. exact IHs.
  - cbn [parseTemplate_loop existsb].
    replace (omap (field_text st acnt dta action f) (fld :: rest))
      with (match field_text st acnt dta action f fld with
            | Some y => y :: omap (field_text st acnt dta action f) rest
            | None => omap (field_text st acnt dta action f) rest
            end) by reflexivity.
    unfold field_text at 1.
    destruct (template_source st acnt dta action f (rsrId fld)) as [src|]; [|reflexivity].
    cbn [bind panics orb]. destruct (rsr_Parse fld src) as [parsed|].
    + rewrite IH. destruct (existsb _ rest); [reflexivity|].
      cbn [foldr]. rewrite append_assoc. reflexivity.
    + apply IH.
Qed.

(** The template fields that dereference a pointer: [AccountID] the
    account, [Category] and [SharedGroups] one of the filter. *)
Definition field_panics (acnt : option loc) (f : BalanceFilter) (fldId : string) : bool :=
  bool_decide (fldId = "AccountID") && bool_decide (acnt = None)
  || bool_decide (fldId ∈ [Category; "SharedGroups"])
     && bool_decide (filter_ptr_text f fldId = None).

Lemma template_source_panics (st : State) (acnt : option loc) (dta : string * string)
    (action : Action) (f : BalanceFilter) (fldId : string) :
  (forall u, acnt = Some u -> is_Some (accounts st !! u)) ->
  panics (template_source st acnt dta action f fldId) = field_panics acnt f fldId.
Proof.
  intros Hvalid. unfold template_source, field_panics.
  destruct (decide (fldId = "AccountID")) as [->|Hne].
  - destruct (decide ("AccountID" = "AccountID")) as [_|Hne]; [|contradiction].
    destruct acnt as [u|]; [|reflexivity].
    destruct (Hvalid u eq_refl) as [acc Hacc]. unfold load. rewrite Hacc. reflexivity.
  - rewrite (bool_decide_eq_false_2 _ Hne). cbn [andb orb].
    destruct (decide (fldId ∈ [Category; "SharedGroups"])) as [Hin|Hnin].
    + rewrite (bool_decide_eq_true_2 _ Hin). cbn [andb].
      assert (Hcases : fldId = Category \/ fldId = "SharedGroups").
      { apply list_elem_of_In in Hin. cbn in Hin.
        destruct Hin as [<-|[<-|[]]]; [left|right]; reflexivity. }
      assert (Hnot : fldId ∉ ["Directions"; "DestinationIDs"; "RatingSubject"]).
      { intros Hin'. apply list_elem_of_In in Hin'. cbn in Hin'.
        destruct Hcases as [->| ->];
          repeat (destruct Hin' as [Hin'|Hin']; [discriminate Hin'|]); exact Hin'. }
      repeat (match goal with
              | |- context [decide (fldId = ?x)] =>
                  destruct (decide (fldId = x)) as [Heq|_];
                  [exfalso; destruct Hcases as [Hc|Hc]; rewrite Hc in Heq; discriminate Heq|]
              end).
      destruct (decide (fldId ∈ ["Directions"; "DestinationIDs"; "RatingSubject"]));
        [contradiction|].
      destruct (decide (fldId ∈ [Category; "SharedGroups"])); [|contradiction].
      destruct (filter_ptr_text f fldId); reflexivity.
    + rewrite (bool_decide_eq_false_2 _ Hnin). cbn [andb].
      repeat (match goal with
              | |- context [decide (fldId = ?x)] =>
                  destruct (decide (fldId = x)) as [_|_]; [reflexivity|]
              end).
      destruct (decide (fldId ∈ ["Directions"; "DestinationIDs"; "RatingSubject"]));
        [reflexivity|].
      destruct (decide (fldId ∈ [Category; "SharedGroups"])); [contradiction|reflexivity].
Qed.

(** X12: [parseTemplateValue] concatenates, in the order of the template,
    what each field parses to, a field whose [Parse] fails adding
    nothing.  A nil account reads as an empty tenant and an empty
    account, but a template field [AccountID] then dereferences the nil
    account, and the fields [Category] and [SharedGroups] dereference
    the filter's pointer to the categories and to the shared groups:
    for an action with a balance filter the call panics exactly when
    the template has [AccountID] and the account is nil, or has
    [Category] or [SharedGroups] and that pointer of the filter is
    nil. *)
Theorem parseTemplateValue_spec
    (st : State) (rsrFlds : list RSRField) (acnt : option loc) (action : Action)
    (p : loc) (f : BalanceFilter) :
  (forall u, acnt = Some u -> is_Some (accounts st !! u)) ->
  Balance action = Some p ->
  filters st !! p = Some f ->
  let dta :=
    match acnt ≫= (fun u => accounts st !! u) with
    | Some acc => default (EmptyString, EmptyString) (NewTAFromAccountKey (accID acc))
    | None => (EmptyString, EmptyString)
    end in
  parseTemplateValue st rsrFlds acnt action
  = if existsb (fun fld => field_panics acnt f (rsrId fld)) rsrFlds
    then Panic
    else Return (foldr String.append EmptyString
                   (omap (field_text st acnt dta action f) rsrFlds)).
Proof.
  intros Hvalid Hbal Hf dta. unfold parseTemplateValue.
  assert (Hdta : match acnt with
                 | Some u =>
                     do acc <~ load (accounts st) u;
                     Return (default (EmptyString, EmptyString)
                               (NewTAFromAccountKey (accID acc)))
                 | None => Return (EmptyString, EmptyString)
                 end = Return dta).
  { unfold dta. destruct acnt as [u|]; [|reflexivity]. cbn [mbind option_bind].
    destruct (Hvalid u eq_refl) as [acc Hacc]. unfold load. rewrite Hacc. reflexivity. }
  rewrite Hdta. cbn [bind]. rewrite Hbal. unfold load. rewrite Hf. cbn [bind].
  rewrite parseTemplate_loop_spec.
  replace (existsb (fun fld => panics (template_source st acnt dta action f (rsrId fld)))
             rsrFlds)
    with (existsb (fun fld => field_panics acnt f (rsrId fld)) rsrFlds); [reflexivity|].
  induction rsrFlds as [|fld rest IH]; [reflexivity|].
  cbn [existsb]. rewrite IH. rewrite (template_source_panics _ _ _ _ _ _ Hvalid).
  reflexivity.
Qed.

(** *** cdrlog: the template and the store *)

Lemma override_template_spec :
  forall (overrides : list (string * string)) (tpl : gmap string (list RSRField)),
    match override_template overrides tpl with
    | Some tpl' =>
        Forall (fun kv => is_Some (ParseRSRFields kv.2)) overrides
        /\ (forall k, is_Some (tpl !! k) -> is_Some (tpl' !! k))
        /\ (forall k, k ∉ overrides.*1 -> tpl' !! k = tpl !! k)
        /\ (forall k flds, k ∈ overrides.*1 -> tpl' !! k = Some flds ->
              exists rsr, (k, rsr) ∈ overrides /\ ParseRSRFields rsr = Some flds)
    | None => Exists (fun kv => ParseRSRFields kv.2 = None) overrides
    end.
Proof.
  induction overrides as [|[field rsr] rest IH]; intros tpl.
  - cbn [override_template]. split; [constructor|]. split; [auto|]. split; [reflexivity|].
    intros k flds Hk. apply elem_of_nil in Hk. destruct Hk.
  - cbn [override_template]. destruct (ParseRSRFields rsr) as [flds0|] eqn:Hparse.
    2:{ left. exact Hparse. }
    specialize (IH (<[field := flds0]> tpl)).
    destruct (override_template rest (<[field := flds0]> tpl)) as [tpl'|].
    2:{ right. exact IH. }
    destruct IH as (Hall & Hkeep & Hout & Hin).
    split; [constructor; [cbn [snd]; rewrite Hparse; eexists; reflexivity|exact Hall]|].
    split.
    { intros k Hk. apply Hkeep. destruct (decide (k = field)) as [->|Hne];
        [rewrite lookup_insert_eq; eexists; reflexivity|].
      rewrite lookup_insert_ne by (intros E; apply Hne; symmetry; exact E). exact Hk. }
    split.
    { intros k Hk. rewrite fmap_cons in Hk. apply not_elem_of_cons in Hk as [Hne Hk].
      rewrite (Hout k Hk). apply lookup_insert_ne. intros E. apply Hne. symmetry. exact E. }
    intros k flds Hk Hlook. destruct (decide (k ∈ rest.*1)) as [Hrest|Hrest].
    + destruct (Hin k flds Hrest Hlook) as (rsr' & Hmem & Hp). exists rsr'.
      split; [right; exact Hmem|exact Hp].
    + rewrite fmap_cons in Hk. apply elem_of_cons in Hk as [->|Hk]; [|contradiction].
      rewrite (Hout _ Hrest) in Hlook. cbn [fst] in Hlook.
      rewrite lookup_insert_eq in Hlook. injection Hlook as <-.
      exists rsr. split; [left; reflexivity|exact Hparse].
Qed.

(** X13: The template [cdrLogAction] works with always has the seven default
    fields: an override in [ExtraParameters] replaces the source of the
    field it names, or adds a field, and leaves every other field at its
    default; with no [ExtraParameters] the template is the default
    one. *)
Theorem cdrLog_template_defaults (act : Action) (tpl : gmap string (list RSRField)) :
  cdrLog_template act = inr tpl ->
  (forall k, k ∈ [ToR; OriginHost; RequestType; Tenant; Account_; Subject; COST] ->
             is_Some (tpl !! k))
  /\ (ExtraParameters act = EmptyString -> tpl = list_to_map defaultTemplate)
  /\ (forall overrides,
        ExtraParameters act <> EmptyString ->
        json_Unmarshal_map (ExtraParameters act) = Some overrides ->
        (forall k, k ∉ overrides.*1 ->
           tpl !! k = (list_to_map defaultTemplate : gmap string (list RSRField)) !! k)
        /\ (forall k flds, k ∈ overrides.*1 -> tpl !! k = Some flds ->
              exists rsr, (k, rsr) ∈ overrides /\ ParseRSRFields rsr = Some flds)).
Proof.
  intros Htpl. unfold cdrLog_template in Htpl.
  set (dflt := list_to_map defaultTemplate : gmap string (list RSRField)) in *.
  assert (Hdflt : forall k,
             k ∈ [ToR; OriginHost; RequestType; Tenant; Account_; Subject; COST] ->
             is_Some (dflt !! k)).
  { intros k Hk. unfold dflt, defaultTemplate.
    repeat (apply elem_of_cons in Hk as [->|Hk]; [vm_compute; eexists; reflexivity|]).
    apply elem_of_nil in Hk. destruct Hk. }
  destruct (bool_decide (ExtraParameters act <> EmptyString)) eqn:Hep.
  - apply bool_decide_eq_true in Hep.
    destruct (json_Unmarshal_map (ExtraParameters act)) as [ovs|] eqn:Hjson; [|discriminate].
    pose proof (override_template_spec ovs dflt) as Hspec.
    destruct (override_template ovs dflt) as [tpl'|]; [|discriminate].
    injection Htpl as <-. destruct Hspec as (_ & Hkeep & Hout & Hin).
    split; [intros k Hk; apply Hkeep, Hdflt, Hk|].
    split; [intros E; contradiction|].
    intros overrides _ [= <-]. split; [exact Hout|exact Hin].
  - apply bool_decide_eq_false in Hep. injection Htpl as <-.
    split; [exact Hdflt|]. split; [reflexivity|].
    intros overrides Hne. exfalso. apply Hep. exact Hne.
Qed.

Lemma cdrLog_loop_skips (acc : option loc) (tpl : list (string * list RSRField))
    (rest : list loc) (cdrs : list CDR) (st : State) :
  forall pre : list loc,
    Forall (fun p => exists action, actions st !! p = Some action /\ logged action = false)
      pre ->
    cdrLog_loop acc tpl (pre ++ rest) cdrs st = cdrLog_loop acc tpl rest cdrs st.
Proof.
  induction pre as [|p pre IH]; intros Hpre; [reflexivity|].
  apply Forall_cons in Hpre as [(action & Hact & Hlog) Hpre].
  cbn [app cdrLog_loop]. unfold load. rewrite Hact. cbn [bind]. rewrite Hlog. cbn [negb].
  apply IH. exact Hpre.
Qed.

(** X14: The first CDR the store refuses ends [cdrLogAction]: the error of
    the store is the result, the siblings after it are not looked at,
    and the summary of the CDRs is not written into the action. *)
Theorem cdrLogAction_store_error
    (acc : option loc) (sq : option CDRStatsQueueTriggered) (a p : loc)
    (pre rest : list loc) (st : State) (act action : Action)
    (tpl : gmap string (list RSRField)) (cdr : CDR)
    (SetCDR : CDR -> bool -> W -> goerr * W) (e : error) (w : W) :
  actions st !! a = Some act ->
  cdrLog_template act = inr tpl ->
  Forall (fun q => exists sibling, actions st !! q = Some sibling /\ logged sibling = false)
    pre ->
  actions st !! p = Some action ->
  logged action = true ->
  cdr_of st acc (map_to_list tpl) action = Return cdr ->
  cdrStorage = Some SetCDR ->
  SetCDR cdr true (world st) = (Some e, w) ->
  cdrLogAction acc sq a (pre ++ p :: rest) st = Return (Some e, set_world st w)
  /\ cdrLog_run acc a (pre ++ p :: rest) st = Return (Some e, [cdr], set_world st w).
Proof.
  intros Hact Htpl Hpre Hp Hlog Hcdr Hstore Hset.
  assert (Hrun : cdrLog_run acc a (pre ++ p :: rest) st
                 = Return (Some e, [cdr], set_world st w)).
  { unfold cdrLog_run, load. rewrite Hact. cbn [bind]. rewrite Htpl.
    rewrite (cdrLog_loop_skips acc (map_to_list tpl) (p :: rest) [] st pre Hpre).
    cbn [cdrLog_loop]. unfold load. rewrite Hp. cbn [bind]. rewrite Hlog. cbn [negb].
    unfold cdr_of in Hcdr. rewrite Hcdr. cbn [bind]. rewrite Hstore, Hset. reflexivity. }
  split; [|exact Hrun]. unfold cdrLogAction. rewrite Hrun. reflexivity.
Qed.

(** *** Actions.Sort on short lists *)

(** X18: On a list of at most 6 valid actions [Sort] is stable: two actions
    of equal weight come out in the order they went in.  (Such a list
    is sorted by the insertion sort of [sort.Sort] alone.) *)
Theorem Actions_Sort_stable_small (apl : list loc) (st : State) :
  Forall (fun p => is_Some (actions st !! p)) apl ->
  (length apl <= 6)%nat ->
  exists apl',
    Actions_Sort apl st = Return apl'
    /\ apl ≡ₚ apl'
    /\ keeps_equal_weights st apl apl'.
Proof.
  intros Hvalid Hlen. exists (sort_Sort go (heavier st) apl).
  split; [apply Actions_Sort_runs; exact Hvalid|].
  split; [apply SortLib.sort_Sort_small_Permutation; exact Hlen|].
  intros i j p q x y Hij Hp Hq Hx Hy Hw.
  apply (SortLib.sort_Sort_small_before go (heavier st) apl p q Hlen).
  - unfold heavier, weight_at. rewrite Hx, Hy. cbn [from_option]. rewrite Hw.
    apply Float64.ltb_irrefl.
  - exists i, j. split; [exact Hij|]. split; assumption.
Qed.

(** *** Action.Clone *)

(** X15: [Action.Clone] builds its copy in new cells and leaves the action
    and its filter as they are.  The copy has the exported fields of the
    action; [balanceValue], which is not exported, starts again at zero,
    and a [Disabled] or [Blocker] flag that is set to false comes out as
    nil: unlike [Actions.Clone], this copy is not repaired. *)
Theorem Action_Clone_spec (a p : loc) (st : State) (act : Action) (f : BalanceFilter) :
  actions st !! a = Some act ->
  Balance act = Some p ->
  filters st !! p = Some f ->
  let q := fresh (dom (filters st)) in
  let c := fresh (dom (actions st)) in
  exists st',
    Action_Clone a st = (c, st')
    /\ c <> a /\ q <> p
    /\ actions st' !! c
       = Some (mkAction (Id act) (ActionType act) (ExtraParameters act) (Filter act)
                 (ExpirationString act) (Weight act) (Some q) 0)
    /\ filters st' !! q = Some (wire_filter f)
    /\ actions st' !! a = Some act
    /\ filters st' !! p = Some f
    /\ bfValue (wire_filter f) = bfValue f
    /\ (bfDisabled f = Some false -> bfDisabled (wire_filter f) = None)
    /\ (bfBlocker f = Some false -> bfBlocker (wire_filter f) = None).
Proof.
  intros Hact Hbal Hf q c.
  assert (Hq : filters st !! q = None) by (apply not_elem_of_dom; apply is_fresh).
  assert (Hc : actions st !! c = None) by (apply not_elem_of_dom; apply is_fresh).
  assert (Hca : c <> a) by (intros E; rewrite E in Hc; congruence).
  assert (Hqp : q <> p) by (intros E; rewrite E in Hq; congruence).
  eexists. split.
  { unfold Action_Clone, encode_Action. rewrite Hact, Hbal, Hf.
    unfold decode_Action_value, wire_of, alloc.
    cbn [wBalance actions filters set_filters set_actions]. reflexivity. }
  cbn [actions filters set_filters set_actions].
  split; [exact Hca|]. split; [exact Hqp|].
  split; [rewrite lookup_insert_eq; reflexivity|].
  split; [rewrite lookup_insert_eq; reflexivity|].
  split; [rewrite lookup_insert_ne by exact Hca; exact Hact|].
  split; [rewrite lookup_insert_ne by exact Hqp; exact Hf|].
  split; [reflexivity|].
  split; intros H; unfold wire_filter; cbn; rewrite H; reflexivity.
Qed.

(** *** remove_balance, twice *)

Lemma existsb_false_elem_of {T : Type} (g : T -> bool) (l : list T) :
  (forall x, x ∈ l -> g x = false) -> existsb g l = false.
Proof.
  intros Hall. destruct (existsb g l) eqn:Hex; [|reflexivity].
  apply existsb_exists in Hex as (x & Hin & Hx).
  rewrite (Hall x) in Hx by (apply list_elem_of_In; exact Hin). discriminate.
Qed.

(** X9: After a [removeBalanceAction] that removed something, the same
    action on the same account finds nothing more to remove: it returns
    NOT_FOUND and leaves the state as the first call left it. *)
Theorem removeBalanceAction_twice
    (st : State) (u a : loc) (sq : option CDRStatsQueueTriggered) (acs : list loc)
    (acc : Account) (act : Action) (f : option BalanceFilter) (bChain : list loc) :
  accounts st !! u = Some acc ->
  actions st !! a = Some act ->
  load_opt (filters st) (Balance act) = Return f ->
  BalanceMap acc !! GetType f = Some bChain ->
  Forall (fun p => is_Some (balances st !! p)) bChain ->
  existsb (matches (balances st) f) bChain = true ->
  exists st1,
    removeBalanceAction (Some u) sq a acs st = ok st1
    /\ removeBalanceAction (Some u) sq a acs st1 = fail ErrNotFound st1.
Proof.
  intros Hacc Hact Hf Hchain Hvalid Hsome.
  destruct (removeBalance_loop_spec (balances st) f (length bChain) 0 bChain false Hvalid)
    as (bChain' & Hrun & Hperm & _); [lia|intros j p Hj; lia|].
  rewrite drop_0, Hsome in Hrun. cbn [orb] in Hrun.
  set (acc1 := with_BalanceMap acc (<[GetType f := bChain']> (BalanceMap acc))).
  exists (store_account st u acc1). split.
  { unfold removeBalanceAction, load. rewrite Hacc. cbn [bind]. rewrite Hact. cbn [bind].
    rewrite Hf. cbn [bind]. rewrite Hchain, Hrun. reflexivity. }
  assert (Hnone : forall p, p ∈ bChain' -> matches (balances st) f p = false).
  { intros p Hp. rewrite Hperm in Hp. apply list_elem_of_filter in Hp as [Hp _]. exact Hp. }
  assert (Hvalid' : Forall (fun p => is_Some (balances st !! p)) bChain').
  { apply Forall_forall. intros p Hp. rewrite Hperm in Hp.
    apply list_elem_of_filter in Hp as [_ Hp].
    exact (proj1 (Forall_forall _ _) Hvalid p Hp). }
  destruct (removeBalance_loop_spec (balances st) f (length bChain') 0 bChain' false Hvalid')
    as (bChain'' & Hrun' & _ & Hsame); [lia|intros j p Hj; lia|].
  rewrite drop_0 in Hrun', Hsame.
  rewrite (existsb_false_elem_of _ _ Hnone) in Hrun'.
  rewrite (Hsame (existsb_false_elem_of _ _ Hnone)) in Hrun'. cbn [orb] in Hrun'.
  unfold removeBalanceAction, load. rewrite store_account_lookup. cbn [bind].
  change (actions (store_account st u acc1)) with (actions st).
  change (filters (store_account st u acc1)) with (filters st).
  change (balances (store_account st u acc1)) with (balances st).
  rewrite Hact. cbn [bind]. rewrite Hf. cbn [bind].
  unfold acc1 at 1. cbn [BalanceMap with_BalanceMap]. rewrite lookup_insert_eq.
  rewrite Hrun'. cbn [bind]. rewrite store_account_twice. unfold fail. do 3 f_equal.
  unfold acc1, with_BalanceMap. cbn [accID BalanceMap AllowNegative Disabled].
  rewrite insert_insert_eq. reflexivity.
Qed.

(** X21: On a list of at most 12 valid actions none of whose weights is
    NaN, [Sort] is idempotent: sorting what it returned changes nothing,
    and a list that is in non-increasing [Weight] order already is
    returned as it is. *)
Theorem Actions_Sort_idempotent_small (apl : list loc) (st : State) :
  Forall (comparable st) apl ->
  (length apl <= 12)%nat ->
  exists apl',
    Actions_Sort apl st = Return apl'
    /\ Actions_Sort apl' st = Return apl'
    /\ ((forall (i j : nat) (p q : loc) (x y : Action),
           (i < j)%nat -> apl !! i = Some p -> apl !! j = Some q ->
           actions st !! p = Some x -> actions st !! q = Some y ->
           (Weight y <=? Weight x)%float = true) ->
        apl' = apl).
Proof.
  intros Hall Hlen.
  pose proof (comparable_valid st apl Hall) as Hvalid.
  destruct (sort_by_key st apl Hall) as (_ & Hperm & Hsorted).
  set (apl' := sort_Sort go (heavier st) apl) in *.
  assert (Hlen' : length apl' = length apl) by (symmetry; apply Permutation_length; exact Hperm).
  assert (Hall' : Forall (comparable st) apl') by (rewrite <- Hperm; exact Hall).
  assert (Hless : forall (l : list loc) (i j : nat) (p q : loc),
             Forall (comparable st) l -> l !! i = Some p -> l !! j = Some q ->
             GoSort.Less (heavier st) l j i = lower_key st q p).
  { intros l i j p q Hl Hp Hq. unfold GoSort.Less. rewrite Hp, Hq.
    apply heavier_key; apply (proj1 (Forall_forall _ _) Hl);
      eapply list_elem_of_lookup_2; eassumption. }
  exists apl'. split; [apply Actions_Sort_runs; exact Hvalid|]. split.
  - rewrite (Actions_Sort_runs st apl' (comparable_valid st apl' Hall')). f_equal.
    apply SortLib.sort_Sort_ordered; [lia|].
    intros i j Hij Hj.
    destruct (lookup_lt_is_Some_2 apl' j Hj) as [q Hq].
    destruct (lookup_lt_is_Some_2 apl' i ltac:(lia)) as [p Hp].
    rewrite (Hless apl' i j p q Hall' Hp Hq). unfold lower_key. apply Z.ltb_ge.
    pose proof (Hsorted i j ltac:(lia) ltac:(lia) ltac:(lia)) as Hs.
    unfold GoSort.kth in Hs. rewrite Hp, Hq in Hs. exact Hs.
  - intros Hweights. apply SortLib.sort_Sort_ordered; [exact Hlen|].
    intros i j Hij Hj.
    destruct (lookup_lt_is_Some_2 apl j Hj) as [q Hq].
    destruct (lookup_lt_is_Some_2 apl i ltac:(lia)) as [p Hp].
    rewrite (Hless apl i j p q Hall Hp Hq). unfold lower_key, weight_key. apply Z.ltb_ge.
    destruct (proj1 (Forall_forall _ _) Hall p (list_elem_of_lookup_2 _ _ _ Hp))
      as (x & Hx & Hnx).
    destruct (proj1 (Forall_forall _ _) Hall q (list_elem_of_lookup_2 _ _ _ Hq))
      as (y & Hy & Hny).
    pose proof (Hweights i j p q x y Hij Hp Hq Hx Hy) as Hw.
    rewrite (Float64.leb_key _ _ Hny Hnx) in Hw. apply Z.leb_le in Hw.
    unfold weight_at. rewrite Hx, Hy. cbn [from_option]. lia.
Qed.

(** *** remove_account: a failure half way *)

Lemma remove_from_plans_app (accID : string) (rest : list string) :
  forall (pre : list string) (w : W),
    remove_from_plans accID (pre ++ rest) w
    = do r <~ remove_from_plans accID pre w;
      match r.1 with
      | Some e => Return r
      | None => remove_from_plans accID rest r.2
      end.
Proof.
  induction pre as [|apID pre IH]; intros w.
  - cbn [app remove_from_plans bind fst snd]. reflexivity.
  - cbn [app remove_from_plans].
    destruct (GetActionPlan dm apID false w) as [ap err].
    destruct err as [e|]; [reflexivity|].
    destruct ap as [ap|]; [|reflexivity].
    destruct (SetActionPlan dm apID _ true w) as [err1 w1].
    destruct err1 as [e|]; [reflexivity|]. apply IH.
Qed.

(** X22: [removeAccountAction] does not undo what it has done when it
    fails half way.  If an action plan of the account cannot be loaded,
    the error is returned with the account removed from the store and
    the plans before the failing one saved without the account; the
    plans after it, the index of the account's plans and the caches are
    not touched. *)
Theorem removeAccountAction_partial_failure
    (ub : option loc) (sq : option CDRStatsQueueTriggered) (a : loc) (acs : list loc)
    (st : State) (accID : string) (pre rest : list string) (bad : string)
    (ap : option ActionPlan) (e : error) (w1 w2 : W) :
  remove_account_id ub a st = Return (inl accID) ->
  accID <> EmptyString ->
  RemoveAccount dm accID (world st) = (None, w1) ->
  GetAccountActionPlans dm accID false w1 = (pre ++ bad :: rest, None) ->
  remove_from_plans accID pre w1 = Return (None, w2) ->
  GetActionPlan dm bad false w2 = (ap, Some e) ->
  removeAccountAction ub sq a acs st = Return (Some e, set_world st w2).
Proof.
  intros Hid Hne Hrem Hidx Hpre Hbad.
  unfold removeAccountAction. rewrite Hid. cbn [bind].
  rewrite (bool_decide_eq_false_2 _ Hne). rewrite Hrem.
  unfold Guard, remove_account_guarded. rewrite Hidx.
  rewrite bool_decide_eq_false_2 by (intros [H _]; apply H; reflexivity).
  unfold after_lookup. rewrite remove_from_plans_app, Hpre. cbn [bind fst snd].
  cbn [remove_from_plans]. rewrite Hbad. reflexivity.
Qed.
End Engine.

Arguments mkState {W}.
Arguments accounts {W}.
Arguments balances {W}.
Arguments actions {W}.
Arguments filters {W}.
Arguments trace {W}.
Arguments world {W}.

(** ** A simulated deployment

    Concrete collaborators, to run the handlers on concrete states: an
    in-memory data store, and a filter match on type-free criteria. *)

Module Sim.

(** The in-memory data store: the stored account ids, the index from an
    account to its action plans, the plans, the destinations and the
    stored CDRs. *)
Record World : Type := mkWorld {
  db_accounts : gset string;
  db_acntAPs : gmap string (list string);
  db_plans : gmap string ActionPlan;
  db_dests : gmap string Destination;
  db_cdrs : list CDR
}.

Definition dm : DataManager World :=
  mkDataManager World
    (fun accID w =>
       (None, mkWorld (db_accounts w ∖ {[accID]}) (db_acntAPs w) (db_plans w)
                (db_dests w) (db_cdrs w)))
    (fun accID _ w =>
       match db_acntAPs w !! accID with
       | Some ids => (ids, None)
       | None => ([], Some ErrNotFound)
       end)
    (fun apID _ w =>
       match db_plans w !! apID with
       | Some ap => (Some ap, None)
       | None => (None, Some ErrNotFound)
       end)
    (fun apID ap _ w =>
       (None, mkWorld (db_accounts w) (db_acntAPs w) (<[apID := ap]> (db_plans w))
                (db_dests w) (db_cdrs w)))
    (fun accID _ w =>
       (None, mkWorld (db_accounts w) (delete accID (db_acntAPs w)) (db_plans w)
                (db_dests w) (db_cdrs w)))
    (fun id _ w =>
       match db_dests w !! id with
       | Some dst => (Some dst, None)
       | None => (None, Some ErrNotFound)
       end)
    (fun dst w =>
       (None, mkWorld (db_accounts w) (db_acntAPs w) (db_plans w)
                (<[destId dst := dst]> (db_dests w)) (db_cdrs w)))
    (fun _ _ w => (None, w))
    (fun _ _ _ w => (None, w)).

(** A balance matches a filter that names no id or its id. *)
(** The release of the library: the quicksort, or the pattern-defeating
    quicksort with a 64-bit xorshift generator of shifts 13, 7 and 17. *)
Definition xorshift_Next (r : N) : N :=
  let r := N.lxor r (N.shiftl r 13 mod 2 ^ 64)%N in
  let r := N.lxor r (N.shiftr r 7) in
  N.lxor r (N.shiftl r 17 mod 2 ^ 64)%N.

Definition go_1_18 : sort_release := Quicksort.
Definition go_1_19 : sort_release := Pdqsort xorshift_Next.

(** [float64] addition, on the whole numbers that stand for the balance
    values: the operands as binary64 floats, the kernel's addition of
    them, and the sum read back. *)
Definition Z2float (z : Z) : float := SF2Prim (binary_normalize prec emax z 0 false).

Definition float2Z (x : float) : Z :=
  match Prim2SF x with
  | S754_finite s m e => (if s then -1 else 1) * Z.shiftl (Z.pos m) e
  | _ => 0
  end.

Definition float_add (x y : Z) : Z := float2Z (Z2float x + Z2float y)%float.

Definition MatchFilter (b : Balance_) (f : option BalanceFilter) (skipIds skipExpiry : bool)
  : bool :=
  match f with
  | None => true
  | Some flt =>
      match bfID flt with
      | None => true
      | Some id => bool_decide (ID b = id)
      end
  end.

Definition META_DEFAULT : string := "*default".

(** The default monetary balance: the first balance of the monetary
    bucket named [*default]; a new one if there is none. *)
Definition GetDefaultMoneyBalance (acc : Account) (bs : gmap loc Balance_)
  : result (loc * Account * gmap loc Balance_) :=
  let bChain := default [] (BalanceMap acc !! MONETARY) in
  match List.find (fun p => bool_decide (ID <$> bs !! p = Some META_DEFAULT)) bChain with
  | Some d => Return (d, acc, bs)
  | None =>
      let '(d, bs') := alloc bs (mkBalance "fresh-uuid" META_DEFAULT 0 0 []) in
      Return (d, with_BalanceMap acc (<[MONETARY := bChain ++ [d]]> (BalanceMap acc)), bs')
  end.

Definition empty_world : World := mkWorld ∅ ∅ ∅ ∅ [].


(** The ledger: the first balance of the bucket of the filter's type is
    debited by the value of the filter (after a reset to zero when asked
    for); an empty bucket gets a new balance. *)
Definition debitBalanceAction (acc : Account) (bs : gmap loc Balance_) (act : Action)
    (f : option BalanceFilter) (reset resetIfNegative : bool)
  : result (goerr * Account * gmap loc Balance_ * Z) :=
  let v := GetValue f in
  match default [] (BalanceMap acc !! GetType f) with
  | p :: _ =>
      match bs !! p with
      | None => Panic
      | Some b =>
          let start := if reset || (resetIfNegative && (Value b <? 0)) then 0 else Value b in
          Return (None, acc, <[p := with_Value b (start - v)]> bs, start - v)
      end
  | [] =>
      let '(l, bs') := alloc bs (mkBalance "fresh-uuid" EmptyString (- v) 0 []) in
      Return (None, with_BalanceMap acc (<[GetType f := [l]]> (BalanceMap acc)), bs', - v)
  end.

Definition json_Unmarshal_accountInfo (s : string) : option (string * string) := None.

Definition AccountKey (tenant account : string) : string :=
  (tenant ++ ":" ++ account)%string.

(** Field templates: a source that starts with [^] is a constant, any
    other names a field, taken as it is. *)
Definition ParseRSRFields (s : string) : option (list RSRField) :=
  Some [mkRSRField s EmptyString].

Definition rsr_Parse (fld : RSRField) (src : string) : option string :=
  match rsrId fld with
  | String "^" static => Some static
  | _ => Some src
  end.

Definition NewTAFromAccountKey (id : string) : option (string * string) :=
  match Strings.Split id ":" with
  | [tenant; account] => Some (tenant, account)
  | _ => None
  end.

Definition FormatFloat (v : Z) : string := pretty v.

Definition ParseFloat (s : string) : option Z :=
  List.find (fun v => bool_decide (pretty v = s)) (seqZ (-100) 201).

Definition filter_text (f : BalanceFilter) (fld : string) : string := EmptyString.
(** The filters of the simulation have neither categories nor shared
    groups: both pointers are nil. *)
Definition filter_ptr_text (f : BalanceFilter) (fld : string) : option string := None.

Definition json_Unmarshal_map (s : string) : option (list (string * string)) := None.

Definition cdrFieldKind (key : string) : option fieldKind :=
  if bool_decide (key = COST) then Some KFloat64
  else if bool_decide (key ∈ [ToR; OriginHost; RequestType; Tenant; Account_; Subject;
                              "RunID"; "Source"; "OriginID"; "CGRID"; Category])
       then Some KString
  else if bool_decide (key ∈ ["SetupTime"; "AnswerTime"; "Usage"]) then Some KOther
  else None.

Definition cdrStorage : option (CDR -> bool -> World -> goerr * World) :=
  Some (fun cdr _ w =>
          (None, mkWorld (db_accounts w) (db_acntAPs w) (db_plans w) (db_dests w)
                   (db_cdrs w ++ [cdr]))).

Definition json_Marshal_CDRs (cdrs : list CDR) : string :=
  (pretty (Z.of_nat (length cdrs)) ++ " CDRs")%string.

(** Remote calls: the template is its own rendering; the one request
    the decoder of JSON knows; a registry with one method, whose input
    shape the decoder of parameters cannot fill from text that is not a
    number. *)
Definition rpc_request_text : string :=
  "Address=127.0.0.1:2012 Method=ApierV1.SetBalance Params: Account=1001 Value=abc".

Definition rpc_request : RPCRequest :=
  mkRPCRequest "127.0.0.1:2012" "*json" "ApierV1.SetBalance" 1 false
    [("Account", "1001"); ("Value", "abc")]%string.

Definition template_Parse (s : string) : string + string := inl s.

Definition template_Execute (t : string) (st : State World) (account : option loc)
    (sq : option CDRStatsQueueTriggered) (a : loc) (acs : list loc) : string + string :=
  inl t.

Definition json_Unmarshal_RPCRequest (s : string) : RPCRequest + string :=
  if bool_decide (s = rpc_request_text) then inl rpc_request
  else inr "invalid character"%string.

(** The input shape of the one method: numeric fields by name. *)
Definition GetRpcParams (method : string)
  : RpcParams string (list (string * Z)) + error :=
  if bool_decide (method = "ApierV1.SetBalance")
  then inl (mkRpcParams string (list (string * Z)) None (Some []) (Some []))
  else inr ErrNotFound.

Definition NewRpcClient (req : RPCRequest) (w : World) : string + string :=
  inl (Address req).

Fixpoint decode_fields (params : list (string * string)) (shape : list (string * Z))
  : list (string * Z) * goerr :=
  match params with
  | [] => (shape, None)
  | (k, v) :: rest =>
      match ParseFloat v with
      | Some n => decode_fields rest (shape ++ [(k, n)])
      | None => (shape, Some (ErrExternal "cannot parse as a number"))
      end
  end.

Definition mapstructure_Decode (params : list (string * string))
    (output : option (list (string * Z))) : option (list (string * Z)) * goerr :=
  match output with
  | None => (None, Some (ErrExternal "result must be a pointer"))
  | Some shape => let '(shape', err) := decode_fields params shape in (Some shape', err)
  end.

Definition client_Call (client method : string) (input output : option (list (string * Z)))
    (w : World) : goerr * World := (None, w).
End Sim.

(** ** The handlers on concrete states *)

Module Examples.

Import Sim.

Definition acnt (bm : gmap string (list loc)) : Account :=
  mkAccount "cgrates.org:1001" bm false false.

Definition act_of (typ : string) (b : option loc) : Action :=
  mkAction "ACT" typ EmptyString EmptyString EmptyString 10%float b 0.

Definition filter_id (id : option string) : BalanceFilter :=
  mkBalanceFilter None id (Some MONETARY) None None None None.

(** An account with three monetary balances b1, b2, b3, and a
    remove_balance action whose filter names b1. *)
Definition st_remove : State World :=
  mkState
    {[ 1%positive := acnt {[ MONETARY := [1; 2; 3]%positive ]} ]}
    (<[ 1%positive := mkBalance "u1" "b1" 10 0 [] ]>
       (<[ 2%positive := mkBalance "u2" "b2" 20 0 [] ]>
          {[ 3%positive := mkBalance "u3" "b3" 30 0 [] ]}))
    {[ 1%positive := act_of REMOVE_BALANCE (Some 1%positive) ]}
    {[ 1%positive := filter_id (Some "b1") ]}
    [] empty_world.

(** The first balance goes, the last one takes its slot: the order of
    the bucket is not preserved. *)
Example removeBalance_order :
  exists st', removeBalanceAction World MatchFilter (Some 1%positive) None 1%positive [] st_remove
                = Return (None, st')
    /\ (accounts st' !! 1%positive) ≫= (fun acc => BalanceMap acc !! MONETARY)
       = Some [3; 2]%positive.
Proof. eexists. split; [vm_compute; reflexivity|]. vm_compute. reflexivity. Qed.

Lemma removeBalanceAction_witness :
  exists bChain',
    removeBalanceAction World MatchFilter (Some 1%positive) None 1%positive [] st_remove
      = ok World
          (store_account World st_remove 1%positive
             (with_BalanceMap (acnt {[ MONETARY := [1; 2; 3]%positive ]})
                (<[MONETARY := bChain']> {[ MONETARY := [1; 2; 3]%positive ]})))
    /\ bChain' ≡ₚ [2; 3]%positive.
Proof.
  destruct (removeBalanceAction_spec World MatchFilter st_remove 1%positive 1%positive
              None [] (acnt {[ MONETARY := [1; 2; 3]%positive ]})
              (act_of REMOVE_BALANCE (Some 1%positive))
              (Some (filter_id (Some "b1")))
              eq_refl eq_refl eq_refl) as [_ H].
  destruct (H [1; 2; 3]%positive eq_refl) as [_ H2].
  { repeat constructor; vm_compute; eauto. }
  destruct (H2 eq_refl) as (bChain' & Hrun & Hperm & _).
  exists bChain'. split; [exact Hrun|exact Hperm].
Defined.


(** An account whose monetary bucket holds the default balance, a
    balance with credit and a balance in debt; the action carries no
    filter, which matches every balance. *)
Definition st_transfer : State World :=
  mkState
    {[ 1%positive := acnt {[ MONETARY := [1; 2; 3]%positive ]} ]}
    (<[ 1%positive := mkBalance "u1" META_DEFAULT 10 0 [] ]>
       (<[ 2%positive := mkBalance "u2" "b2" 5 0 [] ]>
          {[ 3%positive := mkBalance "u3" "b3" (-2) 0 [] ]}))
    {[ 1%positive := act_of TRANSFER_MONETARY_DEFAULT None ]}
    ∅ [] empty_world.

Lemma transferMonetaryDefaultAction_witness :
  exists bs',
    transferMonetaryDefaultAction World MatchFilter GetDefaultMoneyBalance float_add
      (Some 1%positive) None 1%positive [] st_transfer
      = ok World (set_balances World
                    (store_account World st_transfer 1%positive
                       (acnt {[ MONETARY := [1; 2; 3]%positive ]})) bs')
    /\ bs' !! 1%positive = Some (mkBalance "u1" META_DEFAULT 15 0 [])
    /\ bs' !! 2%positive = Some (mkBalance "u2" "b2" 0 0 [])
    /\ bs' !! 3%positive = Some (mkBalance "u3" "b3" (-2) 0 []).
Proof.
  destruct (transferMonetaryDefaultAction_spec World MatchFilter GetDefaultMoneyBalance float_add
              st_transfer 1%positive 1%positive 1%positive None []
              (acnt {[ MONETARY := [1; 2; 3]%positive ]})
              (acnt {[ MONETARY := [1; 2; 3]%positive ]})
              (act_of TRANSFER_MONETARY_DEFAULT None) None
              (balances st_transfer) (mkBalance "u1" META_DEFAULT 10 0 [])
              [1; 2; 3]%positive
              eq_refl ltac:(vm_compute; eauto) eq_refl eq_refl eq_refl eq_refl eq_refl)
    as (bs' & Hrun & Hd & Hoth).
  { repeat constructor; vm_compute; eauto. }
  { repeat constructor; vm_compute; intros H;
      repeat (apply elem_of_cons in H as [H|H]; [discriminate|]);
      apply elem_of_nil in H; exact H. }
  exists bs'. split; [exact Hrun|]. split; [exact Hd|]. split.
  - exact (Hoth 2%positive _ ltac:(discriminate) eq_refl).
  - exact (Hoth 3%positive _ ltac:(discriminate) eq_refl).
Defined.

(** Two balances named [*default]: the first is the default balance,
    the second is another balance with its own [Uuid] and a credit of 5. *)
Definition st_same_id : State World :=
  mkState
    {[ 1%positive := acnt {[ MONETARY := [1; 2]%positive ]} ]}
    (<[ 1%positive := mkBalance "u1" META_DEFAULT 10 0 [] ]>
       {[ 2%positive := mkBalance "u2" META_DEFAULT 5 0 [] ]})
    {[ 1%positive := act_of TRANSFER_MONETARY_DEFAULT None ]}
    ∅ [] empty_world.

(** The claim as stated fails at [st_same_id]: the balance behind
    pointer 2 is not the default balance (pointer 1), it matches the
    filter and has a positive value, yet its value is not moved. *)
Lemma transferMonetaryDefault_skips_same_id :
  GetDefaultMoneyBalance (acnt {[ MONETARY := [1; 2]%positive ]}) (balances st_same_id)
    = Return (1%positive, acnt {[ MONETARY := [1; 2]%positive ]}, balances st_same_id)
  /\ ~ (forall (p : loc) (b : Balance_) (st' : State World),
          p ∈ [1; 2]%positive -> p <> 1%positive ->
          balances st_same_id !! p = Some b ->
          MatchFilter b None false false = true ->
          0 < Value b ->
          transferMonetaryDefaultAction World MatchFilter GetDefaultMoneyBalance float_add
            (Some 1%positive) None 1%positive [] st_same_id = Return (None, st') ->
          Value <$> balances st' !! p = Some 0).
Proof.
  split; [reflexivity|]. intros H.
  specialize (H 2%positive (mkBalance "u2" META_DEFAULT 5 0 []) st_same_id).
  assert (Value <$> balances st_same_id !! 2%positive = Some 0) as Habs.
  { apply H; try reflexivity; [right; left | discriminate]. }
  vm_compute in Habs. discriminate.
Qed.

(** The default balance holds 2^53 and another balance a credit of 1:
    their exact sum is not a [float64]. *)
Definition st_large : State World :=
  mkState
    {[ 1%positive := acnt {[ MONETARY := [1; 2]%positive ]} ]}
    (<[ 1%positive := mkBalance "u1" META_DEFAULT 9007199254740992 0 [] ]>
       {[ 2%positive := mkBalance "u2" "b2" 1 0 [] ]})
    {[ 1%positive := act_of TRANSFER_MONETARY_DEFAULT None ]}
    ∅ [] empty_world.

(** The credit is taken off its balance, and the rounded sum leaves the
    default balance where it was. *)
Example transferMonetaryDefault_rounds :
  exists st',
    transferMonetaryDefaultAction World MatchFilter GetDefaultMoneyBalance float_add
      (Some 1%positive) None 1%positive [] st_large = Return (None, st')
    /\ Value <$> balances st' !! 1%positive = Some 9007199254740992
    /\ Value <$> balances st' !! 2%positive = Some 0.
Proof. eexists. split; [vm_compute; reflexivity|]. split; reflexivity. Qed.

(** The end-to-end scenario: a monetary balance of 10 and a topup of 5. *)
Definition topup_filter : BalanceFilter :=
  mkBalanceFilter None None (Some MONETARY) (Some 5) None None None.

Definition topup_act : Action := act_of TOPUP (Some 1%positive).

Definition st_topup : State World :=
  mkState
    {[ 1%positive := acnt {[ MONETARY := [1%positive] ]} ]}
    {[ 1%positive := mkBalance "u1" "b1" 10 0 [] ]}
    {[ 1%positive := topup_act ]}
    {[ 1%positive := topup_filter ]}
    [] empty_world.


(** A second removal of an account: the store has neither the account
    nor its index of action plans. *)
Definition st_removed : State World :=
  mkState {[ 1%positive := acnt ∅ ]} ∅ {[ 1%positive := act_of REMOVE_ACCOUNT None ]} ∅
    [] empty_world.

Lemma removeAccountAction_index_not_found_witness :
  GetAccountActionPlans World dm "cgrates.org:1001" false empty_world
    = ([], Some ErrNotFound)
  /\ removeAccountAction World dm json_Unmarshal_accountInfo AccountKey
       (Some 1%positive) None 1%positive [] st_removed
     = Return (None, st_removed).
Proof.
  split; [reflexivity|].
  destruct (removeAccountAction_index_not_found World dm json_Unmarshal_accountInfo
              AccountKey (Some 1%positive) None 1%positive [] st_removed
              "cgrates.org:1001" [] empty_world
              eq_refl ltac:(discriminate) eq_refl eq_refl) as [_ H].
  exact (H empty_world empty_world empty_world empty_world
           eq_refl eq_refl eq_refl eq_refl).
Defined.

(** The account of a plan is removed twice in a row: both calls return
    nil, and the plan has lost its member after the first. *)
Definition st_member : State World :=
  mkState {[ 1%positive := acnt ∅ ]} ∅ {[ 1%positive := act_of REMOVE_ACCOUNT None ]} ∅ []
    (mkWorld {[ "cgrates.org:1001"%string ]}
       {[ "cgrates.org:1001"%string := ["AP1"%string] ]}
       {[ "AP1"%string := mkActionPlan "AP1" {[ "cgrates.org:1001"%string ]} ]}
       ∅ []).

Example removeAccountAction_twice :
  exists st1 st2,
    removeAccountAction World dm json_Unmarshal_accountInfo AccountKey
      (Some 1%positive) None 1%positive [] st_member = Return (None, st1)
    /\ (AccountIDs <$> db_plans (world st1) !! "AP1"%string) = Some ∅
    /\ removeAccountAction World dm json_Unmarshal_accountInfo AccountKey
         (Some 1%positive) None 1%positive [] st1 = Return (None, st2)
    /\ world st2 = world st1.
Proof.
  eexists _, _. split; [vm_compute; reflexivity|].
  split; [vm_compute; reflexivity|]. split; vm_compute; reflexivity.
Qed.

(** C5 (the code at the failing input): the parameters of the request
    do not decode into the input shape ([Value] is not a number), and
    [cgrRPCAction] calls the remote method all the same and returns its
    result, nil. *)
Definition st_rpc : State World :=
  mkState ∅ ∅
    {[ 1%positive :=
         mkAction "ACT" CGR_RPC rpc_request_text EmptyString EmptyString 10%float None 0 ]}
    ∅ [] empty_world.

Lemma cgrRPCAction_calls_after_failed_decode :
  (mapstructure_Decode (Params rpc_request) (Some [])).2
    = Some (ErrExternal "cannot parse as a number")
  /\ cgrRPCAction World string string (list (string * Z))
       template_Parse template_Execute json_Unmarshal_RPCRequest GetRpcParams
       NewRpcClient mapstructure_Decode client_Call None None 1%positive [] st_rpc
     = Return (None, emit World (EvRpcCall false "ApierV1.SetBalance") st_rpc).
Proof. split; vm_compute; reflexivity. Qed.

(** The siblings of a cdrlog action: a debit of 5, a log action, a
    topup without a balance and the cdrlog action itself. *)
Definition st_cdrlog : State World :=
  mkState
    {[ 1%positive := acnt ∅ ]} ∅
    (<[ 1%positive := with_balanceValue (act_of DEBIT (Some 1%positive)) 5 ]>
       (<[ 2%positive := act_of LOG None ]>
          (<[ 3%positive := act_of TOPUP None ]>
             {[ 4%positive := act_of CDRLOG None ]})))
    {[ 1%positive := topup_filter ]}
    [] empty_world.

Definition sim_template : gmap string (list RSRField) :=
  list_to_map (defaultTemplate ParseRSRFields).

Definition sim_cdr_of : State World -> option loc -> list (string * list RSRField) ->
    Action -> result CDR :=
  cdr_of World rsr_Parse NewTAFromAccountKey FormatFloat ParseFloat filter_text
    filter_ptr_text cdrFieldKind.

Lemma cdrLogAction_witness :
  exists cdrs st',
    cdrLog_run World ParseRSRFields rsr_Parse NewTAFromAccountKey FormatFloat ParseFloat
      filter_text filter_ptr_text json_Unmarshal_map cdrFieldKind cdrStorage json_Marshal_CDRs
      (Some 1%positive) 4%positive [1; 2; 3; 4]%positive st_cdrlog
      = Return (None, cdrs, st')
    /\ length cdrs = 1%nat
    /\ ExpirationString <$> actions st' !! 4%positive = Some "1 CDRs"%string.
Proof.
  destruct (cdrLogAction_one_cdr_per_logged_sibling World ParseRSRFields rsr_Parse
              NewTAFromAccountKey FormatFloat ParseFloat filter_text filter_ptr_text
              json_Unmarshal_map
              cdrFieldKind cdrStorage json_Marshal_CDRs
              (Some 1%positive) None 4%positive [1; 2; 3; 4]%positive st_cdrlog
              (act_of CDRLOG None) sim_template eq_refl eq_refl)
    as (cdrs & st' & Hrun & _ & _ & Hlen & Hexp).
  { intros cdr w. reflexivity. }
  { repeat constructor.
    - eexists. split; [reflexivity|]. intros _.
      eexists. vm_compute. reflexivity.
    - eexists. split; [reflexivity|]. intros H. discriminate H.
    - eexists. split; [reflexivity|]. intros H. discriminate H.
    - eexists. split; [reflexivity|]. intros H. discriminate H. }
  exists cdrs, st'. split; [exact Hrun|].
  assert (Hl : length cdrs = 1%nat) by exact Hlen.
  split; [exact Hl|]. rewrite Hexp. unfold json_Marshal_CDRs. rewrite Hl. reflexivity.
Defined.

(** The CDR of the debit sibling: its cost is the value of the action's
    balance, its run id the action type. *)
Example cdrLogAction_debit_cdr :
  exists cdr st',
    cdrLog_run World ParseRSRFields rsr_Parse NewTAFromAccountKey FormatFloat ParseFloat
      filter_text filter_ptr_text json_Unmarshal_map cdrFieldKind cdrStorage json_Marshal_CDRs
      (Some 1%positive) 4%positive [1; 2; 3; 4]%positive st_cdrlog
      = Return (None, [cdr], st')
    /\ cdrFloats cdr !! COST = Some 5
    /\ cdrStrings cdr !! "RunID"%string = Some DEBIT
    /\ db_cdrs (world st') = [cdr].
Proof.
  eexists _, _. split; [vm_compute; reflexivity|].
  split; [vm_compute; reflexivity|]. split; vm_compute; reflexivity.
Qed.

(** Two actions: one whose filter is explicitly not disabled and has no
    blocker flag, one without a filter. *)
Definition flagged_filter : BalanceFilter :=
  mkBalanceFilter None (Some "b1"%string) (Some MONETARY) (Some 5) None (Some false) None.

Definition st_clone : State World :=
  mkState ∅ ∅
    (<[ 1%positive := act_of TOPUP (Some 1%positive) ]>
       {[ 2%positive := act_of LOG None ]})
    {[ 1%positive := flagged_filter ]}
    [] empty_world.

Lemma Actions_Clone_deep_witness :
  exists cln st',
    Actions_Clone World [1; 2]%positive st_clone = Return (Some cln, None, st')
    /\ Forall2 (copied World cloned_filter st_clone st') [1; 2]%positive cln
    /\ bfDisabled (cloned_filter flagged_filter) = Some false
    /\ bfBlocker (cloned_filter flagged_filter) = None.
Proof.
  destruct (Actions_Clone_deep World [1; 2]%positive st_clone)
    as (cln & st' & Hrun & Hcopied & _).
  { repeat constructor.
    - eexists. split; [reflexivity|]. intros p [= <-]. eexists. reflexivity.
    - eexists. split; [reflexivity|]. intros p H. discriminate H. }
  exists cln, st'. split; [exact Hrun|]. split; [exact Hcopied|]. split; reflexivity.
Defined.

(** What the gob copy alone would give, and what [Clone] gives: the
    clone of action 1 has its own filter cell, with [Disabled] present
    and false. *)
Example Actions_Clone_flags :
  bfDisabled (wire_filter flagged_filter) = None
  /\ exists cln st' c cact q g,
       Actions_Clone World [1; 2]%positive st_clone = Return (Some cln, None, st')
       /\ cln !! 0%nat = Some c /\ c <> 1%positive
       /\ actions st' !! c = Some cact /\ Balance cact = Some q /\ q <> 1%positive
       /\ filters st' !! q = Some g /\ bfDisabled g = Some false
       /\ filters st' !! 1%positive = Some flagged_filter.
Proof.
  split; [reflexivity|]. eexists _, _, _, _, _, _.
  split; [vm_compute; reflexivity|]. split; [reflexivity|].
  split; [discriminate|]. split; [vm_compute; reflexivity|].
  split; [reflexivity|]. split; [discriminate|].
  split; [vm_compute; reflexivity|]. split; reflexivity.
Qed.

(** *** Actions.Sort *)

Definition weighted (id : string) (w : float) : Action :=
  mkAction id LOG EmptyString EmptyString EmptyString w None 0.

(** Seven actions [a] to [g] with the weights 1, 1, 0, 0, 0, 0, 2. *)
Definition st_sort : State World :=
  mkState ∅ ∅
    (<[ 1%positive := weighted "a" 1 ]>
    (<[ 2%positive := weighted "b" 1 ]>
    (<[ 3%positive := weighted "c" 0 ]>
    (<[ 4%positive := weighted "d" 0 ]>
    (<[ 5%positive := weighted "e" 0 ]>
    (<[ 6%positive := weighted "f" 0 ]>
       {[ 7%positive := weighted "g" 2 ]}))))))
    ∅ [] empty_world.

Definition apl_sort : list positive := [1; 2; 3; 4; 5; 6; 7]%positive.

(** Thirteen actions [a] to [m]: twelve of weight 0 and then one of
    weight 1. *)
Definition st_sort13 : State World :=
  mkState ∅ ∅
    (<[ 1%positive := weighted "a" 0 ]>
    (<[ 2%positive := weighted "b" 0 ]>
    (<[ 3%positive := weighted "c" 0 ]>
    (<[ 4%positive := weighted "d" 0 ]>
    (<[ 5%positive := weighted "e" 0 ]>
    (<[ 6%positive := weighted "f" 0 ]>
    (<[ 7%positive := weighted "g" 0 ]>
    (<[ 8%positive := weighted "h" 0 ]>
    (<[ 9%positive := weighted "i" 0 ]>
    (<[ 10%positive := weighted "j" 0 ]>
    (<[ 11%positive := weighted "k" 0 ]>
    (<[ 12%positive := weighted "l" 0 ]>
       {[ 13%positive := weighted "m" 1 ]}))))))))))))
    ∅ [] empty_world.

Definition apl_sort13 : list positive :=
  [1; 2; 3; 4; 5; 6; 7; 8; 9; 10; 11; 12; 13]%positive.

Ltac comparable_ptrs :=
  repeat (constructor; [eexists; split; reflexivity|]); constructor.

Lemma Actions_Sort_sorted_witness :
  exists apl',
    Actions_Sort World go_1_19 apl_sort13 st_sort13 = Return apl'
    /\ apl_sort13 ≡ₚ apl'
    /\ forall (i j : nat) (p q : positive) (x y : Action),
         (i <= j)%nat -> apl' !! i = Some p -> apl' !! j = Some q ->
         actions st_sort13 !! p = Some x -> actions st_sort13 !! q = Some y ->
         (Weight y <=? Weight x)%float = true.
Proof.
  apply (Actions_Sort_sorted World go_1_19 apl_sort13 st_sort13).
  unfold apl_sort13. comparable_ptrs.
Defined.

(** The slices [Sort] leaves.  Seven actions are sorted by insertion
    alone since Go 1.19, and [a] stays before [b]; before, the pass with
    gap 6 swaps [g] with [a], and the insertion that follows moves [g] to
    the front and [a] down to the place after [b].  Of the thirteen
    actions both releases take [g] for the pivot and put it in the
    place of [a], and one of [a] and [b] ends up last. *)
Example Actions_Sort_run :
  Actions_Sort World go_1_18 apl_sort st_sort = Return [7; 2; 1; 3; 4; 5; 6]%positive
  /\ Actions_Sort World go_1_19 apl_sort st_sort = Return [7; 1; 2; 3; 4; 5; 6]%positive
  /\ Actions_Sort World go_1_18 apl_sort13 st_sort13
     = Return [13; 7; 3; 4; 5; 6; 2; 8; 9; 10; 11; 12; 1]%positive
  /\ Actions_Sort World go_1_19 apl_sort13 st_sort13
     = Return [13; 7; 3; 4; 5; 6; 1; 8; 9; 10; 11; 12; 2]%positive.
Proof. repeat split; vm_compute; reflexivity. Qed.

(** The claim as stated fails at [st_sort13], under either release: [a]
    and [c] have the same weight and [a] comes first, but [Sort] leaves
    [c] before [a]. *)
Lemma Actions_Sort_not_stable :
  (exists apl',
     Actions_Sort World go_1_18 apl_sort13 st_sort13 = Return apl'
     /\ ~ keeps_equal_weights World st_sort13 apl_sort13 apl')
  /\ (exists apl',
        Actions_Sort World go_1_19 apl_sort13 st_sort13 = Return apl'
        /\ ~ keeps_equal_weights World st_sort13 apl_sort13 apl').
Proof.
  split.
  - exists [13; 7; 3; 4; 5; 6; 2; 8; 9; 10; 11; 12; 1]%positive.
    split; [vm_compute; reflexivity|]. intros Hstable.
    destruct (Hstable 0%nat 2%nat 1%positive 3%positive (weighted "a" 0) (weighted "c" 0))
      as (i' & j' & Hlt & Hi' & Hj'); try reflexivity; [lia|].
    assert (Ha : i' = 12%nat).
    { do 13 (destruct i' as [|i']; [first [discriminate Hi'|reflexivity]|]).
      simpl in Hi'. discriminate Hi'. }
    assert (Hc : j' = 2%nat).
    { do 13 (destruct j' as [|j']; [first [discriminate Hj'|reflexivity]|]).
      simpl in Hj'. discriminate Hj'. }
    lia.
  - exists [13; 7; 3; 4; 5; 6; 1; 8; 9; 10; 11; 12; 2]%positive.
    split; [vm_compute; reflexivity|]. intros Hstable.
    destruct (Hstable 0%nat 2%nat 1%positive 3%positive (weighted "a" 0) (weighted "c" 0))
      as (i' & j' & Hlt & Hi' & Hj'); try reflexivity; [lia|].
    assert (Ha : i' = 6%nat).
    { do 13 (destruct i' as [|i']; [first [discriminate Hi'|reflexivity]|]).
      simpl in Hi'. discriminate Hi'. }
    assert (Hc : j' = 2%nat).
    { do 13 (destruct j' as [|j']; [first [discriminate Hj'|reflexivity]|]).
      simpl in Hj'. discriminate Hj'. }
    lia.
Qed.

(** Four actions with the weights 1, 2, NaN, 3. *)
Definition st_nan : State World :=
  mkState ∅ ∅
    (<[ 1%positive := weighted "a" 1 ]>
    (<[ 2%positive := weighted "b" 2 ]>
    (<[ 3%positive := weighted "c" nan ]>
       {[ 4%positive := weighted "d" 3 ]})))
    ∅ [] empty_world.

(** No weight is less than NaN and NaN is less than none: the insertion
    sort moves [b] before [a] and then nothing past [c], and the heaviest
    action stays last. *)
Example Actions_Sort_nan :
  Actions_Sort World go_1_18 [1; 2; 3; 4]%positive st_nan = Return [2; 1; 3; 4]%positive
  /\ Actions_Sort World go_1_19 [1; 2; 3; 4]%positive st_nan = Return [2; 1; 3; 4]%positive
  /\ (Weight (weighted "d" 3) <=? Weight (weighted "a" 1))%float = false.
Proof. repeat split; vm_compute; reflexivity. Qed.

(** *** Further properties, on concrete states *)

Ltac distinct_ptrs :=
  repeat constructor; vm_compute; intros H;
  repeat (apply elem_of_cons in H as [H|H]; [discriminate|]);
  apply elem_of_nil in H; exact H.

Lemma disable_enable_round_trip_witness :
  disableAccountAction World (Some 1%positive) None 1%positive [] st_remove
    = ok World (store_account World st_remove 1%positive
                  (with_Disabled (acnt {[ MONETARY := [1; 2; 3]%positive ]}) true))
  /\ enableAccountAction World (Some 1%positive) None 1%positive []
       (store_account World st_remove 1%positive
          (with_Disabled (acnt {[ MONETARY := [1; 2; 3]%positive ]}) true))
     = ok World st_remove.
Proof.
  exact (disable_enable_round_trip World 1%positive None None 1%positive 1%positive [] []
           st_remove (acnt {[ MONETARY := [1; 2; 3]%positive ]}) eq_refl eq_refl).
Defined.

Lemma genericMakeNegative_negated_magnitude_witness :
  exists f',
    genericMakeNegative World 1%positive st_topup
      = Return (set_filters World st_topup (<[1%positive := f']> (filters st_topup)))
    /\ GetValue (Some f') = -5.
Proof.
  destruct (genericMakeNegative_negated_magnitude World 1%positive 1%positive st_topup
              topup_act topup_filter eq_refl eq_refl eq_refl)
    as (f' & Hrun & Hval & _).
  exists f'. split; [exact Hrun|exact Hval].
Defined.

Lemma Actions_Less_strict_weak_order_witness :
  Actions_Less World st_sort apl_sort 0 0 = Return false
  /\ exists b, Actions_Less World st_sort apl_sort 6 0 = Return b.
Proof.
  destruct (Actions_Less_strict_weak_order World st_sort apl_sort 0 6 0)
    as (bij & bji & _ & _ & _ & Hji & _ & _ & Hii & _).
  - unfold apl_sort. comparable_ptrs.
  - vm_compute. lia.
  - vm_compute. lia.
  - vm_compute. lia.
  - split; [exact Hii|]. exists bji. exact Hji.
Defined.

Lemma Actions_Swap_involutive_witness :
  exists apl',
    Actions_Swap apl_sort 0 6 = Return apl'
    /\ Actions_Swap apl' 0 6 = Return apl_sort.
Proof.
  destruct (Actions_Swap_involutive apl_sort 0 6) as (apl' & H1 & H2 & _).
  - vm_compute. lia.
  - vm_compute. lia.
  - exists apl'. split; assumption.
Defined.

Lemma resetAccountAction_spec_witness :
  exists bm bs,
    resetAccountAction World (Some 1%positive) None 1%positive [] st_remove
      = ok World
          (emit World (EvAccountCall "ResetActionTriggers" 1%positive)
             (emit World (EvAccountCall "InitCounters" 1%positive)
                (set_balances World
                   (store_account World st_remove 1%positive
                      (with_BalanceMap (acnt {[ MONETARY := [1; 2; 3]%positive ]}) bm)) bs)))
    /\ exists l, bm !! MONETARY = Some [l] /\ bs !! l = Some zero_Balance.
Proof.
  destruct (resetAccountAction_spec World 1%positive None 1%positive [] st_remove
              (acnt {[ MONETARY := [1; 2; 3]%positive ]}) eq_refl)
    as (bm & bs & Hrun & _ & _ & Hkeys & _).
  exists bm, bs. split; [exact Hrun|].
  destruct (Hkeys MONETARY) as (l & Hl & Hz & _); [eexists; reflexivity|].
  exists l. split; assumption.
Defined.

(** A filter that names the balance [b1] and carries an expiry. *)
Definition expiry_filter : BalanceFilter :=
  mkBalanceFilter None (Some "b1"%string) (Some MONETARY) None (Some 1700000000) None None.

Definition st_expiry : State World :=
  mkState
    {[ 1%positive := acnt {[ MONETARY := [1; 2; 3]%positive ]} ]}
    (<[ 1%positive := mkBalance "u1" "b1" 10 0 [] ]>
       (<[ 2%positive := mkBalance "u2" "b2" 20 0 [] ]>
          {[ 3%positive := mkBalance "u3" "b3" 30 0 [] ]}))
    {[ 1%positive := act_of SetExpiry (Some 1%positive) ]}
    {[ 1%positive := expiry_filter ]}
    [] empty_world.

Lemma setExpiryAction_spec_witness :
  exists bs',
    setExpiryAction World MatchFilter (Some 1%positive) None 1%positive [] st_expiry
      = ok World (set_balances World st_expiry bs')
    /\ bs' !! 1%positive = Some (mkBalance "u1" "b1" 10 1700000000 [])
    /\ bs' !! 2%positive = Some (mkBalance "u2" "b2" 20 0 []).
Proof.
  destruct (setExpiryAction_spec World MatchFilter 1%positive 1%positive None [] st_expiry
              (acnt {[ MONETARY := [1; 2; 3]%positive ]})
              (act_of SetExpiry (Some 1%positive)) (Some expiry_filter)
              eq_refl eq_refl eq_refl)
    as (bs' & Hrun & Hspec).
  { change (Forall (fun p => is_Some (balances st_expiry !! p)) [1; 2; 3]%positive).
    repeat constructor; vm_compute; eauto. }
  { change (NoDup [1; 2; 3]%positive). distinct_ptrs. }
  exists bs'. split; [exact Hrun|]. split.
  - rewrite (Hspec 1%positive). reflexivity.
  - rewrite (Hspec 2%positive). reflexivity.
Defined.

Lemma transfer_loop_idempotent_witness :
  exists st1,
    transfer_loop World MatchFilter float_add 1%positive 1%positive [1; 2; 3]%positive st_transfer
      = Return st1
    /\ transfer_loop World MatchFilter float_add 1%positive 1%positive [1; 2; 3]%positive st1
      = Return st1.
Proof.
  apply (transfer_loop_idempotent World MatchFilter float_add 1%positive 1%positive
           (act_of TRANSFER_MONETARY_DEFAULT None) None [1; 2; 3]%positive st_transfer
           (mkBalance "u1" META_DEFAULT 10 0 []) eq_refl eq_refl eq_refl).
  - repeat constructor; vm_compute; eauto.
  - distinct_ptrs.
Defined.

(** A mail action with two recipients and a further parameter. *)
Definition st_mail : State World :=
  mkState ∅ ∅
    {[ 1%positive :=
         mkAction "MAIL" MAIL_ASYNC "ops@example.com;noc@example.com,urgent"
           EmptyString EmptyString 10 None 0 ]}
    ∅ [] empty_world.

Definition sim_json_Marshal (st : State World) (ub : option loc)
    (sq : option CDRStatsQueueTriggered) : string + string := inl "{}"%string.

Lemma mailAsync_sends_witness :
  mailAsync World sim_json_Marshal "," ";" None None 1%positive [] st_mail
  = ok World
      (emit World
         (EvSendMail ["ops@example.com"; "noc@example.com"]%string
            "ops@example.com, noc@example.com") st_mail).
Proof.
  destruct (mailAsync_sends World sim_json_Marshal "," ";" None None 1%positive [] st_mail
              (mkAction "MAIL" MAIL_ASYNC "ops@example.com;noc@example.com,urgent"
                 EmptyString EmptyString 10 None 0) eq_refl)
    as (p0 & rest & toAddrs & Hparams & -> & _ & Hrun).
  { intros msg H. contradiction. }
  injection Hparams as <- _. exact Hrun.
Defined.

Lemma setddestinations_search_witness :
  setddestinations World dm (Some 1%positive) None 1%positive [] st_remove
    = fail World ErrNotFound st_remove
  /\ setddestinations World dm (Some 1%positive) (Some (mkSq "q" ["+49"]%string))
       1%positive [] st_remove
     = fail World ErrNotFound st_remove.
Proof.
  assert (Hall : forall sq,
             setddestinations World dm (Some 1%positive) sq 1%positive [] st_remove
             = fail World ErrNotFound st_remove); [|split; apply Hall].
  destruct (setddestinations_search World dm 1%positive 1%positive [] st_remove
              (acnt {[ MONETARY := [1; 2; 3]%positive ]}) eq_refl) as [Hnone _].
  { intros k bchain Hk. unfold acnt in Hk. cbn [BalanceMap] in Hk.
    apply lookup_singleton_Some in Hk as [_ <-].
    repeat constructor; vm_compute; eauto. }
  apply Hnone. intros d (k & bchain & p & b & Hk & Hp & Hb & Hd & _).
  unfold acnt in Hk. cbn [BalanceMap] in Hk.
  apply lookup_singleton_Some in Hk as [_ <-].
  repeat (apply elem_of_cons in Hp as [->|Hp];
          [vm_compute in Hb; injection Hb as <-; apply elem_of_nil in Hd; exact Hd|]).
  apply elem_of_nil in Hp. exact Hp.
Defined.

Lemma parseTemplateValue_spec_witness :
  parseTemplateValue World rsr_Parse NewTAFromAccountKey FormatFloat filter_text
    filter_ptr_text st_cdrlog
    [mkRSRField "^call-" EmptyString; mkRSRField "ActionType" EmptyString]
    (Some 1%positive) (with_balanceValue (act_of DEBIT (Some 1%positive)) 5)
  = Return "call-*debit"%string.
Proof.
  rewrite (parseTemplateValue_spec World rsr_Parse NewTAFromAccountKey FormatFloat
             filter_text filter_ptr_text
             st_cdrlog
             [mkRSRField "^call-" EmptyString; mkRSRField "ActionType" EmptyString]
             (Some 1%positive) (with_balanceValue (act_of DEBIT (Some 1%positive)) 5)
             1%positive topup_filter).
  - reflexivity.
  - intros u [= <-]. eexists. reflexivity.
  - reflexivity.
  - reflexivity.
Defined.

(** The same action under a template that reads the categories: the
    filter has none, and the call panics although the account is valid. *)
Example parseTemplateValue_nil_categories :
  parseTemplateValue World rsr_Parse NewTAFromAccountKey FormatFloat filter_text
    filter_ptr_text st_cdrlog
    [mkRSRField "^call-" EmptyString; mkRSRField Category EmptyString]
    (Some 1%positive) (with_balanceValue (act_of DEBIT (Some 1%positive)) 5)
  = Panic.
Proof. vm_compute. reflexivity. Qed.

Lemma cdrLog_template_defaults_witness :
  is_Some (sim_template !! COST) /\ is_Some (sim_template !! Subject).
Proof.
  destruct (cdrLog_template_defaults ParseRSRFields json_Unmarshal_map
              (act_of CDRLOG None) sim_template eq_refl) as [Hkeys _].
  split; apply Hkeys; vm_compute; set_solver.
Defined.

(** A CDR store that is down. *)
Definition refusing_store (cdr : CDR) (x : bool) (w : World) : goerr * World :=
  (Some (ErrExternal "store down"), w).

Lemma cdrLogAction_store_error_witness :
  cdrLogAction World ParseRSRFields rsr_Parse NewTAFromAccountKey FormatFloat ParseFloat
    filter_text filter_ptr_text json_Unmarshal_map cdrFieldKind (Some refusing_store)
    json_Marshal_CDRs
    (Some 1%positive) None 4%positive ([2; 3]%positive ++ 1%positive :: [4%positive])
    st_cdrlog
  = Return (Some (ErrExternal "store down"), set_world World st_cdrlog empty_world).
Proof.
  refine (proj1 (cdrLogAction_store_error World ParseRSRFields rsr_Parse NewTAFromAccountKey
                   FormatFloat ParseFloat filter_text filter_ptr_text json_Unmarshal_map
                   cdrFieldKind
                   (Some refusing_store) json_Marshal_CDRs
                   (Some 1%positive) None 4%positive 1%positive [2; 3]%positive [4%positive]
                   st_cdrlog (act_of CDRLOG None)
                   (with_balanceValue (act_of DEBIT (Some 1%positive)) 5)
                   sim_template _ refusing_store (ErrExternal "store down") empty_world
                   eq_refl eq_refl _ eq_refl eq_refl _ eq_refl eq_refl)).
  - repeat constructor; eexists; (split; [reflexivity|reflexivity]).
  - vm_compute. reflexivity.
Defined.

Lemma Actions_Sort_stable_small_witness :
  exists apl',
    Actions_Sort World go_1_19 [1; 2; 3; 4; 5; 6]%positive st_sort = Return apl'
    /\ keeps_equal_weights World st_sort [1; 2; 3; 4; 5; 6]%positive apl'.
Proof.
  destruct (Actions_Sort_stable_small World go_1_19 [1; 2; 3; 4; 5; 6]%positive st_sort)
    as (apl' & Hrun & _ & Hstable).
  - repeat (constructor; [eexists; reflexivity|]). constructor.
  - vm_compute. lia.
  - exists apl'. split; assumption.
Defined.

Lemma Action_Clone_spec_witness :
  exists st',
    Action_Clone World 1%positive st_clone = (3%positive, st')
    /\ (filters st' !! 2%positive) ≫= bfDisabled = None
    /\ (filters st' !! 1%positive) ≫= bfDisabled = Some false.
Proof.
  destruct (Action_Clone_spec World 1%positive 1%positive st_clone
              (act_of TOPUP (Some 1%positive)) flagged_filter eq_refl eq_refl eq_refl)
    as (st' & Hrun & _ & _ & _ & Hq & _ & Hp & _).
  exists st'. split; [exact Hrun|]. split.
  - change (fresh (dom (filters st_clone))) with 2%positive in Hq. rewrite Hq. reflexivity.
  - rewrite Hp. reflexivity.
Defined.

Lemma removeBalanceAction_twice_witness :
  exists st1,
    removeBalanceAction World MatchFilter (Some 1%positive) None 1%positive [] st_remove
      = ok World st1
    /\ removeBalanceAction World MatchFilter (Some 1%positive) None 1%positive [] st1
      = fail World ErrNotFound st1.
Proof.
  apply (removeBalanceAction_twice World MatchFilter st_remove 1%positive 1%positive None []
           (acnt {[ MONETARY := [1; 2; 3]%positive ]})
           (act_of REMOVE_BALANCE (Some 1%positive)) (Some (filter_id (Some "b1")))
           [1; 2; 3]%positive eq_refl eq_refl eq_refl eq_refl).
  - repeat constructor; vm_compute; eauto.
  - vm_compute. reflexivity.
Defined.

Lemma Actions_Sort_idempotent_small_witness :
  exists apl',
    Actions_Sort World go_1_19 apl_sort st_sort = Return apl'
    /\ Actions_Sort World go_1_19 apl' st_sort = Return apl'.
Proof.
  destruct (Actions_Sort_idempotent_small World go_1_19 apl_sort st_sort)
    as (apl' & Hrun & Hagain & _).
  - unfold apl_sort. comparable_ptrs.
  - vm_compute. lia.
  - exists apl'. split; assumption.
Defined.

(** The account is indexed under two action plans, of which the second
    is not in the store. *)
Definition st_half : State World :=
  mkState {[ 1%positive := acnt ∅ ]} ∅ {[ 1%positive := act_of REMOVE_ACCOUNT None ]} ∅ []
    (mkWorld {[ "cgrates.org:1001"%string ]}
       {[ "cgrates.org:1001"%string := ["AP1"; "AP2"]%string ]}
       {[ "AP1"%string := mkActionPlan "AP1" {[ "cgrates.org:1001"%string ]} ]}
       ∅ []).

Lemma removeAccountAction_partial_failure_witness :
  exists w2,
    removeAccountAction World dm json_Unmarshal_accountInfo AccountKey
      (Some 1%positive) None 1%positive [] st_half
    = Return (Some ErrNotFound, set_world World st_half w2)
    /\ db_acntAPs w2 !! "cgrates.org:1001"%string = Some ["AP1"; "AP2"]%string.
Proof.
  eexists. split.
  - eapply (removeAccountAction_partial_failure World dm json_Unmarshal_accountInfo
              AccountKey (Some 1%positive) None 1%positive [] st_half
              "cgrates.org:1001" ["AP1"%string] [] "AP2" None ErrNotFound).
    + reflexivity.
    + discriminate.
    + reflexivity.
    + reflexivity.
    + reflexivity.
    + reflexivity.
  - reflexivity.
Defined.
End Examples.

(** * NavigableMap (engine/navigablemap.go)

    A map whose values can be navigated by a path of keys.  A value is
    an [interface{}]: either a [map[string]interface{}], the one dynamic
    type the navigation goes through, or a value of any other type,
    kept as its JSON text. *)

Module NavigableMap.

Local Close Scope Z_scope.

#[warnings="-register-all"]
Inductive iface : Type :=
| IMap (m : gmap string iface)
| IOther (json : string).

(** The errors of [FieldAsInterface]. *)
Inductive nm_error : Type :=
| ErrEmptyFieldPath                 (* errors.New("empty field path") *)
| ErrNotFound                       (* utils.ErrNotFound *)
| ErrNoMapAtPath (spath : string)   (* fmt.Errorf("no map at path: <%s>", spath) *)
| ErrCannotCast (json : string)     (* fmt.Errorf("cannot cast field: %s to ...") *)
| ErrEndOfFunction.                 (* errors.New("end of function") *)

(** The loop of [FieldAsInterface] over the path, [i] the index of
    [spath]; past the loop stands the error "end of function". *)
Fixpoint FieldAsInterface_loop (lenPath i : nat) (lastMp : gmap string iface)
    (fldPath : list string) : iface + nm_error :=
  match fldPath with
  | [] => inr ErrEndOfFunction
  | spath :: rest =>
      if Nat.eqb i (lenPath - 1) then (* lastElement *)
        match lastMp !! spath with
        | Some fldVal => inl fldVal
        | None => inr ErrNotFound
        end
      else
        match lastMp !! spath with
        | None => inr (ErrNoMapAtPath spath)
        | Some (IMap m) => FieldAsInterface_loop lenPath (S i) m rest
        | Some (IOther json) => inr (ErrCannotCast json)
        end
  end.

(** [FieldAsInterface] returns the field value for the path. *)
Definition FieldAsInterface (nM : gmap string iface) (fldPath : list string)
  : iface + nm_error :=
  let lenPath := length fldPath in
  if Nat.eqb lenPath 0 then inr ErrEmptyFieldPath
  else FieldAsInterface_loop lenPath 0 nM fldPath.

(** The navigation, by the structure of the path. *)
Fixpoint navigate (nM : gmap string iface) (spath : string) (rest : list string)
  : iface + nm_error :=
  match rest with
  | [] =>
      match nM !! spath with
      | Some fldVal => inl fldVal
      | None => inr ErrNotFound
      end
  | next :: rest' =>
      match nM !! spath with
      | None => inr (ErrNoMapAtPath spath)
      | Some (IMap m) => navigate m next rest'
      | Some (IOther json) => inr (ErrCannotCast json)
      end
  end.

Lemma FieldAsInterface_loop_navigate (lenPath : nat) :
  forall (rest : list string) (spath : string) (i : nat) (lastMp : gmap string iface),
    i + S (length rest) = lenPath ->
    FieldAsInterface_loop lenPath i lastMp (spath :: rest) = navigate lastMp spath rest.
Proof.
  induction rest as [|next rest IH]; intros spath i lastMp Hlen.
  - cbn [FieldAsInterface_loop navigate].
    replace (Nat.eqb i (lenPath - 1)) with true by (symmetry; apply Nat.eqb_eq; simpl in Hlen; lia).
    reflexivity.
  - cbn [FieldAsInterface_loop navigate]. cbn [length] in Hlen.
    replace (Nat.eqb i (lenPath - 1)) with false by (symmetry; apply Nat.eqb_neq; lia).
    destruct (lastMp !! spath) as [[m|json]|]; try reflexivity.
    change (FieldAsInterface_loop lenPath (S i) m (next :: rest) = navigate m next rest).
    apply IH. cbn [length]. lia.
Qed.

Lemma FieldAsInterface_navigate (nM : gmap string iface) (spath : string)
    (rest : list string) :
  FieldAsInterface nM (spath :: rest) = navigate nM spath rest.
Proof.
  unfold FieldAsInterface. cbn [length Nat.eqb].
  apply FieldAsInterface_loop_navigate. reflexivity.
Qed.

(** X19: The error "end of function" that closes [FieldAsInterface] is never
    returned: an empty path is refused before the loop, and on any other
    path the loop returns at the last element at the latest. *)
Theorem FieldAsInterface_never_end_of_function
    (nM : gmap string iface) (fldPath : list string) :
  FieldAsInterface nM fldPath <> inr ErrEndOfFunction
  /\ (FieldAsInterface nM fldPath = inr ErrEmptyFieldPath <-> fldPath = []).
Proof.
  destruct fldPath as [|spath rest].
  - split; [discriminate|]. split; reflexivity.
  - rewrite FieldAsInterface_navigate.
    assert (H : forall rest spath nM,
               navigate nM spath rest <> inr ErrEndOfFunction
               /\ navigate nM spath rest <> inr ErrEmptyFieldPath).
    { clear. induction rest as [|next rest IH]; intros spath nM; cbn [navigate].
      - destruct (nM !! spath); split; discriminate.
      - destruct (nM !! spath) as [[m|json]|]; try (split; discriminate). apply IH. }
    destruct (H rest spath nM) as [H1 H2]. split; [exact H1|].
    split; [intros E; contradiction|discriminate].
Qed.

Lemma last_any_default (l : list string) :
  forall x d1 d2 : string, List.last (x :: l) d1 = List.last (x :: l) d2.
Proof.
  induction l as [|y l IH]; intros x d1 d2; [reflexivity|].
  change (List.last (y :: l) d1 = List.last (y :: l) d2). apply IH.
Qed.

Lemma last_cons_default (l : list string) (x d : string) :
  List.last l x = List.last (x :: l) d.
Proof.
  destruct l as [|y l]; [reflexivity|].
  change (List.last (y :: l) x = List.last (y :: l) d). apply last_any_default.
Qed.

(** X20: Going down a path in two legs: the first leg must end on a map, in
    which the second leg goes on.  A first leg that ends on another
    value is a failed cast, and a key the first leg does not find is
    reported as a missing map, not as NOT_FOUND. *)
Theorem FieldAsInterface_app
    (nM : gmap string iface) (k : string) (p : list string) (k' : string)
    (q : list string) :
  FieldAsInterface nM ((k :: p) ++ k' :: q)
  = match FieldAsInterface nM (k :: p) with
    | inl (IMap m) => FieldAsInterface m (k' :: q)
    | inl (IOther json) => inr (ErrCannotCast json)
    | inr ErrNotFound => inr (ErrNoMapAtPath (List.last p k))
    | inr e => inr e
    end.
Proof.
  cbn [app]. rewrite !FieldAsInterface_navigate.
  revert nM k. induction p as [|k1 p IH]; intros nM k.
  - cbn [app navigate List.last].
    destruct (nM !! k) as [[m|json]|]; try reflexivity.
    rewrite FieldAsInterface_navigate. reflexivity.
  - cbn [app navigate].
    destruct (nM !! k) as [[m|json]|]; try reflexivity.
    rewrite (IH m k1). rewrite (last_cons_default p k1 k). reflexivity.
Qed.

End NavigableMap.
